(** * LightGBM: boosting controller, data partition, histogram pool, model
      loading and prediction -- a shallow embedding and its properties.

    Conventions used throughout.
    - [double] and [score_t] values are exact rationals ([Qc], canonical
      fractions, so that equal values are Leibniz-equal).  Rounding is not
      modelled: every statement about scores is a statement about the exact
      arithmetic the code performs.
    - [int] / [data_size_t] values that can be negative or can overflow are
      integers [Z]; sizes and array positions are [nat].
    - A call that terminates through [Log::Fatal] returns [Fatal]; a call
      whose behaviour the language leaves undefined (out-of-bounds access,
      signed overflow, division by zero) returns [Undefined]. *)

From Stdlib Require Import ZArith QArith Qcanon Lia String Ascii Sorted.
From stdpp Require Import base tactics option list numbers strings.

Set Default Proof Using "Type".
Local Open Scope Z_scope.

(** ** Results of fallible calls *)

Inductive result (A : Type) : Type :=
| Ok (a : A)
| Fatal (msg : string)
| Undefined.
Arguments Ok {A} a.
Arguments Fatal {A} msg.
Arguments Undefined {A}.

#[global] Instance result_ret : MRet result := fun A a => Ok a.
#[global] Instance result_bind : MBind result := fun A B f r =>
  match r with
  | Ok a => f a
  | Fatal m => Fatal m
  | Undefined => Undefined
  end.

Definition is_Ok {A} (r : result A) : Prop :=
  match r with Ok _ => True | _ => False end.

Definition is_Fatal {A} (r : result A) : Prop :=
  match r with Fatal _ => True | _ => False end.

Definition double := Qc.
Definition score_t := Qc.

Definition INT_MAX : Z := 2147483647.
Definition INT_MIN : Z := -2147483648.

Definition in_int (z : Z) : bool := (INT_MIN <=? z) && (z <=? INT_MAX).

(** Signed [int] arithmetic: a result outside the range is undefined. *)
Definition int_op (z : Z) : result Z :=
  if in_int z then Ok z else Undefined.

(** Reading [a[i]] for an [int] index. *)
Definition read {A} (a : list A) (i : Z) : result A :=
  if 0 <=? i then
    match a !! Z.to_nat i with
    | Some x => Ok x
    | None => Undefined
    end
  else Undefined.

(** Writing [a[i] = v] for an [int] index. *)
Definition write {A} (a : list A) (i : Z) (v : A) : result (list A) :=
  if (0 <=? i) && (i <? Z.of_nat (length a)) then Ok (<[Z.to_nat i := v]> a)
  else Undefined.

(** ** Common (utils/common.h) *)

(** A [std::string] is the list of its characters. *)
Abbreviation str := (list ascii).
Notation "s# x" := (list_ascii_of_string x) (at level 1, format "s# x").

(** [s.c_str()] read as a C string: the characters before the first NUL. *)
Fixpoint c_str (s : str) : str :=
  match s with
  | c :: s' => if decide (c = zero) then [] else c :: c_str s'
  | [] => []
  end.

Definition newline : ascii := ascii_of_nat 10.

Module Common.

Definition is_trim_space (c : ascii) : bool :=
  bool_decide (c ∈ s#" " ++ [ascii_of_nat 12; ascii_of_nat 10; ascii_of_nat 13;
                              ascii_of_nat 9; ascii_of_nat 11]).

Fixpoint erase_leading (s : str) : str :=
  match s with
  | c :: s' => if is_trim_space c then erase_leading s' else s
  | [] => []
  end.

(** [Trim]: erase after the last, then before the first, character that is
    not white space. *)
Definition Trim (s : str) : str :=
  erase_leading (reverse (erase_leading (reverse s))).

(** [Split(c_str, delimiter)] *)
Fixpoint Split (s : str) (delimiter : ascii) : list str :=
  match s with
  | [] => [[]]
  | c :: s' =>
      if decide (c = delimiter) then [] :: Split s' delimiter
      else match Split s' delimiter with
           | w :: ws => (c :: w) :: ws
           | [] => [[c]]
           end
  end.

Fixpoint is_prefix (key s : str) : bool :=
  match key, s with
  | [], _ => true
  | k :: key', c :: s' => bool_decide (k = c) && is_prefix key' s'
  | _ :: _, [] => false
  end.

(** [s.find(key)]: the first position at which [key] occurs, [None] for
    [std::string::npos]. *)
Fixpoint find (s key : str) : option nat :=
  if is_prefix key s then Some 0%nat
  else match s with
       | [] => None
       | _ :: s' => S <$> find s' key
       end.

(** [Join(strs, start, end, delimiter)] *)
Definition Join (strs : list str) (start end_ : nat) (delimiter : ascii) : str :=
  if decide (end_ = start) then []
  else
    let start := Nat.min start (length strs - 1) in
    let end_ := Nat.min end_ (length strs) in
    default [] (strs !! start) ++
    concat (map (fun s => delimiter :: s) (take (end_ - (start + 1)) (drop (start + 1) strs))).

Definition is_digit (c : ascii) : bool :=
  (48 <=? nat_of_ascii c)%nat && (nat_of_ascii c <=? 57)%nat.

Definition digit_val (c : ascii) : Z := Z.of_nat (nat_of_ascii c) - 48.

Fixpoint skip_spaces (p : str) : str :=
  match p with
  | c :: p' => if decide (c = " "%char) then skip_spaces p' else p
  | [] => []
  end.

(** [sign] and the rest, for an optional leading ['-'] or ['+']. *)
Definition read_sign (p : str) : Z * str :=
  match p with
  | c :: p' =>
      if decide (c = "-"%char) then (-1, p')
      else if decide (c = "+"%char) then (1, p')
      else (1, p)
  | [] => (1, [])
  end.

(** The digit loop of [Atoi], [value = value * 10 + digit] on an [int]. *)
Fixpoint read_int_digits (value : Z) (p : str) : result (Z * str) :=
  match p with
  | c :: p' =>
      if is_digit c then
        v10 ← int_op (value * 10);
        v ← int_op (v10 + digit_val c);
        read_int_digits v p'
      else Ok (value, p)
  | [] => Ok (value, [])
  end.

(** [Atoi(p, out)]: the value stored in [*out] and the rest of the string. *)
Definition Atoi (p : str) : result (Z * str) :=
  let '(sign, p) := read_sign (skip_spaces p) in
  '(value, p) ← read_int_digits 0 p;
  Ok (sign * value, skip_spaces p).

Fixpoint read_double_digits (value : double) (p : str) : double * str :=
  match p with
  | c :: p' =>
      if is_digit c
      then read_double_digits (value * Qc_of_Z 10 + Qc_of_Z (digit_val c))%Qc p'
      else (value, p)
  | [] => (value, [])
  end.

Fixpoint read_fraction (value pow10 : double) (p : str) : double * str :=
  match p with
  | c :: p' =>
      if is_digit c
      then read_fraction (value + Qc_of_Z (digit_val c) / pow10)%Qc
                         (pow10 * Qc_of_Z 10)%Qc p'
      else (value, p)
  | [] => (value, [])
  end.

(** The exponent is an [unsigned int]: it wraps modulo 2^32. *)
Fixpoint read_expon (expon : Z) (p : str) : Z * str :=
  match p with
  | c :: p' =>
      if is_digit c
      then read_expon ((expon * 10 + digit_val c) mod 2 ^ 32) p'
      else (expon, p)
  | [] => (expon, [])
  end.

Definition is_token_end (c : ascii) : bool :=
  bool_decide (c ∈ s#" ,:" ++ [ascii_of_nat 9; ascii_of_nat 10; ascii_of_nat 13]).

Fixpoint read_token (p : str) : str * str :=
  match p with
  | c :: p' =>
      if is_token_end c then ([], p)
      else let '(tok, rest) := read_token p' in (c :: tok, rest)
  | [] => ([], [])
  end.

Definition tolower (c : ascii) : ascii :=
  let n := nat_of_ascii c in
  if (65 <=? n)%nat && (n <=? 90)%nat then ascii_of_nat (n + 32) else c.

(** [Atof(p, out)]: the value stored in [*out] and the rest of the string;
    [Fatal] on a token that is neither a number nor na/nan/inf/infinity. *)
Definition Atof (p : str) : result (double * str) :=
  let '(sign, p) := read_sign (skip_spaces p) in
  match p with
  | c :: _ =>
      if is_digit c || bool_decide (c ∈ s#".eE") then
        let '(value, p) := read_double_digits 0%Qc p in
        let '(value, p) :=
          match p with
          | d :: p' =>
              if decide (d = "."%char) then read_fraction value (Qc_of_Z 10) p'
              else (value, p)
          | [] => (value, p)
          end in
        let '(frac, expon, p) :=
          match p with
          | e :: p' =>
              if bool_decide (e ∈ s#"eE") then
                let '(frac, p') :=
                  match p' with
                  | s :: p'' =>
                      if decide (s = "-"%char) then (true, p'')
                      else if decide (s = "+"%char) then (false, p'')
                      else (false, p')
                  | [] => (false, p')
                  end in
                let '(expon, p') := read_expon 0 p' in
                (frac, (if 308 <? expon then 308 else expon), p')
              else (false, 0, p)
          | [] => (false, 0, p)
          end in
        let scale := Qc_of_Z (10 ^ expon) in
        Ok ((Qc_of_Z sign * (if frac : bool then value / scale else value * scale))%Qc,
            skip_spaces p)
      else
        let '(tok, rest) := read_token p in
        match tok with
        | [] => Ok (0%Qc, skip_spaces p)
        | _ =>
            let tmp_str := map tolower tok in
            if bool_decide (tmp_str = s#"na") || bool_decide (tmp_str = s#"nan")
            then Ok (0%Qc, skip_spaces rest)
            else if bool_decide (tmp_str = s#"inf")
                    || bool_decide (tmp_str = s#"infinity")
            then Ok ((Qc_of_Z sign * Qc_of_Z (10 ^ 308))%Qc, skip_spaces rest)
            else Fatal "Unknown token in data file"
        end
  | [] => Ok (0%Qc, [])
  end.

(** [Join(strs, delimiter)] on strings: [ss << strs[i]] appends them. *)
Definition JoinAll (strs : list str) (delimiter : ascii) : str :=
  match strs with
  | [] => []
  | s :: rest => s ++ concat (map (fun w => delimiter :: w) rest)
  end.

Definition INT64_MAX : Z := 9223372036854775807.

(** The loop of [Pow2RoundUp] with [n] rounds left.  [t <<= 1] on an
    [int64_t]: a result that the type cannot hold is undefined. *)
Fixpoint Pow2RoundUp_loop (n : nat) (t x : Z) : result Z :=
  match n with
  | O => Ok 0
  | S n' =>
      if x <=? t then Ok t
      else if Z.shiftl t 1 <=? INT64_MAX then Pow2RoundUp_loop n' (Z.shiftl t 1) x
      else Undefined
  end.

Definition Pow2RoundUp (x : Z) : result Z := Pow2RoundUp_loop 64 1 x.

(** [std::max(a, b)]: [(a < b) ? b : a]. *)
Definition std_max (a b : double) : double :=
  if decide (a < b)%Qc then b else a.

Section Softmax.
Variable std_exp : double -> double.

(** The second loop of [Softmax]:
    [rec[i] = std::exp(rec[i] - wmax); wsum += rec[i];] *)
Fixpoint exp_sum (wmax : double) (rec : list double) (wsum : double)
    : list double * double :=
  match rec with
  | [] => ([], wsum)
  | r :: rec' =>
      let e := std_exp (r - wmax)%Qc in
      let '(out, s) := exp_sum wmax rec' (wsum + e)%Qc in
      (e :: out, s)
  end.

(** [Softmax(p_rec)]: the vector afterwards; reading [rec[0]] of an empty
    vector is undefined. *)
Definition Softmax (rec : list double) : result (list double) :=
  match rec with
  | [] => Undefined
  | r0 :: rest =>
      let wmax := foldl (fun wmax r => std_max r wmax) r0 rest in
      let '(rec1, wsum) := exp_sum wmax rec 0%Qc in
      Ok (map (fun r => (r / wsum)%Qc) rec1)
  end.

End Softmax.

End Common.
(** ** Predictor (src/application/predictor.hpp) *)

Module Predictor.

Record t := {
  num_features_ : Z;
  num_threads_ : nat;
  (* one scratch buffer per thread, each [new double[num_features_]] *)
  features_ : list (list double);
}.

(** The loop body of [PutFeatureValuesToBuffer]:
    [if (p.first < num_features_) features_[tid][p.first] = p.second;] *)
Definition put_one (num_features : Z) (buf : list double)
    (p : Z * double) : result (list double) :=
  if p.1 <? num_features then write buf p.1 p.2 else Ok buf.

Fixpoint put_all (num_features : Z) (buf : list double)
    (features : list (Z * double)) : result (list double) :=
  match features with
  | [] => Ok buf
  | p :: ps => buf' ← put_one num_features buf p; put_all num_features buf' ps
  end.

(** [std::memset(features_[tid], 0, sizeof(double)*num_features_)] *)
Definition zeroed (buf : list double) : list double :=
  replicate (length buf) 0%Qc.

(** [PutFeatureValuesToBuffer]; [tid] is [omp_get_thread_num()]. *)
Definition PutFeatureValuesToBuffer (p : t) (tid : nat)
    (features : list (Z * double)) : result (nat * t) :=
  match features_ p !! tid with
  | None => Undefined
  | Some buf =>
      buf' ← put_all (num_features_ p) (zeroed buf) features;
      Ok (tid, {| num_features_ := num_features_ p;
                  num_threads_ := num_threads_ p;
                  features_ := <[tid := buf']> (features_ p) |})
  end.

(** The value the last pair with index [j] carries, if any. *)
Fixpoint last_value (features : list (Z * double)) (j : Z) : option double :=
  match features with
  | [] => None
  | p :: ps =>
      match last_value ps j with
      | Some v => Some v
      | None => if Z.eqb p.1 j then Some p.2 else None
      end
  end.

(** The predictor as its constructor leaves it: every thread owns a
    buffer of [num_features_] doubles. *)
Definition wf (p : t) : Prop :=
  0 <= num_features_ p /\
  length (features_ p) = num_threads_ p /\
  Forall (fun b => Z.of_nat (length b) = num_features_ p) (features_ p).

End Predictor.

(** ** LRUPool (utils/lru_pool.h) *)

Module LRUPool.

(** Modelled from the spec: [ArrayArgs<int>::ArgMin] (utils/array_args.h is
    not among the sources).  The pool "evicts the LRU slot": the position
    of the least of the first [n] entries, the first one among equals. *)
Definition ArgMin (a : list Z) (n : nat) : nat :=
  foldl (fun best i =>
           match a !! i, a !! best with
           | Some x, Some y => if x <? y then i else best
           | _, _ => best
           end) 0%nat (seq 1 (n - 1)).

Section Pool.
Context {T : Type}.

Record t := {
  pool_ : list T;
  cache_size_ : Z;
  total_size_ : Z;
  is_enough_ : bool;
  mapper_ : list Z;
  inverse_mapper_ : list Z;
  last_used_time_ : list Z;
  cur_time_ : Z;
}.

(** [ResetSize(cache_size, total_size)]; [dflt] is the default-constructed
    [T] that [new T[cache_size_]] fills the pool with.  [CHECK] terminates
    through [Log::Fatal] when its condition is false. *)
Definition ResetSize (dflt : T) (cache_size total_size : Z) (p : t) : result t :=
  if negb (2 <=? cache_size) then Fatal "Check failed: cache_size_ >= 2"
  else
    let cache := if total_size <? cache_size then total_size else cache_size in
    let enough := cache =? total_size in
    if cache <? 0 then Undefined
    else if enough then
      Ok {| pool_ := replicate (Z.to_nat cache) dflt;
            cache_size_ := cache; total_size_ := total_size;
            is_enough_ := true;
            mapper_ := []; inverse_mapper_ := []; last_used_time_ := [];
            cur_time_ := cur_time_ p |}
    else
      (* ResetMap *)
      Ok {| pool_ := replicate (Z.to_nat cache) dflt;
            cache_size_ := cache; total_size_ := total_size;
            is_enough_ := false;
            mapper_ := replicate (Z.to_nat total_size) (-1);
            inverse_mapper_ := replicate (Z.to_nat cache) (-1);
            last_used_time_ := replicate (Z.to_nat cache) 0;
            cur_time_ := 0 |}.

(** [Get(idx, out)]: the returned flag, the object stored in [*out], and
    the pool afterwards. *)
Definition Get (idx : Z) (p : t) : result (bool * T * t) :=
  if is_enough_ p then
    out ← read (pool_ p) idx;
    Ok (true, out, p)
  else
    m ← read (mapper_ p) idx;
    if 0 <=? m then
      let slot := m in
      out ← read (pool_ p) slot;
      now ← int_op (cur_time_ p + 1);
      lut ← write (last_used_time_ p) slot now;
      Ok (true, out,
          {| pool_ := pool_ p; cache_size_ := cache_size_ p;
             total_size_ := total_size_ p; is_enough_ := is_enough_ p;
             mapper_ := mapper_ p; inverse_mapper_ := inverse_mapper_ p;
             last_used_time_ := lut; cur_time_ := now |})
    else
      (* choose the least used slot *)
      let slot := Z.of_nat (ArgMin (last_used_time_ p) (Z.to_nat (cache_size_ p))) in
      out ← read (pool_ p) slot;
      now ← int_op (cur_time_ p + 1);
      lut ← write (last_used_time_ p) slot now;
      (* reset previous mapper *)
      prev ← read (inverse_mapper_ p) slot;
      mapper1 ← (if 0 <=? prev then write (mapper_ p) prev (-1)
                 else Ok (mapper_ p));
      (* update current mapper *)
      mapper2 ← write mapper1 idx slot;
      inv ← write (inverse_mapper_ p) slot idx;
      Ok (false, out,
          {| pool_ := pool_ p; cache_size_ := cache_size_ p;
             total_size_ := total_size_ p; is_enough_ := is_enough_ p;
             mapper_ := mapper2; inverse_mapper_ := inv;
             last_used_time_ := lut; cur_time_ := now |}).

(** [Move(src_idx, dst_idx)] *)
Definition Move (src_idx dst_idx : Z) (p : t) : result t :=
  if is_enough_ p then
    (* std::swap(pool_[src_idx], pool_[dst_idx]) *)
    a ← read (pool_ p) src_idx;
    b ← read (pool_ p) dst_idx;
    pool1 ← write (pool_ p) src_idx b;
    pool2 ← write pool1 dst_idx a;
    Ok {| pool_ := pool2; cache_size_ := cache_size_ p;
          total_size_ := total_size_ p; is_enough_ := is_enough_ p;
          mapper_ := mapper_ p; inverse_mapper_ := inverse_mapper_ p;
          last_used_time_ := last_used_time_ p; cur_time_ := cur_time_ p |}
  else
    m ← read (mapper_ p) src_idx;
    if m <? 0 then Ok p
    else
      (* get slot of src idx *)
      let slot := m in
      (* reset src_idx *)
      mapper1 ← write (mapper_ p) src_idx (-1);
      (* move to dst idx *)
      mapper2 ← write mapper1 dst_idx slot;
      now ← int_op (cur_time_ p + 1);
      lut ← write (last_used_time_ p) slot now;
      inv ← write (inverse_mapper_ p) slot dst_idx;
      Ok {| pool_ := pool_ p; cache_size_ := cache_size_ p;
            total_size_ := total_size_ p; is_enough_ := is_enough_ p;
            mapper_ := mapper2; inverse_mapper_ := inv;
            last_used_time_ := lut; cur_time_ := now |}.

(** The mapping tables of a pool that does not hold every index: the two
    tables are inverse to each other and no slot was used after
    [cur_time_]. *)
Record wf (p : t) : Prop := {
  wf_not_enough : is_enough_ p = false;
  wf_cache : 2 <= cache_size_ p < total_size_ p;
  wf_pool : Z.of_nat (length (pool_ p)) = cache_size_ p;
  wf_mapper_len : Z.of_nat (length (mapper_ p)) = total_size_ p;
  wf_inverse_len : Z.of_nat (length (inverse_mapper_ p)) = cache_size_ p;
  wf_time_len : Z.of_nat (length (last_used_time_ p)) = cache_size_ p;
  wf_mapper : forall i s, mapper_ p !! i = Some s ->
    s = -1 \/ (0 <= s /\ inverse_mapper_ p !! Z.to_nat s = Some (Z.of_nat i));
  wf_inverse : forall s i, inverse_mapper_ p !! s = Some i ->
    i = -1 \/ (0 <= i /\ mapper_ p !! Z.to_nat i = Some (Z.of_nat s));
  wf_time : forall s u, last_used_time_ p !! s = Some u -> 0 <= u <= cur_time_ p;
}.

(** [idx] is currently mapped to a slot. *)
Definition mapped (p : t) (idx : Z) : Prop :=
  exists s, read (mapper_ p) idx = Ok s /\ 0 <= s.

End Pool.
Arguments t : clear implicits.

End LRUPool.
(** ** Metadata (src/io/metadata.cpp) and Dataset::SetIntField
       (src/io/dataset.cpp) *)

Module Metadata.

Record t := {
  num_data_ : Z;
  num_class_ : Z;
  weights_ : list double;
  query_boundaries_ : list Z;
  num_queries_ : Z;
  query_weights_ : list double;
}.

Definition set_queries (m : t) (qb : list Z) (nq : Z) (qw : list double) : t :=
  {| num_data_ := num_data_ m; num_class_ := num_class_ m;
     weights_ := weights_ m;
     query_boundaries_ := qb; num_queries_ := nq; query_weights_ := qw |}.

(** [for (j = lo; j < hi; ++j) acc += weights_[j]] *)
Fixpoint sum_weights (w : list double) (lo : Z) (n : nat) (acc : double)
    : result double :=
  match n with
  | O => Ok acc
  | S n' => x ← read w lo; sum_weights w (lo + 1) n' (acc + x)%Qc
  end.

(** The loop of [LoadQueryWeights] from query [i] on. *)
Fixpoint query_weights_from (w : list double) (qb : list Z) (i : Z) (n : nat)
    : result (list double) :=
  match n with
  | O => Ok []
  | S n' =>
      lo ← read qb i;
      hi ← read qb (i + 1);
      s ← sum_weights w lo (Z.to_nat (hi - lo)) 0%Qc;
      rest ← query_weights_from w qb (i + 1) n';
      Ok ((s / Qc_of_Z (hi - lo))%Qc :: rest)
  end.

Definition LoadQueryWeights (m : t) : result t :=
  if bool_decide (length (weights_ m) = 0%nat)
     || bool_decide (length (query_boundaries_ m) = 0%nat)
  then Ok m
  else
    qw ← query_weights_from (weights_ m) (query_boundaries_ m) 0
            (Z.to_nat (num_queries_ m));
    Ok (set_queries m (query_boundaries_ m) (num_queries_ m) qw).

(** [for (i = 0; i < len; ++i) sum += query_boundaries[i]] on an [int]. *)
Fixpoint sum_counts (a : list Z) (i : Z) (n : nat) (sum : Z) : result Z :=
  match n with
  | O => Ok sum
  | S n' => x ← read a i; s ← int_op (sum + x); sum_counts a (i + 1) n' s
  end.

(** [for (i = 0; i < num_queries_; ++i) query_boundaries_[i] = query_boundaries[i]] *)
Fixpoint copy_counts (a : list Z) (i : Z) (n : nat) : result (list Z) :=
  match n with
  | O => Ok []
  | S n' => x ← read a i; rest ← copy_counts a (i + 1) n'; Ok (x :: rest)
  end.

(** [SetQueryBoundaries(query_boundaries, len)]; [None] is [nullptr]. *)
Definition SetQueryBoundaries (query_boundaries : option (list Z)) (len : Z)
    (m : t) : result t :=
  match query_boundaries with
  | None => Ok (set_queries m [] 0 (query_weights_ m))
  | Some a =>
      if len =? 0 then Ok (set_queries m [] 0 (query_weights_ m))
      else
        sum ← sum_counts a 0 (Z.to_nat len) 0;
        if negb (num_data_ m =? sum)
        then Fatal "sum of query counts is not same with #data"
        else if len <? 0 then Undefined
        else
          qb ← copy_counts a 0 (Z.to_nat len);
          LoadQueryWeights (set_queries m qb len (query_weights_ m))
  end.

Definition sum_list (a : list Z) : Z := foldr Z.add 0 a.

(** The Dataset invariant on query boundaries: [num_queries_ + 1] entries
    that start at 0, increase strictly and end at [num_data_]. *)
Definition qb_strictly_increasing (qb : list Z) : Prop :=
  forall i x y, qb !! i = Some x -> qb !! S i = Some y -> x < y.

Record qb_invariant (m : t) : Prop := {
  qb_len : Z.of_nat (length (query_boundaries_ m)) = num_queries_ m + 1;
  qb_first : query_boundaries_ m !! 0%nat = Some 0;
  qb_incr : qb_strictly_increasing (query_boundaries_ m);
  qb_last : last (query_boundaries_ m) = Some (num_data_ m);
}.

(** The copy loop of [SetQueryId]: [queries_[i] = query_id[i]], [n] rounds
    from position [i] on. *)
Fixpoint copy_ids (query_id : list Z) (i : Z) (n : nat) (queries : list Z)
    : result (list Z) :=
  match n with
  | O => Ok queries
  | S n' =>
      x ← read query_id i;
      queries' ← write queries i x;
      copy_ids query_id (i + 1) n' queries'
  end.

(** The loop of [SetQueryId] that turns query ids into counts: the content
    of [tmp_buffer] after the final [push_back]. *)
Fixpoint run_lengths (queries : list Z) (last_qid cur_cnt : Z)
    (tmp_buffer : list Z) : result (list Z) :=
  match queries with
  | [] => Ok (tmp_buffer ++ [cur_cnt])
  | q :: queries' =>
      let '(tmp_buffer, cur_cnt, last_qid) :=
        if negb (last_qid =? q) then
          ((if 0 <? cur_cnt then tmp_buffer ++ [cur_cnt] else tmp_buffer), 0, q)
        else (tmp_buffer, cur_cnt, last_qid) in
      cur_cnt ← int_op (cur_cnt + 1);
      run_lengths queries' last_qid cur_cnt tmp_buffer
  end.

(** [query_boundaries_[i + 1] = query_boundaries_[i] + tmp_buffer[i]]: the
    entries after [prev]. *)
Fixpoint boundaries_from (prev : Z) (tmp_buffer : list Z) : result (list Z) :=
  match tmp_buffer with
  | [] => Ok []
  | c :: tmp_buffer' =>
      b ← int_op (prev + c);
      rest ← boundaries_from b tmp_buffer';
      Ok (b :: rest)
  end.

(** [SetQueryId(query_id, len)]; [None] is [nullptr].  [num_weights] is the
    member [num_weights_], the bound of the copy loop.  A negative size
    handed to a vector constructor is left undefined. *)
Definition SetQueryId (query_id : option (list Z)) (len : Z) (num_weights : Z)
    (m : t) : result t :=
  match query_id with
  | None => Ok (set_queries m [] 0 (query_weights_ m))
  | Some a =>
      if len =? 0 then Ok (set_queries m [] 0 (query_weights_ m))
      else if negb (num_data_ m =? len)
      then Fatal "len of query id is not same with #data"
      else if num_data_ m <? 0 then Undefined
      else
        queries ← copy_ids a 0 (Z.to_nat num_weights)
                     (replicate (Z.to_nat (num_data_ m)) 0);
        (* need convert query_id to boundaries *)
        tmp_buffer ← run_lengths queries (-1) 0 [];
        qb ← boundaries_from 0 tmp_buffer;
        LoadQueryWeights
          (set_queries m (0 :: qb) (Z.of_nat (length tmp_buffer))
             (query_weights_ m))
  end.

End Metadata.

Module Dataset.

(** The dataset as the boosting controller reads it: the rows (the feature
    values of each row, in place of the binned columns) and the metadata. *)
Record t := {
  num_data_ : nat;
  rows_ : list (list double);
  metadata_ : Metadata.t;
}.

Definition row (d : t) (i : nat) : list double := default [] (rows_ d !! i).

(** [metadata().query_boundaries()]: [None] ([nullptr]) when there are no
    queries. *)
Definition query_boundaries (d : t) : option (list nat) :=
  match Metadata.query_boundaries_ (metadata_ d) with
  | [] => None
  | qb => Some (map Z.to_nat qb)
  end.

Definition num_queries (d : t) : nat :=
  Z.to_nat (Metadata.num_queries_ (metadata_ d)).

(** [SetIntField(field_name, field_data, num_element)]: the returned flag
    and the dataset afterwards. *)
Definition SetIntField (field_name : str) (field_data : option (list Z))
    (num_element : Z) (d : t) : result (bool * t) :=
  let name := Common.Trim field_name in
  if bool_decide (name = s#"query") || bool_decide (name = s#"group") then
    m ← Metadata.SetQueryBoundaries field_data num_element (metadata_ d);
    Ok (true, {| num_data_ := num_data_ d; rows_ := rows_ d; metadata_ := m |})
  else Ok (false, d).

End Dataset.
(** ** DataPartition (treelearner/data_partition.hpp) *)

(** Reading and writing an array at a position that is a size. *)
Definition readn {A} (a : list A) (i : nat) : result A :=
  match a !! i with Some x => Ok x | None => Undefined end.

Definition writen {A} (a : list A) (i : nat) (v : A) : result (list A) :=
  if decide (i < length a)%nat then Ok (<[i := v]> a) else Undefined.

(** [std::memcpy(dst + pos, src, |src| * sizeof(data_size_t))] *)
Definition memcpy (dst : list nat) (pos : nat) (src : list nat)
    : result (list nat) :=
  if decide (pos + length src <= length dst)%nat
  then Ok (take pos dst ++ src ++ drop (pos + length src) dst)
  else Undefined.

(** Modelled from the spec: [Bin::Split] (bin.h and the bin implementations
    are not among the sources).  "[split] returns the count of left rows.
    Policy: a row goes left iff [bin <= threshold_bin]"; nothing is promised
    about the order of the rows inside each side.  [BinSplit b threshold rows]
    is the content written to the left and to the right output buffer. *)
Class Bin (B : Type) := {
  BinSplit : B -> nat -> list nat -> list nat * list nat;
  BinSplit_perm : forall b threshold rows,
    (BinSplit b threshold rows).1 ++ (BinSplit b threshold rows).2 ≡ₚ rows;
}.

(** Modelled from the spec: the dense encoding, "one unsigned integer per
    row", split in row order. *)
Definition DenseBin := list nat.

Definition DenseBin_Split (b : DenseBin) (threshold : nat) (rows : list nat)
    : list nat * list nat :=
  (filter (fun r => default 0 (b !! r) <= threshold)%nat rows,
   filter (fun r => ~ (default 0 (b !! r) <= threshold)%nat) rows).

#[global] Program Instance DenseBin_Bin : Bin DenseBin :=
  {| BinSplit := DenseBin_Split |}.
Next Obligation.
  intros b threshold rows. unfold DenseBin_Split. simpl.
  induction rows as [|r rows IH]; [done|].
  rewrite !filter_cons. destruct (decide (default 0 (b !! r) <= threshold)%nat).
  - rewrite decide_False by tauto. simpl. by f_equiv.
  - rewrite decide_True by done. by rewrite <- Permutation_middle, IH.
Qed.

Module DataPartition.

Record t := {
  num_data_ : nat;
  num_leaves_ : nat;
  leaf_begin_ : list nat;
  leaf_count_ : list nat;
  indices_ : list nat;
  (* [None] is [nullptr]; otherwise the bagged row ids *)
  used_data_indices_ : option (list nat);
  used_data_count_ : nat;
  num_threads_ : nat;
}.

(** The constructor: vectors of zeros, no bagging data. *)
Definition create (num_data num_leafs num_threads : nat) : t :=
  {| num_data_ := num_data; num_leaves_ := num_leafs;
     leaf_begin_ := replicate num_leafs 0%nat;
     leaf_count_ := replicate num_leafs 0%nat;
     indices_ := replicate num_data 0%nat;
     used_data_indices_ := None; used_data_count_ := 0;
     num_threads_ := num_threads |}.

Definition with_leaves (dp : t) (lb lc ind : list nat) : t :=
  {| num_data_ := num_data_ dp; num_leaves_ := num_leaves_ dp;
     leaf_begin_ := lb; leaf_count_ := lc; indices_ := ind;
     used_data_indices_ := used_data_indices_ dp;
     used_data_count_ := used_data_count_ dp;
     num_threads_ := num_threads_ dp |}.

(** [Init]: every row on leaf 0. *)
Definition Init (dp : t) : result t :=
  let lc := replicate (num_leaves_ dp) 0%nat in
  lb ← writen (leaf_begin_ dp) 0 0%nat;
  match used_data_indices_ dp with
  | None =>
      lc ← writen lc 0 (num_data_ dp);
      Ok (with_leaves dp lb lc (seq 0 (num_data_ dp)))
  | Some used =>
      lc ← writen lc 0 (used_data_count_ dp);
      if decide (used_data_count_ dp <= length used)%nat then
        ind ← memcpy (indices_ dp) 0 (take (used_data_count_ dp) used);
        Ok (with_leaves dp lb lc ind)
      else Undefined
  end.

(** [GetIndexOnLeaf]: the rows of one leaf. *)
Definition GetIndexOnLeaf (dp : t) (leaf : nat) : list nat :=
  take (default 0%nat (leaf_count_ dp !! leaf))
       (drop (default 0%nat (leaf_begin_ dp !! leaf)) (indices_ dp)).

Section Split.
Context {B : Type} `{Bin B}.

Definition inner_size (cnt num_threads : nat) : nat :=
  let s := ((cnt + num_threads - 1) / num_threads)%nat in
  if (s <? 1000)%nat then 1000%nat else s.

(** The first parallel loop, thread [i]: what it leaves in
    [temp_left_indices_ + cur_start] and [temp_right_indices_ + cur_start];
    their lengths are [left_cnts_buf_[i]] and [right_cnts_buf_[i]]. *)
Definition thread_split (feature_bins : B) (threshold : nat)
    (indices : list nat) (begin cnt inner : nat) (i : nat)
    : list nat * list nat :=
  let cur_start := (i * inner)%nat in
  if decide (cnt < cur_start)%nat then ([], [])
  else
    let cur_cnt := if decide (cnt < cur_start + inner)%nat
                   then (cnt - cur_start)%nat else inner in
    BinSplit feature_bins threshold
          (take cur_cnt (drop (begin + cur_start) indices)).

(** [left_write_pos_buf_] / [right_write_pos_buf_]: running sums of the
    counts, starting at [acc]. *)
Fixpoint write_pos (acc : nat) (cnts : list nat) : list nat :=
  match cnts with
  | [] => []
  | c :: cs => acc :: write_pos (acc + c) cs
  end.

(** The second parallel loop: copy each thread's rows back. *)
Fixpoint copy_back (begin left_cnt : nat) (lwp rwp : list nat)
    (res : list (list nat * list nat)) (indices : list nat)
    : result (list nat) :=
  match lwp, rwp, res with
  | lp :: lwp', rp :: rwp', (l, r) :: res' =>
      ind1 ← (if decide (0 < length l)%nat
              then memcpy indices (begin + lp) l else Ok indices);
      ind2 ← (if decide (0 < length r)%nat
              then memcpy ind1 (begin + left_cnt + rp) r else Ok ind1);
      copy_back begin left_cnt lwp' rwp' res' ind2
  | _, _, _ => Ok indices
  end.

(** [Split(leaf, feature_bins, threshold, right_leaf)] *)
Definition Split (leaf : nat) (feature_bins : B) (threshold : nat)
    (right_leaf : nat) (dp : t) : result t :=
  begin ← readn (leaf_begin_ dp) leaf;
  cnt ← readn (leaf_count_ dp) leaf;
  let T := num_threads_ dp in
  if decide (T = 0)%nat then Undefined
  else if decide (length (indices_ dp) < begin + cnt)%nat then Undefined
  else
    let inner := inner_size cnt T in
    let res := map (thread_split feature_bins threshold (indices_ dp)
                      begin cnt inner) (seq 0 T) in
    let left_cnts := map (fun lr => length lr.1) res in
    let right_cnts := map (fun lr => length lr.2) res in
    let lwp := write_pos 0 left_cnts in
    let rwp := write_pos 0 right_cnts in
    let left_cnt := (default 0 (last lwp) + default 0 (last left_cnts))%nat in
    ind ← copy_back begin left_cnt lwp rwp res (indices_ dp);
    (* update leaf boundary *)
    lc ← writen (leaf_count_ dp) leaf left_cnt;
    lb ← writen (leaf_begin_ dp) right_leaf (left_cnt + begin)%nat;
    lc ← writen lc right_leaf (cnt - left_cnt)%nat;
    Ok (with_leaves dp lb lc ind).

(** The partitions obtained from a freshly initialised one by splits whose
    right leaf holds no row. *)
Inductive reachable (N L T : nat) : t -> Prop :=
| reach_Init dp :
    Init (create N L T) = Ok dp -> reachable N L T dp
| reach_Split dp leaf feature_bins threshold right_leaf dp' :
    reachable N L T dp ->
    (leaf < L)%nat -> (right_leaf < L)%nat ->
    leaf_count_ dp !! right_leaf = Some 0%nat ->
    Split leaf feature_bins threshold right_leaf dp = Ok dp' ->
    reachable N L T dp'.

End Split.

(** Leaf [l] owns position [p] of [indices_]. *)
Definition owns (dp : t) (l p : nat) : Prop :=
  exists b c, leaf_begin_ dp !! l = Some b /\ leaf_count_ dp !! l = Some c /\
              (b <= p < b + c)%nat.

Record inv (N : nat) (dp : t) : Prop := {
  inv_threads : (0 < num_threads_ dp)%nat;
  inv_begin_len : length (leaf_begin_ dp) = num_leaves_ dp;
  inv_count_len : length (leaf_count_ dp) = num_leaves_ dp;
  inv_perm : indices_ dp ≡ₚ seq 0 N;
  inv_sum : sum_list (leaf_count_ dp) = N;
  inv_cover : forall p, (p < N)%nat -> exists l, owns dp l p;
  inv_unique : forall p l1 l2, owns dp l1 p -> owns dp l2 p -> l1 = l2;
  inv_range : forall l b c,
    leaf_begin_ dp !! l = Some b -> leaf_count_ dp !! l = Some c ->
    (b + c <= N)%nat;
}.

End DataPartition.
(** ** Tree, ScoreUpdater, Random, and the interfaces of the collaborators *)

Module Tree.

(** Modelled from the spec: [Tree] (tree.h and tree.cpp are not among the
    sources).  "A table of internal nodes [{split_feature, threshold_real,
    left, right}] and leaves [{value}]"; "[predict(row)]: start at root; at
    each internal node, compare [row[split_feature]] to [threshold_real]
    ... Return the leaf value reached"; [Shrinkage(rate)] ("scale")
    multiplies every leaf value by [rate]. *)
Inductive t : Type :=
| Leaf (value : double)
| Node (split_feature : nat) (threshold : double) (left_child right_child : t).

Fixpoint num_leaves (tr : t) : nat :=
  match tr with
  | Leaf _ => 1
  | Node _ _ l r => num_leaves l + num_leaves r
  end.

Fixpoint Predict (tr : t) (value : list double) : double :=
  match tr with
  | Leaf v => v
  | Node f thr l r =>
      if decide (default 0%Qc (value !! f) <= thr)%Qc
      then Predict l value else Predict r value
  end.

Fixpoint Shrinkage (rate : double) (tr : t) : t :=
  match tr with
  | Leaf v => Leaf (v * rate)%Qc
  | Node f thr l r => Node f thr (Shrinkage rate l) (Shrinkage rate r)
  end.

End Tree.

Module ScoreUpdater.

(** Modelled from the spec: [ScoreUpdater] (score_updater.hpp is not among
    the sources).  "Accumulates additive scores on a dataset": [score_] has
    [num_data_ * num_class] entries, class after class. *)
Record t := {
  data_ : Dataset.t;
  num_data_ : nat;
  score_ : list score_t;
}.

(** Modelled from the spec: the constructor, for a dataset without initial
    scores: all scores start at 0. *)
Definition create (data : Dataset.t) (num_class : nat) : t :=
  {| data_ := data; num_data_ := Dataset.num_data_ data;
     score_ := replicate (Dataset.num_data_ data * num_class) 0%Qc |}.

Definition with_score (su : t) (sc : list score_t) : t :=
  {| data_ := data_ su; num_data_ := num_data_ su; score_ := sc |}.

(** [score_[curr_class * num_data_ + i] += tree->Predict(row i)] for the
    rows [i] of [rows], in order. *)
Fixpoint add_rows (tree : Tree.t) (data : Dataset.t) (offset : nat)
    (rows : list nat) (sc : list score_t) : result (list score_t) :=
  match rows with
  | [] => Ok sc
  | i :: rows' =>
      s ← readn sc (offset + i);
      sc' ← writen sc (offset + i) (s + Tree.Predict tree (Dataset.row data i))%Qc;
      add_rows tree data offset rows' sc'
  end.

(** [AddScore(tree, curr_class)]: every row of the dataset. *)
Definition AddScore (tree : Tree.t) (curr_class : nat) (su : t) : result t :=
  sc ← add_rows tree (data_ su) (curr_class * num_data_ su)
          (seq 0 (num_data_ su)) (score_ su);
  Ok (with_score su sc).

(** [AddScore(tree, data_indices, data_cnt, curr_class)]: the rows
    [data_indices[0 .. data_cnt)]; reading past the array is undefined. *)
Definition AddScore_indices (tree : Tree.t) (data_indices : list nat)
    (data_cnt : nat) (curr_class : nat) (su : t) : result t :=
  if decide (length data_indices < data_cnt)%nat then Undefined
  else
    sc ← add_rows tree (data_ su) (curr_class * num_data_ su)
            (take data_cnt data_indices) (score_ su);
    Ok (with_score su sc).

End ScoreUpdater.

Module Random.

(** Modelled from the spec: [Random] (utils/random.h is not among the
    sources).  A generator is the sequence of doubles it is going to return
    and a cursor into it; [NextDouble] returns values in [0, 1). *)
Record t := {
  draws : nat -> double;
  pos : nat;
}.

(** [Random(seed)]: the sequence the seed stands for, from its start. *)
Definition create (seed : nat -> double) : t := {| draws := seed; pos := 0 |}.

Definition NextDouble (r : t) : double * t :=
  (draws r (pos r), {| draws := draws r; pos := S (pos r) |}).

(** The loop of [Sample] from position [i]: [K] of the [N - i] remaining
    values, each taken with probability (still needed) / (still left). *)
Fixpoint sample_from (N K : nat) (ids : list nat) (r : t) (ret : list nat)
    : list nat * t :=
  match ids with
  | [] => (ret, r)
  | i :: ids' =>
      let prob := (Qc_of_Z (Z.of_nat K - Z.of_nat (length ret))
                   / Qc_of_Z (Z.of_nat N - Z.of_nat i))%Qc in
      let '(x, r') := NextDouble r in
      if decide (x < prob)%Qc
      then sample_from N K ids' r' (ret ++ [i])
      else sample_from N K ids' r' ret
  end.

(** Modelled from the spec: [Sample(N, K)], which DART uses to "force one
    random tree": [K] distinct values below [N] in increasing order, none
    when [K > N]. *)
Definition Sample (N K : nat) (r : t) : list nat * t :=
  if decide (N < K)%nat then ([], r) else sample_from N K (seq 0 N) r [].

Definition wf (r : t) : Prop := forall n, (0 <= draws r n)%Qc /\ (draws r n < 1)%Qc.

End Random.

Module Metric.
(** The interface of a metric as the controller uses it. *)
Record t := {
  Eval : list score_t -> list double;
  is_bigger_better : bool;
}.
End Metric.

Module ObjectiveFunction.
(** The interface of an objective: gradients and hessians from scores. *)
Record t := {
  GetGradients : list score_t -> list score_t * list score_t;
  GetSigmoid : double;
}.
End ObjectiveFunction.

Module TreeLearner.
(** The interface of a tree learner ([TreeLearner] in the sources; the
    learners themselves are not among them).  [Train] is the learning
    algorithm: a tree from the number of trees trained so far, the
    gradients, the hessians and the rows in use.  [SetBaggingData] keeps the
    pointer to the controller's [bag_data_indices_] and the count:
    [used_data_count_] is that count, [None] before the first call. *)
Record t := {
  Train : nat -> list score_t -> list score_t -> list nat -> Tree.t;
  trained_ : nat;
  used_data_count_ : option nat;
}.

(** [CreateTreeLearner] followed by [Init(train_data)]. *)
Definition create
    (algorithm : nat -> list score_t -> list score_t -> list nat -> Tree.t) : t :=
  {| Train := algorithm; trained_ := 0; used_data_count_ := None |}.

Definition SetBaggingData (num_data : nat) (l : t) : t :=
  {| Train := Train l; trained_ := trained_ l;
     used_data_count_ := Some num_data |}.

Definition after_Train (l : t) : t :=
  {| Train := Train l; trained_ := S (trained_ l);
     used_data_count_ := used_data_count_ l |}.

End TreeLearner.

Module GBDTConfig.
Record t := {
  num_class : Z;
  learning_rate : double;
  bagging_fraction : double;
  (* the seeds stand for the sequences their generators return *)
  bagging_seed : nat -> double;
  bagging_freq : nat;
  output_freq : nat;
  early_stopping_round : Z;
  (* [tree_learner_type] and [tree_config]: the learning algorithm *)
  tree_learner_type : nat -> list score_t -> list score_t -> list nat -> Tree.t;
  drop_rate : double;
  dropping_seed : nat -> double;
}.
End GBDTConfig.

(** [static_cast<data_size_t>(x)] for a double [x]: truncation. *)
Definition trunc (x : double) : Z := Z.quot (Qnum x) (Zpos (Qden x)).
(** ** GBDT (boosting/gbdt.cpp) *)

Module GBDT.

Record t := {
  gbdt_config_ : GBDTConfig.t;
  iter_ : nat;
  train_data_ : Dataset.t;
  object_function_ : option ObjectiveFunction.t;
  tree_learner_ : list TreeLearner.t;
  models_ : list Tree.t;
  train_score_updater_ : ScoreUpdater.t;
  valid_score_updater_ : list ScoreUpdater.t;
  valid_metrics_ : list (list Metric.t);
  best_iter_ : list (list nat);
  best_score_ : list (list double);
  early_stopping_round_ : Z;
  num_class_ : Z;
  num_data_ : nat;
  bag_data_indices_ : option (list nat);
  bag_data_cnt_ : nat;
  out_of_bag_data_indices_ : option (list nat);
  out_of_bag_data_cnt_ : nat;
  random_ : Random.t;
  sigmoid_ : double;
  num_used_model_ : Z;
  label_idx_ : Z;
  max_feature_idx_ : Z;
  saved_model_size_ : Z;
}.

Definition with_models (g : t) (models' : list Tree.t) : t :=
  {| gbdt_config_ := gbdt_config_ g;
     iter_ := iter_ g;
     train_data_ := train_data_ g;
     object_function_ := object_function_ g;
     tree_learner_ := tree_learner_ g;
     models_ := models';
     train_score_updater_ := train_score_updater_ g;
     valid_score_updater_ := valid_score_updater_ g;
     valid_metrics_ := valid_metrics_ g;
     best_iter_ := best_iter_ g;
     best_score_ := best_score_ g;
     early_stopping_round_ := early_stopping_round_ g;
     num_class_ := num_class_ g;
     num_data_ := num_data_ g;
     bag_data_indices_ := bag_data_indices_ g;
     bag_data_cnt_ := bag_data_cnt_ g;
     out_of_bag_data_indices_ := out_of_bag_data_indices_ g;
     out_of_bag_data_cnt_ := out_of_bag_data_cnt_ g;
     random_ := random_ g;
     sigmoid_ := sigmoid_ g;
     num_used_model_ := num_used_model_ g;
     label_idx_ := label_idx_ g;
     max_feature_idx_ := max_feature_idx_ g;
     saved_model_size_ := saved_model_size_ g |}.

Definition with_tree_learner (g : t) (tree_learner' : list TreeLearner.t) : t :=
  {| gbdt_config_ := gbdt_config_ g;
     iter_ := iter_ g;
     train_data_ := train_data_ g;
     object_function_ := object_function_ g;
     tree_learner_ := tree_learner';
     models_ := models_ g;
     train_score_updater_ := train_score_updater_ g;
     valid_score_updater_ := valid_score_updater_ g;
     valid_metrics_ := valid_metrics_ g;
     best_iter_ := best_iter_ g;
     best_score_ := best_score_ g;
     early_stopping_round_ := early_stopping_round_ g;
     num_class_ := num_class_ g;
     num_data_ := num_data_ g;
     bag_data_indices_ := bag_data_indices_ g;
     bag_data_cnt_ := bag_data_cnt_ g;
     out_of_bag_data_indices_ := out_of_bag_data_indices_ g;
     out_of_bag_data_cnt_ := out_of_bag_data_cnt_ g;
     random_ := random_ g;
     sigmoid_ := sigmoid_ g;
     num_used_model_ := num_used_model_ g;
     label_idx_ := label_idx_ g;
     max_feature_idx_ := max_feature_idx_ g;
     saved_model_size_ := saved_model_size_ g |}.

Definition with_train_score (g : t) (train_score_updater' : ScoreUpdater.t) : t :=
  {| gbdt_config_ := gbdt_config_ g;
     iter_ := iter_ g;
     train_data_ := train_data_ g;
     object_function_ := object_function_ g;
     tree_learner_ := tree_learner_ g;
     models_ := models_ g;
     train_score_updater_ := train_score_updater';
     valid_score_updater_ := valid_score_updater_ g;
     valid_metrics_ := valid_metrics_ g;
     best_iter_ := best_iter_ g;
     best_score_ := best_score_ g;
     early_stopping_round_ := early_stopping_round_ g;
     num_class_ := num_class_ g;
     num_data_ := num_data_ g;
     bag_data_indices_ := bag_data_indices_ g;
     bag_data_cnt_ := bag_data_cnt_ g;
     out_of_bag_data_indices_ := out_of_bag_data_indices_ g;
     out_of_bag_data_cnt_ := out_of_bag_data_cnt_ g;
     random_ := random_ g;
     sigmoid_ := sigmoid_ g;
     num_used_model_ := num_used_model_ g;
     label_idx_ := label_idx_ g;
     max_feature_idx_ := max_feature_idx_ g;
     saved_model_size_ := saved_model_size_ g |}.

Definition with_valid_score (g : t) (valid_score_updater' : list ScoreUpdater.t) : t :=
  {| gbdt_config_ := gbdt_config_ g;
     iter_ := iter_ g;
     train_data_ := train_data_ g;
     object_function_ := object_function_ g;
     tree_learner_ := tree_learner_ g;
     models_ := models_ g;
     train_score_updater_ := train_score_updater_ g;
     valid_score_updater_ := valid_score_updater';
     valid_metrics_ := valid_metrics_ g;
     best_iter_ := best_iter_ g;
     best_score_ := best_score_ g;
     early_stopping_round_ := early_stopping_round_ g;
     num_class_ := num_class_ g;
     num_data_ := num_data_ g;
     bag_data_indices_ := bag_data_indices_ g;
     bag_data_cnt_ := bag_data_cnt_ g;
     out_of_bag_data_indices_ := out_of_bag_data_indices_ g;
     out_of_bag_data_cnt_ := out_of_bag_data_cnt_ g;
     random_ := random_ g;
     sigmoid_ := sigmoid_ g;
     num_used_model_ := num_used_model_ g;
     label_idx_ := label_idx_ g;
     max_feature_idx_ := max_feature_idx_ g;
     saved_model_size_ := saved_model_size_ g |}.

Definition with_valid_metrics (g : t) (valid_metrics' : list (list Metric.t)) : t :=
  {| gbdt_config_ := gbdt_config_ g;
     iter_ := iter_ g;
     train_data_ := train_data_ g;
     object_function_ := object_function_ g;
     tree_learner_ := tree_learner_ g;
     models_ := models_ g;
     train_score_updater_ := train_score_updater_ g;
     valid_score_updater_ := valid_score_updater_ g;
     valid_metrics_ := valid_metrics';
     best_iter_ := best_iter_ g;
     best_score_ := best_score_ g;
     early_stopping_round_ := early_stopping_round_ g;
     num_class_ := num_class_ g;
     num_data_ := num_data_ g;
     bag_data_indices_ := bag_data_indices_ g;
     bag_data_cnt_ := bag_data_cnt_ g;
     out_of_bag_data_indices_ := out_of_bag_data_indices_ g;
     out_of_bag_data_cnt_ := out_of_bag_data_cnt_ g;
     random_ := random_ g;
     sigmoid_ := sigmoid_ g;
     num_used_model_ := num_used_model_ g;
     label_idx_ := label_idx_ g;
     max_feature_idx_ := max_feature_idx_ g;
     saved_model_size_ := saved_model_size_ g |}.

Definition with_best (g : t) (best_iter' : list (list nat)) (best_score' : list (list double)) : t :=
  {| gbdt_config_ := gbdt_config_ g;
     iter_ := iter_ g;
     train_data_ := train_data_ g;
     object_function_ := object_function_ g;
     tree_learner_ := tree_learner_ g;
     models_ := models_ g;
     train_score_updater_ := train_score_updater_ g;
     valid_score_updater_ := valid_score_updater_ g;
     valid_metrics_ := valid_metrics_ g;
     best_iter_ := best_iter';
     best_score_ := best_score';
     early_stopping_round_ := early_stopping_round_ g;
     num_class_ := num_class_ g;
     num_data_ := num_data_ g;
     bag_data_indices_ := bag_data_indices_ g;
     bag_data_cnt_ := bag_data_cnt_ g;
     out_of_bag_data_indices_ := out_of_bag_data_indices_ g;
     out_of_bag_data_cnt_ := out_of_bag_data_cnt_ g;
     random_ := random_ g;
     sigmoid_ := sigmoid_ g;
     num_used_model_ := num_used_model_ g;
     label_idx_ := label_idx_ g;
     max_feature_idx_ := max_feature_idx_ g;
     saved_model_size_ := saved_model_size_ g |}.

Definition with_iter (g : t) (iter' : nat) : t :=
  {| gbdt_config_ := gbdt_config_ g;
     iter_ := iter';
     train_data_ := train_data_ g;
     object_function_ := object_function_ g;
     tree_learner_ := tree_learner_ g;
     models_ := models_ g;
     train_score_updater_ := train_score_updater_ g;
     valid_score_updater_ := valid_score_updater_ g;
     valid_metrics_ := valid_metrics_ g;
     best_iter_ := best_iter_ g;
     best_score_ := best_score_ g;
     early_stopping_round_ := early_stopping_round_ g;
     num_class_ := num_class_ g;
     num_data_ := num_data_ g;
     bag_data_indices_ := bag_data_indices_ g;
     bag_data_cnt_ := bag_data_cnt_ g;
     out_of_bag_data_indices_ := out_of_bag_data_indices_ g;
     out_of_bag_data_cnt_ := out_of_bag_data_cnt_ g;
     random_ := random_ g;
     sigmoid_ := sigmoid_ g;
     num_used_model_ := num_used_model_ g;
     label_idx_ := label_idx_ g;
     max_feature_idx_ := max_feature_idx_ g;
     saved_model_size_ := saved_model_size_ g |}.

Definition with_bagging (g : t) (bag_data_indices' : option (list nat)) (bag_data_cnt' : nat) (out_of_bag_data_indices' : option (list nat)) (out_of_bag_data_cnt' : nat) (random' : Random.t) : t :=
  {| gbdt_config_ := gbdt_config_ g;
     iter_ := iter_ g;
     train_data_ := train_data_ g;
     object_function_ := object_function_ g;
     tree_learner_ := tree_learner_ g;
     models_ := models_ g;
     train_score_updater_ := train_score_updater_ g;
     valid_score_updater_ := valid_score_updater_ g;
     valid_metrics_ := valid_metrics_ g;
     best_iter_ := best_iter_ g;
     best_score_ := best_score_ g;
     early_stopping_round_ := early_stopping_round_ g;
     num_class_ := num_class_ g;
     num_data_ := num_data_ g;
     bag_data_indices_ := bag_data_indices';
     bag_data_cnt_ := bag_data_cnt';
     out_of_bag_data_indices_ := out_of_bag_data_indices';
     out_of_bag_data_cnt_ := out_of_bag_data_cnt';
     random_ := random';
     sigmoid_ := sigmoid_ g;
     num_used_model_ := num_used_model_ g;
     label_idx_ := label_idx_ g;
     max_feature_idx_ := max_feature_idx_ g;
     saved_model_size_ := saved_model_size_ g |}.

Definition with_loaded (g : t) (num_class' : Z) (label_idx' : Z) (max_feature_idx' : Z) (sigmoid' : double) (models' : list Tree.t) (num_used_model' : Z) : t :=
  {| gbdt_config_ := gbdt_config_ g;
     iter_ := iter_ g;
     train_data_ := train_data_ g;
     object_function_ := object_function_ g;
     tree_learner_ := tree_learner_ g;
     models_ := models';
     train_score_updater_ := train_score_updater_ g;
     valid_score_updater_ := valid_score_updater_ g;
     valid_metrics_ := valid_metrics_ g;
     best_iter_ := best_iter_ g;
     best_score_ := best_score_ g;
     early_stopping_round_ := early_stopping_round_ g;
     num_class_ := num_class';
     num_data_ := num_data_ g;
     bag_data_indices_ := bag_data_indices_ g;
     bag_data_cnt_ := bag_data_cnt_ g;
     out_of_bag_data_indices_ := out_of_bag_data_indices_ g;
     out_of_bag_data_cnt_ := out_of_bag_data_cnt_ g;
     random_ := random_ g;
     sigmoid_ := sigmoid';
     num_used_model_ := num_used_model';
     label_idx_ := label_idx';
     max_feature_idx_ := max_feature_idx';
     saved_model_size_ := saved_model_size_ g |}.

Definition num_class (g : t) : nat := Z.to_nat (num_class_ g).

Definition empty_data : Dataset.t :=
  {| Dataset.num_data_ := 0; Dataset.rows_ := [];
     Dataset.metadata_ :=
       {| Metadata.num_data_ := 0; Metadata.num_class_ := 0;
          Metadata.weights_ := []; Metadata.query_boundaries_ := [];
          Metadata.num_queries_ := 0; Metadata.query_weights_ := [] |} |}.

(** [GBDT()]: empty vectors, null pointers, [saved_model_size_ = -1],
    [num_used_model_ = 0]; the members the constructor leaves unset are
    given with [config]. *)
Definition new (config : GBDTConfig.t) : t :=
  {| gbdt_config_ := config; iter_ := 0; train_data_ := empty_data;
     object_function_ := None; tree_learner_ := []; models_ := [];
     train_score_updater_ := ScoreUpdater.create empty_data 0;
     valid_score_updater_ := []; valid_metrics_ := [];
     best_iter_ := []; best_score_ := [];
     early_stopping_round_ := 0; num_class_ := 0; num_data_ := 0;
     bag_data_indices_ := None; bag_data_cnt_ := 0;
     out_of_bag_data_indices_ := None; out_of_bag_data_cnt_ := 0;
     random_ := Random.create (GBDTConfig.bagging_seed config);
     sigmoid_ := 0%Qc; num_used_model_ := 0; label_idx_ := 0;
     max_feature_idx_ := 0; saved_model_size_ := -1 |}.

(** [Init(config, train_data, object_function, training_metrics)]; the
    training metrics only produce log lines. *)
Definition Init (config : GBDTConfig.t) (train_data : Dataset.t)
    (object_function : option ObjectiveFunction.t) (g : t) : t :=
  let num_class := Z.to_nat (GBDTConfig.num_class config) in
  let num_data := Dataset.num_data_ train_data in
  let bagging := bool_decide (GBDTConfig.bagging_fraction config < 1)%Qc
                 && bool_decide (0 < GBDTConfig.bagging_freq config)%nat in
  {| gbdt_config_ := config; iter_ := 0; train_data_ := train_data;
     object_function_ := object_function;
     tree_learner_ :=
       replicate num_class
         (TreeLearner.create (GBDTConfig.tree_learner_type config));
     models_ := models_ g;
     train_score_updater_ := ScoreUpdater.create train_data num_class;
     valid_score_updater_ := valid_score_updater_ g;
     valid_metrics_ := valid_metrics_ g;
     best_iter_ := best_iter_ g; best_score_ := best_score_ g;
     early_stopping_round_ := GBDTConfig.early_stopping_round config;
     num_class_ := GBDTConfig.num_class config; num_data_ := num_data;
     (* if need bagging, create buffer *)
     bag_data_indices_ :=
       if bagging then Some (replicate num_data 0%nat) else None;
     bag_data_cnt_ := if bagging then bag_data_cnt_ g else num_data;
     out_of_bag_data_indices_ :=
       if bagging then Some (replicate num_data 0%nat) else None;
     out_of_bag_data_cnt_ := if bagging then out_of_bag_data_cnt_ g else 0%nat;
     random_ := Random.create (GBDTConfig.bagging_seed config);
     sigmoid_ := sigmoid_ g; num_used_model_ := num_used_model_ g;
     label_idx_ := label_idx_ g; max_feature_idx_ := max_feature_idx_ g;
     saved_model_size_ := -1 |}.

(** [AddDataset(valid_data, valid_metrics)] *)
Definition AddDataset (valid_data : Dataset.t) (valid_metrics : list Metric.t)
    (g : t) : t :=
  with_best
    (with_valid_metrics
       (with_valid_score g
          (valid_score_updater_ g ++ [ScoreUpdater.create valid_data (num_class g)]))
       (valid_metrics_ g ++ [valid_metrics]))
    (best_iter_ g ++ [replicate (length valid_metrics) 0%nat])
    (best_score_ g ++ [replicate (length valid_metrics) (- 1)%Qc]).

(** *** Bagging *)

(** The loop over the rows when there are no queries. *)
Fixpoint bag_rows (N bag_cnt : nat) (rows : list nat) (r : Random.t)
    (cur_left_cnt cur_right_cnt : nat) (bag oob : list nat)
    : result (Random.t * nat * nat * list nat * list nat) :=
  match rows with
  | [] => Ok (r, cur_left_cnt, cur_right_cnt, bag, oob)
  | i :: rows' =>
      let prob := (Qc_of_Z (Z.of_nat bag_cnt - Z.of_nat cur_left_cnt)
                   / Qc_of_Z (Z.of_nat N - Z.of_nat i))%Qc in
      let '(x, r') := Random.NextDouble r in
      if decide (x < prob)%Qc then
        bag' ← writen bag cur_left_cnt i;
        bag_rows N bag_cnt rows' r' (S cur_left_cnt) cur_right_cnt bag' oob
      else
        oob' ← writen oob cur_right_cnt i;
        bag_rows N bag_cnt rows' r' cur_left_cnt (S cur_right_cnt) bag oob'
  end.

(** [for (j = lo; ...; ++j) buf[cnt++] = j] over the rows [js]. *)
Fixpoint put_rows (js : list nat) (cnt : nat) (buf : list nat)
    : result (nat * list nat) :=
  match js with
  | [] => Ok (cnt, buf)
  | j :: js' => buf' ← writen buf cnt j; put_rows js' (S cnt) buf'
  end.

(** The loop over the queries. *)
Fixpoint bag_queries (num_query bag_query_cnt : nat) (qb : list nat)
    (queries : list nat) (r : Random.t)
    (cur_left_query_cnt cur_left_cnt cur_right_cnt : nat) (bag oob : list nat)
    : result (Random.t * nat * nat * list nat * list nat) :=
  match queries with
  | [] => Ok (r, cur_left_cnt, cur_right_cnt, bag, oob)
  | i :: queries' =>
      let prob := (Qc_of_Z (Z.of_nat bag_query_cnt - Z.of_nat cur_left_query_cnt)
                   / Qc_of_Z (Z.of_nat num_query - Z.of_nat i))%Qc in
      let '(x, r') := Random.NextDouble r in
      lo ← readn qb i;
      hi ← readn qb (S i);
      if decide (x < prob)%Qc then
        '(cnt, bag') ← put_rows (seq lo (hi - lo)) cur_left_cnt bag;
        bag_queries num_query bag_query_cnt qb queries' r'
          (S cur_left_query_cnt) cnt cur_right_cnt bag' oob
      else
        '(cnt, oob') ← put_rows (seq lo (hi - lo)) cur_right_cnt oob;
        bag_queries num_query bag_query_cnt qb queries' r'
          cur_left_query_cnt cur_left_cnt cnt bag oob'
  end.

(** [Bagging(iter, curr_class)].  [Init] creates the two buffers together;
    [iter % bagging_freq] with [bagging_freq = 0], and filling a bag buffer
    that is null, are undefined. *)
Definition Bagging (iter curr_class : nat) (g : t) : result t :=
  match out_of_bag_data_indices_ g with
  | None => Ok g
  | Some oob =>
      let freq := GBDTConfig.bagging_freq (gbdt_config_ g) in
      if decide (freq = 0%nat) then Undefined
      else if (iter mod freq =? 0)%nat then
        match bag_data_indices_ g with
        | None => Undefined
        | Some bag =>
            let N := num_data_ g in
            g' ← match Dataset.query_boundaries (train_data_ g) with
                 | None =>
                     let bag_cnt :=
                       Z.to_nat (trunc (GBDTConfig.bagging_fraction (gbdt_config_ g)
                                        * Qc_of_Z (Z.of_nat N))%Qc) in
                     '(r, _, _, bag', oob') ←
                       bag_rows N bag_cnt (seq 0 N) (random_ g) 0 0 bag oob;
                     Ok (with_bagging g (Some bag') bag_cnt (Some oob')
                           (N - bag_cnt) r)
                 | Some qb =>
                     let num_query := Dataset.num_queries (train_data_ g) in
                     let bag_query_cnt :=
                       Z.to_nat (trunc (Qc_of_Z (Z.of_nat num_query)
                                        * GBDTConfig.bagging_fraction (gbdt_config_ g))%Qc) in
                     '(r, cur_left_cnt, _, bag', oob') ←
                       bag_queries num_query bag_query_cnt qb (seq 0 num_query)
                         (random_ g) 0 0 0 bag oob;
                     Ok (with_bagging g (Some bag') cur_left_cnt (Some oob')
                           (N - cur_left_cnt) r)
                 end;
            (* set bagging data to tree learner *)
            l ← readn (tree_learner_ g') curr_class;
            Ok (with_tree_learner g'
                  (<[curr_class := TreeLearner.SetBaggingData (bag_data_cnt_ g') l]>
                     (tree_learner_ g')))
        end
      else Ok g
  end.

(** The rows of the partition a learner trains on: the first
    [used_data_count_] entries of the shared bagging buffer, every row
    before [SetBaggingData] was called. *)
Definition learner_rows (g : t) (l : TreeLearner.t) : result (list nat) :=
  match TreeLearner.used_data_count_ l, bag_data_indices_ g with
  | Some cnt, Some bag =>
      if decide (length bag < cnt)%nat then Undefined else Ok (take cnt bag)
  | Some _, None => Undefined
  | None, _ => Ok (seq 0 (num_data_ g))
  end.

(** *** Score updates *)

Fixpoint AddScore_each (tree : Tree.t) (curr_class : nat)
    (sus : list ScoreUpdater.t) : result (list ScoreUpdater.t) :=
  match sus with
  | [] => Ok []
  | su :: sus' =>
      su' ← ScoreUpdater.AddScore tree curr_class su;
      rest ← AddScore_each tree curr_class sus';
      Ok (su' :: rest)
  end.

(** [UpdateScore(tree, curr_class)]; [rows] is the partition of
    [tree_learner_[curr_class]], on which the learner adds the outputs of
    the tree it returned (it holds the same tree object, so it sees the
    shrinkage). *)
Definition UpdateScore (tree : Tree.t) (rows : list nat) (curr_class : nat)
    (g : t) : result t :=
  let su := train_score_updater_ g in
  sc ← ScoreUpdater.add_rows tree (ScoreUpdater.data_ su)
          (curr_class * ScoreUpdater.num_data_ su) rows (ScoreUpdater.score_ su);
  valid ← AddScore_each tree curr_class (valid_score_updater_ g);
  Ok (with_valid_score (with_train_score g (ScoreUpdater.with_score su sc)) valid).

Definition UpdateScoreOutOfBag (tree : Tree.t) (curr_class : nat) (g : t)
    : result t :=
  match out_of_bag_data_indices_ g with
  | Some oob =>
      su ← ScoreUpdater.AddScore_indices tree oob (out_of_bag_data_cnt_ g)
             curr_class (train_score_updater_ g);
      Ok (with_train_score g su)
  | None => Ok g
  end.

(** *** Metrics and early stopping *)

(** The body of the inner loop of [OutputMetric] for one metric. *)
Definition eval_metric (esr : Z) (iter : nat) (score : list score_t)
    (ret : bool) (metric : Metric.t) (best_iter : nat) (best_score : double)
    : bool * nat * double :=
  let test_scores := Metric.Eval metric score in
  if negb ret && (0 <? esr) then
    let back := default 0%Qc (last test_scores) in
    let the_bigger_the_better := Metric.is_bigger_better metric in
    if bool_decide (best_score < 0)%Qc
       || (negb the_bigger_the_better && bool_decide (back < best_score)%Qc)
       || (the_bigger_the_better && bool_decide (best_score < back)%Qc)
    then (ret, iter, back)
    else if esr <=? Z.of_nat iter - Z.of_nat best_iter
         then (true, best_iter, best_score)
         else (ret, best_iter, best_score)
  else (ret, best_iter, best_score).

(** The inner loop, over the metrics of one validation set. *)
Fixpoint eval_metrics (esr : Z) (iter : nat) (score : list score_t) (ret : bool)
    (metrics : list Metric.t) (best_iter : list nat) (best_score : list double)
    : bool * list nat * list double :=
  match metrics, best_iter, best_score with
  | m :: ms, bi :: bis, bs :: bss =>
      let '(ret, bi', bs') := eval_metric esr iter score ret m bi bs in
      let '(ret, bis', bss') := eval_metrics esr iter score ret ms bis bss in
      (ret, bi' :: bis', bs' :: bss')
  | _, _, _ => (ret, best_iter, best_score)
  end.

(** The outer loop, over the validation sets. *)
Fixpoint eval_valid (esr : Z) (iter : nat) (ret : bool)
    (metrics : list (list Metric.t)) (sus : list ScoreUpdater.t)
    (best_iter : list (list nat)) (best_score : list (list double))
    : bool * list (list nat) * list (list double) :=
  match metrics, sus, best_iter, best_score with
  | ms :: mss, su :: sus', bi :: bis, bs :: bss =>
      let '(ret, bi', bs') :=
        eval_metrics esr iter (ScoreUpdater.score_ su) ret ms bi bs in
      let '(ret, bis', bss') := eval_valid esr iter ret mss sus' bis bss in
      (ret, bi' :: bis', bs' :: bss')
  | _, _, _, _ => (ret, best_iter, best_score)
  end.

(** [OutputMetric(iter)]; the log lines are not modelled. *)
Definition OutputMetric (iter : nat) (g : t) : bool * t :=
  if (iter mod GBDTConfig.output_freq (gbdt_config_ g) =? 0)%nat
     || (0 <? early_stopping_round_ g)
  then
    let '(ret, bi, bs) :=
      eval_valid (early_stopping_round_ g) iter false (valid_metrics_ g)
        (valid_score_updater_ g) (best_iter_ g) (best_score_ g) in
    (ret, with_best g bi bs)
  else (false, g).

(** *** One iteration *)

Definition Boosting (g : t) : result (list score_t * list score_t) :=
  match object_function_ g with
  | None => Fatal "No object function provided"
  | Some o =>
      Ok (ObjectiveFunction.GetGradients o
            (ScoreUpdater.score_ (train_score_updater_ g)))
  end.

(** The body of the loop over the classes, with the shrinkage the new tree
    gets; the flag says that no tree could be learned. *)
Definition train_class (shrinkage : double) (gradient hessian : list score_t)
    (curr_class : nat) (g : t) : result (bool * t) :=
  (* bagging logic *)
  g ← Bagging (iter_ g) curr_class g;
  (* train a new tree *)
  l ← readn (tree_learner_ g) curr_class;
  rows ← learner_rows g l;
  let new_tree :=
    TreeLearner.Train l (TreeLearner.trained_ l)
      (drop (curr_class * num_data_ g) gradient)
      (drop (curr_class * num_data_ g) hessian) rows in
  let g := with_tree_learner g
             (<[curr_class := TreeLearner.after_Train l]> (tree_learner_ g)) in
  (* if cannot learn a new tree, then stop *)
  if (Tree.num_leaves new_tree <=? 1)%nat then Ok (true, g)
  else
    let new_tree := Tree.Shrinkage shrinkage new_tree in
    g ← UpdateScore new_tree rows curr_class g;
    g ← UpdateScoreOutOfBag new_tree curr_class g;
    (* add model *)
    Ok (false, with_models g (models_ g ++ [new_tree])).

Fixpoint train_classes (shrinkage : double) (gradient hessian : list score_t)
    (classes : list nat) (g : t) : result (bool * t) :=
  match classes with
  | [] => Ok (false, g)
  | curr_class :: classes' =>
      '(stop, g') ← train_class shrinkage gradient hessian curr_class g;
      if stop : bool then Ok (true, g')
      else train_classes shrinkage gradient hessian classes' g'
  end.



(** The end of [TrainOneIter]: metrics, [++iter_], and on early stopping
    the removal of the last [early_stopping_round_ * num_class_] models. *)
Definition finish_iter (is_eval : bool) (g : t) : result (bool * t) :=
  let '(is_met_early_stopping, g) :=
    if is_eval then OutputMetric (iter_ g + 1) g else (false, g) in
  let g := with_iter g (S (iter_ g)) in
  if is_met_early_stopping : bool then
    let n := Z.to_nat (early_stopping_round_ g * num_class_ g) in
    if decide (length (models_ g) < n)%nat then Undefined
    else Ok (true, with_models g (take (length (models_ g) - n) (models_ g)))
  else Ok (false, g).

Definition gradients (gradient hessian : option (list score_t)) (g : t)
    : result (list score_t * list score_t) :=
  match gradient, hessian with
  | Some gr, Some he => Ok (gr, he)
  | _, _ => Boosting g
  end.

(** [TrainOneIter(gradient, hessian, is_eval)] *)
Definition TrainOneIter (gradient hessian : option (list score_t))
    (is_eval : bool) (g : t) : result (bool * t) :=
  '(gradient, hessian) ← gradients gradient hessian g;
  '(stop, g) ← train_classes (GBDTConfig.learning_rate (gbdt_config_ g))
                  gradient hessian (seq 0 (num_class g)) g;
  if stop : bool then Ok (true, g) else finish_iter is_eval g.

(** Modelled from the spec: the training loop ([GBDT::Train] and the loop
    of the application are not among the sources).  "Per iteration: ...
    Evaluate metrics ... Early stopping": iterations with evaluation, one
    after the other, until [TrainOneIter] reports the end or
    [num_iterations] have been run. *)
Fixpoint Train (num_iterations : nat) (g : t) : result t :=
  match num_iterations with
  | O => Ok g
  | S n =>
      '(is_finished, g') ← TrainOneIter None None true g;
      if is_finished : bool then Ok g' else Train n g'
  end.


(** [best_iter_[i][j]] *)
Definition best_iter_at (g : t) (i j : nat) : option nat :=
  best_iter_ g !! i ≫= fun row => row !! j.

(** The tables of the validation sets have the shape [AddDataset] gives
    them. *)
Record shape_ok (g : t) : Prop := {
  shape_scores : length (valid_score_updater_ g) = length (valid_metrics_ g);
  shape_iter : Forall2 (fun ms bi => length ms = length bi)
                 (valid_metrics_ g) (best_iter_ g);
  shape_score : Forall2 (fun ms bs => length ms = length bs)
                  (valid_metrics_ g) (best_score_ g);
}.

(** A controller before its first iteration. *)
Record fresh (g : t) : Prop := {
  fresh_iter : iter_ g = 0%nat;
  fresh_models : models_ g = [];
  fresh_best : forall i j bi, best_iter_at g i j = Some bi -> bi = 0%nat;
  fresh_shape : shape_ok g;
}.

(** *** Loading a model and predicting *)

(** The loop
    [while (i < lines.size()) { if (lines[i].find(key) != npos)
       { ...; ++i; break; } else { ++i; } }]
    from line [i] on: the line it stops at, if any, and the final [i]. *)
Fixpoint find_line (key : str) (lines : list str) (i : nat) : option str * nat :=
  match lines with
  | [] => (None, i)
  | line :: lines' =>
      match Common.find line key with
      | Some _ => (Some line, S i)
      | None => find_line key lines' (S i)
      end
  end.

(** [strs = Common::Split(line.c_str(), '='); ... strs[1].c_str()] *)
Definition header_value (line : str) : result str :=
  strs1 ← read (Common.Split (c_str line) "="%char) 1;
  Ok (c_str strs1).

(** One of the three headers that are read with [Atoi]; [old] is the member
    before the call, [msg] the message of the [Log::Fatal] that follows the
    loop. *)
Definition read_int_header (key : str) (msg : string) (lines : list str)
    (old : Z) : result Z :=
  let '(found, i) := find_line key lines 0 in
  v ← match found with
      | Some line => p ← header_value line; '(v, _) ← Common.Atoi p; Ok v
      | None => Ok old
      end;
  if decide (i = length lines) then Fatal msg else Ok v.

(** The sigmoid parameter, read with [Atof]; "if sigmoid doesn't exists",
    [-1]. *)
Definition read_sigmoid (lines : list str) (old : double) : result double :=
  let '(found, i) := find_line s#"sigmoid=" lines 0 in
  v ← match found with
      | Some line => p ← header_value line; '(v, _) ← Common.Atof p; Ok v
      | None => Ok old
      end;
  if decide (i = length lines) then Ok (- 1)%Qc else Ok v.

(** [while (i < lines.size() && lines[i].find("Tree=") == npos) { ++i; }]
    from line [i] on. *)
Fixpoint block_end (lines : list str) (i : nat) : nat :=
  match lines with
  | [] => i
  | line :: lines' =>
      match Common.find line s#"Tree=" with
      | Some _ => i
      | None => block_end lines' (S i)
      end
  end.

Section Loading.

(** [Tree(const std::string&)], the parser of a tree block (tree.cpp is not
    among the sources). *)
Variable Tree_of_string : str -> result Tree.t.

(** The loop over the tree blocks, at line [i] with [rest] the lines from
    [i] on.  After a block the source continues at the line the block ends
    at; the lines of the block hold no ["Tree="], so going through them one
    by one adds nothing. *)
Fixpoint load_trees (lines rest : list str) (i : nat) : result (list Tree.t) :=
  match rest with
  | [] => Ok []
  | line :: rest' =>
      match Common.find line s#"Tree=" with
      | Some _ =>
          let start := S i in
          let end_ := block_end rest' start in
          tree ← Tree_of_string (Common.Join lines start end_ newline);
          trees ← load_trees lines rest' (S i);
          Ok (tree :: trees)
      | None => load_trees lines rest' (S i)
      end
  end.

(** [ModelsFromString(model_str)] (called [LoadModelFromString] in
    boosting.cpp). *)
Definition ModelsFromString (model_str : str) (g : t) : result t :=
  let lines := Common.Split (c_str model_str) newline in
  (* get number of classes *)
  num_class ← read_int_header s#"num_class="
    "Model file doesn't specify the number of classes" lines (num_class_ g);
  (* get index of label *)
  label_idx ← read_int_header s#"label_index="
    "Model file doesn't specify the label index" lines (label_idx_ g);
  (* get max_feature_idx first *)
  max_feature_idx ← read_int_header s#"max_feature_idx="
    "Model file doesn't specify max_feature_idx" lines (max_feature_idx_ g);
  (* get sigmoid parameter *)
  sigmoid ← read_sigmoid lines (sigmoid_ g);
  (* get tree models *)
  models ← load_trees lines lines 0;
  if decide (num_class = 0) then Undefined
  else Ok (with_loaded g num_class label_idx max_feature_idx sigmoid models
             (Z.quot (Z.of_nat (length models)) num_class)).

End Loading.

(** [for (int i = 0; i < num_used_model_; ++i) ret += models_[i]->Predict(value)] *)
Fixpoint sum_trees (models : list Tree.t) (idxs : list nat) (value : list double)
    (ret : double) : result double :=
  match idxs with
  | [] => Ok ret
  | i :: idxs' =>
      tree ← readn models i;
      sum_trees models idxs' value (ret + Tree.Predict tree value)%Qc
  end.

Definition PredictRaw (value : list double) (g : t) : result double :=
  sum_trees (models_ g) (seq 0 (Z.to_nat (num_used_model_ g))) value 0%Qc.

Section Predict.

(** [std::exp] on doubles. *)
Variable std_exp : double -> double.

Definition Predict (value : list double) (g : t) : result double :=
  ret ← sum_trees (models_ g) (seq 0 (Z.to_nat (num_used_model_ g))) value 0%Qc;
  (* if need sigmoid transform *)
  if decide (0 < sigmoid_ g)%Qc
  then Ok (1 / (1 + std_exp (- Qc_of_Z 2 * sigmoid_ g * ret)))%Qc
  else Ok ret.

End Predict.

(** The lines of a model string, and the strings that lack a header. *)
Definition lines_of (model_str : str) : list str :=
  Common.Split (c_str model_str) newline.

Definition has_line (key : str) (lines : list str) : Prop :=
  Exists (fun line => Common.find line key <> None) lines.

#[global] Instance has_line_dec (key : str) (lines : list str) :
  Decision (has_line key lines).
Proof. unfold has_line. apply _. Defined.

(** The strings the loop over the tree blocks hands to the parser, at line
    [i] with [rest] the lines from [i] on. *)
Fixpoint tree_blocks (lines rest : list str) (i : nat) : list str :=
  match rest with
  | [] => []
  | line :: rest' =>
      match Common.find line s#"Tree=" with
      | Some _ =>
          Common.Join lines (S i) (block_end rest' (S i)) newline
          :: tree_blocks lines rest' (S i)
      | None => tree_blocks lines rest' (S i)
      end
  end.

(** A header the loader reads as the integer [v]: the first line that
    holds [key] is followed by another line, and [Atoi] reads [v] from the
    text after its first ['=']. *)
Definition int_header (key : str) (lines : list str) (v : Z) : Prop :=
  exists line i p rest,
    find_line key lines 0 = (Some line, i) /\ (i < length lines)%nat /\
    header_value line = Ok p /\ Common.Atoi p = Ok (v, rest).

(** The sigmoid line, when there is one, holds a token [Atof] accepts. *)
Definition sigmoid_header (lines : list str) : Prop :=
  forall line i, find_line s#"sigmoid=" lines 0 = (Some line, i) ->
    exists p v rest, header_value line = Ok p /\ Common.Atof p = Ok (v, rest).


(** The inner loop of [PredictMulticlass]:
    [ret[j] += models_[i * num_class_ + j]->Predict(value)] *)
Fixpoint add_classes (models : list Tree.t) (i num_class : nat) (js : list nat)
    (value : list double) (ret : list double) : result (list double) :=
  match js with
  | [] => Ok ret
  | j :: js' =>
      tree ← readn models (i * num_class + j);
      r ← readn ret j;
      ret' ← writen ret j (r + Tree.Predict tree value)%Qc;
      add_classes models i num_class js' value ret'
  end.

Fixpoint sum_iterations (models : list Tree.t) (num_class : nat)
    (idxs : list nat) (value : list double) (ret : list double)
    : result (list double) :=
  match idxs with
  | [] => Ok ret
  | i :: idxs' =>
      ret' ← add_classes models i num_class (seq 0 num_class) value ret;
      sum_iterations models num_class idxs' value ret'
  end.

(** [PredictMulticlass(value)]; a negative size handed to the vector
    constructor is left undefined. *)
Definition PredictMulticlass (value : list double) (g : t)
    : result (list double) :=
  if num_class_ g <? 0 then Undefined
  else
    sum_iterations (models_ g) (num_class g)
      (seq 0 (Z.to_nat (num_used_model_ g))) value
      (replicate (num_class g) 0%Qc).
End GBDT.

(** ** DART (boosting/dart.cpp) *)

Module DART.

(** A [DART] object: the [GBDT] it derives from and its own members. *)
Record t := {
  gbdt : GBDT.t;
  drop_rate_ : double;
  shrinkage_rate_ : double;
  random_for_drop_ : Random.t;
  drop_index_ : list nat;
}.

Definition with_gbdt (d : t) (g : GBDT.t) : t :=
  {| gbdt := g; drop_rate_ := drop_rate_ d;
     shrinkage_rate_ := shrinkage_rate_ d;
     random_for_drop_ := random_for_drop_ d; drop_index_ := drop_index_ d |}.

(** [DART()]; the members the constructor leaves unset are given with
    [config]. *)
Definition new (config : GBDTConfig.t) : t :=
  {| gbdt := GBDT.new config; drop_rate_ := GBDTConfig.drop_rate config;
     shrinkage_rate_ := GBDTConfig.learning_rate config;
     random_for_drop_ := Random.create (GBDTConfig.dropping_seed config);
     drop_index_ := [] |}.

(** [Init(config, train_data, object_function, training_metrics)] *)
Definition Init (config : GBDTConfig.t) (train_data : Dataset.t)
    (object_function : option ObjectiveFunction.t) (d : t) : t :=
  {| gbdt := GBDT.Init config train_data object_function (gbdt d);
     drop_rate_ := GBDTConfig.drop_rate config;
     shrinkage_rate_ := 1%Qc;
     random_for_drop_ := Random.create (GBDTConfig.dropping_seed config);
     drop_index_ := drop_index_ d |}.

(** "select dropping tree indexes based on drop_rate": the loop over the
    iterations [i]. *)
Fixpoint select_drops (drop_rate : double) (iters : list nat) (r : Random.t)
    (drop_index : list nat) : list nat * Random.t :=
  match iters with
  | [] => (drop_index, r)
  | i :: iters' =>
      let '(x, r') := Random.NextDouble r in
      if decide (x < drop_rate)%Qc
      then select_drops drop_rate iters' r' (drop_index ++ [i])
      else select_drops drop_rate iters' r' drop_index
  end.

(** The pairs [(curr_tree, curr_class)] the two nested loops
    [for (int i : drop_index_) for (curr_class = 0; curr_class < num_class_;
    ++curr_class)] go through, [curr_tree = i * num_class_ + curr_class]. *)
Definition targets (drop_index : list nat) (num_class : nat) : list (nat * nat) :=
  i ← drop_index; (fun curr_class => (i * num_class + curr_class, curr_class)%nat)
                    <$> seq 0 num_class.

(** "drop trees" *)
Fixpoint drop_trees (ts : list (nat * nat)) (models : list Tree.t)
    (train : ScoreUpdater.t) : result (list Tree.t * ScoreUpdater.t) :=
  match ts with
  | [] => Ok (models, train)
  | (curr_tree, curr_class) :: ts' =>
      tree ← readn models curr_tree;
      let tree := Tree.Shrinkage (- 1)%Qc tree in
      train ← ScoreUpdater.AddScore tree curr_class train;
      drop_trees ts' (<[curr_tree := tree]> models) train
  end.

Section Epsilon.

(** [kEpsilon], a constant of meta.h, which is not among the sources. *)
Variable kEpsilon : double.

Definition DroppingTrees (d : t) : result t :=
  let g := gbdt d in
  let '(drop_index, r) :=
    (* if drop rate is too small, skip this step, drop one tree randomly *)
    if decide (kEpsilon < drop_rate_ d)%Qc
    then select_drops (drop_rate_ d) (seq 0 (GBDT.iter_ g)) (random_for_drop_ d) []
    else ([], random_for_drop_ d) in
  (* binomial-plus-one, at least one tree will be dropped *)
  let '(drop_index, r) :=
    match drop_index with
    | [] => Random.Sample (GBDT.iter_ g) 1 r
    | _ :: _ => (drop_index, r)
    end in
  '(models, train) ← drop_trees (targets drop_index (GBDT.num_class g))
                        (GBDT.models_ g) (GBDT.train_score_updater_ g);
  Ok {| gbdt := GBDT.with_train_score (GBDT.with_models g models) train;
        drop_rate_ := drop_rate_ d;
        shrinkage_rate_ := (1 / (1 + Qc_of_Z (Z.of_nat (length drop_index))))%Qc;
        random_for_drop_ := r; drop_index_ := drop_index |}.

(** [GetTrainingScore(out_len)]: the scores returned, and the object. *)
Definition GetTrainingScore (d : t) : result (list score_t * t) :=
  d ← DroppingTrees d;
  Ok (ScoreUpdater.score_ (GBDT.train_score_updater_ (gbdt d)), d).

End Epsilon.

(** The loop of [Normalize]. *)
Fixpoint normalize_trees (shrinkage_rate k : double) (ts : list (nat * nat))
    (models : list Tree.t) (train : ScoreUpdater.t) (valid : list ScoreUpdater.t)
    : result (list Tree.t * ScoreUpdater.t * list ScoreUpdater.t) :=
  match ts with
  | [] => Ok (models, train, valid)
  | (curr_tree, curr_class) :: ts' =>
      tree ← readn models curr_tree;
      (* update validation score *)
      let tree := Tree.Shrinkage shrinkage_rate tree in
      valid ← GBDT.AddScore_each tree curr_class valid;
      (* update training score *)
      let tree := Tree.Shrinkage (- k)%Qc tree in
      train ← ScoreUpdater.AddScore tree curr_class train;
      normalize_trees shrinkage_rate k ts' (<[curr_tree := tree]> models)
        train valid
  end.

Definition Normalize (d : t) : result t :=
  let g := gbdt d in
  let k := Qc_of_Z (Z.of_nat (length (drop_index_ d))) in
  '(models, train, valid) ←
    normalize_trees (shrinkage_rate_ d) k
      (targets (drop_index_ d) (GBDT.num_class g))
      (GBDT.models_ g) (GBDT.train_score_updater_ g) (GBDT.valid_score_updater_ g);
  Ok (with_gbdt d
        (GBDT.with_valid_score
           (GBDT.with_train_score (GBDT.with_models g models) train) valid)).

(** [TrainOneIter(gradient, hessian, is_eval)]: the loop over the classes
    is the one of [GBDT::TrainOneIter] with [shrinkage_rate_] in the place
    of the learning rate. *)
Definition TrainOneIter (gradient hessian : option (list score_t))
    (is_eval : bool) (d : t) : result (bool * t) :=
  '(gradient, hessian) ← GBDT.gradients gradient hessian (gbdt d);
  '(stop, g) ← GBDT.train_classes (shrinkage_rate_ d) gradient hessian
                  (seq 0 (GBDT.num_class (gbdt d))) (gbdt d);
  if stop : bool then Ok (true, with_gbdt d g)
  else
    (* normalize *)
    d ← Normalize (with_gbdt d g);
    '(is_met_early_stopping, g) ← GBDT.finish_iter is_eval (gbdt d);
    Ok (is_met_early_stopping, with_gbdt d g).

(** One iteration as the callers of the library run it: the training scores
    are asked for, which drops the trees, then the iteration is trained. *)
Definition iteration (kEpsilon : double)
    (gradient hessian : option (list score_t))
    (is_eval : bool) (d : t) : result (bool * t) :=
  '(_, d) ← GetTrainingScore kEpsilon d;
  TrainOneIter gradient hessian is_eval d.

End DART.

(** ** Boosting (boosting/boosting.cpp) *)

Module TextReader.
(** What a [TextReader] gives for a file (text_reader.h is not among the
    sources): its first line and, after [ReadAllLines], all of its lines. *)
Record t := {
  first_line : str;
  Lines : list str;
}.
End TextReader.

Module Boosting.

Inductive BoostingType : Type := kGBDT | kDART | kUnknow.

#[global] Instance BoostingType_eq_dec : EqDecision BoostingType.
Proof. solve_decision. Defined.

(** A [Boosting*] that is not null: one of the two classes. *)
Inductive t : Type :=
| of_GBDT (g : GBDT.t)
| of_DART (d : DART.t).

Definition GetBoostingTypeFromModelFile (file : TextReader.t) : BoostingType :=
  if decide (TextReader.first_line file = s#"gbdt") then kGBDT
  else if decide (TextReader.first_line file = s#"dart") then kDART
  else kUnknow.

Section Loading.

Variable Tree_of_string : str -> result Tree.t.

(** [str_buf << line << '\n'] for every line. *)
Definition file_text (file : TextReader.t) : str :=
  concat (map (fun line => line ++ [newline]) (TextReader.Lines file)).

Definition LoadFileToBoosting (boosting : option t) (file : TextReader.t)
    : result (option t) :=
  match boosting with
  | Some (of_GBDT g) =>
      g ← GBDT.ModelsFromString Tree_of_string (file_text file) g;
      Ok (Some (of_GBDT g))
  | Some (of_DART d) =>
      g ← GBDT.ModelsFromString Tree_of_string (file_text file) (DART.gbdt d);
      Ok (Some (of_DART (DART.with_gbdt d g)))
  | None => Ok None
  end.

(** [new GBDT()], [new DART()] or [nullptr]; [unset] gives the members the
    constructors leave unset. *)
Definition create (unset : GBDTConfig.t) (type : BoostingType) : option t :=
  match type with
  | kGBDT => Some (of_GBDT (GBDT.new unset))
  | kDART => Some (of_DART (DART.new unset))
  | kUnknow => None
  end.

(** [CreateBoosting(type, filename)]; [None] is a null or empty file
    name. *)
Definition CreateBoosting (unset : GBDTConfig.t) (type : BoostingType)
    (filename : option TextReader.t) : result (option t) :=
  match filename with
  | None => Ok (create unset type)
  | Some file =>
      let type_in_file := GetBoostingTypeFromModelFile file in
      if decide (type_in_file = type)
      then LoadFileToBoosting (create unset type) file
      else Fatal "Boosting type in parameter is not the same as the type in the model file"
  end.

(** [CreateBoosting(filename)] *)
Definition CreateBoosting_file (unset : GBDTConfig.t) (file : TextReader.t)
    : result (option t) :=
  LoadFileToBoosting (create unset (GetBoostingTypeFromModelFile file)) file.

End Loading.

End Boosting.

(** ** Predictor: the predictions for one line
       (src/application/predictor.hpp) *)

Module PredictLine.

(** [PredictRawOneLine(features)]: the returned vector and the predictor
    afterwards; [boosting] is the model [boosting_] points to and [tid] is
    [omp_get_thread_num()]. *)
Definition PredictRawOneLine (boosting : GBDT.t) (p : Predictor.t) (tid : nat)
    (features : list (Z * double)) : result (list double * Predictor.t) :=
  '(tid, p) ← Predictor.PutFeatureValuesToBuffer p tid features;
  buf ← readn (Predictor.features_ p) tid;
  (* get result without sigmoid transformation *)
  r ← GBDT.PredictRaw buf boosting;
  Ok ([r], p).

(** [PredictOneLine(features)] *)
Definition PredictOneLine (std_exp : double -> double) (boosting : GBDT.t)
    (p : Predictor.t) (tid : nat) (features : list (Z * double))
    : result (list double * Predictor.t) :=
  '(tid, p) ← Predictor.PutFeatureValuesToBuffer p tid features;
  buf ← readn (Predictor.features_ p) tid;
  (* get result with sigmoid transform if needed *)
  r ← GBDT.Predict std_exp buf boosting;
  Ok ([r], p).

(** [PredictMulticlassOneLine(features)] *)
Definition PredictMulticlassOneLine (boosting : GBDT.t) (p : Predictor.t)
    (tid : nat) (features : list (Z * double))
    : result (list double * Predictor.t) :=
  '(tid, p) ← Predictor.PutFeatureValuesToBuffer p tid features;
  buf ← readn (Predictor.features_ p) tid;
  r ← GBDT.PredictMulticlass buf boosting;
  Ok (r, p).

(** The numbers [predict_fun] of [Predict] prints for a model with more
    than one class: [PredictMulticlassOneLine] followed by [Softmax]. *)
Definition predict_fun_multiclass (std_exp : double -> double)
    (boosting : GBDT.t) (p : Predictor.t) (tid : nat)
    (features : list (Z * double)) : result (list double * Predictor.t) :=
  '(prediction, p) ← PredictMulticlassOneLine boosting p tid features;
  prediction ← Common.Softmax std_exp prediction;
  Ok (prediction, p).

End PredictLine.
(** ** The accessors of the C API (src/c_api.cpp) *)

Module CApi.

(** The element types a caller can announce; [dtype_other] stands for
    every value that is none of the known ones. *)
Inductive dtype := dtype_float32 | dtype_float64 | dtype_int32 | dtype_int64
                 | dtype_other.

(** [for (i = start; ...; ++i) ret.emplace_back(indices[i], data_ptr[i])],
    [n] rounds from [i] on. *)
Fixpoint pairs_from (indices : list Z) (data : list double) (i : Z) (n : nat)
    : result (list (Z * double)) :=
  match n with
  | O => Ok []
  | S n' =>
      c ← read indices i;
      v ← read data i;
      rest ← pairs_from indices data (i + 1) n';
      Ok ((c, v) :: rest)
  end.

(** The function [RowFunctionFromCSR] returns, applied to [idx]: the loop
    runs while [i <= end]. *)
Definition RowFunctionFromCSR (indptr : list Z) (indptr_type : dtype)
    (indices : list Z) (data : list double) (data_type : dtype)
    (nindptr nelem : Z) (idx : Z) : result (list (Z * double)) :=
  match data_type, indptr_type with
  | (dtype_float32 | dtype_float64), (dtype_int32 | dtype_int64) =>
      next ← int_op (idx + 1);
      if negb (next <? nindptr) then Fatal "Check failed: idx + 1 < nindptr"
      else
        start ← read indptr idx;
        end_ ← read indptr next;
        if negb ((0 <=? start) && (end_ <=? nelem))
        then Fatal "Check failed: start >= 0 && end <= nelem"
        else pairs_from indices data start (Z.to_nat (end_ + 1 - start))
  | _, _ => Fatal "unknown data type in RowFunctionFromCSR"
  end.

(** The function [ColumnFunctionFromCSC] returns, applied to [idx]: the
    loop runs while [i < end]. *)
Definition ColumnFunctionFromCSC (col_ptr : list Z) (col_ptr_type : dtype)
    (indices : list Z) (data : list double) (data_type : dtype)
    (ncol_ptr nelem : Z) (idx : Z) : result (list (Z * double)) :=
  match data_type, col_ptr_type with
  | (dtype_float32 | dtype_float64), (dtype_int32 | dtype_int64) =>
      next ← int_op (idx + 1);
      if negb (next <? ncol_ptr) then Fatal "Check failed: idx + 1 < ncol_ptr"
      else
        start ← read col_ptr idx;
        end_ ← read col_ptr next;
        if negb ((0 <=? start) && (end_ <=? nelem))
        then Fatal "Check failed: start >= 0 && end <= nelem"
        else pairs_from indices data start (Z.to_nat (end_ - start))
  | _, _ => Fatal "unknown data type in ColumnFunctionFromCSC"
  end.

(** [while (j < data.size() && data[j].first < row_idx) ++j]: the pairs
    from the new [j] on. *)
Fixpoint skip_below (data : list (Z * double)) (row_idx : Z)
    : list (Z * double) :=
  match data with
  | p :: data' => if p.1 <? row_idx then skip_below data' row_idx else data
  | [] => []
  end.

(** [SampleFromOneColumn(data, indices)]; [data] are the pairs from [j]
    on. *)
Fixpoint SampleFromOneColumn (data : list (Z * double)) (indices : list Z)
    : list double :=
  match indices with
  | [] => []
  | row_idx :: indices' =>
      let data := skip_below data row_idx in
      match data with
      | p :: _ => if p.1 =? row_idx then p.2 else 0%Qc
      | [] => 0%Qc
      end :: SampleFromOneColumn data indices'
  end.

(** A row of a row-major matrix: [tmp_ptr = data_ptr + num_col * row_idx],
    then [for (i = 0; i < num_col; ++i) ... *(tmp_ptr + i)], [n] rounds from
    [i] on.  [emit] is what is pushed for column [i] and its value: the
    value, or the pair. *)
Fixpoint row_major_from {A} (emit : Z -> double -> A) (data : list double)
    (offset i : Z) (n : nat) : result (list A) :=
  match n with
  | O => Ok []
  | S n' =>
      v ← read data (offset + i);
      rest ← row_major_from emit data offset (i + 1) n';
      Ok (emit i v :: rest)
  end.

(** A row of a column-major matrix:
    [for (i = 0; i < num_col; ++i) ... *(data_ptr + num_row * i + row_idx)]. *)
Fixpoint col_major_from {A} (emit : Z -> double -> A) (data : list double)
    (num_row row_idx i : Z) (n : nat) : result (list A) :=
  match n with
  | O => Ok []
  | S n' =>
      pos ← int_op (num_row * i);
      v ← read data (pos + row_idx);
      rest ← col_major_from emit data num_row row_idx (i + 1) n';
      Ok (emit i v :: rest)
  end.

(** The function [RowFunctionFromDenseMatric] returns, applied to
    [row_idx]; a [float] element is converted to the [double] of the same
    value. *)
Definition RowFunctionFromDenseMatric (data : list double)
    (num_row num_col : Z) (data_type : dtype) (is_row_major : Z) (row_idx : Z)
    : result (list double) :=
  match data_type with
  | dtype_float32 | dtype_float64 =>
      if negb (row_idx <? num_row) then Fatal "Check failed: row_idx < num_row"
      else if negb (is_row_major =? 0) then
        offset ← int_op (num_col * row_idx);
        row_major_from (fun _ v => v) data offset 0 (Z.to_nat num_col)
      else
        col_major_from (fun _ v => v) data num_row row_idx 0 (Z.to_nat num_col)
  | _ => Fatal "unknown data type in RowFunctionFromDenseMatric"
  end.

(** The function [RowPairFunctionFromDenseMatric] returns, applied to
    [row_idx]: [ret.emplace_back(i, ...)]. *)
Definition RowPairFunctionFromDenseMatric (data : list double)
    (num_row num_col : Z) (data_type : dtype) (is_row_major : Z) (row_idx : Z)
    : result (list (Z * double)) :=
  match data_type with
  | dtype_float32 | dtype_float64 =>
      if negb (row_idx <? num_row) then Fatal "Check failed: row_idx < num_row"
      else if negb (is_row_major =? 0) then
        offset ← int_op (num_col * row_idx);
        row_major_from pair data offset 0 (Z.to_nat num_col)
      else col_major_from pair data num_row row_idx 0 (Z.to_nat num_col)
  | _ => Fatal "unknown data type in RowPairFunctionFromDenseMatric"
  end.

End CApi.
(** ** OrderedSparseBin (io/ordered_sparse_bin.hpp) *)

Module OrderedSparseBin.

(** Pair to store one bin entry. *)
Record SparsePair := {
  ridx : nat;  (* data(row) index *)
  bin : nat;   (* bin for this data *)
}.

(** Modelled from the spec: [HistogramBinEntry] (bin.h is not among the
    sources).  "HistogramEntry for one bin: (sum_gradient: f64, sum_hessian:
    f64, count: u32)", with the names [ConstructHistogram] uses; the count is
    a number of rows and its wrap-around is not modelled. *)
Record HistogramBinEntry := {
  sum_gradients : score_t;
  sum_hessians : score_t;
  cnt : nat;
}.

Record t := {
  delta_ : list nat;
  vals_ : list nat;
  (* store non-zero pair, group by leaf *)
  ordered_pair_ : list SparsePair;
  (* leaf_start_[i] means data in i-th leaf start from *)
  leaf_start_ : list nat;
  (* leaf_cnt_[i] means number of data in i-th leaf *)
  leaf_cnt_ : list nat;
}.

(** The loop of the constructor over [vals_], from entry [i] on:
    [cur_pos += delta_[i]; if (vals_[i] > 0) emplace_back(cur_pos, vals_[i])]. *)
Fixpoint emplace_pairs (delta vals : list nat) (i cur_pos : nat)
    (ordered : list SparsePair) : result (list SparsePair) :=
  match vals with
  | [] => Ok ordered
  | v :: vals' =>
      d ← readn delta i;
      let cur_pos := (cur_pos + d)%nat in
      if decide (0 < v)%nat
      then emplace_pairs delta vals' (S i) cur_pos
             (ordered ++ [{| ridx := cur_pos; bin := v |}])
      else emplace_pairs delta vals' (S i) cur_pos ordered
  end.

(** [OrderedSparseBin(delta, vals)] *)
Definition create (delta vals : list nat) : result t :=
  ordered ← emplace_pairs delta vals 0 0 [];
  Ok {| delta_ := delta; vals_ := vals; ordered_pair_ := ordered;
        leaf_start_ := []; leaf_cnt_ := [] |}.

(** The loop of [Init] over [vals_], from entry [i] on; [is_used] is the
    second half of the condition, [used_idices[cur_pos] != 0] when a part of
    the data is used, and is evaluated for a non-zero value only.  The
    result is [j] and the pairs. *)
Fixpoint copy_pairs (is_used : nat -> result bool) (delta vals : list nat)
    (i cur_pos j : nat) (ordered : list SparsePair)
    : result (nat * list SparsePair) :=
  match vals with
  | [] => Ok (j, ordered)
  | v :: vals' =>
      d ← readn delta i;
      let cur_pos := (cur_pos + d)%nat in
      copy ← (if decide (0 < v)%nat then is_used cur_pos else Ok false);
      if copy : bool then
        ordered ← writen ordered j {| ridx := cur_pos; bin := v |};
        copy_pairs is_used delta vals' (S i) cur_pos (S j) ordered
      else copy_pairs is_used delta vals' (S i) cur_pos j ordered
  end.

Definition with_leaves (b : t) (ordered : list SparsePair)
    (leaf_start leaf_cnt : list nat) : t :=
  {| delta_ := delta_ b; vals_ := vals_ b; ordered_pair_ := ordered;
     leaf_start_ := leaf_start; leaf_cnt_ := leaf_cnt |}.

(** [Init(used_idices, num_leaves)]; [used_idices] is [None] for
    [nullptr].  A vector of a negative size is undefined. *)
Definition Init (used_idices : option (list Z)) (num_leaves : Z) (b : t)
    : result t :=
  if num_leaves <? 0 then Undefined
  else
    (* initialize the leaf information *)
    let leaf_start := replicate (Z.to_nat num_leaves) 0%nat in
    let leaf_cnt := replicate (Z.to_nat num_leaves) 0%nat in
    match used_idices with
    | None =>
        (* if using all data, copy all non-zero pair *)
        '(_, ordered) ← copy_pairs (fun _ => Ok true) (delta_ b) (vals_ b)
                           0 0 0 (ordered_pair_ b);
        leaf_cnt ← writen leaf_cnt 0 (length ordered);
        Ok (with_leaves b ordered leaf_start leaf_cnt)
    | Some used =>
        (* if using part of data(bagging) *)
        '(j, ordered) ← copy_pairs
                           (fun cur_pos => u ← readn used cur_pos;
                                           Ok (negb (u =? 0)))
                           (delta_ b) (vals_ b) 0 0 0 (ordered_pair_ b);
        leaf_cnt ← writen leaf_cnt 0 j;
        Ok (with_leaves b ordered leaf_start leaf_cnt)
    end.

(** The loop of [ConstructHistogram], [n] rounds from [i] on. *)
Fixpoint add_pairs (ordered : list SparsePair) (gradient hessian : list score_t)
    (i n : nat) (out : list HistogramBinEntry)
    : result (list HistogramBinEntry) :=
  match n with
  | O => Ok out
  | S n' =>
      p ← readn ordered i;
      g ← readn gradient (ridx p);
      h ← readn hessian (ridx p);
      e ← readn out (bin p);
      out ← writen out (bin p)
              {| sum_gradients := (sum_gradients e + g)%Qc;
                 sum_hessians := (sum_hessians e + h)%Qc;
                 cnt := S (cnt e) |};
      add_pairs ordered gradient hessian (S i) n' out
  end.

(** [ConstructHistogram(leaf, gradient, hessian, out)]: the loop runs from
    [leaf_start_[leaf]] to [start + leaf_cnt_[leaf]]. *)
Definition ConstructHistogram (leaf : nat) (gradient hessian : list score_t)
    (out : list HistogramBinEntry) (b : t) : result (list HistogramBinEntry) :=
  (* get current leaf boundary *)
  start ← readn (leaf_start_ b) leaf;
  c ← readn (leaf_cnt_ b) leaf;
  (* use data on current leaf to construct histogram *)
  add_pairs (ordered_pair_ b) gradient hessian start c out.

(** The loop of [Split], [n] rounds from [i] on; the result is
    [new_left_end] and the pairs. *)
Fixpoint split_pairs (left_indices : list Z) (i n new_left_end : nat)
    (ordered : list SparsePair) : result (nat * list SparsePair) :=
  match n with
  | O => Ok (new_left_end, ordered)
  | S n' =>
      p ← readn ordered i;
      c ← readn left_indices (ridx p);
      if negb (c =? 0) then
        (* std::swap(ordered_pair_[new_left_end], ordered_pair_[i]) *)
        q ← readn ordered new_left_end;
        ordered ← writen ordered new_left_end p;
        ordered ← writen ordered i q;
        split_pairs left_indices (S i) n' (S new_left_end) ordered
      else split_pairs left_indices (S i) n' new_left_end ordered
  end.

(** [Split(leaf, right_leaf, left_indices)] *)
Definition Split (leaf right_leaf : nat) (left_indices : list Z) (b : t)
    : result t :=
  (* get current leaf boundary *)
  l_start ← readn (leaf_start_ b) leaf;
  c ← readn (leaf_cnt_ b) leaf;
  let l_end := (l_start + c)%nat in
  (* new left leaf end after split *)
  '(new_left_end, ordered) ←
    split_pairs left_indices l_start c l_start (ordered_pair_ b);
  leaf_start ← writen (leaf_start_ b) right_leaf new_left_end;
  leaf_cnt ← writen (leaf_cnt_ b) leaf (new_left_end - l_start)%nat;
  leaf_cnt ← writen leaf_cnt right_leaf (l_end - new_left_end)%nat;
  Ok (with_leaves b ordered leaf_start leaf_cnt).

End OrderedSparseBin.

(** ** MulticlassSoftmax (objective/multiclass_objective.hpp) *)

Module MulticlassSoftmax.

Record t := {
  num_data_ : Z;
  num_class_ : Z;
  (* pointer of label *)
  label_ : list double;
  (* corresponding integers of label_ *)
  label_int_ : list Z;
  (* weights for data; [None] is [nullptr] *)
  weights_ : option (list double);
  is_empty_class_ : list bool;
  softmax_weight_decay_ : double;
  hessian_nor_ : score_t;
}.

(** [MulticlassSoftmax(config)]; the members the constructor does not set
    are given empty vectors and zeros. *)
Definition create (num_class : Z) : t :=
  {| num_data_ := 0; num_class_ := num_class; label_ := []; label_int_ := [];
     weights_ := None; is_empty_class_ := [];
     softmax_weight_decay_ := (1 / Qc_of_Z 1000)%Qc; hessian_nor_ := 0%Qc |}.

(** [v.resize(n)] for a vector of [int]. *)
Definition resize (n : nat) (v : list Z) : list Z :=
  take n v ++ replicate (n - length v) 0.

(** The first loop of [Init], [n] rounds from [i] on: the integer labels
    and the number of rows of every class. *)
Fixpoint count_labels (num_class : Z) (label : list double) (i : Z) (n : nat)
    (label_int cnt_per_class : list Z) : result (list Z * list Z) :=
  match n with
  | O => Ok (label_int, cnt_per_class)
  | S n' =>
      l ← read label i;
      v ← int_op (trunc l);
      label_int ← write label_int i v;
      if (v <? 0) || (num_class <=? v)
      then Fatal "Label must be in [0, %d), but found %d in label"
      else
        c ← read cnt_per_class v;
        c ← int_op (c + 1);
        cnt_per_class ← write cnt_per_class v c;
        count_labels num_class label (i + 1) n' label_int cnt_per_class
  end.

(** The second loop of [Init], [n] rounds from [i] on. *)
Fixpoint mark_empty (cnt_per_class : list Z) (i : Z) (n : nat)
    (non_empty_class : Z) (is_empty_class : list bool)
    : result (Z * list bool) :=
  match n with
  | O => Ok (non_empty_class, is_empty_class)
  | S n' =>
      c ← read cnt_per_class i;
      if 0 <? c then
        non_empty_class ← int_op (non_empty_class + 1);
        mark_empty cnt_per_class (i + 1) n' non_empty_class is_empty_class
      else
        is_empty_class ← write is_empty_class i true;
        mark_empty cnt_per_class (i + 1) n' non_empty_class is_empty_class
  end.

(** [Init(metadata, num_data)]; [label] and [weights] are what
    [metadata.label()] and [metadata.weights()] return.  Vectors of a
    negative size are undefined. *)
Definition Init (label : list double) (weights : option (list double))
    (num_data : Z) (o : t) : result t :=
  if (num_data <? 0) || (num_class_ o <? 0) then Undefined
  else
    let label_int := resize (Z.to_nat num_data) (label_int_ o) in
    let cnt_per_class := replicate (Z.to_nat (num_class_ o)) 0 in
    '(label_int, cnt_per_class) ←
      count_labels (num_class_ o) label 0 (Z.to_nat num_data) label_int
        cnt_per_class;
    '(non_empty_class, is_empty_class) ←
      mark_empty cnt_per_class 0 (Z.to_nat (num_class_ o)) 0
        (replicate (Z.to_nat (num_class_ o)) false);
    let non_empty_class := if non_empty_class <? 2 then 2 else non_empty_class in
    Ok {| num_data_ := num_data; num_class_ := num_class_ o;
          label_ := label; label_int_ := label_int; weights_ := weights;
          is_empty_class_ := is_empty_class;
          softmax_weight_decay_ := softmax_weight_decay_ o;
          hessian_nor_ := (Qc_of_Z non_empty_class
                           / Qc_of_Z (non_empty_class - 1))%Qc |}.

Section GetGradients.
Variable std_exp : double -> double.

(** [rec[k] = score[num_data_ * k + i]], [n] rounds from [k] on. *)
Fixpoint collect (score : list double) (num_data i k : Z) (n : nat)
    : result (list double) :=
  match n with
  | O => Ok []
  | S n' =>
      s ← read score (num_data * k + i);
      rest ← collect score num_data i (k + 1) n';
      Ok (s :: rest)
  end.

(** [x * weights_[i]] in the branch with weights, [x] in the other one. *)
Definition weighted (o : t) (i : Z) (x : double) : result score_t :=
  match weights_ o with
  | None => Ok x
  | Some weights => w ← read weights i; Ok (x * w)%Qc
  end.

(** The loop over the classes that writes the gradients and hessians of row
    [i], [n] rounds from [k] on. *)
Fixpoint write_classes (o : t) (score rec : list double) (i k : Z) (n : nat)
    (gradients hessians : list score_t)
    : result (list score_t * list score_t) :=
  match n with
  | O => Ok (gradients, hessians)
  | S n' =>
      e ← read (is_empty_class_ o) k;
      if e : bool then
        write_classes o score rec i (k + 1) n' gradients hessians
      else
        p ← read rec k;
        let idx := num_data_ o * k + i in
        l ← read (label_int_ o) i;
        s ← read score idx;
        g ← weighted o i
              (if l =? k then p - 1 + softmax_weight_decay_ o * s
               else p + softmax_weight_decay_ o * s)%Qc;
        gradients ← write gradients idx g;
        h ← weighted o i
              (hessian_nor_ o * p * (1 - p) + softmax_weight_decay_ o)%Qc;
        hessians ← write hessians idx h;
        write_classes o score rec i (k + 1) n' gradients hessians
  end.

(** The loop over the rows, [n] rounds from [i] on. *)
Fixpoint rows (o : t) (score : list double) (i : Z) (n : nat)
    (gradients hessians : list score_t)
    : result (list score_t * list score_t) :=
  match n with
  | O => Ok (gradients, hessians)
  | S n' =>
      rec ← collect score (num_data_ o) i 0 (Z.to_nat (num_class_ o));
      rec ← Common.Softmax std_exp rec;
      '(gradients, hessians) ←
        write_classes o score rec i 0 (Z.to_nat (num_class_ o))
          gradients hessians;
      rows o score (i + 1) n' gradients hessians
  end.

(** [GetGradients(score, gradients, hessians)]: the two arrays afterwards. *)
Definition GetGradients (o : t) (score : list double)
    (gradients hessians : list score_t)
    : result (list score_t * list score_t) :=
  rows o score 0 (Z.to_nat (num_data_ o)) gradients hessians.

End GetGradients.

End MulticlassSoftmax.

(** ** Small configurations used to exercise the definitions *)

Module Examples.

Definition half : double := Q2Qc (1 # 2).

(** A tree with two leaves, split on feature 0 at 1/2. *)
Definition stump (a b : double) : Tree.t :=
  Tree.Node 0 half (Tree.Leaf a) (Tree.Leaf b).

(** One class, every seed the constant sequence 1/2, a learner that always
    returns the stump with leaf values 1 and 3. *)
Definition config (bagging_fraction : double) (bagging_freq : nat)
    (early_stopping_round : Z) : GBDTConfig.t :=
  {| GBDTConfig.num_class := 1;
     GBDTConfig.learning_rate := half;
     GBDTConfig.bagging_fraction := bagging_fraction;
     GBDTConfig.bagging_seed := fun _ => half;
     GBDTConfig.bagging_freq := bagging_freq;
     GBDTConfig.output_freq := 1;
     GBDTConfig.early_stopping_round := early_stopping_round;
     GBDTConfig.tree_learner_type := fun _ _ _ _ => stump 1%Qc (Qc_of_Z 3);
     GBDTConfig.drop_rate := 0%Qc;
     GBDTConfig.dropping_seed := fun _ => half |}.

(** Six rows in three queries of two rows each. *)
Definition ranking_data : Dataset.t :=
  {| Dataset.num_data_ := 6;
     Dataset.rows_ := [[0]; [1]; [0]; [1]; [0]; [1]]%Qc;
     Dataset.metadata_ :=
       {| Metadata.num_data_ := 6; Metadata.num_class_ := 1;
          Metadata.weights_ := [];
          Metadata.query_boundaries_ := [0; 2; 4; 6];
          Metadata.num_queries_ := 3; Metadata.query_weights_ := [] |} |}.

(** Two rows, no queries. *)
Definition two_rows : Dataset.t :=
  {| Dataset.num_data_ := 2;
     Dataset.rows_ := [[0]; [1]]%Qc;
     Dataset.metadata_ :=
       {| Metadata.num_data_ := 2; Metadata.num_class_ := 1;
          Metadata.weights_ := []; Metadata.query_boundaries_ := [];
          Metadata.num_queries_ := 0; Metadata.query_weights_ := [] |} |}.

(** A validation metric that never improves, and an objective. *)
Definition plateau_metric : Metric.t :=
  {| Metric.Eval := fun _ => [1%Qc]; Metric.is_bigger_better := false |}.

Definition objective : ObjectiveFunction.t :=
  {| ObjectiveFunction.GetGradients := fun sc => (sc, sc);
     ObjectiveFunction.GetSigmoid := (- 1)%Qc |}.

(** The controller after [Init] and one [AddDataset], with
    [early_stopping_round = 1] and no bagging. *)
Definition early_stop_start : GBDT.t :=
  GBDT.AddDataset two_rows [plateau_metric]
    (GBDT.Init (config 1%Qc 0 1) two_rows (Some objective)
       (GBDT.new (config 1%Qc 0 1))).

(** The controller a call leaves behind. *)
Definition state_after (r : result (bool * GBDT.t)) : GBDT.t :=
  match r with
  | Ok (_, g) => g
  | _ => early_stop_start
  end.



(** Model texts.  [text_of] ends every line with a newline, as a text that
    was read from a file does. *)
Definition text_of (lines : list string) : str :=
  concat (map (fun line => s#line ++ [newline]) lines).

(** A parser that takes every block for the stump with leaves 1 and 3. *)
Definition parse_stump : str -> result Tree.t :=
  fun _ => Ok (stump 1%Qc (Qc_of_Z 3)).

Definition blank : GBDT.t := GBDT.new (config 1%Qc 0 0).

Definition model_two_trees : str :=
  text_of ["gbdt"; "num_class=1"; "label_index=0"; "max_feature_idx=3";
           "Tree=0"; "num_leaves=2"; "Tree=1"; "num_leaves=2"]%string.

Definition model_without_label : str :=
  text_of ["gbdt"; "num_class=1"; "max_feature_idx=3"]%string.

Definition model_bad_sigmoid : str :=
  text_of ["gbdt"; "num_class=1"; "label_index=0"; "max_feature_idx=3";
           "sigmoid=abc"]%string.

(** The same headers, the last of them on the last line: the text does not
    end with a newline. *)
Definition model_header_last : str :=
  s#"gbdt" ++ [newline] ++ s#"num_class=1" ++ [newline]
  ++ s#"label_index=0" ++ [newline] ++ s#"max_feature_idx=3".

Definition dart_file : TextReader.t :=
  {| TextReader.first_line := s#"dart";
     TextReader.Lines := [s#"dart"; s#"num_class=1"; s#"label_index=0";
                          s#"max_feature_idx=3"] |}.

(** A loaded model with sigmoid 2. *)
Definition with_sigmoid_2 : GBDT.t :=
  GBDT.with_loaded blank 1 0 3 (Qc_of_Z 2)
    [stump 1%Qc (Qc_of_Z 3); stump 1%Qc (Qc_of_Z 3)] 2.

Definition loaded_or_blank (r : result GBDT.t) : GBDT.t :=
  match r with
  | Ok g => g
  | _ => blank
  end.

(** The model [ModelsFromString] makes of the text with two trees. *)
Definition loaded : GBDT.t :=
  loaded_or_blank (GBDT.ModelsFromString parse_stump model_two_trees blank).

(** A value for [kEpsilon]. *)
Definition kEpsilon : double := (1 / Qc_of_Z (10 ^ 15))%Qc.






(** One class, a learning rate of 1, no bagging, [drop_rate = 0]. *)
Definition plain_config : GBDTConfig.t :=
  {| GBDTConfig.num_class := 1;
     GBDTConfig.learning_rate := 1%Qc;
     GBDTConfig.bagging_fraction := 1%Qc;
     GBDTConfig.bagging_seed := fun _ => half;
     GBDTConfig.bagging_freq := 0;
     GBDTConfig.output_freq := 1;
     GBDTConfig.early_stopping_round := 0;
     GBDTConfig.tree_learner_type := fun _ _ _ _ => stump 1%Qc (Qc_of_Z 3);
     GBDTConfig.drop_rate := 0%Qc;
     GBDTConfig.dropping_seed := fun _ => half |}.

(** A DART controller with that configuration, before its first iteration
    and after it. *)
Definition plain_start : DART.t :=
  let d := DART.Init plain_config two_rows (Some objective)
             (DART.new plain_config) in
  DART.with_gbdt d (GBDT.AddDataset two_rows [plateau_metric] (DART.gbdt d)).



(** The GBDT iteration from the state of [plain_start] and from the state
    of [plain_1]. *)
Definition plain_gbdt_1 : GBDT.t :=
  state_after (GBDT.TrainOneIter None None false (DART.gbdt plain_start)).



(** A stand-in for [std::exp] in the examples: positive everywhere. *)
Definition exp_like (x : double) : double :=
  if decide (0 <= x)%Qc then (1 + x)%Qc else (1 / (1 - x))%Qc.

(** A pool before [ResetSize], and the four-index pool with two slots that
    [ResetSize(2, 4)] makes of it. *)
Definition pool_unset : LRUPool.t nat :=
  {| LRUPool.pool_ := []; LRUPool.cache_size_ := 0;
     LRUPool.total_size_ := 0; LRUPool.is_enough_ := false;
     LRUPool.mapper_ := []; LRUPool.inverse_mapper_ := [];
     LRUPool.last_used_time_ := []; LRUPool.cur_time_ := 0 |}.

Definition pool_2_4 : LRUPool.t nat :=
  {| LRUPool.pool_ := [7; 7]%nat; LRUPool.cache_size_ := 2;
     LRUPool.total_size_ := 4; LRUPool.is_enough_ := false;
     LRUPool.mapper_ := [-1; -1; -1; -1];
     LRUPool.inverse_mapper_ := [-1; -1];
     LRUPool.last_used_time_ := [0; 0]; LRUPool.cur_time_ := 0 |}.

(** The pool after [Get(3)]: index 3 sits in slot 0. *)
Definition pool_got_3 : LRUPool.t nat :=
  match LRUPool.Get 3 pool_2_4 with
  | Ok (_, _, p) => p
  | _ => pool_2_4
  end.

(** Five rows with weights and no queries yet. *)
Definition weighted_meta : Metadata.t :=
  {| Metadata.num_data_ := 5; Metadata.num_class_ := 1;
     Metadata.weights_ := [1; 1; 1; 1; 1]%Qc;
     Metadata.query_boundaries_ := [];
     Metadata.num_queries_ := 0; Metadata.query_weights_ := [] |}.

(** Four rows on leaf 0 of three leaves, two threads: the partition after
    [Init]; and a dense column. *)
Definition partition_4 : DataPartition.t :=
  {| DataPartition.num_data_ := 4; DataPartition.num_leaves_ := 3;
     DataPartition.leaf_begin_ := [0; 0; 0]%nat;
     DataPartition.leaf_count_ := [4; 0; 0]%nat;
     DataPartition.indices_ := [0; 1; 2; 3]%nat;
     DataPartition.used_data_indices_ := None;
     DataPartition.used_data_count_ := 0;
     DataPartition.num_threads_ := 2 |}.

Definition column_0101 : DenseBin := [0; 1; 0; 1]%nat.

(** [partition_4] after leaf 0 was split on [column_0101] at threshold 0
    into the leaves 0 and 1. *)
Definition partition_4_split : DataPartition.t :=
  {| DataPartition.num_data_ := 4; DataPartition.num_leaves_ := 3;
     DataPartition.leaf_begin_ := [0; 2; 0]%nat;
     DataPartition.leaf_count_ := [2; 2; 0]%nat;
     DataPartition.indices_ := [0; 2; 1; 3]%nat;
     DataPartition.used_data_indices_ := None;
     DataPartition.used_data_count_ := 0;
     DataPartition.num_threads_ := 2 |}.

(** A loaded model with two classes and two iterations, and a two-thread
    predictor over its four features. *)
Definition two_class_model : GBDT.t :=
  GBDT.with_loaded blank 2 0 3 (- 1)%Qc
    [stump 1%Qc (Qc_of_Z 3); stump 0%Qc 1%Qc;
     stump 1%Qc (Qc_of_Z 3); stump 0%Qc 1%Qc] 2.

Definition predictor_4 : Predictor.t :=
  {| Predictor.num_features_ := 4; Predictor.num_threads_ := 2;
     Predictor.features_ := [[1; 1; 1; 1]; [1; 1; 1; 1]]%Qc |}.

(** [plain_start] and [plain_1] after [GetTrainingScore]. *)
Definition dropped_of (d : DART.t) : DART.t :=
  match DART.GetTrainingScore kEpsilon d with
  | Ok (_, d') => d'
  | _ => d
  end.


(** [plain_config] with [drop_rate = 3/4]: every draw, 1/2, is below it.
    A DART controller with that configuration after two iterations. *)
Definition dropping_config : GBDTConfig.t :=
  {| GBDTConfig.num_class := 1;
     GBDTConfig.learning_rate := 1%Qc;
     GBDTConfig.bagging_fraction := 1%Qc;
     GBDTConfig.bagging_seed := fun _ => half;
     GBDTConfig.bagging_freq := 0;
     GBDTConfig.output_freq := 1;
     GBDTConfig.early_stopping_round := 0;
     GBDTConfig.tree_learner_type := fun _ _ _ _ => stump 1%Qc (Qc_of_Z 3);
     GBDTConfig.drop_rate := Q2Qc (3 # 4);
     GBDTConfig.dropping_seed := fun _ => half |}.

Definition dropping_start : DART.t :=
  let d := DART.Init dropping_config two_rows (Some objective)
             (DART.new dropping_config) in
  DART.with_gbdt d (GBDT.AddDataset two_rows [plateau_metric] (DART.gbdt d)).

Definition dropping_next (d : DART.t) : DART.t :=
  match DART.iteration kEpsilon None None false d with
  | Ok (_, d') => d'
  | _ => d
  end.

Definition dropping_2 : DART.t := dropping_next (dropping_next dropping_start).

(** A sparse column over five rows: bin 2 in row 0, bin 0 stored for row 1,
    bin 1 in row 3 and bin 2 in row 4; its ordered bin after [Init] for two
    leaves on all rows. *)
Definition sparse_delta : list nat := [0; 1; 2; 1]%nat.
Definition sparse_vals : list nat := [2; 0; 1; 2]%nat.

Definition sparse_bin : OrderedSparseBin.t :=
  match b ← OrderedSparseBin.create sparse_delta sparse_vals;
        OrderedSparseBin.Init None 2 b with
  | Ok b => b
  | _ => {| OrderedSparseBin.delta_ := []; OrderedSparseBin.vals_ := [];
            OrderedSparseBin.ordered_pair_ := [];
            OrderedSparseBin.leaf_start_ := [];
            OrderedSparseBin.leaf_cnt_ := [] |}
  end.

(** Rows 0 and 4 go to the left. *)
Definition sparse_mask : list Z := [1; 0; 0; 0; 1].

Definition ones : list score_t := [1; 1; 1; 1; 1]%Qc.

Definition empty_histogram : list OrderedSparseBin.HistogramBinEntry :=
  replicate 3 {| OrderedSparseBin.sum_gradients := 0%Qc;
                 OrderedSparseBin.sum_hessians := 0%Qc;
                 OrderedSparseBin.cnt := 0 |}.

(** The matrix with the rows (1, 2) and (3, 4), stored row after row and
    column after column. *)
Definition matrix_2x2 (r i : Z) : double := Qc_of_Z (2 * r + i + 1).
Definition row_major_2x2 : list double := Qc_of_Z <$> [1; 2; 3; 4].
Definition col_major_2x2 : list double := Qc_of_Z <$> [1; 3; 2; 4].

(** A softmax objective for two classes, initialised on two rows with the
    labels 0 and 1, and scores that are all zero. *)
Definition softmax_objective : MulticlassSoftmax.t :=
  match MulticlassSoftmax.Init [0; 1]%Qc None 2 (MulticlassSoftmax.create 2) with
  | Ok o => o
  | _ => MulticlassSoftmax.create 2
  end.

Definition zero_scores : list double := [0; 0; 0; 0]%Qc.
End Examples.

(** ** Auxiliary notions used in the statements *)

(** Boundaries that do not decrease. *)
Definition qb_monotone (qb : list nat) : Prop :=
  forall i x y, qb !! i = Some x -> qb !! S i = Some y -> (x <= y)%nat.

(** The parts of the controller that the loop over the classes leaves
    alone. *)
Record same_control (g g' : GBDT.t) : Prop := {
  sc_config : GBDT.gbdt_config_ g' = GBDT.gbdt_config_ g;
  sc_iter : GBDT.iter_ g' = GBDT.iter_ g;
  sc_data : GBDT.train_data_ g' = GBDT.train_data_ g;
  sc_objective : GBDT.object_function_ g' = GBDT.object_function_ g;
  sc_metrics : GBDT.valid_metrics_ g' = GBDT.valid_metrics_ g;
  sc_best_iter : GBDT.best_iter_ g' = GBDT.best_iter_ g;
  sc_best_score : GBDT.best_score_ g' = GBDT.best_score_ g;
  sc_esr : GBDT.early_stopping_round_ g' = GBDT.early_stopping_round_ g;
  sc_num_class : GBDT.num_class_ g' = GBDT.num_class_ g;
  sc_num_data : GBDT.num_data_ g' = GBDT.num_data_ g;
  sc_valid_len : length (GBDT.valid_score_updater_ g')
                 = length (GBDT.valid_score_updater_ g);
  sc_learner_len : length (GBDT.tree_learner_ g')
                   = length (GBDT.tree_learner_ g);
  sc_sigmoid : GBDT.sigmoid_ g' = GBDT.sigmoid_ g;
}.

(** The sum of a list of scores. *)
Definition Qsum (l : list Qc) : Qc := foldr Qcplus 0%Qc l.






(** The trees of class [curr_class] at the iterations [drop_index]. *)
Definition dropped_trees (models : list Tree.t) (drop_index : list nat)
    (num_class curr_class : nat) : list Tree.t :=
  omap (fun i => models !! (i * num_class + curr_class)%nat) drop_index.

(** The sum of the predictions of [trees] on a row. *)
Definition predictions (trees : list Tree.t) (value : list double) : score_t :=
  Qsum (map (fun t => Tree.Predict t value) trees).





(** ** Further notions used in the statements *)

(** A bin that splits row by row: splitting a sequence of rows is splitting
    its parts. *)
Definition splits_rowwise {B : Type} `{Bin B} (b : B) (threshold : nat) : Prop :=
  forall rows1 rows2,
    BinSplit b threshold (rows1 ++ rows2)
    = ((BinSplit b threshold rows1).1 ++ (BinSplit b threshold rows2).1,
       (BinSplit b threshold rows1).2 ++ (BinSplit b threshold rows2).2).

(** The row a list of (index, value) pairs stands for, over [num_features]
    features: at every position the value of the last pair with that index,
    0 when there is none. *)
Definition dense_row (num_features : Z) (features : list (Z * double))
    : list double :=
  map (fun j => default 0%Qc (Predictor.last_value features (Z.of_nat j)))
      (seq 0 (Z.to_nat num_features)).

(** The trees of class [curr_class] among the first [n] iterations. *)
Definition class_trees (models : list Tree.t) (n num_class curr_class : nat)
    : list Tree.t :=
  dropped_trees models (seq 0 n) num_class curr_class.

(** The value a column stored as (row, value) pairs has at [row_idx]: that
    of the first pair for the row, 0 when there is none. *)
Fixpoint column_value (data : list (Z * double)) (row_idx : Z) : double :=
  match data with
  | [] => 0%Qc
  | p :: data' => if p.1 =? row_idx then p.2 else column_value data' row_idx
  end.

(** The stored elements at the positions [lo .. hi) of a compressed
    matrix. *)
Definition stored (indices : list Z) (data : list double) (lo hi : Z)
    : list (Z * double) :=
  take (Z.to_nat (hi - lo)) (drop (Z.to_nat lo) (zip indices data)).



(** *** Notions for the ordered sparse bin *)

(** The pairs of a leaf: [leaf_cnt_[leaf]] pairs from [leaf_start_[leaf]]
    on. *)
Definition leaf_pairs (b : OrderedSparseBin.t) (leaf : nat)
    : list OrderedSparseBin.SparsePair :=
  take (default 0%nat (OrderedSparseBin.leaf_cnt_ b !! leaf))
       (drop (default 0%nat (OrderedSparseBin.leaf_start_ b !! leaf))
             (OrderedSparseBin.ordered_pair_ b)).

(** The entries of a sparse column: entry [k] has the bin [vals[k]] and
    lies in the row that is the sum of the gaps up to it. *)
Definition sparse_entries (delta vals : list nat)
    : list OrderedSparseBin.SparsePair :=
  imap (fun k v => {| OrderedSparseBin.ridx := sum_list (take (S k) delta);
                      OrderedSparseBin.bin := v |}) vals.

(** The entries from entry [i] on. *)
Definition sparse_entries_from (delta : list nat) (i : nat) (vals : list nat)
    : list OrderedSparseBin.SparsePair :=
  imap (fun k v => {| OrderedSparseBin.ridx := sum_list (take (S (i + k)) delta);
                      OrderedSparseBin.bin := v |}) vals.

(** The row of a pair is marked in a mask of chars. *)
Definition marked (mask : list Z) (p : OrderedSparseBin.SparsePair) : Prop :=
  default 0 (mask !! OrderedSparseBin.ridx p) <> 0.

(** The rows in use: all of them without a mask. *)
Definition in_use (used_idices : option (list Z))
    (p : OrderedSparseBin.SparsePair) : Prop :=
  match used_idices with
  | None => True
  | Some used => marked used p
  end.

#[global] Instance in_use_dec used_idices p : Decision (in_use used_idices p).
Proof. destruct used_idices; simpl; unfold marked; apply _. Defined.

(** What the rows of [pairs] contribute to the entry of [bin]. *)
Definition contribution_of (pairs : list OrderedSparseBin.SparsePair)
    (gradient hessian : list score_t) (bin : nat)
    : OrderedSparseBin.HistogramBinEntry :=
  let rows := OrderedSparseBin.ridx
              <$> filter (fun p => OrderedSparseBin.bin p = bin) pairs in
  {| OrderedSparseBin.sum_gradients :=
       Qsum ((fun r => default 0%Qc (gradient !! r)) <$> rows);
     OrderedSparseBin.sum_hessians :=
       Qsum ((fun r => default 0%Qc (hessian !! r)) <$> rows);
     OrderedSparseBin.cnt := length rows |}.

Definition add_entry (e1 e2 : OrderedSparseBin.HistogramBinEntry)
    : OrderedSparseBin.HistogramBinEntry :=
  {| OrderedSparseBin.sum_gradients :=
       (OrderedSparseBin.sum_gradients e1 + OrderedSparseBin.sum_gradients e2)%Qc;
     OrderedSparseBin.sum_hessians :=
       (OrderedSparseBin.sum_hessians e1 + OrderedSparseBin.sum_hessians e2)%Qc;
     OrderedSparseBin.cnt :=
       (OrderedSparseBin.cnt e1 + OrderedSparseBin.cnt e2)%nat |}.

(** *** Notions for the multiclass objective *)

(** The scores of row [i], class after class. *)
Definition row_scores (o : MulticlassSoftmax.t) (score : list double) (i : Z)
    : list double :=
  (fun k => default 0%Qc
              (score !! Z.to_nat (MulticlassSoftmax.num_data_ o * Z.of_nat k + i)))
  <$> seq 0 (Z.to_nat (MulticlassSoftmax.num_class_ o)).

(** The value with the weight of row [i], if there are weights. *)
Definition weighted_value (o : MulticlassSoftmax.t) (i : Z) (x : double)
    : score_t :=
  match MulticlassSoftmax.weights_ o with
  | None => x
  | Some weights => (x * default 0%Qc (weights !! Z.to_nat i))%Qc
  end.

(** Writes to an array, one after the other. *)
Definition apply_updates (us : list (nat * score_t)) (l : list score_t)
    : list score_t :=
  foldl (fun l u => <[u.1 := u.2]> l) l us.

(** The writes of the loop over the classes for row [i], [n] classes from
    [k] on, and of the loop over the rows, [n] rows from [i] on, when
    [val i k] is the value written for row [i] and class [k]. *)
Fixpoint class_updates (val : Z -> Z -> score_t) (o : MulticlassSoftmax.t)
    (i k : Z) (n : nat) : list (nat * score_t) :=
  match n with
  | O => []
  | S n' =>
      (if default false (MulticlassSoftmax.is_empty_class_ o !! Z.to_nat k)
       then []
       else [(Z.to_nat (MulticlassSoftmax.num_data_ o * k + i), val i k)])
      ++ class_updates val o i (k + 1) n'
  end.

Fixpoint row_updates (val : Z -> Z -> score_t) (o : MulticlassSoftmax.t)
    (i : Z) (n : nat) : list (nat * score_t) :=
  match n with
  | O => []
  | S n' =>
      class_updates val o i 0 (Z.to_nat (MulticlassSoftmax.num_class_ o))
      ++ row_updates val o (i + 1) n'
  end.

(** The gradient and the hessian of row [i] and class [k], for the
    probability [p] of the class. *)
Definition gradient_of (o : MulticlassSoftmax.t) (score : list double)
    (i k : Z) (p : double) : score_t :=
  let s := default 0%Qc
             (score !! Z.to_nat (MulticlassSoftmax.num_data_ o * k + i)) in
  let l := default 0 (MulticlassSoftmax.label_int_ o !! Z.to_nat i) in
  weighted_value o i
    (if l =? k then p - 1 + MulticlassSoftmax.softmax_weight_decay_ o * s
     else p + MulticlassSoftmax.softmax_weight_decay_ o * s)%Qc.

Definition hessian_of (o : MulticlassSoftmax.t) (i : Z) (p : double)
    : score_t :=
  weighted_value o i
    (MulticlassSoftmax.hessian_nor_ o * p * (1 - p)
     + MulticlassSoftmax.softmax_weight_decay_ o)%Qc.

(** The probability [Softmax] gives class [k] in row [i]. *)
Definition probability (std_exp : double -> double) (o : MulticlassSoftmax.t)
    (score : list double) (i k : Z) : double :=
  match Common.Softmax std_exp (row_scores o score i) with
  | Ok probs => default 0%Qc (probs !! Z.to_nat k)
  | _ => 0%Qc
  end.

(** The arrays have the sizes the objective expects: [num_data_] labels and
    weights, [num_class_] flags, and a score for every row and class. *)
Record arrays_fit (o : MulticlassSoftmax.t) (score : list double) : Prop := {
  fit_classes : 0 < MulticlassSoftmax.num_class_ o;
  fit_data : 0 <= MulticlassSoftmax.num_data_ o;
  fit_score : Z.of_nat (length score)
              = MulticlassSoftmax.num_data_ o * MulticlassSoftmax.num_class_ o;
  fit_label : Z.of_nat (length (MulticlassSoftmax.label_int_ o))
              = MulticlassSoftmax.num_data_ o;
  fit_empty : Z.of_nat (length (MulticlassSoftmax.is_empty_class_ o))
              = MulticlassSoftmax.num_class_ o;
  fit_weights : forall weights,
    MulticlassSoftmax.weights_ o = Some weights ->
    Z.of_nat (length weights) = MulticlassSoftmax.num_data_ o;
}.
(** * Properties *)

(** ** Array access *)

Lemma read_Ok {A} (a : list A) i x :
  read a i = Ok x <-> 0 <= i /\ a !! Z.to_nat i = Some x.
Proof.
  unfold read. destruct (Z.leb_spec 0 i).
  - destruct (a !! Z.to_nat i) eqn:E; split; intros HH;
      [injection HH as -> | destruct HH as [_ [= ->]] | | destruct HH as [_ [=]]];
      auto; discriminate.
  - split; [congruence | lia].
Qed.

Lemma read_in_range {A} (a : list A) i :
  0 <= i < Z.of_nat (length a) -> exists x, read a i = Ok x /\ a !! Z.to_nat i = Some x.
Proof.
  intros Hi. destruct (lookup_lt_is_Some_2 a (Z.to_nat i)) as [x Hx]; [lia|].
  exists x. split; [|done]. apply read_Ok. split; [lia | done].
Qed.

Lemma write_Ok {A} (a : list A) i v a' :
  write a i v = Ok a' <->
  0 <= i /\ i < Z.of_nat (length a) /\ a' = <[Z.to_nat i := v]> a.
Proof.
  unfold write.
  destruct (Z.leb_spec 0 i), (Z.ltb_spec i (Z.of_nat (length a))); simpl;
    (split; [intros HH; try discriminate; injection HH as <-; auto
            | intros (? & ? & ->); auto; lia]).
Qed.

Lemma write_in_range {A} (a : list A) i v :
  0 <= i < Z.of_nat (length a) -> write a i v = Ok (<[Z.to_nat i := v]> a).
Proof. intros. apply write_Ok. auto with lia. Qed.

Lemma write_length {A} (a : list A) i v a' :
  write a i v = Ok a' -> length a' = length a.
Proof. intros (_ & _ & ->)%write_Ok. by rewrite length_insert. Qed.

Lemma int_op_Ok z : INT_MIN <= z <= INT_MAX -> int_op z = Ok z.
Proof.
  intros. unfold int_op, in_int.
  destruct (Z.leb_spec INT_MIN z), (Z.leb_spec z INT_MAX); simpl; auto; lia.
Qed.

(** ** Predictor *)

Lemma put_all_spec (n : Z) (features : list (Z * double)) :
  Forall (fun q => 0 <= q.1) features ->
  forall buf : list double, Z.of_nat (length buf) = n ->
  exists buf',
    Predictor.put_all n buf features = Ok buf' /\
    length buf' = length buf /\
    forall j x, 0 <= j < n -> buf !! Z.to_nat j = Some x ->
      buf' !! Z.to_nat j = Some (default x (Predictor.last_value features j)).
Proof.
  induction 1 as [|p ps Hp Hps IH]; intros buf Hlen; simpl.
  - exists buf. auto.
  - unfold Predictor.put_one. destruct (Z.ltb_spec p.1 n) as [Hin|Hout].
    + rewrite write_in_range by lia. cbn.
      destruct (IH (<[Z.to_nat p.1 := p.2]> buf)) as (buf' & HE & HL & HV).
      { rewrite length_insert. lia. }
      exists buf'. split; [done|]. split; [by rewrite HL, length_insert|].
      intros j x Hj Hx.
      destruct (Z.eqb_spec p.1 j) as [E|Hne].
      * rewrite (HV j p.2 Hj) by (rewrite E; apply list_lookup_insert_eq; lia).
        by destruct (Predictor.last_value ps j).
      * rewrite (HV j x Hj) by (rewrite list_lookup_insert_ne; [done | lia]).
        by destruct (Predictor.last_value ps j).
    + cbn. destruct (IH buf Hlen) as (buf' & HE & HL & HV).
      exists buf'. split; [done|]. split; [done|].
      intros j x Hj Hx. rewrite (HV j x Hj Hx).
      destruct (Predictor.last_value ps j); [done|].
      destruct (Z.eqb_spec p.1 j); [lia | done].
Qed.



(** ** LRUPool *)

Section LRUPoolProps.
Context {T : Type}.
Implicit Types p : LRUPool.t T.

Lemma ArgMin_fold (a : list Z) (m s best : nat) :
  (best < s)%nat -> (s + m <= length a)%nat ->
  (forall j x y, (j < s)%nat -> a !! j = Some x -> a !! best = Some y -> y <= x) ->
  let r := foldl (fun best i =>
                    match a !! i, a !! best with
                    | Some x, Some y => if x <? y then i else best
                    | _, _ => best
                    end) best (seq s m) in
  (r < s + m)%nat /\
  forall j x y, (j < s + m)%nat -> a !! j = Some x -> a !! r = Some y -> y <= x.
Proof.
  revert s best. induction m as [|m IH]; intros s best Hb Hlen Hmin; simpl.
  - rewrite Nat.add_0_r. auto.
  - destruct (lookup_lt_is_Some_2 a s) as [x Hx]; [lia|].
    destruct (lookup_lt_is_Some_2 a best) as [y Hy]; [lia|].
    rewrite Hx, Hy.
    replace (s + S m)%nat with (S s + m)%nat by lia.
    destruct (Z.ltb_spec x y).
    + apply IH; [lia | lia |].
      intros j x' y' Hj Hx' Hy'. rewrite Hx in Hy'. injection Hy' as <-.
      destruct (decide (j = s)) as [->|].
      * rewrite Hx in Hx'. injection Hx' as <-. lia.
      * specialize (Hmin j x' y). 
        assert (y <= x') by (apply Hmin; auto with lia). lia.
    + apply IH; [lia | lia |].
      intros j x' y' Hj Hx' Hy'. rewrite Hy in Hy'. injection Hy' as <-.
      destruct (decide (j = s)) as [->|].
      * rewrite Hx in Hx'. injection Hx' as <-. lia.
      * apply (Hmin j x' y); auto with lia.
Qed.

(** [ArgMin] returns a position among the first [n] whose entry is least. *)
Lemma ArgMin_least (a : list Z) (n : nat) :
  (0 < n <= length a)%nat ->
  (LRUPool.ArgMin a n < n)%nat /\
  forall j x y, (j < n)%nat -> a !! j = Some x ->
    a !! LRUPool.ArgMin a n = Some y -> y <= x.
Proof.
  intros Hn. unfold LRUPool.ArgMin.
  destruct (ArgMin_fold a (n - 1) 1 0) as [H1 H2]; [lia | lia | |].
  - intros j x y Hj Hx Hy. assert (j = 0%nat) as -> by lia.
    rewrite Hx in Hy. injection Hy as <-. lia.
  - replace (1 + (n - 1))%nat with n in * by lia. auto.
Qed.

Lemma ResetSize_rejects (dflt : T) cache_size total_size p :
  cache_size < 2 -> is_Fatal (LRUPool.ResetSize dflt cache_size total_size p).
Proof.
  intros H. unfold LRUPool.ResetSize.
  destruct (Z.leb_spec 2 cache_size); [lia | exact I].
Qed.

Lemma ResetSize_wf (dflt : T) cache_size total_size p p' :
  LRUPool.ResetSize dflt cache_size total_size p = Ok p' ->
  LRUPool.is_enough_ p' = false ->
  LRUPool.wf p' /\ LRUPool.cache_size_ p' = cache_size /\ cache_size < total_size.
Proof.
  unfold LRUPool.ResetSize.
  destruct (Z.leb_spec 2 cache_size); simpl; [|discriminate].
  destruct (Z.ltb_spec total_size cache_size).
  - rewrite Z.eqb_refl. destruct (Z.ltb_spec total_size 0); [discriminate|].
    intros [= <-]. simpl. discriminate.
  - destruct (Z.eqb_spec cache_size total_size).
    + destruct (Z.ltb_spec cache_size 0); [discriminate|].
      intros [= <-]. simpl. discriminate.
    + destruct (Z.ltb_spec cache_size 0); [discriminate|].
      intros [= <-] _. split; [|simpl; lia].
      constructor; simpl; rewrite ?length_replicate; try lia; try done.
      * intros i s [-> _]%lookup_replicate. auto.
      * intros s i [-> _]%lookup_replicate. auto.
      * intros s u [-> _]%lookup_replicate. lia.
Qed.

End LRUPoolProps.

Section LRUPoolGet.
Context {T : Type}.
Implicit Types p : LRUPool.t T.

Lemma wf_cur_time_nonneg p : LRUPool.wf p -> 0 <= LRUPool.cur_time_ p.
Proof.
  intros W. destruct (lookup_lt_is_Some_2 (LRUPool.last_used_time_ p) 0) as [u Hu].
  - pose proof (LRUPool.wf_time_len p W). pose proof (LRUPool.wf_cache p W). lia.
  - pose proof (LRUPool.wf_time p W _ _ Hu). lia.
Qed.

Lemma Get_hit p idx m :
  LRUPool.wf p -> 0 <= idx < LRUPool.total_size_ p ->
  LRUPool.cur_time_ p < INT_MAX ->
  LRUPool.mapper_ p !! Z.to_nat idx = Some m -> 0 <= m ->
  exists out p',
    LRUPool.Get idx p = Ok (true, out, p') /\ LRUPool.wf p' /\
    LRUPool.pool_ p !! Z.to_nat m = Some out /\
    LRUPool.mapper_ p' = LRUPool.mapper_ p /\
    LRUPool.inverse_mapper_ p' = LRUPool.inverse_mapper_ p /\
    LRUPool.cur_time_ p' = LRUPool.cur_time_ p + 1 /\
    LRUPool.last_used_time_ p' !! Z.to_nat m = Some (LRUPool.cur_time_ p').
Proof.
  intros W Hidx Hmax Hm Hm0.
  pose proof (wf_cur_time_nonneg p W) as Hc0.
  destruct (LRUPool.wf_mapper p W _ _ Hm) as [->|[_ Hinv]]; [lia|].
  assert (m < LRUPool.cache_size_ p) as Hmc.
  { apply lookup_lt_Some in Hinv. rewrite <- (LRUPool.wf_inverse_len p W). lia. }
  destruct (read_in_range (LRUPool.pool_ p) m) as (out & Hr & Hout).
  { rewrite (LRUPool.wf_pool p W). lia. }
  unfold LRUPool.Get. rewrite (LRUPool.wf_not_enough p W).
  assert (read (LRUPool.mapper_ p) idx = Ok m) as -> by (apply read_Ok; split; [lia|done]).
  cbn. destruct (Z.leb_spec 0 m); [|lia].
  rewrite Hr. cbn. rewrite int_op_Ok by (unfold INT_MIN, INT_MAX in *; lia). cbn.
  rewrite write_in_range by (rewrite (LRUPool.wf_time_len p W); lia). cbn.
  eexists _, _. split; [reflexivity|].
  split; [|simpl; repeat split; auto;
           apply list_lookup_insert_eq; pose proof (LRUPool.wf_time_len p W); lia].
  destruct W as [Wne Wc Wp Wml Wil Wtl Wm Wi Wt]. constructor; simpl; rewrite ?length_insert; auto.
  intros s u Hs. destruct (decide (s = Z.to_nat m)) as [->|Hne].
  - rewrite list_lookup_insert_eq in Hs by lia. injection Hs as <-. lia.
  - rewrite list_lookup_insert_ne in Hs by done.
    specialize (Wt _ _ Hs). lia.
Qed.

Lemma Get_miss p idx m :
  LRUPool.wf p -> 0 <= idx < LRUPool.total_size_ p ->
  LRUPool.cur_time_ p < INT_MAX ->
  LRUPool.mapper_ p !! Z.to_nat idx = Some m -> m < 0 ->
  let slot := LRUPool.ArgMin (LRUPool.last_used_time_ p)
                (Z.to_nat (LRUPool.cache_size_ p)) in
  exists out p',
    LRUPool.Get idx p = Ok (false, out, p') /\ LRUPool.wf p' /\
    LRUPool.pool_ p !! slot = Some out /\
    LRUPool.mapper_ p' !! Z.to_nat idx = Some (Z.of_nat slot) /\
    LRUPool.inverse_mapper_ p' !! slot = Some idx /\
    (forall prev, LRUPool.inverse_mapper_ p !! slot = Some prev -> 0 <= prev ->
       LRUPool.mapper_ p' !! Z.to_nat prev = Some (-1)) /\
    LRUPool.cur_time_ p' = LRUPool.cur_time_ p + 1 /\
    LRUPool.last_used_time_ p' !! slot = Some (LRUPool.cur_time_ p').
Proof.
  intros W Hidx Hmax Hm Hm0 slot.
  pose proof (wf_cur_time_nonneg p W) as Hc0.
  pose proof (LRUPool.wf_cache p W) as Hcache.
  pose proof (LRUPool.wf_time_len p W) as Htl.
  pose proof (LRUPool.wf_inverse_len p W) as Hil.
  pose proof (LRUPool.wf_mapper_len p W) as Hml.
  pose proof (LRUPool.wf_pool p W) as Hpl.
  destruct (ArgMin_least (LRUPool.last_used_time_ p)
              (Z.to_nat (LRUPool.cache_size_ p))) as [Hslot _]; [lia|].
  fold slot in Hslot.
  destruct (read_in_range (LRUPool.pool_ p) (Z.of_nat slot)) as (out & Hr & Hout); [lia|].
  destruct (read_in_range (LRUPool.inverse_mapper_ p) (Z.of_nat slot))
    as (prev & Hrp & Hprev); [lia|].
  rewrite Nat2Z.id in Hout, Hprev.
  unfold LRUPool.Get. rewrite (LRUPool.wf_not_enough p W).
  assert (read (LRUPool.mapper_ p) idx = Ok m) as -> by (apply read_Ok; split; [lia|done]).
  cbn. destruct (Z.leb_spec 0 m); [lia|].
  fold slot. rewrite Hr. cbn.
  rewrite int_op_Ok by (unfold INT_MIN, INT_MAX in *; lia). cbn.
  rewrite write_in_range by lia. cbn. rewrite Hrp. cbn.
  rewrite Nat2Z.id.
  assert (Hprev_spec : prev = -1 \/
            (0 <= prev /\ LRUPool.mapper_ p !! Z.to_nat prev = Some (Z.of_nat slot)))
    by (apply (LRUPool.wf_inverse p W); done).
  set (mapper1 := if 0 <=? prev then <[Z.to_nat prev := -1]> (LRUPool.mapper_ p)
                  else LRUPool.mapper_ p).
  assert ((if 0 <=? prev then write (LRUPool.mapper_ p) prev (-1)
           else Ok (LRUPool.mapper_ p)) = Ok mapper1) as ->.
  { unfold mapper1. destruct (Z.leb_spec 0 prev); [|done].
    destruct Hprev_spec as [->|[_ Hp]]; [lia|].
    apply lookup_lt_Some in Hp. apply write_in_range. lia. }
  assert (length mapper1 = length (LRUPool.mapper_ p)) as Hl1.
  { unfold mapper1. destruct (0 <=? prev); by rewrite ?length_insert. }
  cbn. rewrite write_in_range by lia. cbn.
  rewrite write_in_range by lia. cbn. rewrite Nat2Z.id.
  assert (Hidx_ne : forall i s, LRUPool.mapper_ p !! i = Some s -> 0 <= s ->
            i <> Z.to_nat idx).
  { intros i s Hi Hs ->. rewrite Hm in Hi. injection Hi as <-. lia. }
  assert (Hm1 : forall i, i <> Z.to_nat idx ->
            mapper1 !! i = Some (-1) \/
            (mapper1 !! i = LRUPool.mapper_ p !! i /\
             LRUPool.mapper_ p !! i <> Some (Z.of_nat slot))).
  { intros i Hi. unfold mapper1. destruct (Z.leb_spec 0 prev).
    - destruct Hprev_spec as [->|[_ Hp]]; [lia|].
      destruct (decide (i = Z.to_nat prev)) as [->|Hne].
      + left. apply list_lookup_insert_eq. by apply lookup_lt_Some in Hp.
      + right. rewrite list_lookup_insert_ne by done. split; [done|].
        intros Hi'. destruct (LRUPool.wf_mapper p W _ _ Hi') as [?|[_ Hinv]]; [lia|].
        rewrite Nat2Z.id, Hprev in Hinv. injection Hinv as ->. lia.
    - right. split; [done|]. intros Hi'.
      destruct (LRUPool.wf_mapper p W _ _ Hi') as [?|[_ Hinv]]; [lia|].
      rewrite Nat2Z.id, Hprev in Hinv. injection Hinv as ->. lia. }
  eexists _, _. split; [reflexivity|]. split; [|simpl; repeat split].
  - destruct W as [Wne Wc Wp Wml Wil Wtl Wm Wi Wt]. constructor; simpl; rewrite ?length_insert; auto; try lia.
    + intros i s Hi. destruct (decide (i = Z.to_nat idx)) as [->|Hne].
      * rewrite list_lookup_insert_eq in Hi by lia. injection Hi as <-.
        right. split; [lia|]. rewrite Nat2Z.id, Z2Nat.id by lia.
        apply list_lookup_insert_eq. lia.
      * rewrite list_lookup_insert_ne in Hi by done.
        destruct (Hm1 i Hne) as [H1|[H1 H2]].
        { rewrite H1 in Hi. injection Hi as <-. auto. }
        rewrite H1 in Hi. destruct (Wm _ _ Hi) as [?|[Hs Hinv]]; [auto|].
        right. split; [done|]. rewrite list_lookup_insert_ne; [done|].
        intros E. apply H2. rewrite Hi. f_equal. lia.
    + intros s i Hs. destruct (decide (s = slot)) as [->|Hne].
      * rewrite list_lookup_insert_eq in Hs by lia. injection Hs as <-.
        right. split; [lia|]. apply list_lookup_insert_eq. lia.
      * rewrite list_lookup_insert_ne in Hs by done.
        destruct (Wi _ _ Hs) as [?|[Hi Hmap]]; [auto|].
        right. split; [done|].
        assert (Z.to_nat i <> Z.to_nat idx) as Hne'
          by (eapply Hidx_ne; [exact Hmap | lia]).
        rewrite list_lookup_insert_ne by done.
        destruct (Hm1 _ Hne') as [H1|[H1 H2]]; [|by rewrite H1].
        exfalso. unfold mapper1 in H1. destruct (Z.leb_spec 0 prev).
        -- destruct Hprev_spec as [->|[_ Hp]]; [lia|].
           destruct (decide (Z.to_nat i = Z.to_nat prev)) as [E|E].
           ++ rewrite E, Hp in Hmap. injection Hmap as E'. lia.
           ++ rewrite list_lookup_insert_ne in H1 by done.
              rewrite Hmap in H1. injection H1 as E'. lia.
        -- rewrite Hmap in H1. injection H1 as E'. lia.
    + intros s u Hs. destruct (decide (s = slot)) as [->|Hne].
      * rewrite list_lookup_insert_eq in Hs by lia. injection Hs as <-. lia.
      * rewrite list_lookup_insert_ne in Hs by done.
        specialize (Wt _ _ Hs). lia.
  - done.
  - apply list_lookup_insert_eq. lia.
  - apply list_lookup_insert_eq. lia.
  - intros prev' Hp' Hp0. rewrite Hprev in Hp'. injection Hp' as <-.
    destruct Hprev_spec as [->|[_ Hp]]; [lia|].
    assert (Z.to_nat prev <> Z.to_nat idx) as Hne
      by (eapply Hidx_ne; [exact Hp | lia]).
    rewrite list_lookup_insert_ne by done.
    unfold mapper1. destruct (Z.leb_spec 0 prev); [|lia].
    apply list_lookup_insert_eq. by apply lookup_lt_Some in Hp.
  - apply list_lookup_insert_eq. lia.
Qed.

End LRUPoolGet.

(** C6.  A pool whose cache is smaller than the number of indices
    ([is_enough_ = false], which [ResetSize] establishes together with
    [wf]): [Get(idx)] returns true exactly when [idx] is mapped to a slot;
    on a miss it takes the slot whose [last_used_time_] is least, unmaps the
    index that slot held, maps [idx] to it and returns false; in both cases
    the touched slot's [last_used_time_] becomes the incremented counter,
    which is larger than every time stored before.  A pool that covers all
    indices answers [Get(idx)] with [pool_[idx]] and changes nothing.
    [ResetSize] terminates fatally for a cache size below 2. *)
Theorem LRUPool_Get_correct (T : Type) :
  (forall (p : LRUPool.t T) idx,
     LRUPool.wf p -> 0 <= idx < LRUPool.total_size_ p ->
     LRUPool.cur_time_ p < INT_MAX ->
     exists hit out p',
       LRUPool.Get idx p = Ok (hit, out, p') /\ LRUPool.wf p' /\
       (hit = true <-> LRUPool.mapped p idx) /\
       (hit = false ->
          let slot := LRUPool.ArgMin (LRUPool.last_used_time_ p)
                        (Z.to_nat (LRUPool.cache_size_ p)) in
          (forall j u v, (j < Z.to_nat (LRUPool.cache_size_ p))%nat ->
             LRUPool.last_used_time_ p !! j = Some u ->
             LRUPool.last_used_time_ p !! slot = Some v -> v <= u) /\
          LRUPool.pool_ p !! slot = Some out /\
          (forall prev, LRUPool.inverse_mapper_ p !! slot = Some prev ->
             0 <= prev -> LRUPool.mapper_ p' !! Z.to_nat prev = Some (-1)) /\
          LRUPool.mapper_ p' !! Z.to_nat idx = Some (Z.of_nat slot) /\
          LRUPool.inverse_mapper_ p' !! slot = Some idx) /\
       (exists slot,
          LRUPool.mapper_ p' !! Z.to_nat idx = Some (Z.of_nat slot) /\
          LRUPool.last_used_time_ p' !! slot = Some (LRUPool.cur_time_ p') /\
          LRUPool.cur_time_ p' = LRUPool.cur_time_ p + 1 /\
          forall j u, LRUPool.last_used_time_ p !! j = Some u ->
                      u < LRUPool.cur_time_ p')) /\
  (forall (p : LRUPool.t T) idx out,
     LRUPool.is_enough_ p = true -> 0 <= idx ->
     LRUPool.pool_ p !! Z.to_nat idx = Some out ->
     LRUPool.Get idx p = Ok (true, out, p)) /\
  (forall (dflt : T) cache_size total_size p,
     cache_size < 2 ->
     is_Fatal (LRUPool.ResetSize dflt cache_size total_size p)) /\
  (forall (dflt : T) cache_size total_size p p',
     LRUPool.ResetSize dflt cache_size total_size p = Ok p' ->
     LRUPool.is_enough_ p' = false ->
     LRUPool.wf p' /\ LRUPool.cache_size_ p' = cache_size /\
     cache_size < total_size).
Proof.
  split; [|split; [|split]].
  - intros p idx W Hidx Hmax.
    destruct (read_in_range (LRUPool.mapper_ p) idx) as (m & Hrm & Hm).
    { rewrite (LRUPool.wf_mapper_len p W). lia. }
    destruct (Z.le_gt_cases 0 m) as [Hm0|Hm0].
    + destruct (Get_hit p idx m W Hidx Hmax Hm Hm0)
        as (out & p' & HG & W' & Hout & Hmap & Hinv & Hcur & Hlut).
      exists true, out, p'. split; [done|]. split; [done|]. split; [|split].
      * split; [|done]. intros _. exists m. auto.
      * discriminate.
      * exists (Z.to_nat m). rewrite Hmap, Z2Nat.id by lia.
        repeat split; auto.
        intros j u Hu. pose proof (LRUPool.wf_time p W _ _ Hu). lia.
    + destruct (Get_miss p idx m W Hidx Hmax Hm) as
        (out & p' & HG & W' & Hout & Hmap & Hinv & Hprev & Hcur & Hlut); [lia|].
      exists false, out, p'. split; [done|]. split; [done|]. split; [|split].
      * split; [discriminate|]. intros (s & Hs & Hs0).
        rewrite Hrm in Hs. injection Hs as <-. lia.
      * intros _. cbn zeta. split; [|auto].
        intros j u v Hj Hu Hv.
        pose proof (LRUPool.wf_cache p W). pose proof (LRUPool.wf_time_len p W).
        destruct (ArgMin_least (LRUPool.last_used_time_ p)
                    (Z.to_nat (LRUPool.cache_size_ p))) as [_ Hmin]; [lia|].
        eapply Hmin; eauto.
      * eexists. repeat split; eauto.
        intros j u Hu. pose proof (LRUPool.wf_time p W _ _ Hu). lia.
  - intros p idx out He Hidx Hout. unfold LRUPool.Get. rewrite He.
    assert (read (LRUPool.pool_ p) idx = Ok out) as -> by (by apply read_Ok).
    done.
  - intros. by apply ResetSize_rejects.
  - intros. by eapply ResetSize_wf.
Qed.

(** A four-index pool with two slots, after [ResetSize(2, 4)]. *)
Lemma LRUPool_Get_correct_witness :
  exists p0 : LRUPool.t unit,
    LRUPool.ResetSize () 2 4
      {| LRUPool.pool_ := []; LRUPool.cache_size_ := 0;
         LRUPool.total_size_ := 0; LRUPool.is_enough_ := false;
         LRUPool.mapper_ := []; LRUPool.inverse_mapper_ := [];
         LRUPool.last_used_time_ := []; LRUPool.cur_time_ := 0 |} = Ok p0 /\
    LRUPool.wf p0 /\
    exists hit out p',
      LRUPool.Get 3 p0 = Ok (hit, out, p') /\ LRUPool.wf p' /\
      (hit = true <-> LRUPool.mapped p0 3).
Proof.
  eexists. split; [reflexivity|].
  pose proof (LRUPool_Get_correct unit) as (HGet & _ & _ & HReset).
  assert (LRUPool.wf
            {| LRUPool.pool_ := replicate (Z.to_nat 2) ();
               LRUPool.cache_size_ := 2; LRUPool.total_size_ := 4;
               LRUPool.is_enough_ := false;
               LRUPool.mapper_ := replicate (Z.to_nat 4) (-1);
               LRUPool.inverse_mapper_ := replicate (Z.to_nat 2) (-1);
               LRUPool.last_used_time_ := replicate (Z.to_nat 2) 0;
               LRUPool.cur_time_ := 0 |}) as W.
  { refine (proj1 (HReset () 2 4
       {| LRUPool.pool_ := []; LRUPool.cache_size_ := 0;
          LRUPool.total_size_ := 0; LRUPool.is_enough_ := false;
          LRUPool.mapper_ := []; LRUPool.inverse_mapper_ := [];
          LRUPool.last_used_time_ := []; LRUPool.cur_time_ := 0 |} _ _ _));
      reflexivity. }
  split; [exact W|].
  destruct (HGet _ 3 W) as (hit & out & p' & HG & W' & Hhit & _);
    [simpl; lia | simpl; unfold INT_MAX; lia |].
  exists hit, out, p'. auto.
Defined.
(** ** Metadata::SetQueryBoundaries *)

Lemma sum_counts_spec (a : list Z) (n : nat) (i : nat) (sum : Z) :
  (i + n <= length a)%nat ->
  Forall (fun x => 0 <= x) a -> 0 <= sum ->
  sum + Metadata.sum_list (take n (drop i a)) <= INT_MAX ->
  Metadata.sum_counts a (Z.of_nat i) n sum =
  Ok (sum + Metadata.sum_list (take n (drop i a))).
Proof.
  revert i sum. induction n as [|n IH]; intros i sum Hlen Hpos Hsum Hmax; simpl.
  - f_equal. lia.
  - destruct (lookup_lt_is_Some_2 a i) as [x Hx]; [lia|].
    assert (read a (Z.of_nat i) = Ok x) as ->
      by (apply read_Ok; rewrite Nat2Z.id; split; [lia | done]).
    cbn. rewrite (drop_S _ _ _ Hx) in *.
    change (Metadata.sum_list (take (S n) (x :: drop (S i) a)))
      with (x + Metadata.sum_list (take n (drop (S i) a))) in *.
    assert (0 <= x) by (by eapply (proj1 (Forall_lookup _ _) Hpos)).
    assert (0 <= Metadata.sum_list (take n (drop (S i) a))).
    { assert (Forall (fun x => 0 <= x) (take n (drop (S i) a))) as HF
        by (by apply Forall_take, Forall_drop).
      clear -HF. induction HF; simpl; lia. }
    rewrite int_op_Ok by (unfold INT_MIN; lia). cbn.
    replace (Z.of_nat i + 1) with (Z.of_nat (S i)) by lia.
    rewrite IH; [|lia|done|lia|lia]. f_equal. lia.
Qed.

Lemma copy_counts_spec (a : list Z) (n : nat) (i : nat) :
  (i + n <= length a)%nat ->
  Metadata.copy_counts a (Z.of_nat i) n = Ok (take n (drop i a)).
Proof.
  revert i. induction n as [|n IH]; intros i Hlen; simpl.
  - done.
  - destruct (lookup_lt_is_Some_2 a i) as [x Hx]; [lia|].
    assert (read a (Z.of_nat i) = Ok x) as ->
      by (apply read_Ok; rewrite Nat2Z.id; split; [lia | done]).
    cbn. replace (Z.of_nat i + 1) with (Z.of_nat (S i)) by lia.
    rewrite IH by lia. cbn. by rewrite (drop_S _ _ _ Hx).
Qed.

Lemma read_not_Fatal {A} (a : list A) i : ~ is_Fatal (read a i).
Proof. unfold read. repeat case_match; simpl; tauto. Qed.

Lemma bind_not_Fatal {A B} (r : result A) (f : A -> result B) :
  ~ is_Fatal r -> (forall x, ~ is_Fatal (f x)) -> ~ is_Fatal (r ≫= f).
Proof. destruct r; cbn; auto. Qed.

Lemma sum_weights_not_Fatal w lo n acc : ~ is_Fatal (Metadata.sum_weights w lo n acc).
Proof.
  revert lo acc. induction n as [|n IH]; intros lo acc; simpl; [tauto|].
  apply bind_not_Fatal; [apply read_not_Fatal | auto].
Qed.

Lemma query_weights_from_not_Fatal w qb i n :
  ~ is_Fatal (Metadata.query_weights_from w qb i n).
Proof.
  revert i. induction n as [|n IH]; intros i; simpl; [tauto|].
  apply bind_not_Fatal; [apply read_not_Fatal | intros lo].
  apply bind_not_Fatal; [apply read_not_Fatal | intros hi].
  apply bind_not_Fatal; [apply sum_weights_not_Fatal | intros s].
  apply bind_not_Fatal; [apply IH | intros rest]. simpl. tauto.
Qed.

Lemma LoadQueryWeights_not_Fatal m : ~ is_Fatal (Metadata.LoadQueryWeights m).
Proof.
  unfold Metadata.LoadQueryWeights. case_match; [simpl; tauto|].
  apply bind_not_Fatal; [apply query_weights_from_not_Fatal | intros; simpl; tauto].
Qed.

Lemma LoadQueryWeights_num_queries m m' :
  Metadata.LoadQueryWeights m = Ok m' ->
  Metadata.num_queries_ m' = Metadata.num_queries_ m /\
  Metadata.query_boundaries_ m' = Metadata.query_boundaries_ m.
Proof.
  unfold Metadata.LoadQueryWeights. case_match; [by intros [= <-]|].
  destruct (Metadata.query_weights_from _ _ _ _); simpl; try discriminate.
  by intros [= <-].
Qed.

Lemma SetQueryBoundaries_values (a : list Z) (len : Z) (m : Metadata.t) :
  0 < len -> len <= Z.of_nat (length a) ->
  Forall (fun x => 0 <= x) a ->
  Metadata.sum_list (take (Z.to_nat len) a) <= INT_MAX ->
  Metadata.SetQueryBoundaries (Some a) len m =
  if negb (Metadata.num_data_ m =? Metadata.sum_list (take (Z.to_nat len) a))
  then Fatal "sum of query counts is not same with #data"
  else Metadata.LoadQueryWeights
         (Metadata.set_queries m (take (Z.to_nat len) a) len
            (Metadata.query_weights_ m)).
Proof.
  intros Hlen Hle Hpos Hmax. unfold Metadata.SetQueryBoundaries.
  destruct (Z.eqb_spec len 0); [lia|].
  pose proof (sum_counts_spec a (Z.to_nat len) 0 0) as Hs.
  rewrite drop_0, Z.add_0_l in Hs. change (Z.of_nat 0) with 0 in Hs.
  rewrite Hs by (auto; lia). cbn.
  destruct (negb _); [done|].
  destruct (Z.ltb_spec len 0); [lia|].
  pose proof (copy_counts_spec a (Z.to_nat len) 0) as Hc.
  rewrite drop_0 in Hc. change (Z.of_nat 0) with 0 in Hc.
  by rewrite Hc by lia.
Qed.

(** C8, as the code has it.  For the field name "query" or "group" (after
    trimming) [SetIntField] reaches [SetQueryBoundaries].  With a null
    pointer or [len = 0] the stored boundaries are cleared, [num_queries_]
    becomes 0 and the call does not fail, whatever [num_data_] is.  With
    [len > 0] counts (not negative, their sum within [int]) the call
    terminates fatally exactly when the sum of the [len] counts differs from
    [num_data_]; when it returns, it returns true and [num_queries_ = len]. *)
Theorem SetIntField_query_correct (name : str) (data : option (list Z))
    (len : Z) (d : Dataset.t) :
  Common.Trim name = s#"query" \/ Common.Trim name = s#"group" ->
  (data = None \/ len = 0 ->
   exists d',
     Dataset.SetIntField name data len d = Ok (true, d') /\
     Metadata.query_boundaries_ (Dataset.metadata_ d') = [] /\
     Metadata.num_queries_ (Dataset.metadata_ d') = 0) /\
  (forall a, data = Some a ->
     0 < len -> len <= Z.of_nat (length a) ->
     Forall (fun x => 0 <= x) a ->
     Metadata.sum_list (take (Z.to_nat len) a) <= INT_MAX ->
     (is_Fatal (Dataset.SetIntField name data len d) <->
      Metadata.sum_list (take (Z.to_nat len) a)
      <> Metadata.num_data_ (Dataset.metadata_ d)) /\
     (forall flag d', Dataset.SetIntField name data len d = Ok (flag, d') ->
        flag = true /\
        Metadata.num_queries_ (Dataset.metadata_ d') = len)).
Proof.
  intros Hname.
  assert (bool_decide (Common.Trim name = s#"query")
          || bool_decide (Common.Trim name = s#"group") = true) as Hb.
  { destruct Hname as [-> | ->]; reflexivity. }
  unfold Dataset.SetIntField. rewrite Hb. split.
  - intros Hnull. eexists. split; [|split].
    + assert (Metadata.SetQueryBoundaries data len (Dataset.metadata_ d) =
              Ok (Metadata.set_queries (Dataset.metadata_ d) [] 0
                    (Metadata.query_weights_ (Dataset.metadata_ d)))) as ->.
      { unfold Metadata.SetQueryBoundaries.
        destruct Hnull as [-> | ->]; [done | by destruct data]. }
      reflexivity.
    + done.
    + done.
  - intros a -> Hlen Hle Hpos Hmax.
    rewrite SetQueryBoundaries_values by done.
    set (m := Dataset.metadata_ d).
    destruct (Z.eqb_spec (Metadata.num_data_ m)
                (Metadata.sum_list (take (Z.to_nat len) a))) as [E|E]; simpl.
    + pose proof (LoadQueryWeights_not_Fatal
                    (Metadata.set_queries m (take (Z.to_nat len) a) len
                       (Metadata.query_weights_ m))) as HnF.
      destruct (Metadata.LoadQueryWeights _) as [m1| |] eqn:EL; simpl in *.
      * split; [split; [tauto | intros; congruence]|].
        intros flag d' [= <- <-]. split; [done|]. simpl.
        by apply LoadQueryWeights_num_queries in EL as [-> _].
      * tauto.
      * split; [split; [tauto | intros; congruence] | discriminate].
    + split; [split; [intros; congruence | done] | discriminate].
Qed.

(** Two queries of 2 and 3 rows on a dataset of 5 rows, under the name
    " group" followed by a newline. *)
Lemma SetIntField_query_correct_witness :
  let m := {| Metadata.num_data_ := 5; Metadata.num_class_ := 1;
              Metadata.weights_ := []; Metadata.query_boundaries_ := [];
              Metadata.num_queries_ := 0; Metadata.query_weights_ := [] |} in
  let d := {| Dataset.num_data_ := 5; Dataset.rows_ := replicate 5 [];
              Dataset.metadata_ := m |} in
  let name := s#" group" ++ [ascii_of_nat 10] in
  (is_Fatal (Dataset.SetIntField name (Some [2; 3]) 2 d) <->
   Metadata.sum_list (take (Z.to_nat 2) [2; 3]) <> Metadata.num_data_ m) /\
  (forall flag d', Dataset.SetIntField name (Some [2; 3]) 2 d = Ok (flag, d') ->
     flag = true /\ Metadata.num_queries_ (Dataset.metadata_ d') = 2).
Proof.
  intros m d name.
  refine (proj2 (SetIntField_query_correct name (Some [2; 3]) 2 d _)
            [2; 3] eq_refl _ _ _ _).
  - right. reflexivity.
  - lia.
  - simpl. lia.
  - repeat constructor; lia.
  - vm_compute. discriminate.
Defined.

(** C8 as stated fails with [len = 0]: on a dataset of five rows the call
    returns normally although the sum of the (zero) supplied counts is not
    [num_data_], and what it stores is the empty array, not a boundary array
    of [num_queries_ + 1] entries. *)
Lemma SetIntField_query_counterexample :
  let m := {| Metadata.num_data_ := 5; Metadata.num_class_ := 1;
              Metadata.weights_ := []; Metadata.query_boundaries_ := [];
              Metadata.num_queries_ := 0; Metadata.query_weights_ := [] |} in
  let d := {| Dataset.num_data_ := 5; Dataset.rows_ := replicate 5 [];
              Dataset.metadata_ := m |} in
  exists d',
    Dataset.SetIntField s#"query" (Some []) 0 d = Ok (true, d') /\
    ~ is_Fatal (Dataset.SetIntField s#"query" (Some []) 0 d) /\
    Metadata.sum_list (take (Z.to_nat 0) []) <> Metadata.num_data_ m /\
    ~ Metadata.qb_invariant (Dataset.metadata_ d').
Proof.
  intros m d. eexists. split; [reflexivity|]. split; [|split].
  - simpl. tauto.
  - simpl. discriminate.
  - intros [Hlen _ _ _]. simpl in Hlen. discriminate.
Qed.

(** What [SetQueryBoundaries] stores for [len > 0]: the [len] counts
    themselves.  For the counts 2 and 3 on five rows the stored array is
    [2; 3]: two entries for two queries, not starting at 0 and not ending at
    [num_data_], where [SetQueryId] and [LoadQueryBoundaries] store the
    running sums [0; 2; 5]. *)
Example SetQueryBoundaries_stores_counts :
  let m := {| Metadata.num_data_ := 5; Metadata.num_class_ := 1;
              Metadata.weights_ := []; Metadata.query_boundaries_ := [];
              Metadata.num_queries_ := 0; Metadata.query_weights_ := [] |} in
  let d := {| Dataset.num_data_ := 5; Dataset.rows_ := replicate 5 [];
              Dataset.metadata_ := m |} in
  exists d',
    Dataset.SetIntField s#"query" (Some [2; 3]) 2 d = Ok (true, d') /\
    Metadata.query_boundaries_ (Dataset.metadata_ d') = [2; 3] /\
    Metadata.num_queries_ (Dataset.metadata_ d') = 2 /\
    ~ Metadata.qb_invariant (Dataset.metadata_ d').
Proof.
  intros m d. eexists. split; [reflexivity|]. split; [done|]. split; [done|].
  intros [Hlen _ _ _]. simpl in Hlen. discriminate.
Qed.
(** ** DataPartition *)

Lemma readn_Ok {A} (a : list A) i x : readn a i = Ok x <-> a !! i = Some x.
Proof. unfold readn. destruct (a !! i); split; congruence. Qed.


Lemma memcpy_middle (A X Bs src : list nat) :
  (length src <= length X)%nat ->
  memcpy (A ++ X ++ Bs) (length A) src =
  Ok (A ++ src ++ drop (length src) X ++ Bs).
Proof.
  intros Hlen. unfold memcpy. rewrite decide_True by (rewrite !length_app; lia).
  rewrite take_app_length, drop_app_add, drop_app_le by done. done.
Qed.

Lemma chunks_concat {A} (M : list A) (k T : nat) :
  concat (map (fun i => take k (drop (i * k) M)) (seq 0 T)) = take (T * k) M.
Proof.
  induction T as [|T IH]; [done|].
  rewrite seq_S, map_app, concat_app, IH. simpl. rewrite app_nil_r.
  rewrite take_take_drop. f_equal. lia.
Qed.

Lemma write_pos_last (acc : nat) (cnts : list nat) :
  cnts <> [] ->
  (default 0 (last (DataPartition.write_pos acc cnts)) + default 0 (last cnts)
   = acc + sum_list cnts)%nat.
Proof.
  revert acc. induction cnts as [|c cs IH]; intros acc Hne; [done|].
  destruct cs as [|c' cs]; [simpl; lia|].
  change (DataPartition.write_pos acc (c :: c' :: cs))
    with (acc :: DataPartition.write_pos (acc + c) (c' :: cs)).
  change (last (c :: c' :: cs)) with (last (c' :: cs)).
  assert (last (acc :: DataPartition.write_pos (acc + c) (c' :: cs)) =
          last (DataPartition.write_pos (acc + c) (c' :: cs))) as -> by done.
  rewrite IH by done. simpl. lia.
Qed.

Lemma inner_size_covers (cnt T : nat) :
  (0 < T)%nat -> (cnt <= T * DataPartition.inner_size cnt T)%nat.
Proof.
  intros HT. unfold DataPartition.inner_size.
  pose proof (Nat.div_mod_eq (cnt + T - 1) T) as Hd.
  pose proof (Nat.mod_upper_bound (cnt + T - 1) T) as Hm.
  destruct (Nat.ltb_spec ((cnt + T - 1) / T) 1000); nia.
Qed.

Lemma copy_back_spec (res : list (list nat * list nat))
    (pre L X R Y post : list nat) :
  length X = sum_list (map (fun lr => length lr.1) res) ->
  length Y = sum_list (map (fun lr => length lr.2) res) ->
  DataPartition.copy_back (length pre) (length L + length X)
    (DataPartition.write_pos (length L) (map (fun lr => length lr.1) res))
    (DataPartition.write_pos (length R) (map (fun lr => length lr.2) res))
    res (pre ++ (L ++ X ++ R ++ Y) ++ post) =
  Ok (pre ++ (L ++ concat (map fst res) ++ R ++ concat (map snd res)) ++ post).
Proof.
  revert L X R Y. induction res as [|[l r] res IH]; intros L X R Y HX HY.
  - destruct X; [|done]. destruct Y; [|done]. done.
  - simpl in HX, HY. simpl.
    (* the left rows of this thread *)
    assert ((if decide (0 < length l)%nat
             then memcpy (pre ++ (L ++ X ++ R ++ Y) ++ post)
                    (length pre + length L) l
             else Ok (pre ++ (L ++ X ++ R ++ Y) ++ post)) =
            Ok (pre ++ ((L ++ l) ++ drop (length l) X ++ R ++ Y) ++ post)) as ->.
    { case_decide as Hl.
      - replace (pre ++ (L ++ X ++ R ++ Y) ++ post)
          with ((pre ++ L) ++ X ++ (R ++ Y ++ post))
          by (by rewrite <- !app_assoc).
        rewrite <- length_app, memcpy_middle by lia.
        by rewrite <- !app_assoc.
      - destruct l; [|simpl in Hl; lia]. by rewrite app_nil_r. }
    cbn.
    (* the right rows of this thread *)
    assert ((if decide (0 < length r)%nat
             then memcpy (pre ++ ((L ++ l) ++ drop (length l) X ++ R ++ Y) ++ post)
                    (length pre + (length L + length X) + length R) r
             else Ok (pre ++ ((L ++ l) ++ drop (length l) X ++ R ++ Y) ++ post)) =
            Ok (pre ++ ((L ++ l) ++ drop (length l) X ++ (R ++ r)
                        ++ drop (length r) Y) ++ post)) as ->.
    { case_decide as Hr.
      - replace (pre ++ ((L ++ l) ++ drop (length l) X ++ R ++ Y) ++ post)
          with ((pre ++ (L ++ l) ++ drop (length l) X ++ R) ++ Y ++ post)
          by (by rewrite <- !app_assoc).
        replace (length pre + (length L + length X) + length R)%nat
          with (length (pre ++ (L ++ l) ++ drop (length l) X ++ R))
          by (rewrite !length_app, length_drop; lia).
        rewrite memcpy_middle by lia.
        by rewrite <- !app_assoc.
      - destruct r; [|simpl in Hr; lia]. by rewrite app_nil_r. }
    cbn.
    replace (length L + length X)%nat
      with (length (L ++ l) + length (drop (length l) X))%nat
      by (rewrite length_app, length_drop; lia).
    replace (length L + length l)%nat with (length (L ++ l))
      by (by rewrite length_app).
    replace (length R + length r)%nat with (length (R ++ r))
      by (by rewrite length_app).
    rewrite IH by (rewrite length_drop; lia).
    by rewrite <- !app_assoc.
Qed.

Section SplitProps.
Context {B : Type} `{Bin B}.

Lemma thread_split_chunk (feature_bins : B) threshold indices begin cnt inner i :
  DataPartition.thread_split feature_bins threshold indices begin cnt inner i =
  BinSplit feature_bins threshold
    (take inner (drop (i * inner) (take cnt (drop begin indices)))) \/
  (DataPartition.thread_split feature_bins threshold indices begin cnt inner i
     = ([], []) /\
   take inner (drop (i * inner) (take cnt (drop begin indices))) = []).
Proof.
  unfold DataPartition.thread_split. case_decide as Hs.
  - right. split; [done|]. rewrite (drop_ge (take cnt _)); [apply take_nil|].
    rewrite length_take. lia.
  - left. f_equal.
    assert (drop (i * inner) (take cnt (drop begin indices)) =
            take (cnt - i * inner) (drop (i * inner) (drop begin indices))) as ->
      by (rewrite (take_drop_commute (drop begin indices) (cnt - i * inner) (i * inner));
          by replace (i * inner + (cnt - i * inner))%nat with cnt by lia).
    rewrite take_take, drop_drop. f_equal.
    case_decide; lia.
Qed.

Lemma thread_results_perm (feature_bins : B) threshold indices begin cnt inner
    (ids : list nat) :
  let res := map (DataPartition.thread_split feature_bins threshold indices
                    begin cnt inner) ids in
  concat (map fst res) ++ concat (map snd res) ≡ₚ
  concat (map (fun i => take inner (drop (i * inner)
                                      (take cnt (drop begin indices)))) ids).
Proof.
  induction ids as [|i ids IH]; [done|]. simpl in *.
  set (chunk := take inner (drop (i * inner) (take cnt (drop begin indices)))).
  assert ((DataPartition.thread_split feature_bins threshold indices begin cnt
             inner i).1 ++
          (DataPartition.thread_split feature_bins threshold indices begin cnt
             inner i).2 ≡ₚ chunk) as Hi.
  { destruct (thread_split_chunk feature_bins threshold indices begin cnt inner i)
      as [-> | [-> Hnil]].
    - apply BinSplit_perm.
    - fold chunk in Hnil. by rewrite Hnil. }
  rewrite <- Hi, <- IH.
  rewrite <- !app_assoc. f_equiv.
  rewrite !app_assoc. f_equiv. apply Permutation_app_comm.
Qed.

(** One call of [Split]: the rows of the leaf are rearranged inside the
    leaf's range, left rows first; the counts and the right leaf's begin
    are updated. *)
Lemma Split_spec (leaf right_leaf : nat) (feature_bins : B) (threshold : nat)
    (dp : DataPartition.t) (begin cnt : nat) :
  (0 < DataPartition.num_threads_ dp)%nat ->
  DataPartition.leaf_begin_ dp !! leaf = Some begin ->
  DataPartition.leaf_count_ dp !! leaf = Some cnt ->
  (begin + cnt <= length (DataPartition.indices_ dp))%nat ->
  (right_leaf < length (DataPartition.leaf_begin_ dp))%nat ->
  (right_leaf < length (DataPartition.leaf_count_ dp))%nat ->
  exists Ls Rs,
    Ls ++ Rs ≡ₚ take cnt (drop begin (DataPartition.indices_ dp)) /\
    DataPartition.Split leaf feature_bins threshold right_leaf dp =
    Ok (DataPartition.with_leaves dp
          (<[right_leaf := (length Ls + begin)%nat]> (DataPartition.leaf_begin_ dp))
          (<[right_leaf := (cnt - length Ls)%nat]>
             (<[leaf := length Ls]> (DataPartition.leaf_count_ dp)))
          (take begin (DataPartition.indices_ dp) ++ (Ls ++ Rs)
           ++ drop (begin + cnt) (DataPartition.indices_ dp))).
Proof.
  intros HT Hb Hc Hlen Hrb Hrc.
  set (ind := DataPartition.indices_ dp) in *.
  set (T := DataPartition.num_threads_ dp) in *.
  set (inner := DataPartition.inner_size cnt T).
  set (res := map (DataPartition.thread_split feature_bins threshold ind
                     begin cnt inner) (seq 0 T)).
  set (M := take cnt (drop begin ind)).
  assert (length M = cnt) as HM.
  { unfold M. rewrite length_take, length_drop. lia. }
  assert (Hperm : concat (map fst res) ++ concat (map snd res) ≡ₚ M).
  { unfold res. rewrite thread_results_perm. fold M.
    rewrite chunks_concat, take_ge; [done|].
    rewrite HM. apply inner_size_covers. done. }
  assert (HL : length (concat (map fst res)) =
               sum_list (map (fun lr => length lr.1) res)).
  { clear. induction res as [|[l r] res IH]; [done|].
    simpl. rewrite length_app, IH. done. }
  assert (HR : length (concat (map snd res)) =
               sum_list (map (fun lr => length lr.2) res)).
  { clear. induction res as [|[l r] res IH]; [done|].
    simpl. rewrite length_app, IH. done. }
  assert (Htot : (length (concat (map fst res)) + length (concat (map snd res))
                  = cnt)%nat).
  { rewrite <- length_app, Hperm. done. }
  exists (concat (map fst res)), (concat (map snd res)). split; [done|].
  unfold DataPartition.Split.
  assert (readn (DataPartition.leaf_begin_ dp) leaf = Ok begin) as ->
    by (by apply readn_Ok).
  assert (readn (DataPartition.leaf_count_ dp) leaf = Ok cnt) as ->
    by (by apply readn_Ok).
  cbn. fold T ind. rewrite decide_False by lia. rewrite decide_False by lia.
  fold inner. fold res.
  assert (map (fun lr => length lr.1) res <> []) as Hne.
  { unfold res. destruct T; [lia|]. done. }
  rewrite write_pos_last by done. rewrite Nat.add_0_l, <- HL.
  (* the copy back *)
  pose proof (copy_back_spec res (take begin ind) []
                (take (length (concat (map fst res))) M) []
                (drop (length (concat (map fst res))) M)
                (drop (begin + cnt) ind)) as Hcb.
  rewrite length_take, length_drop, HM in Hcb.
  assert (length (take begin ind) = begin) as Hpre
    by (rewrite length_take; lia).
  rewrite Hpre in Hcb. simpl in Hcb.
  replace (length (concat (map fst res)) `min` cnt)%nat
    with (length (concat (map fst res))) in Hcb by lia.
  rewrite take_drop in Hcb.
  replace (take begin ind ++ M ++ drop (begin + cnt) ind) with ind in Hcb.
  2:{ unfold M. rewrite <- (take_drop begin ind) at 1. f_equal.
      rewrite <- (take_drop cnt (drop begin ind)) at 1. f_equal.
      by rewrite drop_drop. }
  rewrite Hcb by lia. cbn.
  assert (leaf < length (DataPartition.leaf_count_ dp))%nat
    by (by eapply lookup_lt_Some).
  unfold writen. rewrite !decide_True by (rewrite ?length_insert; lia). cbn.
  rewrite decide_True by (rewrite ?length_insert; lia). done.
Qed.

End SplitProps.

Lemma sum_list_insert (l : list nat) (i x v : nat) :
  l !! i = Some x -> (sum_list (<[i := v]> l) + x = sum_list l + v)%nat.
Proof.
  revert i. induction l as [|y l IH]; intros [|i] Hi; simplify_eq/=; [lia|].
  specialize (IH _ Hi). lia.
Qed.

Lemma Init_inv (N L T : nat) (dp : DataPartition.t) :
  (0 < T)%nat -> DataPartition.Init (DataPartition.create N L T) = Ok dp ->
  DataPartition.inv N dp /\
  DataPartition.num_leaves_ dp = L /\
  DataPartition.leaf_begin_ dp !! 0%nat = Some 0%nat /\
  DataPartition.leaf_count_ dp !! 0%nat = Some N /\
  DataPartition.indices_ dp = seq 0 N.
Proof.
  intros HT. unfold DataPartition.Init, DataPartition.create. simpl.
  unfold writen. rewrite !length_replicate.
  case_decide as HL; [|discriminate]. cbn. intros [= <-].
  assert (forall l b c,
    <[0%nat := 0%nat]> (replicate L 0%nat) !! l = Some b ->
    <[0%nat := N]> (replicate L 0%nat) !! l = Some c ->
    b = 0%nat /\ (l = 0%nat /\ c = N \/ l <> 0%nat /\ c = 0%nat)) as Hleaf.
  { intros l b c Hb Hc. destruct l as [|l].
    - rewrite list_lookup_insert_eq in Hb, Hc by (rewrite length_replicate; lia).
      simplify_eq. auto.
    - rewrite list_lookup_insert_ne in Hb, Hc by done.
      apply lookup_replicate in Hb as [-> _]. apply lookup_replicate in Hc as [-> _].
      auto. }
  split; [constructor; simpl|simpl].
  - done.
  - by rewrite length_insert, length_replicate.
  - by rewrite length_insert, length_replicate.
  - done.
  - pose proof (sum_list_insert (replicate L 0%nat) 0 0 N) as Hs.
    rewrite sum_list_replicate in Hs. rewrite lookup_replicate in Hs.
    specialize (Hs (conj eq_refl HL)). lia.
  - intros p Hp. exists 0%nat, 0%nat, N. simpl.
    rewrite !list_lookup_insert_eq by (rewrite length_replicate; lia).
    repeat split; auto with lia.
  - intros p l1 l2 (b1 & c1 & Hb1 & Hc1 & Hp1) (b2 & c2 & Hb2 & Hc2 & Hp2).
    simpl in *.
    destruct (Hleaf _ _ _ Hb1 Hc1) as [-> [[-> ->]|[? ->]]]; [|lia].
    destruct (Hleaf _ _ _ Hb2 Hc2) as [-> [[-> ->]|[? ->]]]; [done|lia].
  - intros l b c Hb Hc. destruct (Hleaf _ _ _ Hb Hc) as [-> [[-> ->]|[? ->]]]; lia.
  - rewrite !list_lookup_insert_eq by (rewrite length_replicate; lia). done.
Qed.

Section SplitInv.
Context {B : Type} `{Bin B}.

Lemma inv_length_indices N dp :
  DataPartition.inv N dp -> length (DataPartition.indices_ dp) = N.
Proof. intros I. by rewrite (DataPartition.inv_perm N dp I), length_seq. Qed.

(** What a split of [leaf] into [leaf] and the empty [right_leaf] does to
    the tables. *)
Lemma Split_result (N : nat) (dp dp' : DataPartition.t)
    (leaf right_leaf : nat) (feature_bins : B) (threshold : nat) :
  DataPartition.inv N dp ->
  (leaf < DataPartition.num_leaves_ dp)%nat ->
  (right_leaf < DataPartition.num_leaves_ dp)%nat ->
  DataPartition.Split leaf feature_bins threshold right_leaf dp = Ok dp' ->
  exists begin cnt Ls Rs,
    DataPartition.leaf_begin_ dp !! leaf = Some begin /\
    DataPartition.leaf_count_ dp !! leaf = Some cnt /\
    (begin + cnt <= N)%nat /\
    Ls ++ Rs ≡ₚ take cnt (drop begin (DataPartition.indices_ dp)) /\
    dp' = DataPartition.with_leaves dp
          (<[right_leaf := (length Ls + begin)%nat]> (DataPartition.leaf_begin_ dp))
          (<[right_leaf := (cnt - length Ls)%nat]>
             (<[leaf := length Ls]> (DataPartition.leaf_count_ dp)))
          (take begin (DataPartition.indices_ dp) ++ (Ls ++ Rs)
           ++ drop (begin + cnt) (DataPartition.indices_ dp)).
Proof.
  intros I Hleaf Hright HS.
  destruct (lookup_lt_is_Some_2 (DataPartition.leaf_begin_ dp) leaf) as [begin Hb].
  { by rewrite (DataPartition.inv_begin_len N dp I). }
  destruct (lookup_lt_is_Some_2 (DataPartition.leaf_count_ dp) leaf) as [cnt Hc].
  { by rewrite (DataPartition.inv_count_len N dp I). }
  pose proof (DataPartition.inv_range N dp I _ _ _ Hb Hc) as Hr.
  destruct (Split_spec leaf right_leaf feature_bins threshold dp begin cnt)
    as (Ls & Rs & Hperm & HE).
  - apply (DataPartition.inv_threads N dp I).
  - done.
  - done.
  - by rewrite (inv_length_indices N dp I).
  - by rewrite (DataPartition.inv_begin_len N dp I).
  - by rewrite (DataPartition.inv_count_len N dp I).
  - rewrite HE in HS. injection HS as <-.
    exists begin, cnt, Ls, Rs. auto.
Qed.

Lemma Split_inv (N : nat) (dp dp' : DataPartition.t)
    (leaf right_leaf : nat) (feature_bins : B) (threshold : nat) :
  DataPartition.inv N dp ->
  (leaf < DataPartition.num_leaves_ dp)%nat ->
  (right_leaf < DataPartition.num_leaves_ dp)%nat ->
  DataPartition.leaf_count_ dp !! right_leaf = Some 0%nat ->
  DataPartition.Split leaf feature_bins threshold right_leaf dp = Ok dp' ->
  DataPartition.inv N dp' /\
  DataPartition.num_leaves_ dp' = DataPartition.num_leaves_ dp.
Proof.
  intros I Hleaf Hright Hempty HS.
  destruct (Split_result N dp dp' leaf right_leaf feature_bins threshold
              I Hleaf Hright HS)
    as (begin & cnt & Ls & Rs & Hb & Hc & Hr & Hperm & ->).
  pose proof (DataPartition.inv_begin_len N dp I) as Hbl.
  pose proof (DataPartition.inv_count_len N dp I) as Hcl.
  pose proof (inv_length_indices N dp I) as Hil.
  assert (length Ls + length Rs = cnt)%nat as Hlr.
  { rewrite <- length_app, Hperm, length_take, length_drop. lia. }
  set (lc := length Ls) in *.
  (* the tables after the split *)
  assert (Hcount : forall l c,
    <[right_leaf := (cnt - lc)%nat]>
      (<[leaf := lc]> (DataPartition.leaf_count_ dp)) !! l = Some c ->
    (l = right_leaf /\ c = (cnt - lc)%nat) \/
    (l <> right_leaf /\ l = leaf /\ c = lc) \/
    (l <> right_leaf /\ l <> leaf /\ DataPartition.leaf_count_ dp !! l = Some c)).
  { intros l c Hl. destruct (decide (l = right_leaf)) as [->|Hne].
    - rewrite list_lookup_insert_eq in Hl by (rewrite length_insert; lia).
      simplify_eq. auto.
    - rewrite list_lookup_insert_ne in Hl by done.
      destruct (decide (l = leaf)) as [->|Hne'].
      + rewrite list_lookup_insert_eq in Hl by lia. simplify_eq. auto.
      + rewrite list_lookup_insert_ne in Hl by done. auto. }
  assert (Hbegin : forall l b,
    <[right_leaf := (lc + begin)%nat]> (DataPartition.leaf_begin_ dp) !! l = Some b ->
    (l = right_leaf /\ b = (lc + begin)%nat) \/
    (l <> right_leaf /\ DataPartition.leaf_begin_ dp !! l = Some b)).
  { intros l b Hl. destruct (decide (l = right_leaf)) as [->|Hne].
    - rewrite list_lookup_insert_eq in Hl by lia. simplify_eq. auto.
    - rewrite list_lookup_insert_ne in Hl by done. auto. }
  (* who owns what, after and before *)
  assert (Hown : forall l p,
    DataPartition.owns
      (DataPartition.with_leaves dp
         (<[right_leaf := (lc + begin)%nat]> (DataPartition.leaf_begin_ dp))
         (<[right_leaf := (cnt - lc)%nat]>
            (<[leaf := lc]> (DataPartition.leaf_count_ dp)))
         (take begin (DataPartition.indices_ dp) ++ (Ls ++ Rs)
          ++ drop (begin + cnt) (DataPartition.indices_ dp))) l p ->
    (l = right_leaf /\ (begin + lc <= p < begin + cnt)%nat) \/
    (l <> right_leaf /\ l = leaf /\ (begin <= p < begin + lc)%nat) \/
    (l <> right_leaf /\ l <> leaf /\ DataPartition.owns dp l p)).
  { intros l p (b & c & Hlb & Hlc & Hp). simpl in Hlb, Hlc.
    destruct (Hcount _ _ Hlc) as [[-> ->]|[(Hne & -> & ->)|(Hne & Hne' & Hc')]];
      destruct (Hbegin _ _ Hlb) as [[E ->]|[Hne2 Hb']]; try done.
    - left. split; [done | lia].
    - right. left. rewrite Hb in Hb'. simplify_eq. auto.
    - right. right. repeat split; auto. by exists b, c. }
  assert (Hold : forall p, DataPartition.owns dp leaf p ->
                           (begin <= p < begin + cnt)%nat).
  { intros p (b & c & Hb' & Hc' & Hp). by simplify_eq. }
  split; [|done]. constructor; simpl.
  - apply (DataPartition.inv_threads N dp I).
  - by rewrite length_insert.
  - by rewrite !length_insert.
  - rewrite Hperm. rewrite <- (DataPartition.inv_perm N dp I).
    rewrite <- (take_drop begin (DataPartition.indices_ dp)) at 4.
    f_equiv.
    rewrite <- (take_drop cnt (drop begin (DataPartition.indices_ dp))) at 2.
    by rewrite drop_drop.
  - pose proof (sum_list_insert (DataPartition.leaf_count_ dp) leaf cnt lc Hc) as H1.
    destruct (decide (leaf = right_leaf)) as [->|Hne].
    + rewrite Hc in Hempty. injection Hempty as ->.
      rewrite list_insert_insert_eq.
      pose proof (sum_list_insert (DataPartition.leaf_count_ dp) right_leaf 0
                    (0 - lc) Hc) as H2.
      rewrite <- (DataPartition.inv_sum N dp I). lia.
    + pose proof (sum_list_insert (<[leaf := lc]> (DataPartition.leaf_count_ dp))
                    right_leaf 0 (cnt - lc)) as H2.
      rewrite list_lookup_insert_ne in H2 by done. specialize (H2 Hempty).
      rewrite <- (DataPartition.inv_sum N dp I). lia.
  - intros p Hp. destruct (DataPartition.inv_cover N dp I p Hp) as [l Hl].
    destruct (decide (l = leaf)) as [->|Hne].
    + apply Hold in Hl. destruct (decide (p < begin + lc)%nat).
      * destruct (decide (leaf = right_leaf)) as [->|Hne].
        { rewrite Hc in Hempty. simplify_eq. lia. }
        exists leaf, begin, lc. simpl.
        rewrite list_lookup_insert_ne by done.
        rewrite list_lookup_insert_ne by done.
        rewrite list_lookup_insert_eq by lia. auto with lia.
      * exists right_leaf, (lc + begin)%nat, (cnt - lc)%nat. simpl.
        rewrite !list_lookup_insert_eq by (rewrite ?length_insert; lia).
        auto with lia.
    + assert (l <> right_leaf) as Hne'.
      { intros ->. destruct Hl as (b & c & _ & Hc' & ?). simplify_eq. lia. }
      destruct Hl as (b & c & Hb' & Hc' & ?).
      exists l, b, c. simpl. rewrite !list_lookup_insert_ne by done. auto.
  - intros p l1 l2 H1 H2.
    assert (Hleaf_owner : forall l, l <> leaf -> DataPartition.owns dp l p ->
              ~ (begin <= p < begin + cnt)%nat).
    { intros l Hne Hl Hp. apply Hne.
      apply (DataPartition.inv_unique N dp I p); [done|].
      exists begin, cnt. auto. }
    destruct (Hown _ _ H1) as [[-> ?]|[(? & -> & ?)|(? & ? & Ho1)]];
      destruct (Hown _ _ H2) as [[-> ?]|[(? & -> & ?)|(? & ? & Ho2)]];
      try done; try lia.
    + exfalso. eapply Hleaf_owner; eauto with lia.
    + exfalso. eapply Hleaf_owner; eauto with lia.
    + exfalso. eapply Hleaf_owner; eauto with lia.
    + exfalso. eapply Hleaf_owner; eauto with lia.
    + by apply (DataPartition.inv_unique N dp I p).
  - intros l b c Hlb Hlc.
    destruct (Hcount _ _ Hlc) as [[-> ->]|[(Hne & -> & ->)|(Hne & Hne' & Hc')]];
      destruct (Hbegin _ _ Hlb) as [[E ->]|[Hne2 Hb']]; try done.
    + lia.
    + rewrite Hb in Hb'. simplify_eq. lia.
    + by apply (DataPartition.inv_range N dp I l).
Qed.

Lemma reachable_inv (N L T : nat) (dp : DataPartition.t) :
  (0 < T)%nat -> DataPartition.reachable N L T dp ->
  DataPartition.inv N dp /\ DataPartition.num_leaves_ dp = L.
Proof.
  intros HT. induction 1 as [dp HI | dp leaf fb thr right dp' _ [I HL] ? ? ? HS].
  - destruct (Init_inv N L T dp HT HI) as (? & ? & _). auto.
  - destruct (Split_inv N dp dp' leaf right fb thr I) as [I' HL']; try done;
      try lia. split; [done | lia].
Qed.

End SplitInv.

Section PartitionTheorem.
Context {B : Type} `{Bin B}.

Lemma GetIndexOnLeaf_elem (N : nat) (dp : DataPartition.t) (l r : nat) :
  DataPartition.inv N dp ->
  r ∈ DataPartition.GetIndexOnLeaf dp l <->
  exists p, DataPartition.owns dp l p /\ DataPartition.indices_ dp !! p = Some r.
Proof.
  intros I. unfold DataPartition.GetIndexOnLeaf, DataPartition.owns.
  rewrite list_elem_of_lookup. split.
  - intros [k Hk]. rewrite lookup_take in Hk. case_decide as Hkc; [|done].
    rewrite lookup_drop in Hk.
    destruct (DataPartition.leaf_count_ dp !! l) as [c|] eqn:Hc; [|simpl in *; lia].
    destruct (lookup_lt_is_Some_2 (DataPartition.leaf_begin_ dp) l) as [b Hb].
    { rewrite (DataPartition.inv_begin_len N dp I),
        <- (DataPartition.inv_count_len N dp I). by eapply lookup_lt_Some. }
    rewrite Hb in Hk. simpl in *.
    exists (b + k)%nat. split; [|done]. exists b, c. auto with lia.
  - intros (p & (b & c & Hb & Hc & Hp) & Hr). exists (p - b)%nat.
    rewrite Hb, Hc. simpl. rewrite lookup_take, decide_True by lia.
    rewrite lookup_drop. by replace (b + (p - b))%nat with p by lia.
Qed.

Lemma row_in_one_leaf (N : nat) (dp : DataPartition.t) (r : nat) :
  DataPartition.inv N dp -> (r < N)%nat ->
  exists! l, r ∈ DataPartition.GetIndexOnLeaf dp l.
Proof.
  intros I Hr.
  pose proof (DataPartition.inv_perm N dp I) as Hperm.
  assert (r ∈ DataPartition.indices_ dp) as Hin.
  { rewrite Hperm. apply elem_of_seq. lia. }
  apply list_elem_of_lookup in Hin as [p Hp].
  assert (p < N)%nat as HpN.
  { apply lookup_lt_Some in Hp. by rewrite (inv_length_indices N dp I) in Hp. }
  destruct (DataPartition.inv_cover N dp I p HpN) as [l Hl].
  exists l. split.
  - apply (GetIndexOnLeaf_elem N); eauto.
  - intros l' (p' & Hl' & Hp')%(GetIndexOnLeaf_elem N); [|done].
    assert (NoDup (DataPartition.indices_ dp)) as Hnd
      by (rewrite Hperm; apply NoDup_seq).
    assert (p = p') as <- by (eapply NoDup_lookup; eauto).
    by apply (DataPartition.inv_unique N dp I p).
Qed.

(** C3.  A partition of [N] rows that was initialised with every row on
    leaf 0, after any sequence of splits whose right leaf was empty: the
    leaf counts add up to [N]; [indices_] is a permutation of the row ids
    [0 .. N-1] and every row id lies in exactly one leaf; the rows of a leaf
    are the entries of [indices_] at the positions from [leaf_begin] up to
    [leaf_begin + leaf_count], a range inside the array, and no position
    belongs to two leaves; one more such split succeeds, keeps the begin of
    the split leaf, starts the right leaf at that begin plus the new count of
    the left one, and hands the rows of the split leaf to the two leaves. *)
Theorem DataPartition_Split_correct (N L T : nat) (dp : DataPartition.t) :
  (0 < T)%nat -> DataPartition.reachable N L T dp ->
  sum_list (DataPartition.leaf_count_ dp) = N /\
  DataPartition.indices_ dp ≡ₚ seq 0 N /\
  (forall r, (r < N)%nat -> exists! l, r ∈ DataPartition.GetIndexOnLeaf dp l) /\
  (forall l, (l < L)%nat ->
     exists b c,
       DataPartition.leaf_begin_ dp !! l = Some b /\
       DataPartition.leaf_count_ dp !! l = Some c /\
       (b + c <= N)%nat /\
       length (DataPartition.GetIndexOnLeaf dp l) = c /\
       forall k, (k < c)%nat ->
         DataPartition.GetIndexOnLeaf dp l !! k =
         DataPartition.indices_ dp !! (b + k)%nat) /\
  (forall p l1 l2,
     DataPartition.owns dp l1 p -> DataPartition.owns dp l2 p -> l1 = l2) /\
  (forall leaf right_leaf (feature_bins : B) threshold,
     (leaf < L)%nat -> (right_leaf < L)%nat ->
     DataPartition.leaf_count_ dp !! right_leaf = Some 0%nat ->
     exists dp' begin cnt left_cnt,
       DataPartition.Split leaf feature_bins threshold right_leaf dp = Ok dp' /\
       DataPartition.leaf_begin_ dp !! leaf = Some begin /\
       DataPartition.leaf_count_ dp !! leaf = Some cnt /\
       DataPartition.leaf_begin_ dp' !! leaf = Some begin /\
       DataPartition.leaf_count_ dp' !! leaf = Some left_cnt /\
       DataPartition.leaf_begin_ dp' !! right_leaf = Some (begin + left_cnt)%nat /\
       DataPartition.leaf_count_ dp' !! right_leaf = Some (cnt - left_cnt)%nat /\
       (left_cnt <= cnt)%nat /\
       DataPartition.GetIndexOnLeaf dp' leaf ++
       DataPartition.GetIndexOnLeaf dp' right_leaf ≡ₚ
       DataPartition.GetIndexOnLeaf dp leaf).
Proof.
  intros HT HR. destruct (reachable_inv N L T dp HT HR) as [I HL].
  pose proof (DataPartition.inv_begin_len N dp I) as Hbl.
  pose proof (DataPartition.inv_count_len N dp I) as Hcl.
  pose proof (inv_length_indices N dp I) as Hil.
  split; [apply (DataPartition.inv_sum N dp I)|].
  split; [apply (DataPartition.inv_perm N dp I)|].
  split; [intros; by apply (row_in_one_leaf N)|].
  split; [|split; [apply (DataPartition.inv_unique N dp I)|]].
  - intros l Hl.
    destruct (lookup_lt_is_Some_2 (DataPartition.leaf_begin_ dp) l) as [b Hb]; [lia|].
    destruct (lookup_lt_is_Some_2 (DataPartition.leaf_count_ dp) l) as [c Hc]; [lia|].
    pose proof (DataPartition.inv_range N dp I _ _ _ Hb Hc).
    exists b, c. unfold DataPartition.GetIndexOnLeaf. rewrite Hb, Hc. simpl.
    repeat split; auto.
    + rewrite length_take, length_drop. lia.
    + intros k Hk. by rewrite lookup_take, decide_True, lookup_drop by lia.
  - intros leaf right_leaf fb thr Hleaf Hright Hempty.
    destruct (lookup_lt_is_Some_2 (DataPartition.leaf_begin_ dp) leaf)
      as [begin Hb]; [lia|].
    destruct (lookup_lt_is_Some_2 (DataPartition.leaf_count_ dp) leaf)
      as [cnt Hc]; [lia|].
    pose proof (DataPartition.inv_range N dp I _ _ _ Hb Hc) as Hr.
    destruct (Split_spec leaf right_leaf fb thr dp begin cnt)
      as (Ls & Rs & Hperm & HE); try done; try lia.
    { apply (DataPartition.inv_threads N dp I). }
    assert (length Ls + length Rs = cnt)%nat as Hlr.
    { rewrite <- length_app, Hperm, length_take, length_drop. lia. }
    eexists _, begin, cnt, (length Ls). split; [exact HE|]. simpl.
    split; [done|]. split; [done|].
    assert (<[right_leaf := (length Ls + begin)%nat]>
              (DataPartition.leaf_begin_ dp) !! leaf = Some begin) as Hb'.
    { destruct (decide (leaf = right_leaf)) as [->|Hne].
      - rewrite Hc in Hempty. simplify_eq.
        rewrite list_lookup_insert_eq by lia. f_equal. lia.
      - by rewrite list_lookup_insert_ne. }
    assert (<[right_leaf := (cnt - length Ls)%nat]>
              (<[leaf := length Ls]> (DataPartition.leaf_count_ dp)) !! leaf
            = Some (length Ls)) as Hc'.
    { destruct (decide (leaf = right_leaf)) as [->|Hne].
      - rewrite Hc in Hempty. simplify_eq.
        rewrite list_lookup_insert_eq by (rewrite length_insert; lia).
        f_equal. lia.
      - rewrite list_lookup_insert_ne by done.
        by rewrite list_lookup_insert_eq by lia. }
    split; [done|]. split; [done|].
    split; [rewrite list_lookup_insert_eq by lia; f_equal; lia|].
    split; [by rewrite list_lookup_insert_eq by (rewrite length_insert; lia)|].
    split; [lia|].
    unfold DataPartition.GetIndexOnLeaf. simpl. rewrite Hb', Hc', Hb, Hc.
    rewrite !list_lookup_insert_eq by (rewrite ?length_insert; lia). simpl.
    rewrite <- Hperm.
    assert (length (take begin (DataPartition.indices_ dp)) = begin) as Hpre
      by (rewrite length_take; lia).
    set (pre := take begin (DataPartition.indices_ dp)) in *.
    set (post := drop (begin + cnt) (DataPartition.indices_ dp)).
    assert (drop begin (pre ++ (Ls ++ Rs) ++ post) = Ls ++ Rs ++ post) as ->
      by (rewrite drop_app_length' by done; by rewrite <- app_assoc).
    assert (drop (length Ls + begin) (pre ++ (Ls ++ Rs) ++ post) = Rs ++ post)
      as ->.
    { rewrite drop_app_ge by lia. rewrite Hpre.
      replace (length Ls + begin - begin)%nat with (length Ls) by lia.
      rewrite <- app_assoc. apply drop_app_length. }
    by rewrite take_app_length, take_app_length' by lia.
Qed.

End PartitionTheorem.

(** Four rows, three leaves, two threads: leaf 0 is split on a dense column
    with bins [0; 1; 0; 1] at threshold 0 into leaves 0 and 1. *)
Lemma DataPartition_Split_correct_witness :
  exists dp,
    DataPartition.reachable (B := DenseBin) 4 3 2 dp /\
    DataPartition.indices_ dp = [0; 2; 1; 3]%nat /\
    sum_list (DataPartition.leaf_count_ dp) = 4%nat /\
    DataPartition.indices_ dp ≡ₚ seq 0 4 /\
    (forall r, (r < 4)%nat -> exists! l, r ∈ DataPartition.GetIndexOnLeaf dp l).
Proof.
  eexists. 
  assert (R : DataPartition.reachable (B := DenseBin) 4 3 2
                {| DataPartition.num_data_ := 4; DataPartition.num_leaves_ := 3;
                   DataPartition.leaf_begin_ := [0; 2; 0]%nat;
                   DataPartition.leaf_count_ := [2; 2; 0]%nat;
                   DataPartition.indices_ := [0; 2; 1; 3]%nat;
                   DataPartition.used_data_indices_ := None;
                   DataPartition.used_data_count_ := 0;
                   DataPartition.num_threads_ := 2 |}).
  { eapply (DataPartition.reach_Split 4 3 2 _ 0%nat ([0; 1; 0; 1]%nat : DenseBin)
              0%nat 1%nat).
    - apply DataPartition.reach_Init. reflexivity.
    - lia.
    - lia.
    - reflexivity.
    - reflexivity. }
  split; [exact R|]. split; [reflexivity|].
  destruct (DataPartition_Split_correct 4 3 2 _ ltac:(lia) R)
    as (Hsum & Hperm & Hone & _).
  auto.
Defined.
(** ** GBDT::Bagging *)

Lemma put_rows_spec (js : list nat) (cnt : nat) (buf : list nat) :
  (cnt + length js <= length buf)%nat ->
  exists buf',
    GBDT.put_rows js cnt buf = Ok ((cnt + length js)%nat, buf') /\
    length buf' = length buf /\
    take (cnt + length js) buf' = take cnt buf ++ js.
Proof.
  revert cnt buf. induction js as [|j js IH]; intros cnt buf Hlen; simpl in *.
  - exists buf. rewrite Nat.add_0_r, app_nil_r. auto.
  - unfold writen. rewrite decide_True by lia. cbn.
    destruct (IH (S cnt) (<[cnt := j]> buf)) as (buf' & HE & HL & HT).
    { rewrite length_insert. lia. }
    exists buf'. rewrite HE. replace (S cnt + length js)%nat
      with (cnt + S (length js))%nat in * by lia.
    split; [done|]. split; [by rewrite HL, length_insert|].
    rewrite HT. rewrite (take_S_r _ _ j) by (apply list_lookup_insert_eq; lia).
    rewrite take_insert_ge by lia. by rewrite <- app_assoc.
Qed.

Lemma qb_monotone_le (qb : list nat) (i j x y : nat) :
  qb_monotone qb -> (i <= j)%nat -> qb !! i = Some x -> qb !! j = Some y ->
  (x <= y)%nat.
Proof.
  intros Hm Hij Hx. revert y. induction Hij as [|j Hij IH]; intros y Hy.
  - by simplify_eq.
  - destruct (lookup_lt_is_Some_2 qb j) as [z Hz].
    { apply lookup_lt_Some in Hy. lia. }
    specialize (IH z Hz). specialize (Hm j z y Hz Hy). lia.
Qed.

(** The loop over the queries [i .. num_query): what was in the two buffers
    stays, the rows of each remaining query are appended as a whole to one
    of the two, and the appended rows are the rows from [qb[i]] to [N]. *)
Lemma bag_queries_spec (num_query bag_query_cnt N : nat) (qb : list nat) :
  length qb = S num_query -> qb_monotone qb -> qb !! num_query = Some N ->
  forall (n i : nat) (r : Random.t) (clq cl cr : nat) (bag oob : list nat) (lo : nat),
    (i + n = num_query)%nat -> qb !! i = Some lo -> (cl + cr = lo)%nat ->
    length bag = N -> length oob = N ->
    exists r' cl' cr' bag' oob' Bnew Onew,
      GBDT.bag_queries num_query bag_query_cnt qb (seq i n) r clq cl cr bag oob
      = Ok (r', cl', cr', bag', oob') /\
      length bag' = N /\ length oob' = N /\ (cl' + cr' = N)%nat /\
      take cl' bag' = take cl bag ++ Bnew /\
      take cr' oob' = take cr oob ++ Onew /\
      Bnew ++ Onew ≡ₚ seq lo (N - lo) /\
      forall q a b, (i <= q < num_query)%nat ->
        qb !! q = Some a -> qb !! S q = Some b ->
        (forall j, (a <= j < b)%nat -> j ∈ Bnew) \/
        (forall j, (a <= j < b)%nat -> j ∈ Onew).
Proof.
  intros Hqlen Hmono Hlast n.
  induction n as [|n IH]; intros i r clq cl cr bag oob lo Hin Hlo Hsum Hbag Hoob.
  - simpl. assert (i = num_query) as -> by lia.
    rewrite Hlast in Hlo. injection Hlo as <-.
    exists r, cl, cr, bag, oob, [], []. rewrite !app_nil_r, Nat.sub_diag.
    repeat split; auto. intros; lia.
  - simpl. set (x := Random.draws r (Random.pos r)).
    set (r1 := {| Random.draws := Random.draws r;
                  Random.pos := S (Random.pos r) |}).
    destruct (lookup_lt_is_Some_2 qb (S i)) as [hi Hhi]; [lia|].
    assert (readn qb i = Ok lo) as -> by (by apply readn_Ok).
    assert (readn qb (S i) = Ok hi) as -> by (by apply readn_Ok).
    cbn.
    assert (lo <= hi)%nat as Hlohi by (by apply (Hmono i)).
    assert (hi <= N)%nat as HhiN.
    { apply (qb_monotone_le qb (S i) num_query hi N); auto. lia. }
    assert (Hsplit : seq lo (N - lo) = seq lo (hi - lo) ++ seq hi (N - hi)).
    { replace (N - lo)%nat with ((hi - lo) + (N - hi))%nat by lia.
      rewrite seq_app. do 2 f_equal. lia. }
    case_decide as Hprob.
    + destruct (put_rows_spec (seq lo (hi - lo)) cl bag) as (bag1 & HE & HL & HT).
      { rewrite length_seq. lia. }
      rewrite HE. cbn. rewrite length_seq in *.
      destruct (IH (S i) r1 (S clq) (cl + (hi - lo))%nat cr bag1 oob hi
                  ltac:(lia) Hhi ltac:(lia) ltac:(lia) Hoob)
        as (r' & cl' & cr' & bag' & oob' & Bnew & Onew & HE' & ? & ? & ? & HB & HO
            & Hperm & Hwhole).
      exists r', cl', cr', bag', oob', (seq lo (hi - lo) ++ Bnew), Onew.
      split; [done|]. repeat split; auto.
      * by rewrite HB, HT, <- app_assoc.
      * rewrite Hsplit, <- Hperm. by rewrite <- app_assoc.
      * intros q a b Hq Ha Hb. destruct (decide (q = i)) as [->|Hne].
        { simplify_eq. left. intros j Hj. apply elem_of_app. left.
          apply elem_of_seq. lia. }
        destruct (Hwhole q a b) as [HL1|HR1]; auto with lia.
        left. intros j Hj. apply elem_of_app. auto.
    + destruct (put_rows_spec (seq lo (hi - lo)) cr oob) as (oob1 & HE & HL & HT).
      { rewrite length_seq. lia. }
      rewrite HE. cbn. rewrite length_seq in *.
      destruct (IH (S i) r1 clq cl (cr + (hi - lo))%nat bag oob1 hi
                  ltac:(lia) Hhi ltac:(lia) Hbag ltac:(lia))
        as (r' & cl' & cr' & bag' & oob' & Bnew & Onew & HE' & ? & ? & ? & HB & HO
            & Hperm & Hwhole).
      exists r', cl', cr', bag', oob', Bnew, (seq lo (hi - lo) ++ Onew).
      split; [done|]. repeat split; auto.
      * by rewrite HO, HT, <- app_assoc.
      * rewrite Hsplit, <- Hperm.
        rewrite (Permutation_app_comm Bnew), <- app_assoc. f_equiv.
        apply Permutation_app_comm.
      * intros q a b Hq Ha Hb. destruct (decide (q = i)) as [->|Hne].
        { simplify_eq. right. intros j Hj. apply elem_of_app. left.
          apply elem_of_seq. lia. }
        destruct (Hwhole q a b) as [HL1|HR1]; auto with lia.
        right. intros j Hj. apply elem_of_app. auto.
Qed.

(** The Dataset invariant, read through [query_boundaries()]. *)
Lemma qb_invariant_nat (d : Dataset.t) (N : nat) :
  Metadata.query_boundaries_ (Dataset.metadata_ d) <> [] ->
  Metadata.qb_invariant (Dataset.metadata_ d) ->
  Metadata.num_data_ (Dataset.metadata_ d) = Z.of_nat N ->
  exists qb,
    Dataset.query_boundaries d = Some qb /\
    length qb = S (Dataset.num_queries d) /\
    qb_monotone qb /\ qb !! 0%nat = Some 0%nat /\
    qb !! Dataset.num_queries d = Some N.
Proof.
  intros Hne [Hlen Hfirst Hincr Hlast] HN.
  unfold Dataset.query_boundaries, Dataset.num_queries.
  set (qbz := Metadata.query_boundaries_ (Dataset.metadata_ d)) in *.
  exists (map Z.to_nat qbz).
  assert (length qbz = S (Z.to_nat (Metadata.num_queries_ (Dataset.metadata_ d))))
    as Hl by (destruct qbz; [done | simpl in *; lia]).
  split; [by destruct qbz|]. split; [by rewrite length_map|].
  assert (Hnonneg : forall i x, qbz !! i = Some x -> 0 <= x).
  { induction i as [|i IH]; intros x Hx.
    - rewrite Hfirst in Hx. injection Hx as <-. lia.
    - destruct (lookup_lt_is_Some_2 qbz i) as [y Hy].
      { apply lookup_lt_Some in Hx. lia. }
      specialize (IH y Hy). specialize (Hincr i y x Hy Hx). lia. }
  split; [|split].
  - intros i x y Hx Hy. rewrite list_lookup_fmap in Hx, Hy.
    destruct (qbz !! i) as [x'|] eqn:Hx'; [|done].
    destruct (qbz !! S i) as [y'|] eqn:Hy'; [|done].
    simpl in *. simplify_eq. specialize (Hincr i x' y' Hx' Hy').
    specialize (Hnonneg i x' Hx'). lia.
  - by rewrite list_lookup_fmap, Hfirst.
  - rewrite list_lookup_fmap. rewrite last_lookup, Hl in Hlast. simpl in Hlast.
    rewrite Hlast. simpl. f_equal. lia.
Qed.

(** C4.  When the bagging buffers exist, [iter] is a multiple of
    [bagging_freq] and the dataset has query boundaries that satisfy the
    Dataset invariant, [Bagging] succeeds and leaves in the first
    [bag_data_cnt_] entries of [bag_data_indices_] a union of whole queries
    (of every query either all rows or none), and these entries together
    with the first [out_of_bag_data_cnt_] entries of
    [out_of_bag_data_indices_] contain every row index below [num_data_]
    exactly once; the learner of the class is handed [bag_data_cnt_]. *)
Theorem Bagging_whole_queries (g : GBDT.t) (iter curr_class : nat)
    (bag oob : list nat) :
  GBDT.bag_data_indices_ g = Some bag ->
  GBDT.out_of_bag_data_indices_ g = Some oob ->
  length bag = GBDT.num_data_ g -> length oob = GBDT.num_data_ g ->
  (0 < GBDTConfig.bagging_freq (GBDT.gbdt_config_ g))%nat ->
  (iter mod GBDTConfig.bagging_freq (GBDT.gbdt_config_ g) = 0)%nat ->
  Metadata.query_boundaries_ (Dataset.metadata_ (GBDT.train_data_ g)) <> [] ->
  Metadata.qb_invariant (Dataset.metadata_ (GBDT.train_data_ g)) ->
  Metadata.num_data_ (Dataset.metadata_ (GBDT.train_data_ g))
  = Z.of_nat (GBDT.num_data_ g) ->
  (curr_class < length (GBDT.tree_learner_ g))%nat ->
  exists g' bag' oob' qb,
    GBDT.Bagging iter curr_class g = Ok g' /\
    Dataset.query_boundaries (GBDT.train_data_ g) = Some qb /\
    GBDT.bag_data_indices_ g' = Some bag' /\
    GBDT.out_of_bag_data_indices_ g' = Some oob' /\
    (exists l, GBDT.tree_learner_ g' !! curr_class = Some l /\
               TreeLearner.used_data_count_ l = Some (GBDT.bag_data_cnt_ g')) /\
    let B := take (GBDT.bag_data_cnt_ g') bag' in
    let O := take (GBDT.out_of_bag_data_cnt_ g') oob' in
    B ++ O ≡ₚ seq 0 (GBDT.num_data_ g) /\
    NoDup (B ++ O) /\
    forall q lo hi, (q < Dataset.num_queries (GBDT.train_data_ g))%nat ->
      qb !! q = Some lo -> qb !! S q = Some hi ->
      (forall j, (lo <= j < hi)%nat -> j ∈ B) \/
      (forall j, (lo <= j < hi)%nat -> j ∉ B).
Proof.
  intros Hbag Hoob Hbl Hol Hpos Hfreq Hne Hinv HN Hc.
  destruct (qb_invariant_nat _ _ Hne Hinv HN) as (qb & Hqb & Hql & Hmono & H0 & Hlast).
  set (N := GBDT.num_data_ g) in *.
  set (nq := Dataset.num_queries (GBDT.train_data_ g)) in *.
  destruct (bag_queries_spec nq
              (Z.to_nat (trunc (Qc_of_Z (Z.of_nat nq)
                 * GBDTConfig.bagging_fraction (GBDT.gbdt_config_ g))%Qc))
              N qb Hql Hmono Hlast nq 0 (GBDT.random_ g) 0 0 0 bag oob 0)
    as (r' & cl' & cr' & bag' & oob' & Bnew & Onew & HE & Hbl' & Hol' & Hsum
        & HB & HO & Hperm & Hwhole); auto.
  rewrite take_0 in HB, HO. simpl in HB, HO. rewrite Nat.sub_0_r in Hperm.
  destruct (lookup_lt_is_Some_2 (GBDT.tree_learner_ g) curr_class) as [l Hl]; [done|].
  unfold GBDT.Bagging. rewrite Hoob. cbn zeta.
  rewrite decide_False by lia. rewrite Hfreq, Hbag, Hqb. simpl. fold N nq.
  rewrite HE. cbn.
  assert (readn (GBDT.tree_learner_ g) curr_class = Ok l) as ->
    by (by apply readn_Ok).
  cbn. eexists _, bag', oob', qb. split; [reflexivity|]. simpl.
  replace (N - cl')%nat with cr' by lia. rewrite HB, HO.
  repeat split; auto.
  - eexists. split; [apply list_lookup_insert_eq; by eapply lookup_lt_Some|done].
  - rewrite Hperm. apply NoDup_seq.
  - intros q lo hi Hq Hlo Hhi.
    destruct (Hwhole q lo hi) as [HL|HR]; auto with lia.
    right. intros j Hj Hin.
    assert (NoDup (Bnew ++ Onew)) as Hnd by (rewrite Hperm; apply NoDup_seq).
    apply NoDup_app in Hnd as (_ & Hdisj & _). eapply Hdisj; eauto.
Qed.

(** Three queries of two rows, [bagging_fraction = 2/3], every draw 1/2:
    the first two queries are bagged. *)
Lemma Bagging_whole_queries_witness :
  let g := GBDT.Init (Examples.config (Q2Qc (2 # 3)) 1 0) Examples.ranking_data
             None (GBDT.new (Examples.config (Q2Qc (2 # 3)) 1 0)) in
  exists g' bag' oob',
    GBDT.Bagging 0 0 g = Ok g' /\
    GBDT.bag_data_indices_ g' = Some bag' /\
    GBDT.out_of_bag_data_indices_ g' = Some oob' /\
    take (GBDT.bag_data_cnt_ g') bag' ++ take (GBDT.out_of_bag_data_cnt_ g') oob'
    ≡ₚ seq 0 6.
Proof.
  intros g.
  destruct (Bagging_whole_queries g 0 0 (replicate 6 0%nat) (replicate 6 0%nat))
    as (g' & bag' & oob' & qb & HE & _ & Hb & Ho & _ & Hperm & _).
  - reflexivity.
  - reflexivity.
  - reflexivity.
  - reflexivity.
  - simpl. lia.
  - reflexivity.
  - discriminate.
  - constructor; simpl.
    + reflexivity.
    + reflexivity.
    + intros [|[|[|[|i]]]] x y Hx Hy; simpl in *; simplify_eq; lia.
    + reflexivity.
  - reflexivity.
  - simpl. lia.
  - exists g', bag', oob'. auto.
Defined.
(** ** GBDT::OutputMetric and early stopping *)

Lemma bind_Ok {A B} (r : result A) (f : A -> result B) (y : B) :
  r ≫= f = Ok y <-> exists x, r = Ok x /\ f x = Ok y.
Proof.
  destruct r; cbn; split; try (intros (? & ? & ?)); try discriminate; eauto.
  by simplify_eq.
Qed.

Tactic Notation "bind_case" hyp(H) "as" ident(x) ident(Hx) :=
  apply bind_Ok in H as (x & Hx & H); cbn beta iota in H.

Ltac inv_bind H :=
  repeat match type of H with
         | (?r ≫= _) = Ok _ =>
             let x := fresh "x" in
             let Hx := fresh "HE" in
             apply bind_Ok in H as (x & Hx & H); cbn beta iota in H
         end.




Lemma same_control_refl g : same_control g g.
Proof. by constructor. Qed.

Lemma same_control_trans g1 g2 g3 :
  same_control g1 g2 -> same_control g2 g3 -> same_control g1 g3.
Proof. intros [] []. constructor; congruence. Qed.

Lemma AddScore_each_length tree c sus sus' :
  GBDT.AddScore_each tree c sus = Ok sus' -> length sus' = length sus.
Proof.
  revert sus'. induction sus as [|su sus IH]; intros sus' H; simpl in H.
  - by injection H as <-.
  - bind_case H as su' Hsu. bind_case H as rest Hrest.
    injection H as <-. simpl. f_equal. by apply IH.
Qed.

Lemma Bagging_frame iter c g g' :
  GBDT.Bagging iter c g = Ok g' ->
  same_control g g' /\ GBDT.models_ g' = GBDT.models_ g /\
  GBDT.train_score_updater_ g' = GBDT.train_score_updater_ g /\
  GBDT.valid_score_updater_ g' = GBDT.valid_score_updater_ g.
Proof.
  unfold GBDT.Bagging. intros H.
  destruct (GBDT.out_of_bag_data_indices_ g);
    [|injection H as <-; by repeat split].
  cbn zeta in H. destruct (decide _); [done|].
  destruct (_ =? _)%nat; [|injection H as <-; by repeat split].
  destruct (GBDT.bag_data_indices_ g); [|done].
  bind_case H as x HE. bind_case H as lrn Hlrn. injection H as <-.
  assert (same_control g x /\ GBDT.models_ x = GBDT.models_ g /\
          GBDT.train_score_updater_ x = GBDT.train_score_updater_ g /\
          GBDT.valid_score_updater_ x = GBDT.valid_score_updater_ g) as HX.
  { destruct (Dataset.query_boundaries _); bind_case HE as y Hy;
      repeat match goal with x : _ * _ |- _ => destruct x end;
      simpl in HE; inversion HE; subst; by repeat split. }
  destruct HX as ([] & ? & ? & ?).
  repeat split; simpl; auto. by rewrite length_insert.
Qed.

Lemma UpdateScore_frame tree rows c g g' :
  GBDT.UpdateScore tree rows c g = Ok g' ->
  same_control g g' /\ GBDT.models_ g' = GBDT.models_ g /\
  GBDT.tree_learner_ g' = GBDT.tree_learner_ g /\
  GBDT.out_of_bag_data_indices_ g' = GBDT.out_of_bag_data_indices_ g /\
  GBDT.out_of_bag_data_cnt_ g' = GBDT.out_of_bag_data_cnt_ g.
Proof.
  unfold GBDT.UpdateScore. intros H.
  bind_case H as sc Hsc. bind_case H as valid Hvalid. injection H as <-.
  apply AddScore_each_length in Hvalid.
  repeat split; simpl; auto.
Qed.

Lemma UpdateScoreOutOfBag_frame tree c g g' :
  GBDT.UpdateScoreOutOfBag tree c g = Ok g' ->
  same_control g g' /\ GBDT.models_ g' = GBDT.models_ g /\
  GBDT.tree_learner_ g' = GBDT.tree_learner_ g /\
  GBDT.valid_score_updater_ g' = GBDT.valid_score_updater_ g.
Proof.
  unfold GBDT.UpdateScoreOutOfBag. intros H.
  destruct (GBDT.out_of_bag_data_indices_ g).
  - bind_case H as su Hsu. injection H as <-. repeat split; simpl; auto.
  - injection H as <-. repeat split; simpl; auto.
Qed.

Lemma train_class_frame sh grad hess c g stop g' :
  GBDT.train_class sh grad hess c g = Ok (stop, g') ->
  same_control g g' /\
  (stop = true -> GBDT.models_ g' = GBDT.models_ g) /\
  (stop = false -> exists t, GBDT.models_ g' = GBDT.models_ g ++ [t]).
Proof.
  unfold GBDT.train_class. intros H.
  bind_case H as gb Hgb. bind_case H as l Hl. bind_case H as rows Hrows.
  apply Bagging_frame in Hgb as (S0 & Hm & _ & _).
  set (g1 := GBDT.with_tree_learner gb _) in H.
  assert (same_control g g1) as S1.
  { destruct S0. constructor; simpl; rewrite ?length_insert; auto. }
  destruct (_ <=? _)%nat.
  - injection H as <- <-. split; [done|]. split; [by intros _ | discriminate].
  - bind_case H as g2 Hg2. bind_case H as g3 Hg3. injection H as <- <-.
    apply UpdateScore_frame in Hg2 as (S2 & M2 & _).
    apply UpdateScoreOutOfBag_frame in Hg3 as (S3 & M3 & _).
    pose proof (same_control_trans _ _ _ S1 (same_control_trans _ _ _ S2 S3))
      as [].
    split; [by constructor|]. split; [discriminate|].
    intros _. eexists. simpl. by rewrite M3, M2, <- Hm.
Qed.

Lemma train_classes_frame sh grad hess classes g stop g' :
  GBDT.train_classes sh grad hess classes g = Ok (stop, g') ->
  same_control g g' /\
  (stop = false ->
   exists new, length new = length classes /\
               GBDT.models_ g' = GBDT.models_ g ++ new).
Proof.
  revert g. induction classes as [|c cs IH]; intros g H; simpl in H.
  - injection H as <- <-. split; [apply same_control_refl|].
    intros _. exists []. by rewrite app_nil_r.
  - bind_case H as x HE. destruct x as [stop1 g1].
    apply train_class_frame in HE as (S1 & M1 & M2).
    destruct stop1.
    + injection H as <- <-. split; [done | discriminate].
    + apply IH in H as (S2 & M3). split; [by eapply same_control_trans|].
      intros ->. destruct (M2 eq_refl) as [t Ht].
      destruct (M3 eq_refl) as (new & Hl & Hn).
      exists (t :: new). split; [simpl; lia|].
      by rewrite Hn, Ht, <- app_assoc.
Qed.





(** ** Loading a model, predicting *)

Lemma find_line_None (key : str) (lines : list str) (i : nat) :
  ~ GBDT.has_line key lines ->
  GBDT.find_line key lines i = (None, (i + length lines)%nat).
Proof.
  revert i. induction lines as [|line lines IH]; intros i Hno; simpl.
  - by rewrite Nat.add_0_r.
  - destruct (Common.find line key) eqn:E.
    + exfalso. apply Hno. left. congruence.
    + rewrite IH; [f_equal; lia|]. intros Hhas. apply Hno. by right.
Qed.

Lemma find_line_Some (key : str) (lines : list str) (i j : nat) (line : str) :
  GBDT.find_line key lines i = (Some line, j) ->
  GBDT.has_line key lines /\ (i < j <= i + length lines)%nat.
Proof.
  revert i. induction lines as [|l lines IH]; intros i H; simpl in *.
  - discriminate.
  - destruct (Common.find l key) eqn:E.
    + simplify_eq. split; [left; congruence|lia].
    + destruct (IH _ H) as (? & ?). split; [by right|lia].
Qed.

(** Without a line that holds the key, the header is reported missing. *)
Lemma read_int_header_missing (key : str) (msg : string) (lines : list str)
    (old : Z) :
  ~ GBDT.has_line key lines ->
  GBDT.read_int_header key msg lines old = Fatal msg.
Proof.
  intros Hno. unfold GBDT.read_int_header.
  rewrite (find_line_None key lines 0 Hno). cbn.
  by rewrite decide_True.
Qed.

Lemma read_int_header_Ok (key : str) (msg : string) (lines : list str)
    (old v : Z) :
  GBDT.int_header key lines v ->
  GBDT.read_int_header key msg lines old = Ok v.
Proof.
  intros (line & i & p & rest & Hf & Hi & Hp & Ha).
  unfold GBDT.read_int_header. rewrite Hf, Hp. cbn. rewrite Ha. cbn.
  rewrite decide_False by lia. done.
Qed.

Lemma read_sigmoid_Ok (lines : list str) (old : double) :
  GBDT.sigmoid_header lines ->
  exists v, GBDT.read_sigmoid lines old = Ok v /\
    (~ GBDT.has_line s#"sigmoid=" lines -> v = (- 1)%Qc).
Proof.
  intros Hs. unfold GBDT.read_sigmoid.
  destruct (GBDT.find_line s#"sigmoid=" lines 0) as [[line|] i] eqn:Hf.
  - destruct (Hs line i Hf) as (p & v & rest & Hp & Ha).
    rewrite Hp. cbn. rewrite Ha. cbn.
    destruct (find_line_Some _ _ _ _ _ Hf) as (Hhas & _).
    destruct (decide (i = length lines)); eexists; (split; [done|]);
      intros Hno; by exfalso.
  - cbn. destruct (decide (i = length lines)) as [|Hne]; [by eexists|].
    eexists. split; [done|]. intros Hno.
    assert (E : (@None str, i) = (None, (0 + length lines)%nat)).
    { rewrite <- Hf. apply (find_line_None _ _ 0 Hno). }
    simplify_eq.
Qed.

Lemma load_trees_Ok (parse : str -> result Tree.t) (lines rest : list str)
    (i : nat) :
  Forall (fun b => is_Ok (parse b)) (GBDT.tree_blocks lines rest i) ->
  exists models, GBDT.load_trees parse lines rest i = Ok models /\
    length models = length (GBDT.tree_blocks lines rest i).
Proof.
  revert i. induction rest as [|line rest IH]; intros i Hall; simpl in *.
  - by exists [].
  - destruct (Common.find line _).
    + apply Forall_cons in Hall as [Hb Hall].
      destruct (IH _ Hall) as (models & HE & HL).
      destruct (parse _) as [tree| |]; try done. cbn. rewrite HE. cbn.
      exists (tree :: models). simpl. by rewrite HL.
    + by apply IH.
Qed.

Lemma read_sigmoid_default (lines : list str) (old v : double) :
  ~ GBDT.has_line s#"sigmoid=" lines ->
  GBDT.read_sigmoid lines old = Ok v -> v = (- 1)%Qc.
Proof.
  intros Hno. unfold GBDT.read_sigmoid.
  assert (E : GBDT.find_line s#"sigmoid=" lines 0 = (None, (0 + length lines)%nat))
    by apply (find_line_None _ _ 0 Hno).
  rewrite E. cbn. rewrite decide_True by done. congruence.
Qed.

Lemma ModelsFromString_sigmoid (parse : str -> result Tree.t) (s : str)
    (g g' : GBDT.t) :
  GBDT.ModelsFromString parse s g = Ok g' ->
  ~ GBDT.has_line s#"sigmoid=" (GBDT.lines_of s) ->
  GBDT.sigmoid_ g' = (- 1)%Qc.
Proof.
  unfold GBDT.ModelsFromString. fold (GBDT.lines_of s). intros H Hno.
  bind_case H as nc Hnc. bind_case H as li Hli. bind_case H as mf Hmf.
  bind_case H as sg Hsg. bind_case H as ms Hms.
  destruct (decide (nc = 0)); [done|]. simplify_eq. simpl.
  eapply read_sigmoid_default; eauto.
Qed.

Lemma sum_trees_spec (models : list Tree.t) (value : list double) (n : nat) :
  forall (i : nat) (ret : double),
    (i + n <= length models)%nat ->
    GBDT.sum_trees models (seq i n) value ret
    = Ok (ret + Qsum (map (fun t => Tree.Predict t value)
                        (take n (drop i models))))%Qc.
Proof.
  induction n as [|n IH]; intros i ret Hlen; simpl.
  - f_equal. unfold Qsum, double in *. simpl. ring.
  - destruct (lookup_lt_is_Some_2 models i) as [t Ht]; [lia|].
    rewrite (proj2 (readn_Ok _ _ _) Ht). cbn. rewrite IH by lia.
    rewrite (drop_S _ _ _ Ht). simpl. f_equal. unfold Qsum, double in *. simpl. ring.
Qed.

(** C7 (as amended).  Loading a model text ends in [Log::Fatal] when a line
    with [num_class=], [label_index=] or [max_feature_idx=] is missing
    (unless reading an earlier header overflowed an [int], which is
    undefined), and [CreateBoosting] ends in [Log::Fatal] when the kind on
    the first line of the file is not the kind asked for.  A text in which
    each of the three headers is followed by another line and holds an
    integer [Atoi] reads, with a number of classes that is not 0, in which
    the sigmoid line, if any, holds a token [Atof] accepts, and whose tree
    blocks the tree parser accepts, is loaded: the three values are stored,
    one tree per block, and the sigmoid is [-1] when no line holds
    [sigmoid=]. *)
Theorem model_loading_correct (parse : str -> result Tree.t) :
  (forall (s : str) (g : GBDT.t),
     ~ GBDT.has_line s#"num_class=" (GBDT.lines_of s) \/
     ~ GBDT.has_line s#"label_index=" (GBDT.lines_of s) \/
     ~ GBDT.has_line s#"max_feature_idx=" (GBDT.lines_of s) ->
     GBDT.ModelsFromString parse s g <> Undefined ->
     is_Fatal (GBDT.ModelsFromString parse s g)) /\
  (forall (unset : GBDTConfig.t) (type : Boosting.BoostingType)
          (file : TextReader.t),
     Boosting.GetBoostingTypeFromModelFile file <> type ->
     is_Fatal (Boosting.CreateBoosting parse unset type (Some file))) /\
  (forall (s : str) (g : GBDT.t) (num_class label_idx max_feature_idx : Z),
     let lines := GBDT.lines_of s in
     GBDT.int_header s#"num_class=" lines num_class ->
     num_class <> 0 ->
     GBDT.int_header s#"label_index=" lines label_idx ->
     GBDT.int_header s#"max_feature_idx=" lines max_feature_idx ->
     GBDT.sigmoid_header lines ->
     Forall (fun b => is_Ok (parse b)) (GBDT.tree_blocks lines lines 0) ->
     exists g',
       GBDT.ModelsFromString parse s g = Ok g' /\
       GBDT.num_class_ g' = num_class /\
       GBDT.label_idx_ g' = label_idx /\
       GBDT.max_feature_idx_ g' = max_feature_idx /\
       length (GBDT.models_ g') = length (GBDT.tree_blocks lines lines 0) /\
       (~ GBDT.has_line s#"sigmoid=" lines -> GBDT.sigmoid_ g' = (- 1)%Qc)).
Proof.
  split; [|split].
  - intros s g Hmiss Hdef.
    destruct (GBDT.ModelsFromString parse s g) as [g'| |] eqn:E; [exfalso|done..].
    unfold GBDT.ModelsFromString in E. fold (GBDT.lines_of s) in E.
    bind_case E as nc Hnc. bind_case E as li Hli. bind_case E as mf Hmf.
    destruct Hmiss as [H|[H|H]].
    + by rewrite (read_int_header_missing _ _ _ _ H) in Hnc.
    + by rewrite (read_int_header_missing _ _ _ _ H) in Hli.
    + by rewrite (read_int_header_missing _ _ _ _ H) in Hmf.
  - intros unset type file Hne. unfold Boosting.CreateBoosting.
    rewrite decide_False by done. done.
  - intros s g nc li mf lines Hnc Hnz Hli Hmf Hsg Htrees.
    unfold GBDT.ModelsFromString. fold (GBDT.lines_of s). fold lines.
    rewrite (read_int_header_Ok _ _ _ _ _ Hnc). cbn.
    rewrite (read_int_header_Ok _ _ _ _ _ Hli). cbn.
    rewrite (read_int_header_Ok _ _ _ _ _ Hmf). cbn.
    destruct (read_sigmoid_Ok lines (GBDT.sigmoid_ g) Hsg) as (sg & HE & Hdef).
    rewrite HE. cbn.
    destruct (load_trees_Ok parse lines lines 0 Htrees) as (models & HM & HL).
    rewrite HM. cbn. rewrite decide_False by done.
    eexists. split; [done|]. simpl. auto.
Qed.

Lemma model_loading_correct_witness :
  is_Fatal (GBDT.ModelsFromString Examples.parse_stump
              Examples.model_without_label Examples.blank) /\
  is_Fatal (Boosting.CreateBoosting Examples.parse_stump
              (Examples.config 1%Qc 0 0) Boosting.kGBDT
              (Some Examples.dart_file)) /\
  exists g',
    GBDT.ModelsFromString Examples.parse_stump Examples.model_two_trees
      Examples.blank = Ok g' /\
    GBDT.num_class_ g' = 1 /\ length (GBDT.models_ g') = 2%nat /\
    GBDT.sigmoid_ g' = (- 1)%Qc.
Proof.
  destruct (model_loading_correct Examples.parse_stump) as (H1 & H2 & H3).
  split; [|split].
  - apply H1.
    + right. left. intros H. apply (bool_decide_pack _) in H.
      vm_compute in H. exact H.
    + vm_compute. discriminate.
  - apply H2. vm_compute. discriminate.
  - destruct (H3 Examples.model_two_trees Examples.blank 1 0 3)
      as (g' & HE & Hnc & _ & _ & Hlen & Hsig).
    + exists s#"num_class=1", 2%nat, s#"1", [].
      split; [by vm_compute|]. split; [vm_compute; lia|].
      split; by vm_compute.
    + done.
    + exists s#"label_index=0", 3%nat, s#"0", [].
      split; [by vm_compute|]. split; [vm_compute; lia|].
      split; by vm_compute.
    + exists s#"max_feature_idx=3", 4%nat, s#"3", [].
      split; [by vm_compute|]. split; [vm_compute; lia|].
      split; by vm_compute.
    + intros line i H. vm_compute in H. discriminate.
    + apply Forall_true. intros b. exact I.
    + exists g'. split; [done|]. split; [done|]. split; [exact Hlen|].
      apply Hsig. intros H. apply (bool_decide_pack _) in H.
      vm_compute in H. exact H.
Defined.

(** The text holds the three headers, and loading it ends in the
    [Log::Fatal] of [Atof]: its sigmoid line holds no number. *)
Lemma model_loading_counterexample :
  GBDT.has_line s#"num_class=" (GBDT.lines_of Examples.model_bad_sigmoid) /\
  GBDT.has_line s#"label_index=" (GBDT.lines_of Examples.model_bad_sigmoid) /\
  GBDT.has_line s#"max_feature_idx=" (GBDT.lines_of Examples.model_bad_sigmoid) /\
  GBDT.ModelsFromString Examples.parse_stump Examples.model_bad_sigmoid
    Examples.blank = Fatal "Unknown token in data file".
Proof.
  split; [|split; [|split]];
    try (apply (bool_decide_unpack _); vm_compute; exact I).
  vm_compute. reflexivity.
Qed.

(** A header on the last line of a text that does not end with a newline
    is taken for missing: after [++i; break] the test [i == lines.size()]
    holds.  A text read from a file ends every line with a newline. *)
Example ModelsFromString_header_on_last_line :
  GBDT.ModelsFromString Examples.parse_stump Examples.model_header_last
    Examples.blank = Fatal "Model file doesn't specify max_feature_idx".
Proof. vm_compute. reflexivity. Qed.

Lemma bind_ret {A} (r : result A) : r ≫= Ok = r.
Proof. by destruct r. Qed.

(** C9.  [Predict] returns what [PredictRaw] returns when the sigmoid
    parameter is not positive, in particular for a model loaded from a text
    without a [sigmoid=] line (the parameter is then [-1]), and
    [1 / (1 + exp (-2 * sigmoid * raw))] for the raw value [raw] when it is
    positive; [PredictRaw] is the sum of the predictions of the first
    [num_used_model_] trees. *)
Theorem Predict_correct (std_exp : double -> double) (value : list double)
    (g : GBDT.t) :
  ((GBDT.sigmoid_ g <= 0)%Qc ->
     GBDT.Predict std_exp value g = GBDT.PredictRaw value g) /\
  ((0 < GBDT.sigmoid_ g)%Qc ->
     GBDT.Predict std_exp value g
     = (raw ← GBDT.PredictRaw value g;
        Ok (1 / (1 + std_exp (- Qc_of_Z 2 * GBDT.sigmoid_ g * raw)))%Qc)) /\
  (GBDT.num_used_model_ g <= Z.of_nat (length (GBDT.models_ g)) ->
     GBDT.PredictRaw value g
     = Ok (Qsum (map (fun t => Tree.Predict t value)
                   (take (Z.to_nat (GBDT.num_used_model_ g)) (GBDT.models_ g))))) /\
  (forall (parse : str -> result Tree.t) (s : str) (g0 : GBDT.t),
     GBDT.ModelsFromString parse s g0 = Ok g ->
     ~ GBDT.has_line s#"sigmoid=" (GBDT.lines_of s) ->
     GBDT.sigmoid_ g = (- 1)%Qc /\
     GBDT.Predict std_exp value g = GBDT.PredictRaw value g).
Proof.
  assert (Hle : (GBDT.sigmoid_ g <= 0)%Qc ->
                GBDT.Predict std_exp value g = GBDT.PredictRaw value g).
  { intros Hs. unfold GBDT.Predict, GBDT.PredictRaw.
    destruct (decide (0 < GBDT.sigmoid_ g)%Qc) as [Hlt|_]; [|apply bind_ret].
    by apply Qcle_not_lt in Hs. }
  split; [exact Hle|]. split; [|split].
  - intros Hs. unfold GBDT.Predict, GBDT.PredictRaw.
    by destruct (decide (0 < GBDT.sigmoid_ g)%Qc).
  - intros Hn. unfold GBDT.PredictRaw. rewrite sum_trees_spec by (simpl; lia).
    rewrite drop_0. f_equal. unfold double in *. ring.
  - intros parse s g0 HE Hno.
    pose proof (ModelsFromString_sigmoid _ _ _ _ HE Hno) as Hs.
    split; [done|]. apply Hle. rewrite Hs. done.
Qed.

Lemma Predict_correct_witness :
  GBDT.Predict (fun x => x) [0%Qc] Examples.loaded
  = GBDT.PredictRaw [0%Qc] Examples.loaded /\
  GBDT.Predict (fun x => x) [0%Qc] Examples.with_sigmoid_2
  = (raw ← GBDT.PredictRaw [0%Qc] Examples.with_sigmoid_2;
     Ok (1 / (1 + (- Qc_of_Z 2 * Qc_of_Z 2 * raw)))%Qc) /\
  GBDT.PredictRaw [0%Qc] Examples.loaded = Ok (Qc_of_Z 2) /\
  GBDT.sigmoid_ Examples.loaded = (- 1)%Qc.
Proof.
  destruct (Predict_correct (fun x => x) [0%Qc] Examples.loaded)
    as (H1 & _ & H3 & H4).
  destruct (Predict_correct (fun x => x) [0%Qc] Examples.with_sigmoid_2)
    as (_ & H2 & _).
  split; [|split; [|split]].
  - apply H1. by vm_compute.
  - apply H2. by vm_compute.
  - rewrite H3 by (vm_compute; discriminate). f_equal.
    apply Qc_is_canon. by vm_compute.
  - apply (H4 Examples.parse_stump Examples.model_two_trees Examples.blank).
    + by vm_compute.
    + intros H. apply (bool_decide_pack _) in H. vm_compute in H. exact H.
Defined.

(** ** Bagging of rows *)






(** ** The rows a class is trained and updated on *)





(** ** DART: dropping, training, normalising *)



Lemma Qsum_app (l1 l2 : list Qc) : Qsum (l1 ++ l2) = (Qsum l1 + Qsum l2)%Qc.
Proof.
  induction l1 as [|x l1 IH]; simpl.
  - change (Qsum []) with 0%Qc. ring.
  - change (Qsum (x :: l1 ++ l2)) with (x + Qsum (l1 ++ l2))%Qc.
    change (Qsum (x :: l1)) with (x + Qsum l1)%Qc. rewrite IH. ring.
Qed.

Lemma Qsum_perm (l1 l2 : list Qc) : l1 ≡ₚ l2 -> Qsum l1 = Qsum l2.
Proof.
  induction 1 as [|x l1 l2 _ IH|x y l|l1 l2 l3 _ IH1 _ IH2]; unfold Qsum in *; simpl.
  - done.
  - by rewrite IH.
  - ring.
  - by rewrite IH1.
Qed.

Lemma Qsum_scale (a : Qc) (l : list Qc) :
  Qsum (map (fun x => x * a)%Qc l) = (Qsum l * a)%Qc.
Proof.
  induction l as [|x l IH]; unfold Qsum in *; simpl; [ring|]. rewrite IH. ring.
Qed.

Lemma Qsum_zero {A} (l : list A) : Qsum (map (fun _ => 0%Qc) l) = 0%Qc.
Proof. induction l as [|x l IH]; unfold Qsum in *; simpl; [done|]. rewrite IH. ring. Qed.

Lemma Qsum_ext {A} (f g : A -> Qc) (l : list A) :
  (forall x, x ∈ l -> f x = g x) -> Qsum (map f l) = Qsum (map g l).
Proof.
  intros H. induction l as [|x l IH]; [done|]. unfold Qsum in *. simpl.
  rewrite H by left. rewrite IH; [done|]. intros y Hy. apply H. by right.
Qed.

(** *** Adding the outputs of a tree to a score vector *)














(** *** The loops over the dropped trees *)






(** *** The loop over the classes *)





(** *** The positions of the dropped trees *)






(** *** Dropping *)






(** *** One iteration *)





(** ** DART with a drop rate of 0 *)











(** ** Properties of the string helpers (utils/common.h) *)

Lemma Split_cons_inv (s : str) (d : ascii) :
  exists w ws, Common.Split s d = w :: ws.
Proof.
  induction s as [|c s (w & ws & IH)]; simpl; [by eexists _, _|].
  destruct (decide (c = d)); [by eexists _, _|].
  rewrite IH. by eexists _, _.
Qed.

Lemma JoinAll_cons (w : str) (ws : list str) (d : ascii) :
  ws <> [] -> Common.JoinAll (w :: ws) d = w ++ d :: Common.JoinAll ws d.
Proof. destruct ws as [|w' ws]; [done|]. done. Qed.

Lemma Join_whole (strs : list str) (d : ascii) :
  strs <> [] -> Common.Join strs 0 (length strs) d = Common.JoinAll strs d.
Proof.
  destruct strs as [|w ws]; [done|]. intros _. unfold Common.Join.
  rewrite decide_False by (simpl; lia).
  rewrite Nat.min_0_l, Nat.min_id. simpl. rewrite Nat.sub_0_r.
  by rewrite firstn_all.
Qed.

Lemma JoinAll_Split (s : str) (d : ascii) :
  Common.JoinAll (Common.Split s d) d = s.
Proof.
  induction s as [|c s IH]; [done|]. simpl.
  destruct (Split_cons_inv s d) as (w & ws & E).
  destruct (decide (c = d)) as [->|Hne].
  - rewrite JoinAll_cons by (by rewrite E). by rewrite IH.
  - rewrite E in *. simpl in *. by rewrite IH.
Qed.

(** X1.  [Split(str, delimiter)] never returns an empty vector, none of its
    parts holds the delimiter, it returns one part more than the string has
    delimiters, and joining the parts with the delimiter -- with the
    two-argument [Join] or with [Join] over the whole range -- gives back the
    string. *)
Theorem Split_Join_round_trip (s : str) (d : ascii) :
  Common.Split s d <> [] /\
  (forall part, part ∈ Common.Split s d -> d ∉ part) /\
  length (Common.Split s d) = S (length (filter (fun c => c = d) s)) /\
  Common.JoinAll (Common.Split s d) d = s /\
  Common.Join (Common.Split s d) 0 (length (Common.Split s d)) d = s.
Proof.
  assert (Hne : Common.Split s d <> []).
  { destruct (Split_cons_inv s d) as (w & ws & E). by rewrite E. }
  split; [done|]. split; [|split; [|split]].
  - induction s as [|c s IH]; simpl.
    + intros part ->%list_elem_of_singleton. by intros ?%elem_of_nil.
    + destruct (Split_cons_inv s d) as (w & ws & E).
      assert (Hs : Common.Split s d <> []) by (by rewrite E).
      specialize (IH Hs).
      destruct (decide (c = d)) as [->|Hc].
      * intros part [->|Hp]%elem_of_cons; [by intros ?%elem_of_nil|by apply IH].
      * rewrite E in *. intros part [->|Hp]%elem_of_cons.
        -- intros [->|Hd]%elem_of_cons; [done|].
           by apply (IH w); [left|].
        -- apply IH. by right.
  - clear Hne. induction s as [|c s IH]; [done|]. simpl.
    rewrite filter_cons.
    destruct (Split_cons_inv s d) as (w & ws & E).
    destruct (decide (c = d)) as [->|Hc]; simpl; [by rewrite IH|].
    rewrite E in *. simpl in *. done.
  - apply JoinAll_Split.
  - rewrite Join_whole by done. apply JoinAll_Split.
Qed.



Lemma erase_leading_spec (s : str) :
  exists pre, s = pre ++ Common.erase_leading s /\
              Forall (fun c => Common.is_trim_space c = true) pre /\
              forall c, head (Common.erase_leading s) = Some c ->
                        Common.is_trim_space c = false.
Proof.
  induction s as [|c s (pre & E & Hpre & Hhd)]; simpl.
  - exists []. by repeat split.
  - destruct (Common.is_trim_space c) eqn:Hc.
    + exists (c :: pre). simpl. rewrite <- E. repeat split; [by constructor|done].
    + exists []. repeat split; [done|]. simpl. by intros ? [= <-].
Qed.

Lemma erase_leading_id (s : str) :
  (forall c, head s = Some c -> Common.is_trim_space c = false) ->
  Common.erase_leading s = s.
Proof. destruct s as [|c s]; [done|]. simpl. intros H. by rewrite (H c). Qed.

Lemma head_reverse {A} (l : list A) : head (reverse l) = last l.
Proof.
  induction l as [|x l IH] using rev_ind; [done|].
  by rewrite reverse_app, last_snoc.
Qed.

Lemma last_app_r {A} (l1 l2 : list A) x : last l2 = Some x -> last (l1 ++ l2) = Some x.
Proof.
  intros H. destruct l2 as [|y l2] using rev_ind; [done|].
  rewrite last_snoc in H. by rewrite app_assoc, last_snoc.
Qed.

(** X3.  [Trim(str)] removes white space at the two ends and nothing else:
    the string is the result between two runs of white-space characters,
    the result neither starts nor ends with a white-space character, and
    trimming again changes nothing. *)
Theorem Trim_spec (s : str) :
  (exists pre post,
     s = pre ++ Common.Trim s ++ post /\
     Forall (fun c => Common.is_trim_space c = true) pre /\
     Forall (fun c => Common.is_trim_space c = true) post) /\
  (forall c, head (Common.Trim s) = Some c -> Common.is_trim_space c = false) /\
  (forall c, last (Common.Trim s) = Some c -> Common.is_trim_space c = false) /\
  Common.Trim (Common.Trim s) = Common.Trim s.
Proof.
  unfold Common.Trim.
  destruct (erase_leading_spec (reverse s)) as (post & E1 & Hpost & Hhd1).
  set (e1 := Common.erase_leading (reverse s)) in *.
  destruct (erase_leading_spec (reverse e1)) as (pre & E2 & Hpre & Hhd2).
  set (e2 := Common.erase_leading (reverse e1)) in *.
  assert (Hlast : forall c, last e2 = Some c -> Common.is_trim_space c = false).
  { intros c Hc. apply Hhd1. rewrite <- last_reverse, E2.
    by apply last_app_r. }
  split; [|split; [done|split; [done|]]].
  - exists pre, (reverse post). split; [|split; [done|]].
    + rewrite <- (reverse_involutive s), E1, reverse_app, E2.
      by rewrite <- app_assoc.
    + by apply Forall_reverse.
  - rewrite (erase_leading_id (reverse e2)).
    + rewrite reverse_involutive. by apply erase_leading_id.
    + intros c. rewrite head_reverse. apply Hlast.
Qed.

Lemma Pow2RoundUp_loop_spec (x : Z) (n : nat) :
  forall k : nat,
    x <= 2 ^ 62 -> (63 <= k + n)%nat ->
    (k = 0%nat \/ 2 ^ (Z.of_nat k - 1) < x) ->
    exists k' : nat,
      Common.Pow2RoundUp_loop n (2 ^ Z.of_nat k) x = Ok (2 ^ Z.of_nat k') /\
      (k' <= 62)%nat /\ x <= 2 ^ Z.of_nat k' /\
      (k' = 0%nat \/ 2 ^ (Z.of_nat k' - 1) < x).
Proof.
  induction n as [|n IH]; intros k Hx Hn Hk.
  - assert (2 ^ 62 <= 2 ^ (Z.of_nat k - 1)) by (apply Z.pow_le_mono_r; lia).
    lia.
  - simpl. destruct (Z.leb_spec x (2 ^ Z.of_nat k)) as [Hle|Hgt].
    + exists k. split; [done|]. split; [|done].
      destruct (decide (k <= 62)%nat); [done|].
      assert (2 ^ 62 <= 2 ^ (Z.of_nat k - 1)) by (apply Z.pow_le_mono_r; lia).
      lia.
    + assert (k < 62)%nat as Hk62.
      { destruct (decide (k < 62)%nat); [done|].
        assert (2 ^ 62 <= 2 ^ Z.of_nat k) by (apply Z.pow_le_mono_r; lia). lia. }
      rewrite Z.shiftl_mul_pow2 by lia.
      replace (2 ^ Z.of_nat k * 2 ^ 1) with (2 ^ Z.of_nat (S k))
        by (rewrite Nat2Z.inj_succ, Z.pow_succ_r by lia; lia).
      assert (2 ^ Z.of_nat (S k) <= 2 ^ 62) by (apply Z.pow_le_mono_r; lia).
      destruct (Z.leb_spec (2 ^ Z.of_nat (S k)) Common.INT64_MAX) as [_|Hov];
        [|unfold Common.INT64_MAX in Hov; lia].
      apply IH; [done|lia|]. right.
      replace (Z.of_nat (S k) - 1) with (Z.of_nat k) by lia. done.
Qed.

(** X4.  [Pow2RoundUp(x)] for [x] up to [2^62] returns the least power of
    two that is not below [x] (1 for every [x <= 1]); it neither shifts past
    the range of [int64_t] nor falls through to its final [return 0]. *)
Theorem Pow2RoundUp_spec (x : Z) :
  x <= 2 ^ 62 ->
  exists k : nat,
    Common.Pow2RoundUp x = Ok (2 ^ Z.of_nat k) /\
    x <= 2 ^ Z.of_nat k /\
    forall j : nat, x <= 2 ^ Z.of_nat j -> (k <= j)%nat.
Proof.
  intros Hx.
  destruct (Pow2RoundUp_loop_spec x 64 0 Hx ltac:(lia) ltac:(by left))
    as (k & Hk & _ & Hle & Hleast).
  exists k. split; [exact Hk|]. split; [done|].
  intros j Hj. destruct Hleast as [->|Hlt]; [lia|].
  destruct (decide (k <= j)%nat); [done|].
  assert (2 ^ Z.of_nat j <= 2 ^ (Z.of_nat k - 1)) by (apply Z.pow_le_mono_r; lia).
  lia.
Qed.

Lemma Pow2RoundUp_spec_witness :
  exists k : nat,
    Common.Pow2RoundUp 1000 = Ok (2 ^ Z.of_nat k) /\
    1000 <= 2 ^ Z.of_nat k /\
    forall j : nat, 1000 <= 2 ^ Z.of_nat j -> (k <= j)%nat.
Proof. apply Pow2RoundUp_spec. by vm_compute. Defined.

(** *** Softmax *)

Lemma Qcinv_pos (x : Qc) : (0 < x)%Qc -> (0 < / x)%Qc.
Proof.
  unfold Qclt. intros H.
  change (this (/ x)%Qc) with (Qred (/ this x)). rewrite Qred_correct.
  by apply Qinv_lt_0_compat.
Qed.

Lemma Qcdiv_pos (x y : Qc) : (0 < x)%Qc -> (0 < y)%Qc -> (0 < x / y)%Qc.
Proof.
  intros Hx Hy. unfold Qcdiv.
  pose proof (Qcmult_lt_compat_r 0 x (/ y) (Qcinv_pos y Hy) Hx) as H.
  by rewrite Qcmult_0_l in H.
Qed.

Lemma Qcplus_pos_nonneg (x y : Qc) : (0 < x)%Qc -> (0 <= y)%Qc -> (0 < x + y)%Qc.
Proof.
  intros Hx Hy. apply Qclt_le_trans with (x + 0)%Qc.
  - by rewrite Qcplus_0_r.
  - apply Qcplus_le_compat; [apply Qcle_refl|done].
Qed.

Lemma Qsum_nonneg (l : list Qc) : Forall (fun x => 0 < x)%Qc l -> (0 <= Qsum l)%Qc.
Proof.
  induction 1 as [|x l Hx _ IH]; [done|].
  change (Qsum (x :: l)) with (x + Qsum l)%Qc.
  apply Qclt_le_weak. by apply Qcplus_pos_nonneg.
Qed.

Lemma Qsum_bounds (l : list Qc) (x : Qc) :
  Forall (fun x => 0 < x)%Qc l -> x ∈ l -> (0 < Qsum l)%Qc /\ (x <= Qsum l)%Qc.
Proof.
  intros Hl Hx. induction Hl as [|y l Hy Hl IH]; [by apply elem_of_nil in Hx|].
  change (Qsum (y :: l)) with (y + Qsum l)%Qc.
  pose proof (Qsum_nonneg l Hl) as H0.
  split; [by apply Qcplus_pos_nonneg|].
  apply elem_of_cons in Hx as [->|Hx].
  - rewrite <- (Qcplus_0_r y) at 1. apply Qcplus_le_compat; [apply Qcle_refl|done].
  - destruct (IH Hx) as [_ Hle]. rewrite <- (Qcplus_0_l x).
    apply Qcplus_le_compat; [by apply Qclt_le_weak|done].
Qed.

Lemma exp_sum_spec (std_exp : double -> double) (wmax : double) (rec : list double) :
  forall wsum,
    Common.exp_sum std_exp wmax rec wsum
    = (map (fun r => std_exp (r - wmax)%Qc) rec,
       (wsum + Qsum (map (fun r => std_exp (r - wmax)%Qc) rec))%Qc).
Proof.
  induction rec as [|r rec IH]; intros wsum; simpl.
  - f_equal. change (Qsum []) with 0%Qc. unfold double in *. ring.
  - rewrite IH. f_equal.
    change (Qsum (?x :: ?l)) with (x + Qsum l)%Qc. unfold double in *. ring.
Qed.

(** Dividing positive numbers by their sum gives a probability vector. *)
Lemma normalized_probabilities (es : list Qc) :
  Forall (fun x => 0 < x)%Qc es -> es <> [] ->
  Forall (fun p => (0 < p)%Qc /\ (p <= 1)%Qc) (map (fun e => e / Qsum es)%Qc es) /\
  Qsum (map (fun e => e / Qsum es)%Qc es) = 1%Qc.
Proof.
  intros Hes Hne.
  assert (Hpos : (0 < Qsum es)%Qc).
  { destruct es as [|e es']; [done|].
    by apply (Qsum_bounds (e :: es') e); [|left]. }
  split.
  - apply Forall_forall. intros p (e & -> & He)%list_elem_of_fmap.
    destruct (Qsum_bounds es e Hes He) as [_ Hle]. split.
    + apply Qcdiv_pos; [|done]. by eapply Forall_forall in Hes.
    + unfold Qcdiv.
      rewrite <- (Qcmult_inv_r (Qsum es)) by (intros E; by rewrite E in Hpos).
      apply Qcmult_le_compat_r; [done|]. apply Qclt_le_weak. by apply Qcinv_pos.
  - unfold Qcdiv. rewrite Qsum_scale.
    apply Qcmult_inv_r. intros E. by rewrite E in Hpos.
Qed.

(** X5.  [Softmax] turns a non-empty vector into a probability vector:
    for an exponential that is positive everywhere, the result has the
    length of the input, every entry lies in (0, 1], and the entries add up
    to 1. *)
Theorem Softmax_probabilities (std_exp : double -> double) (rec : list double) :
  (forall x, (0 < std_exp x)%Qc) -> rec <> [] ->
  exists out,
    Common.Softmax std_exp rec = Ok out /\
    length out = length rec /\
    Forall (fun p => (0 < p)%Qc /\ (p <= 1)%Qc) out /\
    Qsum out = 1%Qc.
Proof.
  intros Hexp Hne. destruct rec as [|r0 rest]; [done|].
  unfold Common.Softmax. rewrite exp_sum_spec.
  set (wmax := foldl _ r0 rest).
  set (es := map (fun r => std_exp (r - wmax)%Qc) (r0 :: rest)).
  assert (Hes : Forall (fun x => 0 < x)%Qc es).
  { apply Forall_forall. intros x (r & -> & _)%list_elem_of_fmap. apply Hexp. }
  assert (Hw : (0 + Qsum es)%Qc = Qsum es) by ring.
  rewrite Hw.
  destruct (normalized_probabilities es Hes) as [Hp Hs]; [done|].
  eexists. split; [reflexivity|]. split; [|split; [exact Hp|exact Hs]].
  unfold es. by rewrite !length_map.
Qed.

Lemma exp_like_pos (x : double) : (0 < Examples.exp_like x)%Qc.
Proof.
  unfold Examples.exp_like. destruct (decide _) as [H|H].
  - rewrite Qcplus_comm. apply Qclt_le_trans with (0 + 1)%Qc; [done|].
    apply Qcplus_le_compat; [done|apply Qcle_refl].
  - apply Qcdiv_pos; [done|]. apply Qcnot_le_lt in H.
    apply Qclt_minus_iff in H. rewrite Qcplus_0_l in H.
    unfold Qcminus. by apply Qcplus_pos_nonneg; [|apply Qclt_le_weak].
Qed.

Lemma Softmax_probabilities_witness :
  exists out,
    Common.Softmax Examples.exp_like [0; 1; - (1)]%Qc = Ok out /\
    length out = 3%nat /\
    Forall (fun p => (0 < p)%Qc /\ (p <= 1)%Qc) out /\
    Qsum out = 1%Qc.
Proof. apply Softmax_probabilities; [apply exp_like_pos|done]. Defined.
(** ** LRUPool: consecutive calls, and [Move] *)

Section LRUPoolMore.
Context {T : Type}.
Implicit Types p : LRUPool.t T.

(** What a successful [Get] on a pool with mapping tables leaves behind. *)
Lemma Get_fields p p' idx hit out :
  LRUPool.is_enough_ p = false ->
  LRUPool.Get idx p = Ok (hit, out, p') ->
  LRUPool.pool_ p' = LRUPool.pool_ p /\
  LRUPool.total_size_ p' = LRUPool.total_size_ p /\
  LRUPool.cur_time_ p' = LRUPool.cur_time_ p + 1 /\
  exists slot,
    0 <= slot /\ LRUPool.pool_ p !! Z.to_nat slot = Some out /\
    LRUPool.last_used_time_ p'
    = <[Z.to_nat slot := LRUPool.cur_time_ p + 1]> (LRUPool.last_used_time_ p) /\
    LRUPool.mapper_ p' !! Z.to_nat idx = Some slot /\
    if hit then LRUPool.mapper_ p' = LRUPool.mapper_ p
    else
      slot = Z.of_nat (LRUPool.ArgMin (LRUPool.last_used_time_ p)
                         (Z.to_nat (LRUPool.cache_size_ p))) /\
      exists m prev,
        LRUPool.mapper_ p !! Z.to_nat idx = Some m /\ m < 0 /\
        LRUPool.inverse_mapper_ p !! Z.to_nat slot = Some prev /\
        LRUPool.mapper_ p'
        = <[Z.to_nat idx := slot]>
            (if 0 <=? prev then <[Z.to_nat prev := -1]> (LRUPool.mapper_ p)
             else LRUPool.mapper_ p).
Proof.
  intros He H. unfold LRUPool.Get in H. rewrite He in H.
  bind_case H as m Hm. apply read_Ok in Hm as [Hidx Hm].
  destruct (Z.leb_spec 0 m) as [Hm0|Hm0].
  - bind_case H as out' Hout. bind_case H as now Hnow. bind_case H as lut Hlut.
    injection H as <- <- <-. simpl.
    apply read_Ok in Hout as [_ Hout].
    unfold int_op in Hnow. destruct (in_int _); [|done]. injection Hnow as <-.
    apply write_Ok in Hlut as (_ & _ & ->).
    do 3 (split; [done|]). exists m. done.
  - bind_case H as out' Hout. bind_case H as now Hnow. bind_case H as lut Hlut.
    bind_case H as prev Hprev. bind_case H as mapper1 Hm1.
    bind_case H as mapper2 Hm2. bind_case H as inv Hinv.
    injection H as <- <- <-. simpl.
    apply read_Ok in Hout as [Hs0 Hout].
    unfold int_op in Hnow. destruct (in_int _); [|done]. injection Hnow as <-.
    apply write_Ok in Hlut as (_ & _ & ->).
    apply read_Ok in Hprev as [_ Hprev].
    apply write_Ok in Hm2 as (_ & Hlen & ->).
    do 3 (split; [done|]). eexists. split; [exact Hs0|].
    split; [done|]. split; [done|].
    split; [apply list_lookup_insert_eq; lia|]. split; [done|].
    exists m, prev. split; [done|]. split; [done|]. split; [done|].
    destruct (Z.leb_spec 0 prev).
    + apply write_Ok in Hm1 as (_ & _ & ->). done.
    + injection Hm1 as <-. done.
Qed.

(** On a well-formed pool a [Get] inside the range succeeds. *)
Lemma Get_total p idx :
  LRUPool.wf p -> 0 <= idx < LRUPool.total_size_ p ->
  LRUPool.cur_time_ p < INT_MAX ->
  exists hit out p', LRUPool.Get idx p = Ok (hit, out, p') /\ LRUPool.wf p'.
Proof.
  intros W Hidx Hmax.
  destruct (read_in_range (LRUPool.mapper_ p) idx) as (m & _ & Hm).
  { rewrite (LRUPool.wf_mapper_len p W). lia. }
  destruct (Z.le_gt_cases 0 m) as [Hm0|Hm0].
  - destruct (Get_hit p idx m W Hidx Hmax Hm Hm0) as (out & p' & HG & W' & _).
    by exists true, out, p'.
  - destruct (Get_miss p idx m W Hidx Hmax Hm) as (out & p' & HG & W' & _); [lia|].
    by exists false, out, p'.
Qed.

End LRUPoolMore.

(** X6.  The index fetched last is not the one the next fetch evicts: on a
    pool with mapping tables, after [Get(idx)] and then [Get(idx')] for any
    index, [idx] is still mapped to the slot it had, and a further
    [Get(idx)] is a hit that returns the same object. *)
Theorem LRUPool_recent_survives (T : Type) (p : LRUPool.t T) (idx idx' : Z) :
  LRUPool.wf p ->
  0 <= idx < LRUPool.total_size_ p -> 0 <= idx' < LRUPool.total_size_ p ->
  LRUPool.cur_time_ p < INT_MAX - 2 ->
  exists hit out p1 hit' out' p2 p3,
    LRUPool.Get idx p = Ok (hit, out, p1) /\
    LRUPool.Get idx' p1 = Ok (hit', out', p2) /\
    LRUPool.mapper_ p2 !! Z.to_nat idx = LRUPool.mapper_ p1 !! Z.to_nat idx /\
    LRUPool.Get idx p2 = Ok (true, out, p3).
Proof.
  intros W Hidx Hidx' Hmax.
  destruct (Get_total p idx W Hidx) as (hit & out & p1 & HG1 & W1); [lia|].
  destruct (Get_fields _ _ _ _ _ (LRUPool.wf_not_enough p W) HG1)
    as (Hpool1 & Htot1 & Hcur1 & slot & Hslot0 & Hout & Hlut1 & Hmap1 & _).
  destruct (Get_total p1 idx') as (hit' & out' & p2 & HG2 & W2);
    [done|lia|lia|].
  destruct (Get_fields _ _ _ _ _ (LRUPool.wf_not_enough p1 W1) HG2)
    as (Hpool2 & Htot2 & Hcur2 & slot' & Hslot0' & Hout' & Hlut2 & Hmap2 & Hcase).
  assert (Hkeep : LRUPool.mapper_ p2 !! Z.to_nat idx
                  = LRUPool.mapper_ p1 !! Z.to_nat idx).
  { destruct hit'; [by rewrite Hcase|].
    destruct Hcase as (Hmin & m & prev & Hm & Hm0 & Hprev & ->).
    assert (Hne : Z.to_nat idx <> Z.to_nat idx').
    { intros E. rewrite E, Hm in Hmap1. injection Hmap1 as ->. lia. }
    rewrite list_lookup_insert_ne by done.
    (* the evicted slot is not the one [idx] sits in *)
    assert (Hslots : slot' <> slot).
    { intros ->.
      pose proof (LRUPool.wf_cache p W) as Hc.
      pose proof (LRUPool.wf_cache p1 W1) as Hc1.
      pose proof (LRUPool.wf_time_len p W) as Htl.
      pose proof (LRUPool.wf_time_len p1 W1) as Htl1.
      pose proof (LRUPool.wf_pool p W) as Hpl.
      assert (Z.to_nat slot < length (LRUPool.pool_ p))%nat
        by (by eapply lookup_lt_Some).
      destruct (ArgMin_least (LRUPool.last_used_time_ p1)
                  (Z.to_nat (LRUPool.cache_size_ p1))) as [_ Hleast]; [lia|].
      set (j := if decide (Z.to_nat slot = 0)%nat then 1%nat else 0%nat).
      assert (j <> Z.to_nat slot) by (unfold j; destruct (decide _); lia).
      destruct (lookup_lt_is_Some_2 (LRUPool.last_used_time_ p) j) as [u Hu].
      { unfold j. destruct (decide _); lia. }
      pose proof (LRUPool.wf_time p W _ _ Hu) as Hu'.
      assert (LRUPool.cur_time_ p + 1 <= u); [|lia].
      apply (Hleast j).
      - assert (length (LRUPool.last_used_time_ p1)
                = length (LRUPool.last_used_time_ p)) as E
          by (by rewrite Hlut1, length_insert).
        unfold j. destruct (decide _); lia.
      - rewrite Hlut1, list_lookup_insert_ne by done. exact Hu.
      - rewrite <- (Nat2Z.id (LRUPool.ArgMin _ _)), <- Hmin.
        rewrite Hlut1. apply list_lookup_insert_eq. lia. }
    destruct (Z.leb_spec 0 prev) as [Hp|Hp]; [|done].
    rewrite list_lookup_insert_ne; [done|]. intros E.
    destruct (LRUPool.wf_inverse p1 W1 _ _ Hprev) as [?|[_ Hmp]]; [lia|].
    rewrite E, Hmap1 in Hmp. injection Hmp as Hs. lia. }
  destruct (Get_hit p2 idx slot W2) as (out'' & p3 & HG3 & _ & Hout'' & _);
    [lia|lia|by rewrite Hkeep|done|].
  rewrite Hpool2, Hpool1, Hout in Hout''. injection Hout'' as <-.
  by exists hit, out, p1, hit', out', p2, p3.
Qed.

Lemma pool_2_4_wf : LRUPool.wf Examples.pool_2_4.
Proof.
  by apply (ResetSize_wf 7%nat 2 4 Examples.pool_unset Examples.pool_2_4).
Qed.

Lemma LRUPool_recent_survives_witness :
  exists hit out p1 hit' out' p2 p3,
    LRUPool.Get 3 Examples.pool_2_4 = Ok (hit, out, p1) /\
    LRUPool.Get 1 p1 = Ok (hit', out', p2) /\
    LRUPool.mapper_ p2 !! Z.to_nat 3 = LRUPool.mapper_ p1 !! Z.to_nat 3 /\
    LRUPool.Get 3 p2 = Ok (true, out, p3).
Proof.
  apply LRUPool_recent_survives; [apply pool_2_4_wf| | |]; by vm_compute.
Defined.

(** X7.  [Move(src_idx, dst_idx)] on a pool with mapping tables, for a
    cached [src_idx] and a [dst_idx] that is not cached: the slot of
    [src_idx] is handed to [dst_idx] -- the tables stay inverse to each
    other, the objects stay where they are, [src_idx] is no longer cached,
    and [Get(dst_idx)] is then a hit that returns the object [src_idx] had.
    When [src_idx] is not cached, [Move] changes nothing. *)
Theorem LRUPool_Move_correct (T : Type) (p : LRUPool.t T) (src_idx dst_idx s : Z) :
  LRUPool.wf p ->
  0 <= src_idx < LRUPool.total_size_ p -> 0 <= dst_idx < LRUPool.total_size_ p ->
  LRUPool.cur_time_ p < INT_MAX - 1 ->
  LRUPool.mapper_ p !! Z.to_nat src_idx = Some s ->
  (0 <= s -> LRUPool.mapper_ p !! Z.to_nat dst_idx = Some (-1) ->
   exists p' out p'',
     LRUPool.Move src_idx dst_idx p = Ok p' /\ LRUPool.wf p' /\
     LRUPool.pool_ p' = LRUPool.pool_ p /\
     LRUPool.mapper_ p' !! Z.to_nat src_idx = Some (-1) /\
     LRUPool.mapper_ p' !! Z.to_nat dst_idx = Some s /\
     LRUPool.pool_ p !! Z.to_nat s = Some out /\
     LRUPool.Get dst_idx p' = Ok (true, out, p'')) /\
  (s < 0 -> LRUPool.Move src_idx dst_idx p = Ok p).
Proof.
  intros W Hsrc Hdst Hmax Hs.
  assert (Hread : read (LRUPool.mapper_ p) src_idx = Ok s)
    by (apply read_Ok; split; [lia|done]).
  split.
  - intros Hs0 Hd.
    pose proof (wf_cur_time_nonneg p W) as Hc0.
    pose proof (LRUPool.wf_cache p W) as Hcache.
    pose proof (LRUPool.wf_time_len p W) as Htl.
    pose proof (LRUPool.wf_inverse_len p W) as Hil.
    pose proof (LRUPool.wf_mapper_len p W) as Hml.
    pose proof (LRUPool.wf_pool p W) as Hpl.
    destruct (LRUPool.wf_mapper p W _ _ Hs) as [?|[_ Hinv]]; [lia|].
    rewrite Z2Nat.id in Hinv by lia.
    assert (s < LRUPool.cache_size_ p) as Hsc
      by (apply lookup_lt_Some in Hinv; lia).
    assert (Hne : Z.to_nat src_idx <> Z.to_nat dst_idx).
    { intros E. rewrite E, Hd in Hs. injection Hs as <-. lia. }
    set (p' := {| LRUPool.pool_ := LRUPool.pool_ p;
                  LRUPool.cache_size_ := LRUPool.cache_size_ p;
                  LRUPool.total_size_ := LRUPool.total_size_ p;
                  LRUPool.is_enough_ := LRUPool.is_enough_ p;
                  LRUPool.mapper_ :=
                    <[Z.to_nat dst_idx := s]>
                      (<[Z.to_nat src_idx := -1]> (LRUPool.mapper_ p));
                  LRUPool.inverse_mapper_ :=
                    <[Z.to_nat s := dst_idx]> (LRUPool.inverse_mapper_ p);
                  LRUPool.last_used_time_ :=
                    <[Z.to_nat s := LRUPool.cur_time_ p + 1]>
                      (LRUPool.last_used_time_ p);
                  LRUPool.cur_time_ := LRUPool.cur_time_ p + 1 |}).
    assert (HM : LRUPool.Move src_idx dst_idx p = Ok p').
    { unfold LRUPool.Move. rewrite (LRUPool.wf_not_enough p W), Hread. cbn.
      destruct (Z.ltb_spec s 0); [lia|].
      rewrite (write_in_range (LRUPool.mapper_ p) src_idx) by lia. cbn.
      rewrite (write_in_range (<[_ := _]> (LRUPool.mapper_ p)) dst_idx)
        by (rewrite length_insert; lia). cbn.
      rewrite int_op_Ok by (unfold INT_MIN, INT_MAX in *; lia). cbn.
      rewrite (write_in_range (LRUPool.last_used_time_ p)) by lia. cbn.
      rewrite (write_in_range (LRUPool.inverse_mapper_ p)) by lia. cbn.
      unfold p'. by rewrite (LRUPool.wf_not_enough p W). }
    assert (W' : LRUPool.wf p').
    { destruct W as [Wne Wc Wp Wml Wil Wtl Wm Wi Wt].
      constructor; simpl; rewrite ?length_insert; auto.
      - intros i v Hi. destruct (decide (i = Z.to_nat dst_idx)) as [->|Hid].
        + rewrite list_lookup_insert_eq in Hi by (rewrite length_insert; lia).
          injection Hi as <-. right. split; [done|].
          rewrite Z2Nat.id by lia. apply list_lookup_insert_eq. lia.
        + rewrite list_lookup_insert_ne in Hi by done.
          destruct (decide (i = Z.to_nat src_idx)) as [->|His].
          * rewrite list_lookup_insert_eq in Hi by lia. injection Hi as <-. auto.
          * rewrite list_lookup_insert_ne in Hi by done.
            destruct (Wm _ _ Hi) as [?|[Hv Hiv]]; [auto|]. right.
            split; [done|]. rewrite list_lookup_insert_ne; [done|].
            intros E. rewrite <- E, Hinv in Hiv. injection Hiv as E'. lia.
      - intros t i Ht. destruct (decide (t = Z.to_nat s)) as [->|Hts].
        + rewrite list_lookup_insert_eq in Ht by lia. injection Ht as <-.
          right. split; [lia|]. rewrite Z2Nat.id by lia.
          apply list_lookup_insert_eq. rewrite length_insert. lia.
        + rewrite list_lookup_insert_ne in Ht by done.
          destruct (Wi _ _ Ht) as [?|[Hi Hmi]]; [auto|]. right.
          split; [done|].
          rewrite list_lookup_insert_ne.
          * rewrite list_lookup_insert_ne; [done|].
            intros E. rewrite <- E, Hs in Hmi. injection Hmi as E'. lia.
          * intros E. rewrite <- E, Hd in Hmi. injection Hmi as E'. lia.
      - intros t u Ht. destruct (decide (t = Z.to_nat s)) as [->|Hts].
        + rewrite list_lookup_insert_eq in Ht by lia. injection Ht as <-. lia.
        + rewrite list_lookup_insert_ne in Ht by done.
          specialize (Wt _ _ Ht). lia. }
    assert (Hd' : LRUPool.mapper_ p' !! Z.to_nat dst_idx = Some s).
    { simpl. apply list_lookup_insert_eq. rewrite length_insert. lia. }
    destruct (Get_hit p' dst_idx s W') as (out & p'' & HG & _ & Hout & _);
      [done|simpl; lia|done|done|].
    exists p', out, p''. split; [done|]. split; [done|]. split; [done|].
    split; [|done]. simpl. rewrite list_lookup_insert_ne by done.
    apply list_lookup_insert_eq. lia.
  - intros Hneg. unfold LRUPool.Move.
    rewrite (LRUPool.wf_not_enough p W), Hread. cbn.
    destruct (Z.ltb_spec s 0); [done|lia].
Qed.

Lemma pool_got_3_wf : LRUPool.wf Examples.pool_got_3.
Proof.
  destruct (Get_total Examples.pool_2_4 3 pool_2_4_wf) as (h & o & p' & HG & W');
    [by vm_compute|by vm_compute|].
  vm_compute in HG. injection HG as _ _ <-. exact W'.
Qed.

Lemma LRUPool_Move_correct_witness :
  exists p' out p'',
    LRUPool.Move 3 1 Examples.pool_got_3 = Ok p' /\ LRUPool.wf p' /\
    LRUPool.pool_ p' = LRUPool.pool_ Examples.pool_got_3 /\
    LRUPool.mapper_ p' !! Z.to_nat 3 = Some (-1) /\
    LRUPool.mapper_ p' !! Z.to_nat 1 = Some 0 /\
    LRUPool.pool_ Examples.pool_got_3 !! Z.to_nat 0 = Some out /\
    LRUPool.Get 1 p' = Ok (true, out, p'').
Proof.
  destruct (LRUPool_Move_correct nat Examples.pool_got_3 3 1 0 pool_got_3_wf)
    as [H _]; [by vm_compute|by vm_compute|by vm_compute|by vm_compute|].
  apply H; [done|by vm_compute].
Defined.
(** ** Metadata::SetQueryId *)

Module QueryId.

(** The counts [run_lengths] appends to [tmp_buffer]. *)
Fixpoint runs (queries : list Z) (last_qid cur_cnt : Z) : list Z :=
  match queries with
  | [] => [cur_cnt]
  | q :: queries' =>
      if negb (last_qid =? q) then
        if 0 <? cur_cnt then cur_cnt :: runs queries' q 1
        else runs queries' q 1
      else runs queries' last_qid (cur_cnt + 1)
  end.

(** The running sums of [counts] above [prev]. *)
Fixpoint sums (prev : Z) (counts : list Z) : list Z :=
  match counts with
  | [] => []
  | c :: counts' => (prev + c) :: sums (prev + c) counts'
  end.

End QueryId.

Lemma run_lengths_runs (queries : list Z) :
  forall last_qid cur_cnt tmp_buffer,
    0 <= cur_cnt -> cur_cnt + Z.of_nat (length queries) <= INT_MAX ->
    Metadata.run_lengths queries last_qid cur_cnt tmp_buffer
    = Ok (tmp_buffer ++ QueryId.runs queries last_qid cur_cnt).
Proof.
  induction queries as [|q qs IH]; intros last cur buf Hc Hmax; [done|].
  simpl in *. destruct (negb (last =? q)).
  - rewrite int_op_Ok by (unfold INT_MIN, INT_MAX in *; lia). cbn.
    rewrite IH by lia. destruct (Z.ltb_spec 0 cur); [|done].
    by rewrite <- app_assoc.
  - rewrite int_op_Ok by (unfold INT_MIN, INT_MAX in *; lia). cbn.
    by rewrite IH by lia.
Qed.

(** The counts of the runs, from a point inside the array on: [done] are
    the ids already seen, the last of which is [last_qid]; the current run
    started at [s] and has [cur_cnt > 0] rows so far. *)
Lemma runs_sums (rest : list Z) :
  forall (done : list Z) (last_qid s cur_cnt : Z),
    0 < cur_cnt -> s + cur_cnt = Z.of_nat (length done) ->
    last done = Some last_qid ->
    let qs := done ++ rest in
    let B := QueryId.sums s (QueryId.runs rest last_qid cur_cnt) in
    Forall (fun c => 0 < c) (QueryId.runs rest last_qid cur_cnt) /\
    last B = Some (Z.of_nat (length qs)) /\
    forall b : nat,
      Z.of_nat b ∈ B <->
      b = length qs \/
      ((length done <= b < length qs)%nat /\ qs !! (b - 1)%nat <> qs !! b).
Proof.
  induction rest as [|q rest IH]; intros done last_qid s cur Hcur Hs Hlast qs B.
  - subst qs B. simpl. rewrite app_nil_r. split; [by repeat constructor|].
    split; [by rewrite Hs|]. intros b. rewrite list_elem_of_singleton. split.
    + intros E. left. lia.
    + intros [->|[? _]]; lia.
  - subst qs B. simpl.
    assert (Hqs : done ++ q :: rest = (done ++ [q]) ++ rest)
      by (by rewrite <- app_assoc).
    assert (Hlen : length (done ++ [q]) = S (length done))
      by (rewrite length_app; simpl; lia).
    assert (Hat : forall l : list Z, (done ++ l) !! (length done - 1)%nat = Some last_qid).
    { intros l. rewrite lookup_app_l by (destruct done; simpl in *; [done|lia]).
      rewrite <- Hlast, last_lookup. f_equal. lia. }
    assert (Hq : (done ++ q :: rest) !! length done = Some q).
    { rewrite lookup_app_r by lia. by rewrite Nat.sub_diag. }
    destruct (Z.eqb_spec last_qid q) as [<-|Hne]; simpl.
    + destruct (IH (done ++ [last_qid]) last_qid s (cur + 1))
        as (Hpos & Hend & Hmem); [lia|lia|by rewrite last_snoc|].
      rewrite <- Hqs in Hend, Hmem. split; [done|]. split; [done|].
      intros b. rewrite Hmem, Hlen. split.
      * intros [->|[Hb Hch]]; [by left|]. right. split; [lia|done].
      * intros [->|[Hb Hch]]; [by left|]. right. split; [|done].
        destruct (decide (b = length done)) as [->|]; [|lia].
        exfalso. apply Hch. by rewrite Hat, Hq.
    + destruct (Z.ltb_spec 0 cur); [|lia].
      destruct (IH (done ++ [q]) q (s + cur) 1)
        as (Hpos & Hend & Hmem); [lia|lia|by rewrite last_snoc|].
      rewrite <- Hqs in Hend, Hmem. simpl.
      split; [by constructor|]. split.
      { rewrite last_cons, Hend. done. }
      intros b. rewrite elem_of_cons, Hmem, Hlen. split.
      * intros [E|[->|[Hb Hch]]]; [|by left|right; split; [lia|done]].
        right. assert (b = length done) as -> by lia.
        split; [rewrite length_app; simpl; lia|].
        rewrite Hat, Hq. congruence.
      * intros [->|[Hb Hch]]; [right; by left|].
        destruct (decide (b = length done)) as [->|]; [left; lia|].
        right. right. split; [lia|done].
Qed.

Lemma sums_increasing (counts : list Z) :
  forall prev,
    Forall (fun c => 0 < c) counts ->
    Metadata.qb_strictly_increasing (prev :: QueryId.sums prev counts).
Proof.
  induction counts as [|c cs IH]; intros prev Hpos i x y Hx Hy.
  - by destruct i.
  - apply Forall_cons in Hpos as [Hc Hcs]. destruct i as [|i]; simpl in *.
    + injection Hx as <-. injection Hy as <-. lia.
    + by apply (IH (prev + c) Hcs i).
Qed.

Lemma sums_bounds (counts : list Z) :
  forall prev e,
    Forall (fun c => 0 < c) counts ->
    last (prev :: QueryId.sums prev counts) = Some e ->
    prev <= e /\ forall b, b ∈ QueryId.sums prev counts -> prev < b <= e.
Proof.
  induction counts as [|c cs IH]; intros prev e Hpos He.
  - injection He as <-. split; [lia|]. by intros b ?%elem_of_nil.
  - apply Forall_cons in Hpos as [Hc Hcs].
    change (last (prev + c :: QueryId.sums (prev + c) cs) = Some e) in He.
    destruct (IH _ _ Hcs He) as [Hle Hb]. split; [lia|].
    intros b [->|Hin]%elem_of_cons; [lia|]. specialize (Hb b Hin). lia.
Qed.

Lemma boundaries_from_sums (counts : list Z) :
  forall prev e,
    0 <= prev -> Forall (fun c => 0 < c) counts ->
    last (prev :: QueryId.sums prev counts) = Some e -> e <= INT_MAX ->
    Metadata.boundaries_from prev counts = Ok (QueryId.sums prev counts).
Proof.
  induction counts as [|c cs IH]; intros prev e Hprev Hpos He Hmax; [done|].
  simpl. apply Forall_cons in Hpos as [Hc Hcs].
  change (last (prev + c :: QueryId.sums (prev + c) cs) = Some e) in He.
  destruct (sums_bounds _ _ _ Hcs He) as [Hle _].
  rewrite int_op_Ok by (unfold INT_MIN, INT_MAX in *; lia). cbn.
  by rewrite (IH (prev + c) e) by (done || lia).
Qed.

Lemma sums_length (counts : list Z) prev :
  length (QueryId.sums prev counts) = length counts.
Proof. revert prev. induction counts; intros; simpl; [done|by f_equal]. Qed.

Lemma copy_ids_spec (a : list Z) (n : nat) :
  forall (i : nat) (queries : list Z),
    (i + n <= length a)%nat -> (i + n <= length queries)%nat ->
    Metadata.copy_ids a (Z.of_nat i) n queries
    = Ok (take i queries ++ take n (drop i a) ++ drop (i + n) queries).
Proof.
  induction n as [|n IH]; intros i queries Ha Hq; simpl.
  - by rewrite Nat.add_0_r, take_drop.
  - destruct (lookup_lt_is_Some_2 a i) as [x Hx]; [lia|].
    assert (read a (Z.of_nat i) = Ok x) as ->
      by (apply read_Ok; rewrite Nat2Z.id; split; [lia|done]).
    cbn. rewrite write_in_range by lia. cbn. rewrite Nat2Z.id.
    replace (Z.of_nat i + 1) with (Z.of_nat (S i)) by lia.
    rewrite IH by (rewrite ?length_insert; lia). f_equal.
    rewrite (take_S_r _ _ x) by (apply list_lookup_insert_eq; lia).
    rewrite take_insert_ge by lia.
    rewrite drop_insert_lt by lia.
    rewrite (drop_S _ _ _ Hx). simpl.
    replace (S (i + n)) with (i + S n)%nat by lia.
    by rewrite <- app_assoc.
Qed.

Lemma sum_weights_Ok (w : list double) (n : nat) :
  forall lo acc, 0 <= lo -> lo + Z.of_nat n <= Z.of_nat (length w) ->
    exists r, Metadata.sum_weights w lo n acc = Ok r.
Proof.
  induction n as [|n IH]; intros lo acc Hlo Hhi; simpl; [by eexists|].
  destruct (read_in_range w lo) as (x & -> & _); [lia|]. cbn.
  apply IH; lia.
Qed.

Lemma query_weights_from_Ok (w : list double) (qb : list Z) (n : nat) :
  forall i : nat,
    (i + n < length qb)%nat ->
    Metadata.qb_strictly_increasing qb ->
    (forall k x, qb !! k = Some x -> 0 <= x <= Z.of_nat (length w)) ->
    exists qw, Metadata.query_weights_from w qb (Z.of_nat i) n = Ok qw.
Proof.
  induction n as [|n IH]; intros i Hi Hinc Hrange; simpl; [by eexists|].
  destruct (lookup_lt_is_Some_2 qb i) as [lo Hlo]; [lia|].
  destruct (lookup_lt_is_Some_2 qb (S i)) as [hi Hhi]; [lia|].
  assert (read qb (Z.of_nat i) = Ok lo) as ->
    by (apply read_Ok; rewrite Nat2Z.id; split; [lia|done]).
  cbn.
  assert (read qb (Z.of_nat i + 1) = Ok hi) as ->.
  { apply read_Ok. replace (Z.to_nat (Z.of_nat i + 1)) with (S i) by lia.
    split; [lia|done]. }
  cbn. pose proof (Hinc _ _ _ Hlo Hhi).
  pose proof (Hrange _ _ Hlo). pose proof (Hrange _ _ Hhi).
  destruct (sum_weights_Ok w (Z.to_nat (hi - lo)) lo 0%Qc) as [s ->]; [lia|lia|].
  cbn. replace (Z.of_nat i + 1) with (Z.of_nat (S i)) by lia.
  destruct (IH (S i)) as [rest ->]; [lia|done|done|]. cbn. by eexists.
Qed.

Lemma LoadQueryWeights_num_data m m' :
  Metadata.LoadQueryWeights m = Ok m' ->
  Metadata.num_data_ m' = Metadata.num_data_ m.
Proof.
  unfold Metadata.LoadQueryWeights. case_match; [by intros [= <-]|].
  destruct (Metadata.query_weights_from _ _ _ _); simpl; try discriminate.
  by intros [= <-].
Qed.

Lemma int_op_not_Fatal z : ~ is_Fatal (int_op z).
Proof. unfold int_op. destruct (in_int z); simpl; tauto. Qed.

Lemma write_not_Fatal {A} (a : list A) i v : ~ is_Fatal (write a i v).
Proof. unfold write. case_match; simpl; tauto. Qed.

Lemma copy_ids_not_Fatal a n : forall i q, ~ is_Fatal (Metadata.copy_ids a i n q).
Proof.
  induction n as [|n IH]; intros i q; simpl; [tauto|].
  apply bind_not_Fatal; [apply read_not_Fatal|]. intros x.
  apply bind_not_Fatal; [apply write_not_Fatal|]. intros q'. apply IH.
Qed.

Lemma run_lengths_not_Fatal qs :
  forall last cur buf, ~ is_Fatal (Metadata.run_lengths qs last cur buf).
Proof.
  induction qs as [|q qs IH]; intros last cur buf; simpl; [tauto|].
  destruct (negb _); (apply bind_not_Fatal; [apply int_op_not_Fatal|]);
    intros c; apply IH.
Qed.

Lemma boundaries_from_not_Fatal tmp :
  forall prev, ~ is_Fatal (Metadata.boundaries_from prev tmp).
Proof.
  induction tmp as [|c tmp IH]; intros prev; simpl; [tauto|].
  apply bind_not_Fatal; [apply int_op_not_Fatal|]. intros b.
  apply bind_not_Fatal; [apply IH|]. intros; simpl; tauto.
Qed.

(** X8.  [SetQueryId(query_id, len)] with a non-null array and [len] not
    0 terminates fatally exactly when [len] differs from [num_data_].  When
    the two agree it converts the ids into boundaries that satisfy the
    Dataset invariant ([num_queries_ + 1] entries that start at 0, increase
    strictly and end at [num_data_]), with a boundary exactly where two
    neighbouring rows carry different ids.  The ids it compares are the
    first [num_weights_] entries of [query_id] followed by zeros: only that
    many entries are copied, so without weights all rows form one query. *)
Theorem SetQueryId_correct (a : list Z) (len num_weights : Z) (m : Metadata.t) :
  len <> 0 ->
  (is_Fatal (Metadata.SetQueryId (Some a) len num_weights m)
   <-> Metadata.num_data_ m <> len) /\
  (Metadata.num_data_ m = len -> 0 < len <= INT_MAX ->
   0 <= num_weights <= len -> num_weights <= Z.of_nat (length a) ->
   Metadata.weights_ m = [] \/ Z.of_nat (length (Metadata.weights_ m)) = len ->
   let queries := take (Z.to_nat num_weights) a
                  ++ replicate (Z.to_nat (len - num_weights)) 0 in
   exists m',
     Metadata.SetQueryId (Some a) len num_weights m = Ok m' /\
     Metadata.qb_invariant m' /\
     Metadata.num_data_ m' = len /\
     forall b : nat, (0 < b < Z.to_nat len)%nat ->
       (Z.of_nat b ∈ Metadata.query_boundaries_ m'
        <-> queries !! (b - 1)%nat <> queries !! b)).
Proof.
  intros Hlen0. split.
  - unfold Metadata.SetQueryId. destruct (Z.eqb_spec len 0); [done|].
    destruct (Z.eqb_spec (Metadata.num_data_ m) len) as [E|E]; simpl; [|done].
    split; [|done]. intros HF. exfalso. revert HF.
    destruct (_ <? 0); [simpl; tauto|].
    apply bind_not_Fatal; [apply copy_ids_not_Fatal|]. intros q.
    apply bind_not_Fatal; [apply run_lengths_not_Fatal|]. intros tmp.
    apply bind_not_Fatal; [apply boundaries_from_not_Fatal|]. intros qb.
    apply LoadQueryWeights_not_Fatal.
  - intros HN Hlen Hnw Ha Hw queries.
    unfold Metadata.SetQueryId. destruct (Z.eqb_spec len 0); [done|].
    destruct (Z.eqb_spec (Metadata.num_data_ m) len) as [_|]; [|done]. simpl.
    destruct (Z.ltb_spec (Metadata.num_data_ m) 0); [lia|]. rewrite HN.
    assert (Hcopy : Metadata.copy_ids a 0 (Z.to_nat num_weights)
                      (replicate (Z.to_nat len) 0) = Ok queries).
    { pose proof (copy_ids_spec a (Z.to_nat num_weights) 0
                    (replicate (Z.to_nat len) 0)) as Hcopy.
      change (Z.of_nat 0) with 0 in Hcopy.
      rewrite Hcopy by (rewrite ?length_replicate; lia).
      unfold queries. simpl. rewrite drop_0, drop_replicate.
      do 3 f_equal. lia. }
    rewrite Hcopy. clear Hcopy. cbn.
    assert (Hql : length queries = Z.to_nat len).
    { unfold queries. rewrite length_app, length_take, length_replicate. lia. }
    rewrite run_lengths_runs by lia. cbn.
    destruct queries as [|q0 rest] eqn:Eq; [simpl in Hql; lia|].
    set (counts := QueryId.runs (q0 :: rest) (-1) 0).
    assert (Hcounts : counts = QueryId.runs rest q0 1).
    { unfold counts. cbn [QueryId.runs].
      destruct (Z.eqb_spec (-1) q0) as [<-|]; reflexivity. }
    destruct (runs_sums rest [q0] q0 0 1) as (Hpos & Hend & Hmem);
      [lia|done|done|].
    rewrite <- Hcounts in Hpos, Hend, Hmem. simpl app in Hend, Hmem.
    assert (Hlast : last (0 :: QueryId.sums 0 counts) = Some len).
    { rewrite last_cons, Hend, Hql. simpl. f_equal. lia. }
    rewrite (boundaries_from_sums counts 0 len) by (done || lia). cbn.
    set (m1 := Metadata.set_queries m _ _ _).
    assert (HL : exists m', Metadata.LoadQueryWeights m1 = Ok m').
    { unfold Metadata.LoadQueryWeights.
      destruct Hw as [Hw|Hw].
      - exists m1. unfold m1 at 1. simpl. by rewrite Hw.
      - destruct (bool_decide _ || bool_decide _); [by eexists|].
        destruct (query_weights_from_Ok (Metadata.weights_ m1)
                    (Metadata.query_boundaries_ m1)
                    (Z.to_nat (Metadata.num_queries_ m1)) 0) as [qw Hqw].
        + simpl. rewrite sums_length. lia.
        + simpl. by apply sums_increasing.
        + simpl. rewrite Hw. intros k x Hk.
          destruct (sums_bounds counts 0 len Hpos Hlast) as [_ Hb].
          destruct k as [|k]; simpl in Hk; [injection Hk as <-; lia|].
          apply list_elem_of_lookup_2 in Hk. specialize (Hb _ Hk). lia.
        + change (Z.of_nat 0) with 0 in Hqw. rewrite Hqw. cbn. by eexists. }
    destruct HL as [m' HL]. exists m'. split; [done|].
    pose proof (LoadQueryWeights_num_queries _ _ HL) as [Hnq Hqb].
    pose proof (LoadQueryWeights_num_data _ _ HL) as Hnd.
    change (Metadata.num_queries_ m' = Z.of_nat (length counts)) in Hnq.
    change (Metadata.query_boundaries_ m' = 0 :: QueryId.sums 0 counts) in Hqb.
    change (Metadata.num_data_ m' = Metadata.num_data_ m) in Hnd.
    split; [|split; [lia|]].
    + constructor; rewrite ?Hnq, ?Hqb, ?Hnd.
      * simpl. rewrite sums_length. lia.
      * done.
      * by apply sums_increasing.
      * by rewrite Hlast, HN.
    + intros b Hb. rewrite Hqb, elem_of_cons, Hmem. simpl length.
      split.
      * intros [?|[?|[_ Hch]]]; [lia|simpl in Hql; lia|done].
      * intros Hch. right. right. split; [simpl in *; lia|done].
Qed.

(** Five rows with the ids 7, 7, 9, 9, 9 and five weights. *)
Lemma SetQueryId_correct_witness :
  let queries := take (Z.to_nat 5) [7; 7; 9; 9; 9]
                 ++ replicate (Z.to_nat (5 - 5)) 0 in
  exists m',
    Metadata.SetQueryId (Some [7; 7; 9; 9; 9]) 5 5 Examples.weighted_meta = Ok m' /\
    Metadata.qb_invariant m' /\
    Metadata.num_data_ m' = 5 /\
    forall b : nat, (0 < b < Z.to_nat 5)%nat ->
      (Z.of_nat b ∈ Metadata.query_boundaries_ m'
       <-> queries !! (b - 1)%nat <> queries !! b).
Proof.
  apply (proj2 (SetQueryId_correct [7; 7; 9; 9; 9] 5 5 Examples.weighted_meta
                  ltac:(lia))).
  - reflexivity.
  - unfold INT_MAX. lia.
  - lia.
  - simpl. lia.
  - right. reflexivity.
Defined.
(** ** DataPartition::Split: threads and other leaves *)

Section SplitThreads.
Context {B : Type} `{Bin B}.

(** [Split] with the rows each thread found written out. *)
Lemma Split_exact (leaf right_leaf : nat) (feature_bins : B) (threshold : nat)
    (dp : DataPartition.t) (begin cnt : nat) :
  (0 < DataPartition.num_threads_ dp)%nat ->
  DataPartition.leaf_begin_ dp !! leaf = Some begin ->
  DataPartition.leaf_count_ dp !! leaf = Some cnt ->
  (begin + cnt <= length (DataPartition.indices_ dp))%nat ->
  (right_leaf < length (DataPartition.leaf_begin_ dp))%nat ->
  (right_leaf < length (DataPartition.leaf_count_ dp))%nat ->
  let res := map (DataPartition.thread_split feature_bins threshold
                    (DataPartition.indices_ dp) begin cnt
                    (DataPartition.inner_size cnt (DataPartition.num_threads_ dp)))
               (seq 0 (DataPartition.num_threads_ dp)) in
  let Ls := concat (map fst res) in
  let Rs := concat (map snd res) in
  (length Ls + length Rs = cnt)%nat /\
  DataPartition.Split leaf feature_bins threshold right_leaf dp =
  Ok (DataPartition.with_leaves dp
        (<[right_leaf := (length Ls + begin)%nat]> (DataPartition.leaf_begin_ dp))
        (<[right_leaf := (cnt - length Ls)%nat]>
           (<[leaf := length Ls]> (DataPartition.leaf_count_ dp)))
        (take begin (DataPartition.indices_ dp) ++ (Ls ++ Rs)
         ++ drop (begin + cnt) (DataPartition.indices_ dp))).
Proof.
  intros HT Hb Hc Hlen Hrb Hrc.
  set (ind := DataPartition.indices_ dp) in *.
  set (T := DataPartition.num_threads_ dp) in *.
  set (inner := DataPartition.inner_size cnt T).
  intros res.
  set (M := take cnt (drop begin ind)).
  assert (length M = cnt) as HM.
  { unfold M. rewrite length_take, length_drop. lia. }
  assert (Hperm : concat (map fst res) ++ concat (map snd res) ≡ₚ M).
  { unfold res. rewrite thread_results_perm. fold M.
    rewrite chunks_concat, take_ge; [done|].
    rewrite HM. apply inner_size_covers. done. }
  assert (HL : length (concat (map fst res)) =
               sum_list (map (fun lr => length lr.1) res)).
  { clear. induction res as [|[l r] res IH]; [done|].
    simpl. rewrite length_app, IH. done. }
  assert (HR : length (concat (map snd res)) =
               sum_list (map (fun lr => length lr.2) res)).
  { clear. induction res as [|[l r] res IH]; [done|].
    simpl. rewrite length_app, IH. done. }
  assert (Htot : (length (concat (map fst res)) + length (concat (map snd res))
                  = cnt)%nat).
  { rewrite <- length_app, Hperm. done. }
  cbn zeta. split; [done|].
  unfold DataPartition.Split.
  assert (readn (DataPartition.leaf_begin_ dp) leaf = Ok begin) as ->
    by (by apply readn_Ok).
  assert (readn (DataPartition.leaf_count_ dp) leaf = Ok cnt) as ->
    by (by apply readn_Ok).
  cbn. fold T ind. rewrite decide_False by lia. rewrite decide_False by lia.
  fold inner. fold res.
  assert (map (fun lr => length lr.1) res <> []) as Hne.
  { unfold res. destruct T; [lia|]. done. }
  rewrite write_pos_last by done. rewrite Nat.add_0_l, <- HL.
  pose proof (copy_back_spec res (take begin ind) []
                (take (length (concat (map fst res))) M) []
                (drop (length (concat (map fst res))) M)
                (drop (begin + cnt) ind)) as Hcb.
  rewrite length_take, length_drop, HM in Hcb.
  assert (length (take begin ind) = begin) as Hpre
    by (rewrite length_take; lia).
  rewrite Hpre in Hcb. simpl in Hcb.
  replace (length (concat (map fst res)) `min` cnt)%nat
    with (length (concat (map fst res))) in Hcb by lia.
  rewrite take_drop in Hcb.
  replace (take begin ind ++ M ++ drop (begin + cnt) ind) with ind in Hcb.
  2:{ unfold M. rewrite <- (take_drop begin ind) at 1. f_equal.
      rewrite <- (take_drop cnt (drop begin ind)) at 1. f_equal.
      by rewrite drop_drop. }
  rewrite Hcb by lia. cbn.
  assert (leaf < length (DataPartition.leaf_count_ dp))%nat
    by (by eapply lookup_lt_Some).
  unfold writen. rewrite !decide_True by (rewrite ?length_insert; lia). cbn.
  rewrite decide_True by (rewrite ?length_insert; lia). done.
Qed.

Lemma BinSplit_nil (b : B) (threshold : nat) : BinSplit b threshold [] = ([], []).
Proof.
  pose proof (BinSplit_perm b threshold []) as Hp.
  apply Permutation_nil_r in Hp. apply app_eq_nil in Hp as [H1 H2].
  destruct (BinSplit b threshold []). simpl in *. by subst.
Qed.

Lemma rowwise_chunks (b : B) (threshold : nat) (chunks : list (list nat)) :
  splits_rowwise b threshold ->
  (concat (map fst (map (BinSplit b threshold) chunks)),
   concat (map snd (map (BinSplit b threshold) chunks)))
  = BinSplit b threshold (concat chunks).
Proof.
  intros Hrow. induction chunks as [|c cs IH]; simpl.
  - by rewrite BinSplit_nil.
  - rewrite Hrow, <- IH. done.
Qed.

(** X9.  The threads of [Split] do not show in its result: for a bin that
    splits row by row, [Split] with any positive number of threads leaves on
    the split leaf and on the right leaf exactly what one call of the bin's
    [Split] on all rows of the leaf returns, in that order, and rewrites
    [indices_] only inside the range of the leaf. *)
Theorem DataPartition_Split_threads (dp : DataPartition.t)
    (leaf right_leaf : nat) (feature_bins : B) (threshold begin cnt : nat) :
  splits_rowwise feature_bins threshold ->
  (0 < DataPartition.num_threads_ dp)%nat ->
  DataPartition.leaf_begin_ dp !! leaf = Some begin ->
  DataPartition.leaf_count_ dp !! leaf = Some cnt ->
  (begin + cnt <= length (DataPartition.indices_ dp))%nat ->
  (right_leaf < length (DataPartition.leaf_begin_ dp))%nat ->
  (right_leaf < length (DataPartition.leaf_count_ dp))%nat ->
  leaf <> right_leaf ->
  let rows := DataPartition.GetIndexOnLeaf dp leaf in
  let lr := BinSplit feature_bins threshold rows in
  exists dp',
    DataPartition.Split leaf feature_bins threshold right_leaf dp = Ok dp' /\
    DataPartition.GetIndexOnLeaf dp' leaf = lr.1 /\
    DataPartition.GetIndexOnLeaf dp' right_leaf = lr.2 /\
    DataPartition.indices_ dp'
    = take begin (DataPartition.indices_ dp) ++ lr.1 ++ lr.2
      ++ drop (begin + cnt) (DataPartition.indices_ dp).
Proof.
  intros Hrow HT Hb Hc Hlen Hrb Hrc Hne rows lr.
  destruct (Split_exact leaf right_leaf feature_bins threshold dp begin cnt)
    as [Htot HS]; try done.
  set (ind := DataPartition.indices_ dp) in *.
  set (T := DataPartition.num_threads_ dp) in *.
  set (inner := DataPartition.inner_size cnt T) in *.
  set (res := map _ (seq 0 T)) in *.
  assert (Hrows : rows = take cnt (drop begin ind)).
  { unfold rows, DataPartition.GetIndexOnLeaf. by rewrite Hb, Hc. }
  set (chunks := map (fun i => take inner (drop (i * inner) rows)) (seq 0 T)).
  assert (Hres : res = map (BinSplit feature_bins threshold) chunks).
  { unfold res, chunks. rewrite map_map. apply map_ext. intros i.
    destruct (thread_split_chunk feature_bins threshold ind begin cnt inner i)
      as [-> | [-> Hnil]]; rewrite Hrows; [done|].
    by rewrite Hnil, BinSplit_nil. }
  assert (Hall : concat chunks = rows).
  { unfold chunks. rewrite chunks_concat, take_ge; [done|].
    rewrite Hrows, length_take, length_drop.
    pose proof (inner_size_covers cnt T HT). fold inner in H0. lia. }
  pose proof (rowwise_chunks feature_bins threshold chunks Hrow) as Hlr.
  rewrite Hall, <- Hres in Hlr. fold lr in Hlr.
  assert (HL : concat (map fst res) = lr.1) by (by rewrite <- Hlr).
  assert (HR : concat (map snd res) = lr.2) by (by rewrite <- Hlr).
  rewrite HL, HR in HS, Htot.
  eexists. split; [exact HS|].
  assert (length (take begin ind) = begin) as Hpre
    by (rewrite length_take; lia).
  assert (leaf < length (DataPartition.leaf_count_ dp))%nat
    by (by eapply lookup_lt_Some).
  unfold DataPartition.GetIndexOnLeaf. simpl.
  rewrite (list_lookup_insert_ne (DataPartition.leaf_begin_ dp)) by done.
  rewrite (list_lookup_insert_eq (DataPartition.leaf_begin_ dp)) by lia.
  rewrite (list_lookup_insert_ne (<[leaf := _]> (DataPartition.leaf_count_ dp)))
    by done.
  rewrite (list_lookup_insert_eq (<[leaf := _]> (DataPartition.leaf_count_ dp)))
    by (rewrite length_insert; lia).
  rewrite (list_lookup_insert_eq (DataPartition.leaf_count_ dp)) by lia.
  rewrite Hb. simpl.
  split; [|split].
  - rewrite drop_app_length' by done. rewrite <- app_assoc.
    by rewrite take_app_length.
  - rewrite drop_app_ge by lia. rewrite Hpre.
    replace (length lr.1 + begin - begin)%nat with (length lr.1) by lia.
    rewrite <- app_assoc, drop_app_length.
    apply take_app_length'. lia.
  - by rewrite <- app_assoc.
Qed.

End SplitThreads.

Lemma DenseBin_splits_rowwise (b : DenseBin) (threshold : nat) :
  splits_rowwise b threshold.
Proof.
  intros rows1 rows2. simpl. unfold DenseBin_Split. simpl.
  by rewrite !filter_app.
Qed.

Lemma DataPartition_Split_threads_witness :
  exists dp',
    DataPartition.Split 0 Examples.column_0101 0 1 Examples.partition_4 = Ok dp' /\
    DataPartition.GetIndexOnLeaf dp' 0 = [0; 2]%nat /\
    DataPartition.GetIndexOnLeaf dp' 1 = [1; 3]%nat /\
    DataPartition.indices_ dp' = [0; 2; 1; 3]%nat.
Proof.
  destruct (DataPartition_Split_threads Examples.partition_4 0 1
              Examples.column_0101 0 0 4) as (dp' & HS & H0 & H1 & Hind).
  - apply DenseBin_splits_rowwise.
  - simpl. lia.
  - reflexivity.
  - reflexivity.
  - simpl. lia.
  - simpl. lia.
  - simpl. lia.
  - done.
  - exists dp'. split; [exact HS|]. split; [exact H0|]. split; [exact H1|exact Hind].
Defined.

Section SplitFrame.
Context {B : Type} `{Bin B}.

(** X10.  A split leaves the other leaves alone: in a partition that
    satisfies the invariant, [Split(leaf, ..., right_leaf)] with an empty
    [right_leaf] changes neither the begin, nor the count, nor the rows of
    any leaf other than the two. *)
Theorem DataPartition_Split_frame (N : nat) (dp dp' : DataPartition.t)
    (leaf right_leaf : nat) (feature_bins : B) (threshold : nat) :
  DataPartition.inv N dp ->
  (leaf < DataPartition.num_leaves_ dp)%nat ->
  (right_leaf < DataPartition.num_leaves_ dp)%nat ->
  DataPartition.leaf_count_ dp !! right_leaf = Some 0%nat ->
  DataPartition.Split leaf feature_bins threshold right_leaf dp = Ok dp' ->
  forall l, l <> leaf -> l <> right_leaf ->
    DataPartition.leaf_begin_ dp' !! l = DataPartition.leaf_begin_ dp !! l /\
    DataPartition.leaf_count_ dp' !! l = DataPartition.leaf_count_ dp !! l /\
    DataPartition.GetIndexOnLeaf dp' l = DataPartition.GetIndexOnLeaf dp l.
Proof.
  intros I Hleaf Hright Hempty HS l Hl1 Hl2.
  pose proof (DataPartition.inv_begin_len N dp I) as Hbl.
  pose proof (DataPartition.inv_count_len N dp I) as Hcl.
  pose proof (inv_length_indices N dp I) as Hil.
  destruct (lookup_lt_is_Some_2 (DataPartition.leaf_begin_ dp) leaf)
    as [begin Hb]; [lia|].
  destruct (lookup_lt_is_Some_2 (DataPartition.leaf_count_ dp) leaf)
    as [cnt Hc]; [lia|].
  pose proof (DataPartition.inv_range N dp I _ _ _ Hb Hc) as Hr.
  destruct (Split_spec leaf right_leaf feature_bins threshold dp begin cnt)
    as (Ls & Rs & Hperm & HE); try done; try lia.
  { apply (DataPartition.inv_threads N dp I). }
  rewrite HE in HS. injection HS as <-.
  assert (length (Ls ++ Rs) = cnt) as Hlr.
  { rewrite Hperm, length_take, length_drop. lia. }
  unfold DataPartition.GetIndexOnLeaf. simpl.
  rewrite !list_lookup_insert_ne by done.
  split; [done|]. split; [done|].
  destruct (DataPartition.leaf_count_ dp !! l) as [c|] eqn:Hlc; [|done].
  destruct (DataPartition.leaf_begin_ dp !! l) as [b|] eqn:Hlb; simpl.
  2:{ apply lookup_ge_None in Hlb. apply lookup_lt_Some in Hlc. lia. }
  set (ind := DataPartition.indices_ dp) in *.
  set (ind' := take begin ind ++ (Ls ++ Rs) ++ drop (begin + cnt) ind).
  assert (Hlen' : length ind' = length ind).
  { unfold ind'. rewrite !length_app, length_take, length_drop.
    rewrite length_app in Hlr. lia. }
  apply list_eq. intros k. rewrite !lookup_take.
  case_decide as Hk; [|done]. rewrite !lookup_drop.
  assert (Hout : ~ (begin <= b + k < begin + cnt)%nat).
  { intros Hin. apply Hl1.
    apply (DataPartition.inv_unique N dp I (b + k)%nat).
    - exists b, c. auto with lia.
    - exists begin, cnt. auto with lia. }
  unfold ind'. destruct (decide (b + k < begin)%nat).
  - rewrite lookup_app_l by (rewrite length_take; lia).
    rewrite lookup_take, decide_True by lia. done.
  - rewrite lookup_app_r by (rewrite length_take; lia).
    rewrite length_take.
    replace (begin `min` length ind)%nat with begin by lia.
    rewrite lookup_app_r by lia. rewrite Hlr, lookup_drop. f_equal. lia.
Qed.

End SplitFrame.

Lemma DataPartition_Split_frame_witness :
  DataPartition.leaf_begin_ Examples.partition_4_split !! 2%nat
  = DataPartition.leaf_begin_ Examples.partition_4 !! 2%nat /\
  DataPartition.leaf_count_ Examples.partition_4_split !! 2%nat
  = DataPartition.leaf_count_ Examples.partition_4 !! 2%nat /\
  DataPartition.GetIndexOnLeaf Examples.partition_4_split 2
  = DataPartition.GetIndexOnLeaf Examples.partition_4 2.
Proof.
  apply (DataPartition_Split_frame 4 Examples.partition_4
           Examples.partition_4_split 0 1 Examples.column_0101 0).
  - apply (Init_inv 4 3 2 Examples.partition_4); [lia|reflexivity].
  - simpl. lia.
  - simpl. lia.
  - reflexivity.
  - reflexivity.
  - lia.
  - lia.
Defined.
(** ** Prediction: all classes, and one line of a data file *)

Lemma add_classes_spec (models : list Tree.t) (i num_class : nat)
    (value : list double) (js : list nat) :
  forall ret : list double,
    NoDup js ->
    (forall j, j ∈ js ->
       (j < length ret)%nat /\ (i * num_class + j < length models)%nat) ->
    exists ret',
      GBDT.add_classes models i num_class js value ret = Ok ret' /\
      length ret' = length ret /\
      forall j x, ret !! j = Some x ->
        ret' !! j
        = Some (if decide (j ∈ js)
                then (x + from_option (fun t => Tree.Predict t value) 0
                             (models !! (i * num_class + j)%nat))%Qc
                else x).
Proof.
  induction js as [|j js IH]; intros ret Hnd Hin; cbn [GBDT.add_classes].
  - exists ret. split; [done|]. split; [done|]. intros j x Hx.
    by rewrite decide_False by (by intros ?%elem_of_nil).
  - apply NoDup_cons in Hnd as [Hj Hnd].
    destruct (Hin j) as [Hjr Hjm]; [by left|].
    destruct (lookup_lt_is_Some_2 models (i * num_class + j)) as [tree Ht]; [done|].
    destruct (lookup_lt_is_Some_2 ret j) as [r Hr]; [done|].
    rewrite (proj2 (readn_Ok _ _ _) Ht). cbn.
    rewrite (proj2 (readn_Ok _ _ _) Hr). cbn.
    unfold writen. rewrite decide_True by done. cbn.
    destruct (IH (<[j := (r + Tree.Predict tree value)%Qc]> ret) Hnd)
      as (ret' & HE & HL & HV).
    { intros k Hk. rewrite length_insert. apply Hin. by right. }
    exists ret'. split; [done|]. split; [by rewrite HL, length_insert|].
    intros k x Hx. destruct (decide (k = j)) as [E|Hne]; [subst k|].
    + rewrite (HV j (r + Tree.Predict tree value)%Qc)
        by (by apply list_lookup_insert_eq).
      rewrite decide_False by done. rewrite decide_True by (by left).
      pose proof (eq_trans (eq_sym Hr) Hx) as E. injection E as <-.
      by rewrite Ht.
    + rewrite (HV k x) by (by rewrite list_lookup_insert_ne).
      destruct (decide (k ∈ js)).
      * by rewrite decide_True by (by right).
      * rewrite decide_False; [done|]. by intros [?|?]%elem_of_cons.
Qed.

Lemma sum_iterations_spec (models : list Tree.t) (num_class : nat)
    (value : list double) (idxs : list nat) :
  forall ret : list double,
    length ret = num_class ->
    (forall i, i ∈ idxs -> (i * num_class + num_class <= length models)%nat) ->
    exists ret',
      GBDT.sum_iterations models num_class idxs value ret = Ok ret' /\
      length ret' = num_class /\
      forall c x, ret !! c = Some x ->
        ret' !! c
        = Some (x + Qsum (map (fun i =>
                                 from_option (fun t => Tree.Predict t value) 0
                                   (models !! (i * num_class + c)%nat)) idxs))%Qc.
Proof.
  induction idxs as [|i idxs IH]; intros ret Hlen Hin; simpl.
  - exists ret. split; [done|]. split; [done|]. intros c x ->. f_equal.
    change (Qsum []) with 0%Qc. unfold double in *. ring.
  - destruct (add_classes_spec models i num_class value (seq 0 num_class) ret)
      as (ret1 & HE & HL & HV).
    { apply NoDup_seq. }
    { intros j Hj%elem_of_seq. specialize (Hin i ltac:(by left)). lia. }
    rewrite HE. cbn.
    destruct (IH ret1) as (ret' & HE' & HL' & HV'); [lia| |].
    { intros k Hk. apply Hin. by right. }
    exists ret'. split; [done|]. split; [done|].
    intros c x Hx. pose proof (lookup_lt_Some _ _ _ Hx) as Hc.
    pose proof (HV c x Hx) as H1.
    rewrite decide_True in H1
      by (apply elem_of_seq; unfold double, score_t in *; lia).
    rewrite (HV' c _ H1). f_equal.
    change (Qsum (?a :: ?l)) with (a + Qsum l)%Qc.
    unfold double in *. ring.
Qed.

Lemma predictions_class_trees (models : list Tree.t) (num_class c : nat)
    (value : list double) (idxs : list nat) :
  Qsum (map (fun i => from_option (fun t => Tree.Predict t value) 0%Qc
                        (models !! (i * num_class + c)%nat)) idxs)
  = predictions (dropped_trees models idxs num_class c) value.
Proof.
  unfold predictions, dropped_trees.
  induction idxs as [|i idxs IH]; [done|]. simpl.
  change (Qsum (?a :: ?l)) with (a + Qsum l)%Qc. rewrite IH.
  destruct (models !! (i * num_class + c)%nat); simpl; [done|].
  apply Qcplus_0_l.
Qed.

(** X11.  [PredictMulticlass] returns one number per class: the sum of
    the predictions of the trees of that class, which stand at the
    positions [i * num_class_ + c] for the iterations [i] below
    [num_used_model_].  With one class this is what [PredictRaw] returns. *)
Theorem PredictMulticlass_correct (value : list double) (g : GBDT.t) :
  0 <= GBDT.num_class_ g ->
  Z.of_nat (Z.to_nat (GBDT.num_used_model_ g) * GBDT.num_class g)
  <= Z.of_nat (length (GBDT.models_ g)) ->
  GBDT.PredictMulticlass value g
  = Ok (map (fun c => predictions
                        (class_trees (GBDT.models_ g)
                           (Z.to_nat (GBDT.num_used_model_ g)) (GBDT.num_class g) c)
                        value)
          (seq 0 (GBDT.num_class g))) /\
  (GBDT.num_class_ g = 1 ->
   GBDT.PredictMulticlass value g = (r ← GBDT.PredictRaw value g; Ok [r])).
Proof.
  intros Hnc Hn. set (nc := GBDT.num_class g) in *.
  set (n := Z.to_nat (GBDT.num_used_model_ g)) in *.
  assert (HP : GBDT.PredictMulticlass value g
               = Ok (map (fun c => predictions
                                     (class_trees (GBDT.models_ g) n nc c) value)
                       (seq 0 nc))).
  { unfold GBDT.PredictMulticlass. destruct (Z.ltb_spec (GBDT.num_class_ g) 0); [lia|].
    fold nc n.
    destruct (sum_iterations_spec (GBDT.models_ g) nc value (seq 0 n)
                (replicate nc 0%Qc)) as (ret' & HE & HL & HV).
    { by rewrite length_replicate. }
    { intros i Hi%elem_of_seq. nia. }
    rewrite HE. f_equal. apply list_eq. intros c.
    rewrite list_lookup_fmap. destruct (decide (c < nc)%nat) as [Hc|Hc].
    - rewrite lookup_seq_lt by done. simpl.
      refine (eq_trans (HV c 0%Qc _) _); [by apply lookup_replicate|].
      f_equal. rewrite predictions_class_trees. unfold class_trees.
      apply Qcplus_0_l.
    - rewrite lookup_seq_ge by lia. simpl. apply lookup_ge_None. lia. }
  split; [exact HP|].
  intros H1. rewrite HP. unfold GBDT.PredictRaw. fold n.
  assert (nc = 1%nat) as Hnc1 by (unfold nc, GBDT.num_class; lia).
  rewrite Hnc1 in *. rewrite sum_trees_spec by (simpl; lia).
  cbn. rewrite drop_0. do 2 f_equal.
  unfold class_trees. rewrite <- predictions_class_trees.
  rewrite Qcplus_0_l.
  assert (Hlen : (n <= length (GBDT.models_ g))%nat) by lia.
  clear -Hlen. revert Hlen. generalize (GBDT.models_ g) as models.
  induction n as [|n IH] using nat_ind; intros models Hlen.
  - by rewrite take_0.
  - rewrite seq_S, map_app, Qsum_app.
    destruct (lookup_lt_is_Some_2 models n) as [t Ht]; [lia|].
    rewrite (take_S_r _ _ _ Ht), map_app, Qsum_app, IH by lia.
    simpl. replace (n * 1 + 0)%nat with n by lia. by rewrite Ht.
Qed.

Lemma PredictMulticlass_correct_witness :
  GBDT.PredictMulticlass [0%Qc] Examples.loaded
  = Ok (map (fun c => predictions
                        (class_trees (GBDT.models_ Examples.loaded)
                           (Z.to_nat (GBDT.num_used_model_ Examples.loaded))
                           (GBDT.num_class Examples.loaded) c)
                        [0%Qc])
          (seq 0 (GBDT.num_class Examples.loaded))) /\
  GBDT.PredictMulticlass [0%Qc] Examples.loaded
  = (r ← GBDT.PredictRaw [0%Qc] Examples.loaded; Ok [r]).
Proof.
  destruct (PredictMulticlass_correct [0%Qc] Examples.loaded) as [H1 H2].
  - by vm_compute.
  - by vm_compute.
  - split; [exact H1|]. apply H2. by vm_compute.
Defined.

(** *** One line *)

Lemma Put_dense_row (p : Predictor.t) (tid : nat) (features : list (Z * double)) :
  Predictor.wf p -> (tid < Predictor.num_threads_ p)%nat ->
  Forall (fun q => 0 <= q.1) features ->
  let row := dense_row (Predictor.num_features_ p) features in
  let p' := {| Predictor.num_features_ := Predictor.num_features_ p;
               Predictor.num_threads_ := Predictor.num_threads_ p;
               Predictor.features_ := <[tid := row]> (Predictor.features_ p) |} in
  Predictor.PutFeatureValuesToBuffer p tid features = Ok (tid, p') /\
  readn (Predictor.features_ p') tid = Ok row.
Proof.
  intros (Hn & Hlen & Hbufs) Htid Hnonneg row p'.
  destruct (lookup_lt_is_Some_2 (Predictor.features_ p) tid) as [buf0 Hbuf0]; [lia|].
  assert (Z.of_nat (length buf0) = Predictor.num_features_ p) as Hl0.
  { by eapply (proj1 (Forall_lookup _ _) Hbufs). }
  destruct (put_all_spec (Predictor.num_features_ p) features Hnonneg
              (Predictor.zeroed buf0)) as (buf & HE & HL & HV).
  { unfold Predictor.zeroed. by rewrite length_replicate. }
  unfold Predictor.zeroed in HL. rewrite length_replicate in HL.
  assert (Hrow : buf = row).
  { apply list_eq. intros j. unfold row, dense_row.
    rewrite list_lookup_fmap.
    destruct (decide (j < Z.to_nat (Predictor.num_features_ p))%nat) as [Hj|Hj].
    - rewrite lookup_seq_lt by done. simpl.
      rewrite <- (Nat2Z.id j) at 1. rewrite (HV (Z.of_nat j) 0%Qc); [done|lia|].
      unfold Predictor.zeroed. apply lookup_replicate. split; [done|lia].
    - rewrite lookup_seq_ge by lia. simpl. apply lookup_ge_None. lia. }
  split.
  - unfold Predictor.PutFeatureValuesToBuffer. rewrite Hbuf0, HE. cbn.
    by rewrite Hrow.
  - apply readn_Ok. simpl. apply list_lookup_insert_eq. lia.
Qed.

(** X12.  The predictions for one line depend on the line only, not on
    what earlier lines left in the thread's buffer: for a line whose
    feature indices are not negative, [PredictRawOneLine], [PredictOneLine]
    and [PredictMulticlassOneLine] return what [PredictRaw], [Predict] and
    [PredictMulticlass] of the model return on the dense row of the line --
    [num_features_] values, at each index the value of the last pair with
    that index, 0 for an index the line does not mention. *)
Theorem PredictOneLine_correct (std_exp : double -> double) (boosting : GBDT.t)
    (p : Predictor.t) (tid : nat) (features : list (Z * double)) :
  Predictor.wf p -> (tid < Predictor.num_threads_ p)%nat ->
  Forall (fun q => 0 <= q.1) features ->
  let row := dense_row (Predictor.num_features_ p) features in
  exists p',
    Predictor.features_ p' = <[tid := row]> (Predictor.features_ p) /\
    PredictLine.PredictRawOneLine boosting p tid features
    = (r ← GBDT.PredictRaw row boosting; Ok ([r], p')) /\
    PredictLine.PredictOneLine std_exp boosting p tid features
    = (r ← GBDT.Predict std_exp row boosting; Ok ([r], p')) /\
    PredictLine.PredictMulticlassOneLine boosting p tid features
    = (r ← GBDT.PredictMulticlass row boosting; Ok (r, p')).
Proof.
  intros W Htid Hnonneg row.
  destruct (Put_dense_row p tid features W Htid Hnonneg) as [HP HR].
  fold row in HP, HR. cbn in HR. eexists. split; [|split; [|split]].
  2:{ unfold PredictLine.PredictRawOneLine. rewrite HP. cbn. rewrite HR. done. }
  - done.
  - unfold PredictLine.PredictOneLine. rewrite HP. cbn. rewrite HR. done.
  - unfold PredictLine.PredictMulticlassOneLine. rewrite HP. cbn. rewrite HR. done.
Qed.

Lemma predictor_4_wf : Predictor.wf Examples.predictor_4.
Proof. repeat split; simpl; [lia|repeat constructor]. Qed.

(** A line that gives feature 1 twice and a feature 7 the model does not
    have. *)
Lemma PredictOneLine_correct_witness :
  let features := [(1, 1%Qc); (7, 1%Qc); (1, (1 + 1)%Qc)] in
  exists p',
    Predictor.features_ p'
    = <[1%nat := [0; 1 + 1; 0; 0]%Qc]> (Predictor.features_ Examples.predictor_4) /\
    PredictLine.PredictRawOneLine Examples.two_class_model Examples.predictor_4 1
      features
    = (r ← GBDT.PredictRaw [0; 1 + 1; 0; 0]%Qc Examples.two_class_model;
       Ok ([r], p')).
Proof.
  intros features.
  destruct (PredictOneLine_correct (fun x => x) Examples.two_class_model
              Examples.predictor_4 1 features predictor_4_wf)
    as (p' & HF & HR & _).
  - simpl. lia.
  - repeat constructor; simpl; lia.
  - exists p'. split; [exact HF|exact HR].
Defined.

Lemma PredictMulticlass_Ok (value : list double) (g : GBDT.t) :
  0 <= GBDT.num_class_ g ->
  Z.of_nat (Z.to_nat (GBDT.num_used_model_ g) * GBDT.num_class g)
  <= Z.of_nat (length (GBDT.models_ g)) ->
  exists r, GBDT.PredictMulticlass value g = Ok r /\
            length r = GBDT.num_class g.
Proof.
  intros Hnc Hn. unfold GBDT.PredictMulticlass.
  destruct (Z.ltb_spec (GBDT.num_class_ g) 0); [lia|].
  destruct (sum_iterations_spec (GBDT.models_ g) (GBDT.num_class g) value
              (seq 0 (Z.to_nat (GBDT.num_used_model_ g)))
              (replicate (GBDT.num_class g) 0%Qc)) as (ret' & HE & HL & _).
  - by rewrite length_replicate.
  - intros i Hi%elem_of_seq. nia.
  - by exists ret'.
Qed.

(** X13.  What [Predict] prints for a line under a model with several
    classes is a probability vector: for an exponential that is positive
    everywhere and a model that holds the trees of its [num_used_model_]
    iterations, [PredictMulticlassOneLine] followed by [Softmax] returns one
    number per class, each in (0, 1], and the numbers add up to 1. *)
Theorem predict_fun_multiclass_probabilities (std_exp : double -> double)
    (boosting : GBDT.t) (p : Predictor.t) (tid : nat)
    (features : list (Z * double)) :
  (forall x, (0 < std_exp x)%Qc) ->
  Predictor.wf p -> (tid < Predictor.num_threads_ p)%nat ->
  Forall (fun q => 0 <= q.1) features ->
  1 <= GBDT.num_class_ boosting ->
  Z.of_nat (Z.to_nat (GBDT.num_used_model_ boosting) * GBDT.num_class boosting)
  <= Z.of_nat (length (GBDT.models_ boosting)) ->
  exists out p',
    PredictLine.predict_fun_multiclass std_exp boosting p tid features
    = Ok (out, p') /\
    length out = GBDT.num_class boosting /\
    Forall (fun q => (0 < q)%Qc /\ (q <= 1)%Qc) out /\
    Qsum out = 1%Qc.
Proof.
  intros Hexp W Htid Hnonneg Hnc Hn.
  destruct (Put_dense_row p tid features W Htid Hnonneg) as [HP HR].
  cbn in HR.
  set (row := dense_row (Predictor.num_features_ p) features) in *.
  destruct (PredictMulticlass_Ok row boosting) as (r & Hr & Hlen); [lia|done|].
  assert (Hne : r <> []).
  { intros ->. unfold GBDT.num_class in Hlen. simpl in Hlen. lia. }
  assert (HS : exists out,
             Common.Softmax std_exp r = Ok out /\ length out = length r /\
             Forall (fun q => (0 < q)%Qc /\ (q <= 1)%Qc) out /\ Qsum out = 1%Qc).
  { destruct r as [|r0 rest]; [done|].
    unfold Common.Softmax. rewrite exp_sum_spec.
    set (wmax := foldl _ r0 rest).
    set (es := map (fun x => std_exp (x - wmax)%Qc) (r0 :: rest)).
    assert (Hes : Forall (fun x => 0 < x)%Qc es).
    { apply Forall_forall. intros x (y & -> & _)%list_elem_of_fmap. apply Hexp. }
    assert (Hw : (0 + Qsum es)%Qc = Qsum es) by ring.
    rewrite Hw.
    destruct (normalized_probabilities es Hes) as [Hp Hs]; [done|].
    eexists. split; [reflexivity|]. split; [|split; [exact Hp|exact Hs]].
    unfold es. by rewrite !length_map. }
  destruct HS as (out & HS & Hlo & Hp & Hs).
  unfold PredictLine.predict_fun_multiclass, PredictLine.PredictMulticlassOneLine.
  rewrite HP. cbn. rewrite HR. cbn. rewrite Hr. cbn. rewrite HS. cbn.
  eexists _, _. split; [reflexivity|]. split; [congruence|done].
Qed.

Lemma predict_fun_multiclass_probabilities_witness :
  exists out p',
    PredictLine.predict_fun_multiclass Examples.exp_like Examples.two_class_model
      Examples.predictor_4 0 [(0, 1%Qc); (2, 1%Qc)]
    = Ok (out, p') /\
    length out = 2%nat /\
    Forall (fun q => (0 < q)%Qc /\ (q <= 1)%Qc) out /\
    Qsum out = 1%Qc.
Proof.
  apply (predict_fun_multiclass_probabilities Examples.exp_like
           Examples.two_class_model Examples.predictor_4 0).
  - apply exp_like_pos.
  - apply predictor_4_wf.
  - simpl. lia.
  - repeat constructor; simpl; lia.
  - by vm_compute.
  - by vm_compute.
Defined.
(** ** The accessors of the C API *)

Lemma pairs_from_spec (indices : list Z) (data : list double) (n : nat) :
  forall lo : nat,
    (lo + n <= length indices)%nat -> (lo + n <= length data)%nat ->
    CApi.pairs_from indices data (Z.of_nat lo) n
    = Ok (take n (drop lo (zip indices data))).
Proof.
  induction n as [|n IH]; intros lo Hi Hd; simpl; [done|].
  destruct (lookup_lt_is_Some_2 indices lo) as [c Hc]; [lia|].
  destruct (lookup_lt_is_Some_2 data lo) as [v Hv]; [lia|].
  assert (read indices (Z.of_nat lo) = Ok c) as ->
    by (apply read_Ok; rewrite Nat2Z.id; split; [lia|done]).
  cbn.
  assert (read data (Z.of_nat lo) = Ok v) as ->
    by (apply read_Ok; rewrite Nat2Z.id; split; [lia|done]).
  cbn. replace (Z.of_nat lo + 1) with (Z.of_nat (S lo)) by lia.
  rewrite IH by lia. cbn.
  assert (Hz : zip indices data !! lo = Some (c, v)).
  { rewrite lookup_zip_with, Hc. simpl. by rewrite Hv. }
  by rewrite (drop_S _ _ _ Hz).
Qed.

Lemma pairs_from_overrun (indices : list Z) (data : list double) (n : nat) :
  forall lo : nat,
    (lo <= length indices)%nat -> (length indices < lo + n)%nat ->
    CApi.pairs_from indices data (Z.of_nat lo) n = Undefined.
Proof.
  induction n as [|n IH]; intros lo Hlo Hi; simpl; [lia|].
  destruct (indices !! lo) as [c|] eqn:Hc.
  - assert (read indices (Z.of_nat lo) = Ok c) as ->
      by (apply read_Ok; rewrite Nat2Z.id; split; [lia|done]).
    apply lookup_lt_Some in Hc.
    cbn. pose proof (read_not_Fatal data (Z.of_nat lo)) as HF.
    destruct (read data (Z.of_nat lo)); cbn; [|by destruct HF|done].
    replace (Z.of_nat lo + 1) with (Z.of_nat (S lo)) by lia.
    by rewrite IH by lia.
  - unfold read. destruct (Z.leb_spec 0 (Z.of_nat lo)); [|done].
    by rewrite Nat2Z.id, Hc.
Qed.

(** X14.  Reading a row of a CSR matrix takes one stored element too
    many, where reading a column of a CSC matrix takes the right ones.  For
    arrays of [nelem] stored elements and the row or column [idx], stored at
    the positions [start .. end): [ColumnFunctionFromCSC] returns exactly
    these elements; [RowFunctionFromCSR] returns them followed by the element
    at position [end], which belongs to what follows, and for [end = nelem]
    it reads past the end of the arrays. *)
Theorem RowFunctionFromCSR_reads_one_more (indptr : list Z)
    (indptr_type data_type : CApi.dtype) (indices : list Z) (data : list double)
    (nindptr nelem idx start end_ : Z) :
  data_type = CApi.dtype_float32 \/ data_type = CApi.dtype_float64 ->
  indptr_type = CApi.dtype_int32 \/ indptr_type = CApi.dtype_int64 ->
  0 <= idx -> idx + 1 < nindptr -> idx + 1 <= INT_MAX ->
  indptr !! Z.to_nat idx = Some start ->
  indptr !! Z.to_nat (idx + 1) = Some end_ ->
  0 <= start <= end_ -> end_ <= nelem ->
  Z.of_nat (length indices) = nelem -> Z.of_nat (length data) = nelem ->
  CApi.ColumnFunctionFromCSC indptr indptr_type indices data data_type
    nindptr nelem idx
  = Ok (stored indices data start end_) /\
  (end_ < nelem ->
   CApi.RowFunctionFromCSR indptr indptr_type indices data data_type
     nindptr nelem idx
   = Ok (stored indices data start end_ ++ stored indices data end_ (end_ + 1))) /\
  (end_ = nelem ->
   CApi.RowFunctionFromCSR indptr indptr_type indices data data_type
     nindptr nelem idx
   = Undefined).
Proof.
  intros Hdt Hpt Hidx Hn Hmax Hs He Hse Hen Hli Hld.
  assert (Hnext : int_op (idx + 1) = Ok (idx + 1))
    by (apply int_op_Ok; unfold INT_MIN; lia).
  assert (Hrs : read indptr idx = Ok start) by (apply read_Ok; split; [lia|done]).
  assert (Hre : read indptr (idx + 1) = Ok end_)
    by (apply read_Ok; split; [lia|done]).
  assert (Hchk : negb ((0 <=? start) && (end_ <=? nelem)) = false).
  { destruct (Z.leb_spec 0 start), (Z.leb_spec end_ nelem); simpl; lia. }
  assert (Hlt : negb (idx + 1 <? nindptr) = false)
    by (destruct (Z.ltb_spec (idx + 1) nindptr); simpl; lia).
  assert (HR : CApi.RowFunctionFromCSR indptr indptr_type indices data data_type
                 nindptr nelem idx
               = CApi.pairs_from indices data start (Z.to_nat (end_ + 1 - start))).
  { unfold CApi.RowFunctionFromCSR.
    destruct Hdt as [-> | ->], Hpt as [-> | ->];
      rewrite Hnext; cbn; rewrite Hlt, Hrs; cbn; rewrite Hre; cbn;
      by rewrite Hchk. }
  assert (HC : CApi.ColumnFunctionFromCSC indptr indptr_type indices data data_type
                 nindptr nelem idx
               = CApi.pairs_from indices data start (Z.to_nat (end_ - start))).
  { unfold CApi.ColumnFunctionFromCSC.
    destruct Hdt as [-> | ->], Hpt as [-> | ->];
      rewrite Hnext; cbn; rewrite Hlt, Hrs; cbn; rewrite Hre; cbn;
      by rewrite Hchk. }
  rewrite HR, HC.
  assert (Hpairs : forall n : nat,
            Z.of_nat (Z.to_nat start + n) <= nelem ->
            CApi.pairs_from indices data start n
            = Ok (take n (drop (Z.to_nat start) (zip indices data)))).
  { intros n Hle. rewrite <- (Z2Nat.id start) at 1 by lia.
    apply pairs_from_spec; lia. }
  split; [|split].
  - by rewrite Hpairs by lia.
  - intros Hlast. rewrite Hpairs by lia. f_equal.
    unfold stored.
    replace (Z.to_nat (end_ + 1 - start))
      with (Z.to_nat (end_ - start) + Z.to_nat (end_ + 1 - end_))%nat by lia.
    rewrite <- take_take_drop, drop_drop. do 3 f_equal. lia.
  - intros Hlast. rewrite <- (Z2Nat.id start) by lia.
    apply pairs_from_overrun; lia.
Qed.

(** Two rows (or columns) with the stored elements 1, 2 and 3. *)
Lemma RowFunctionFromCSR_reads_one_more_witness :
  let indptr := [0; 2; 3] in
  let indices := [0; 2; 1] in
  let data := [1; Qc_of_Z 2; Qc_of_Z 3]%Qc in
  CApi.ColumnFunctionFromCSC indptr CApi.dtype_int32 indices data
    CApi.dtype_float64 3 3 0
  = Ok [(0, 1%Qc); (2, Qc_of_Z 2)] /\
  CApi.RowFunctionFromCSR indptr CApi.dtype_int32 indices data
    CApi.dtype_float64 3 3 0
  = Ok [(0, 1%Qc); (2, Qc_of_Z 2); (1, Qc_of_Z 3)] /\
  CApi.RowFunctionFromCSR indptr CApi.dtype_int32 indices data
    CApi.dtype_float64 3 3 1
  = Undefined.
Proof.
  intros indptr indices data.
  assert (H0 := RowFunctionFromCSR_reads_one_more indptr CApi.dtype_int32
                  CApi.dtype_float64 indices data 3 3 0 0 2).
  assert (H1 := RowFunctionFromCSR_reads_one_more indptr CApi.dtype_int32
                  CApi.dtype_float64 indices data 3 3 1 2 3).
  destruct H0 as (HC & HR & _);
    [by right|by left|lia|lia|unfold INT_MAX; lia|reflexivity|reflexivity
    |lia|lia|reflexivity|reflexivity|].
  destruct H1 as (_ & _ & HU);
    [by right|by left|lia|lia|unfold INT_MAX; lia|reflexivity|reflexivity
    |lia|lia|reflexivity|reflexivity|].
  split; [exact HC|]. split; [apply HR; lia|apply HU; lia].
Defined.

(** *** SampleFromOneColumn *)

Lemma column_value_none (data : list (Z * double)) (row_idx : Z) :
  Forall (fun p => p.1 <> row_idx) data -> column_value data row_idx = 0%Qc.
Proof.
  induction 1 as [|p data Hp _ IH]; [done|]. simpl.
  by destruct (Z.eqb_spec p.1 row_idx).
Qed.

Lemma skip_below_spec (data : list (Z * double)) (row_idx : Z) :
  StronglySorted Z.le data.*1 ->
  StronglySorted Z.le (CApi.skip_below data row_idx).*1 /\
  (forall r, row_idx <= r ->
     column_value (CApi.skip_below data row_idx) r = column_value data r) /\
  Forall (fun p => row_idx <= p.1) (CApi.skip_below data row_idx).
Proof.
  induction data as [|p data IH]; intros Hs; simpl.
  - by repeat split.
  - apply StronglySorted_inv in Hs as [Hs Hall].
    destruct (Z.ltb_spec p.1 row_idx) as [Hlt|Hge].
    + destruct (IH Hs) as (H1 & H2 & H3). split; [done|]. split; [|done].
      intros r Hr. rewrite (H2 r Hr).
      destruct (Z.eqb_spec p.1 r); [lia|done].
    + split; [by constructor|]. split; [done|].
      constructor; [done|]. apply Forall_forall. intros q Hq.
      assert (p.1 <= q.1); [|lia].
      rewrite Forall_forall in Hall. apply Hall.
      by apply list_elem_of_fmap_2.
Qed.

(** X15.  [SampleFromOneColumn] looks the sampled rows up in a column:
    for a column stored as (row, value) pairs in the order of the rows, and
    sample indices in increasing order, the result holds for every sampled
    row the value the column stores for it, and 0 for a row the column does
    not store. *)
Theorem SampleFromOneColumn_correct (data : list (Z * double)) (indices : list Z) :
  StronglySorted Z.le data.*1 -> StronglySorted Z.le indices ->
  CApi.SampleFromOneColumn data indices = map (column_value data) indices.
Proof.
  intros Hd Hi. revert data Hd.
  induction indices as [|r indices IH]; intros data Hd; [done|].
  apply StronglySorted_inv in Hi as [Hi Hall]. simpl.
  destruct (skip_below_spec data r Hd) as (Hs & Hval & Hge).
  rewrite (IH Hi _ Hs). f_equal.
  - rewrite <- (Hval r) by lia.
    destruct (CApi.skip_below data r) as [|p rest]; [done|]. simpl.
    destruct (Z.eqb_spec p.1 r) as [_|Hne]; [done|].
    symmetry. apply column_value_none.
    apply Forall_cons in Hge as [Hp _].
    apply StronglySorted_inv in Hs as [_ Hle].
    apply Forall_forall. intros q Hq.
    assert (p.1 <= q.1); [|lia].
    rewrite Forall_forall in Hle. apply Hle. by apply list_elem_of_fmap_2.
  - apply Forall_fmap_ext_1. eapply Forall_impl; [exact Hall|].
    intros r' Hr'. by apply Hval.
Qed.

(** A column that stores the rows 1 and 3, sampled at 0, 1, 1, 3 and 4. *)
Lemma SampleFromOneColumn_correct_witness :
  CApi.SampleFromOneColumn [(1, Qc_of_Z 5); (3, Qc_of_Z 7)] [0; 1; 1; 3; 4]
  = map (column_value [(1, Qc_of_Z 5); (3, Qc_of_Z 7)]) [0; 1; 1; 3; 4].
Proof.
  apply SampleFromOneColumn_correct.
  - simpl. repeat first [constructor | lia].
  - repeat first [constructor | lia].
Defined.
(** ** The scores are what the model predicts *)










(** *** DART *)




(** ** Bagging of rows: the size of the bag *)


(** ** An iteration without early stopping *)

Lemma eval_metrics_off (esr : Z) (iter : nat) score ret ms bi bs :
  esr <= 0 -> GBDT.eval_metrics esr iter score ret ms bi bs = (ret, bi, bs).
Proof.
  intros Hesr. revert bi bs. induction ms as [|m ms IH]; intros bi bs; [done|].
  destruct bi as [|b bi]; [done|]. destruct bs as [|s bs]; [done|].
  simpl. unfold GBDT.eval_metric.
  destruct (Z.ltb_spec 0 esr); [lia|]. rewrite andb_false_r.
  by rewrite IH.
Qed.

Lemma eval_valid_off (esr : Z) (iter : nat) ret mss sus bi bs :
  esr <= 0 -> GBDT.eval_valid esr iter ret mss sus bi bs = (ret, bi, bs).
Proof.
  intros Hesr. revert sus bi bs.
  induction mss as [|ms mss IH]; intros sus bi bs; [done|].
  destruct sus as [|su sus]; [done|]. destruct bi as [|b bi]; [done|].
  destruct bs as [|s bs]; [done|].
  simpl. rewrite eval_metrics_off by done. by rewrite IH.
Qed.

Lemma train_classes_stopped sh grad hess classes g g' :
  GBDT.train_classes sh grad hess classes g = Ok (true, g') ->
  exists new, (length new < length classes)%nat /\
              GBDT.models_ g' = GBDT.models_ g ++ new.
Proof.
  revert g. induction classes as [|c cs IH]; intros g H; simpl in H; [done|].
  bind_case H as x HE. destruct x as [stop1 g1].
  apply train_class_frame in HE as (_ & M1 & M2).
  destruct stop1.
  - injection H as <-. exists []. rewrite app_nil_r. split; [simpl; lia|].
    by apply M1.
  - apply IH in H as (new & Hl & Hn). destruct (M2 eq_refl) as [t Ht].
    exists (t :: new). split; [simpl; lia|].
    by rewrite Hn, Ht, <- app_assoc.
Qed.

(** X19.  With [early_stopping_round_ <= 0] an iteration never removes a
    tree and never touches the best iterations and scores.  It reports the
    end only because a learner returned a tree with one leaf; then the
    trees of the classes before that one stay in the model although
    [iter_] is not incremented.  Otherwise it appends one tree per class
    and increments [iter_]. *)
Theorem TrainOneIter_without_early_stopping (g g' : GBDT.t)
    (gradient hessian : option (list score_t)) (is_eval fin : bool) :
  GBDT.early_stopping_round_ g <= 0 ->
  GBDT.TrainOneIter gradient hessian is_eval g = Ok (fin, g') ->
  exists new,
    GBDT.models_ g' = GBDT.models_ g ++ new /\
    GBDT.best_iter_ g' = GBDT.best_iter_ g /\
    GBDT.best_score_ g' = GBDT.best_score_ g /\
    (fin = true ->
     GBDT.iter_ g' = GBDT.iter_ g /\ (length new < GBDT.num_class g)%nat) /\
    (fin = false ->
     GBDT.iter_ g' = S (GBDT.iter_ g) /\ length new = GBDT.num_class g).
Proof.
  intros Hesr H. unfold GBDT.TrainOneIter in H.
  bind_case H as gh Hgh. destruct gh as [grad hess].
  bind_case H as x Hx. destruct x as [stop g1].
  pose proof (train_classes_frame _ _ _ _ _ _ _ Hx) as (S1 & Hnew).
  destruct stop.
  - injection H as <- <-.
    apply train_classes_stopped in Hx as (new & Hl & Hm).
    rewrite length_seq in Hl. exists new.
    split; [done|]. split; [by apply sc_best_iter|].
    split; [by apply sc_best_score|].
    split; [|discriminate]. intros _. split; [by apply sc_iter | done].
  - destruct (Hnew eq_refl) as (new & Hl & Hm). rewrite length_seq in Hl.
    exists new. unfold GBDT.finish_iter in H.
    assert (HO : (if is_eval then GBDT.OutputMetric (GBDT.iter_ g1 + 1) g1
                  else (false, g1))
                 = (false, if is_eval
                           then if (((GBDT.iter_ g1 + 1)
                                     mod GBDTConfig.output_freq (GBDT.gbdt_config_ g1)
                                     =? 0)%nat
                                    || (0 <? GBDT.early_stopping_round_ g1))
                                then GBDT.with_best g1 (GBDT.best_iter_ g1)
                                       (GBDT.best_score_ g1)
                                else g1
                           else g1)).
    { destruct is_eval; [|done]. unfold GBDT.OutputMetric.
      destruct (_ || _); [|done].
      rewrite eval_valid_off; [done|]. by rewrite (sc_esr _ _ S1). }
    rewrite HO in H. injection H as <- <-.
    destruct is_eval; simpl.
    + destruct (_ || _); simpl;
        (split; [done|]); (split; [by apply sc_best_iter|]);
        (split; [by apply sc_best_score|]); (split; [discriminate|]);
        intros _; by rewrite (sc_iter _ _ S1).
    + split; [done|]. split; [by apply sc_best_iter|].
      split; [by apply sc_best_score|]. split; [discriminate|].
      intros _. by rewrite (sc_iter _ _ S1).
Qed.

Lemma TrainOneIter_without_early_stopping_witness :
  exists new,
    GBDT.models_ Examples.plain_gbdt_1
    = GBDT.models_ (DART.gbdt Examples.plain_start) ++ new /\
    GBDT.best_iter_ Examples.plain_gbdt_1
    = GBDT.best_iter_ (DART.gbdt Examples.plain_start) /\
    GBDT.best_score_ Examples.plain_gbdt_1
    = GBDT.best_score_ (DART.gbdt Examples.plain_start) /\
    (false = true ->
     GBDT.iter_ Examples.plain_gbdt_1 = GBDT.iter_ (DART.gbdt Examples.plain_start) /\
     (length new < GBDT.num_class (DART.gbdt Examples.plain_start))%nat) /\
    (false = false ->
     GBDT.iter_ Examples.plain_gbdt_1
     = S (GBDT.iter_ (DART.gbdt Examples.plain_start)) /\
     length new = GBDT.num_class (DART.gbdt Examples.plain_start)).
Proof.
  apply (TrainOneIter_without_early_stopping (DART.gbdt Examples.plain_start)
           Examples.plain_gbdt_1 None None false false).
  - by vm_compute.
  - vm_compute. reflexivity.
Defined.
(** ** The trees DART drops *)

Lemma select_drops_filter (rate : double) (b : nat) :
  forall (n i : nat) (r : Random.t) (acc : list nat),
    Random.pos r = (b + i)%nat ->
    DART.select_drops rate (seq i n) r acc
    = (acc ++ filter (fun j => (Random.draws r (b + j) < rate)%Qc) (seq i n),
       {| Random.draws := Random.draws r; Random.pos := (Random.pos r + n)%nat |}).
Proof.
  induction n as [|n IH]; intros i r acc Hpos; simpl.
  - rewrite app_nil_r, Nat.add_0_r. by destruct r.
  - rewrite filter_cons, <- Hpos.
    destruct (decide (Random.draws r (Random.pos r) < rate)%Qc).
    + rewrite (IH (S i)) by (simpl; lia). simpl.
      rewrite <- app_assoc. simpl. do 3 f_equal. lia.
    + rewrite (IH (S i)) by (simpl; lia). simpl. do 3 f_equal. lia.
Qed.

(** X20.  With [drop_rate_ > kEpsilon], the iterations [DroppingTrees]
    drops are exactly those whose draw is below [drop_rate_], the [i]-th
    draw of the generator deciding on iteration [i], as long as there is
    one: [drop_index_] lists them in increasing order, the generator has
    advanced by [iter_] draws, and [shrinkage_rate_] is 1 / (1 + their
    number).  With [drop_rate_ >= 1] that is every iteration. *)
Theorem DroppingTrees_selection (kEpsilon : double) (d d1 : DART.t) :
  (kEpsilon < DART.drop_rate_ d)%Qc ->
  DART.DroppingTrees kEpsilon d = Ok d1 ->
  let r := DART.random_for_drop_ d in
  let iters := seq 0 (GBDT.iter_ (DART.gbdt d)) in
  let chosen :=
    filter (fun i => (Random.draws r (Random.pos r + i) < DART.drop_rate_ d)%Qc)
      iters in
  chosen <> [] ->
  DART.drop_index_ d1 = chosen /\
  Random.pos (DART.random_for_drop_ d1)
  = (Random.pos r + GBDT.iter_ (DART.gbdt d))%nat /\
  DART.shrinkage_rate_ d1
  = (1 / (1 + Qc_of_Z (Z.of_nat (length chosen))))%Qc /\
  ((1 <= DART.drop_rate_ d)%Qc -> Random.wf r -> chosen = iters).
Proof.
  intros Hrate H r iters chosen Hne. unfold DART.DroppingTrees in H.
  rewrite decide_True in H by done.
  rewrite (select_drops_filter _ (Random.pos (DART.random_for_drop_ d)))
    in H by (simpl; lia).
  simpl in H. fold r iters chosen in H.
  destruct chosen as [|c chosen'] eqn:E; [done|].
  bind_case H as x Hx. destruct x as [models train]. injection H as <-. simpl.
  split; [done|]. split; [done|]. split; [done|].
  intros H1 Hwf. rewrite <- E. unfold chosen.
  clear -H1 Hwf. induction iters as [|i iters IH]; [done|].
  rewrite filter_cons_True; [by rewrite IH|].
  destruct (Hwf (Random.pos r + i)%nat) as [_ Hlt].
  eapply Qclt_le_trans; [exact Hlt | exact H1].
Qed.

Lemma DroppingTrees_selection_witness :
  DART.drop_index_ (Examples.dropped_of Examples.dropping_2) = [0; 1]%nat /\
  DART.shrinkage_rate_ (Examples.dropped_of Examples.dropping_2)
  = (1 / (1 + Qc_of_Z 2))%Qc.
Proof.
  destruct (DroppingTrees_selection Examples.kEpsilon Examples.dropping_2
              (Examples.dropped_of Examples.dropping_2))
    as (H1 & _ & H2 & _).
  - by vm_compute.
  - vm_compute. reflexivity.
  - by vm_compute.
  - split; [exact H1 | exact H2].
Defined.
(** ** The ordered sparse bin *)

Lemma sparse_entries_from_cons (delta : list nat) (i v : nat) (vals : list nat) :
  sparse_entries_from delta i (v :: vals)
  = {| OrderedSparseBin.ridx := sum_list (take (S i) delta);
       OrderedSparseBin.bin := v |} :: sparse_entries_from delta (S i) vals.
Proof.
  unfold sparse_entries_from. rewrite imap_cons, Nat.add_0_r. f_equal.
  apply imap_ext. intros k x _. simpl. do 3 f_equal. lia.
Qed.

Lemma sum_list_take_S (delta : list nat) (i d : nat) :
  delta !! i = Some d ->
  sum_list (take (S i) delta) = (sum_list (take i delta) + d)%nat.
Proof.
  intros H. rewrite (take_S_r _ _ _ H).
  induction (take i delta) as [|x l IH]; simpl; lia.
Qed.

Lemma emplace_pairs_spec (delta : list nat) :
  forall (vals : list nat) (i : nat) (ordered : list OrderedSparseBin.SparsePair),
    (i + length vals <= length delta)%nat ->
    OrderedSparseBin.emplace_pairs delta vals i (sum_list (take i delta)) ordered
    = Ok (ordered ++ filter (fun p => 0 < OrderedSparseBin.bin p)%nat
                       (sparse_entries_from delta i vals)).
Proof.
  induction vals as [|v vals IH]; intros i ordered Hlen;
    cbn [OrderedSparseBin.emplace_pairs].
  - simpl. by rewrite app_nil_r.
  - simpl in Hlen. destruct (lookup_lt_is_Some_2 delta i) as [d Hd]; [lia|].
    unfold readn. rewrite Hd. cbn [mbind result_bind].
    rewrite <- (sum_list_take_S _ _ _ Hd), sparse_entries_from_cons, filter_cons.
    cbn [OrderedSparseBin.bin]. destruct (decide (0 < v)%nat).
    + rewrite IH by lia. by rewrite <- app_assoc.
    + by rewrite IH by lia.
Qed.

Lemma copy_pairs_spec (is_used : nat -> result bool)
    (U : OrderedSparseBin.SparsePair -> Prop) `{!forall p, Decision (U p)}
    (delta : list nat) :
  forall (vals : list nat) (i j : nat) (ordered : list OrderedSparseBin.SparsePair),
    let kept := filter (fun p => (0 < OrderedSparseBin.bin p)%nat /\ U p)
                  (sparse_entries_from delta i vals) in
    (i + length vals <= length delta)%nat ->
    (j + length kept <= length ordered)%nat ->
    (forall p, p ∈ sparse_entries_from delta i vals ->
               (0 < OrderedSparseBin.bin p)%nat ->
               is_used (OrderedSparseBin.ridx p) = Ok (bool_decide (U p))) ->
    OrderedSparseBin.copy_pairs is_used delta vals i (sum_list (take i delta)) j
      ordered
    = Ok ((j + length kept)%nat,
          take j ordered ++ kept ++ drop (j + length kept) ordered).
Proof.
  induction vals as [|v vals IH]; intros i j ordered kept Hlen Hj Hused;
    cbn [OrderedSparseBin.copy_pairs].
  - unfold kept. simpl. rewrite Nat.add_0_r. by rewrite take_drop.
  - simpl in Hlen. destruct (lookup_lt_is_Some_2 delta i) as [d Hd]; [lia|].
    unfold readn. rewrite Hd. cbn [mbind result_bind].
    rewrite <- (sum_list_take_S _ _ _ Hd).
    unfold kept in *. clear kept.
    rewrite sparse_entries_from_cons in *. rewrite filter_cons in *.
    set (p := {| OrderedSparseBin.ridx := sum_list (take (S i) delta);
                 OrderedSparseBin.bin := v |}) in *.
    assert (Hrest : forall q, q ∈ sparse_entries_from delta (S i) vals ->
                      (0 < OrderedSparseBin.bin q)%nat ->
                      is_used (OrderedSparseBin.ridx q) = Ok (bool_decide (U q))).
    { intros q Hq. apply Hused. by right. }
    destruct (decide (0 < v)%nat) as [Hv|Hv].
    + change (is_used (sum_list (take (S i) delta)))
        with (is_used (OrderedSparseBin.ridx p)).
      rewrite (Hused p (list_elem_of_here _ _) Hv). cbn [mbind result_bind].
      destruct (decide (U p)) as [Hu|Hu].
      * rewrite bool_decide_eq_true_2 by done.
        rewrite decide_True in * by (by split). simpl in Hj.
        unfold writen. rewrite decide_True by lia. cbn.
        rewrite (IH (S i) (S j)); [|lia|rewrite length_insert; lia|done].
        rewrite (take_S_r _ _ p)
          by (apply list_lookup_insert_eq; lia).
        rewrite take_insert_ge by lia. rewrite drop_insert_lt by lia.
        rewrite <- app_assoc. simpl.
        by rewrite <- !Nat.add_succ_r.
      * rewrite bool_decide_eq_false_2 by done.
        rewrite decide_False in * by tauto.
        apply IH; [lia | done | done].
    + rewrite decide_False in * by (simpl; tauto). cbn [mbind result_bind].
      apply IH; [lia | done | done].
Qed.

Lemma filter_both {A} (P Q : A -> Prop) `{!forall x, Decision (P x)}
    `{!forall x, Decision (Q x)} (l : list A) :
  filter (fun x => P x /\ Q x) l = filter Q (filter P l).
Proof.
  rewrite list_filter_filter. apply list_filter_iff. tauto.
Qed.

(** X21.  The constructor stores the entries of the column with a non-zero
    bin, each with its row, the sum of the gaps up to it.  [Init] on such an
    object, whatever the splits have made of its pairs, puts into leaf 0
    the stored pairs of the rows in use, in row order, and leaves every
    other leaf empty. *)
Theorem OrderedSparseBin_Init_correct (delta vals : list nat)
    (used_idices : option (list Z)) (num_leaves : Z) :
  (length vals <= length delta)%nat -> 0 < num_leaves ->
  (forall used p, used_idices = Some used -> p ∈ sparse_entries delta vals ->
                  (0 < OrderedSparseBin.bin p)%nat ->
                  (OrderedSparseBin.ridx p < length used)%nat) ->
  let stored := filter (fun p => 0 < OrderedSparseBin.bin p)%nat
                  (sparse_entries delta vals) in
  exists b0,
    OrderedSparseBin.create delta vals = Ok b0 /\
    OrderedSparseBin.ordered_pair_ b0 = stored /\
    forall b,
      OrderedSparseBin.delta_ b = delta -> OrderedSparseBin.vals_ b = vals ->
      length (OrderedSparseBin.ordered_pair_ b) = length stored ->
      exists b',
        OrderedSparseBin.Init used_idices num_leaves b = Ok b' /\
        leaf_pairs b' 0 = filter (in_use used_idices) stored /\
        (forall l, (0 < l)%nat -> leaf_pairs b' l = []) /\
        length (OrderedSparseBin.ordered_pair_ b') = length stored /\
        OrderedSparseBin.delta_ b' = delta /\ OrderedSparseBin.vals_ b' = vals /\
        length (OrderedSparseBin.leaf_start_ b') = Z.to_nat num_leaves /\
        length (OrderedSparseBin.leaf_cnt_ b') = Z.to_nat num_leaves.
Proof.
  intros Hlen Hleaves Hused stored.
  change (sparse_entries delta vals) with (sparse_entries_from delta 0 vals)
    in *.
  eexists. split.
  { unfold OrderedSparseBin.create.
    pose proof (emplace_pairs_spec delta vals 0 []) as E.
    change (sum_list (take 0 delta)) with 0%nat in E.
    rewrite E by (simpl; lia). reflexivity. }
  split; [done|]. intros b Hd Hv Hb.
  unfold OrderedSparseBin.Init. destruct (Z.ltb_spec num_leaves 0); [lia|].
  rewrite Hd, Hv.
  assert (Hw : forall c, writen (replicate (Z.to_nat num_leaves) 0%nat) 0 c
                         = Ok (c :: replicate (Z.to_nat num_leaves - 1) 0%nat)).
  { intros c. unfold writen. rewrite length_replicate.
    rewrite decide_True by lia.
    destruct (Z.to_nat num_leaves) as [|n] eqn:E; [lia|].
    simpl. by rewrite Nat.sub_0_r. }
  assert (Hother : forall (c l : nat), (0 < l)%nat ->
            default 0%nat ((c :: replicate (Z.to_nat num_leaves - 1) 0%nat) !! l)
            = 0%nat).
  { intros c [|l] Hl; [lia|]. simpl.
    destruct (replicate _ _ !! l) eqn:E; [|done].
    by apply lookup_replicate in E as [-> _]. }
  assert (Hstart : forall l : nat,
            default 0%nat (replicate (Z.to_nat num_leaves) 0%nat !! l) = 0%nat).
  { intros l. destruct (replicate _ _ !! l) eqn:E; [|done].
    by apply lookup_replicate in E as [-> _]. }
  set (U := in_use used_idices).
  assert (Hkept : filter (fun p => (0 < OrderedSparseBin.bin p)%nat /\ U p)
                    (sparse_entries_from delta 0 vals) = filter U stored)
    by apply filter_both.
  assert (Hle : (length (filter U stored) <= length stored)%nat)
    by apply length_filter.
  destruct used_idices as [used|].
  - pose proof (copy_pairs_spec
                  (fun cur_pos => u ← readn used cur_pos; Ok (negb (u =? 0)))
                  U delta vals 0 0 (OrderedSparseBin.ordered_pair_ b)) as E.
    change (sum_list (take 0 delta)) with 0%nat in E.
    rewrite E; [|simpl; lia|rewrite Hkept; simpl; lia|]; clear E.
    2:{ intros p Hp Hpos. unfold readn.
        destruct (lookup_lt_is_Some_2 used (OrderedSparseBin.ridx p))
          as [u Hu]; [by eapply Hused|].
        rewrite Hu. cbn. f_equal. unfold U, in_use, marked. rewrite Hu. simpl.
        destruct (Z.eqb_spec u 0).
        - by rewrite bool_decide_eq_false_2 by tauto.
        - by rewrite bool_decide_eq_true_2. }
    rewrite Hkept. cbn. rewrite Hw. cbn. eexists. split; [reflexivity|].
    unfold leaf_pairs. simpl. rewrite Hstart.
    split; [by rewrite drop_0, take_app_length|].
    split; [intros l Hl; by rewrite Hother|].
    rewrite !length_app, length_drop, !length_replicate.
    repeat split; try done; lia.
  - pose proof (copy_pairs_spec (fun _ => Ok true)
                  U delta vals 0 0 (OrderedSparseBin.ordered_pair_ b)) as E.
    change (sum_list (take 0 delta)) with 0%nat in E.
    rewrite E; [|simpl; lia|rewrite Hkept; simpl; lia|]; clear E.
    2:{ intros p Hp Hpos. by rewrite bool_decide_eq_true_2. }
    rewrite Hkept. cbn. rewrite Hw. cbn. eexists. split; [reflexivity|].
    assert (HU : filter U stored = stored).
    { clear. induction stored as [|x l IH]; [done|].
      rewrite filter_cons_True by done. by rewrite IH. }
    unfold leaf_pairs. simpl. rewrite Hstart, HU.
    rewrite (drop_ge (OrderedSparseBin.ordered_pair_ b)) by lia.
    rewrite app_nil_r, drop_0.
    split; [by rewrite firstn_all|].
    split; [intros l Hl; by rewrite Hother|].
    rewrite !length_replicate. repeat split; try done; lia.
Qed.

(** *** Split *)

Lemma swap_spec {X} (A B C : list X) (x y : X) :
  let l := A ++ x :: B ++ y :: C in
  readn l (length A) = Ok x /\
  readn l (length A + S (length B)) = Ok y /\
  (l1 ← writen l (length A) y; writen l1 (length A + S (length B)) x)
  = Ok (A ++ y :: B ++ x :: C).
Proof.
  intros l. unfold l, readn, writen. split; [|split].
  - by rewrite list_lookup_middle.
  - replace (A ++ x :: B ++ y :: C) with ((A ++ x :: B) ++ y :: C)
      by (by rewrite <- app_assoc).
    rewrite list_lookup_middle; [done|]. rewrite !length_app. simpl. lia.
  - rewrite decide_True by (rewrite !length_app; simpl; rewrite length_app; simpl; lia).
    cbn. rewrite decide_True
      by (rewrite length_insert, !length_app; simpl; rewrite length_app; simpl; lia).
    f_equal. rewrite insert_app_r_alt by lia.
    rewrite Nat.sub_diag. simpl.
    rewrite insert_app_r_alt by lia.
    replace (length A + S (length B) - length A)%nat with (S (length B)) by lia.
    simpl. rewrite insert_app_r_alt by lia. by rewrite Nat.sub_diag.
Qed.

Lemma swap_self {X} (A C : list X) (x : X) :
  let l := A ++ x :: C in
  readn l (length A) = Ok x /\
  (l1 ← writen l (length A) x; writen l1 (length A) x) = Ok l.
Proof.
  intros l. unfold l, readn, writen. split.
  - by rewrite list_lookup_middle.
  - rewrite decide_True by (rewrite !length_app; simpl; lia).
    cbn. rewrite decide_True by (rewrite length_insert, !length_app; simpl; lia).
    f_equal. rewrite !insert_app_r_alt by lia. rewrite Nat.sub_diag. done.
Qed.

Lemma split_pairs_spec (left_indices : list Z) :
  forall (todo A R post : list OrderedSparseBin.SparsePair) (i nle : nat)
         (ordered : list OrderedSparseBin.SparsePair),
    Forall (fun p => OrderedSparseBin.ridx p < length left_indices)%nat todo ->
    i = (length A + length R)%nat -> nle = length A ->
    ordered = A ++ R ++ todo ++ post ->
    exists R',
      R' ≡ₚ R ++ filter (fun p => ~ marked left_indices p) todo /\
      OrderedSparseBin.split_pairs left_indices i (length todo) nle ordered
      = Ok ((length A + length (filter (marked left_indices) todo))%nat,
            A ++ filter (marked left_indices) todo ++ R' ++ post).
Proof.
  induction todo as [|p todo IH]; intros A R post i nle ordered Hall -> -> ->.
  - exists R. simpl. rewrite !app_nil_r, Nat.add_0_r. by split.
  - apply Forall_cons in Hall as [Hp Hall].
    destruct (lookup_lt_is_Some_2 left_indices (OrderedSparseBin.ridx p))
      as [c Hc]; [done|].
    cbn [OrderedSparseBin.split_pairs length].
    assert (Hread : readn (A ++ R ++ (p :: todo) ++ post)
                      (length A + length R) = Ok p).
    { unfold readn.
      replace (A ++ R ++ (p :: todo) ++ post)
        with ((A ++ R) ++ p :: todo ++ post) by (by rewrite <- app_assoc).
      rewrite list_lookup_middle; [done|]. by rewrite length_app. }
    rewrite Hread. cbn [mbind result_bind].
    assert (Hrc : readn left_indices (OrderedSparseBin.ridx p) = Ok c)
      by (unfold readn; by rewrite Hc).
    rewrite Hrc. cbn [mbind result_bind].
    rewrite !filter_cons.
    assert (Hm : marked left_indices p <-> c <> 0)
      by (unfold marked; by rewrite Hc).
    destruct (Z.eqb_spec c 0) as [Hz|Hz]; cbn [negb].
    + rewrite (decide_False (P := marked left_indices p)) by tauto.
      rewrite (decide_True (P := ~ marked left_indices p)) by tauto.
      destruct (IH A (R ++ [p]) post (S (length A + length R)) (length A)
                  (A ++ R ++ (p :: todo) ++ post)) as (R' & HP & HE);
        [done | rewrite length_app; simpl; lia | done
         | by rewrite <- !app_assoc |].
      exists R'. split; [|done].
      rewrite HP, <- app_assoc. done.
    + rewrite (decide_True (P := marked left_indices p)) by tauto.
      rewrite (decide_False (P := ~ marked left_indices p)) by tauto.
      destruct R as [|r R].
      * destruct (swap_self A (todo ++ post) p) as [Hq Hw].
        simpl app in *. rewrite Nat.add_0_r in *.
        rewrite Hq. cbn [mbind result_bind].
        destruct (writen (A ++ p :: todo ++ post) (length A) p) as [l1| |];
          try discriminate.
        cbn [mbind result_bind] in Hw |- *. rewrite Hw.
        cbn [mbind result_bind].
        destruct (IH (A ++ [p]) [] post (S (length A)) (S (length A))
                    (A ++ p :: todo ++ post)) as (R' & HP & HE);
          [done | rewrite length_app; simpl; lia | rewrite length_app; simpl; lia
           | by rewrite <- app_assoc |].
        exists R'. split; [done|]. rewrite HE.
        rewrite length_app, <- !app_assoc. simpl. do 2 f_equal. lia.
      * destruct (swap_spec A R (todo ++ post) r p) as (Hq & _ & Hw).
        change (A ++ (r :: R) ++ (p :: todo) ++ post)
          with (A ++ r :: R ++ p :: todo ++ post).
        simpl length. rewrite Hq. cbn [mbind result_bind].
        destruct (writen (A ++ r :: R ++ p :: todo ++ post) (length A) p)
          as [l1| |]; try discriminate.
        cbn [mbind result_bind] in Hw |- *. rewrite Hw.
        cbn [mbind result_bind].
        destruct (IH (A ++ [p]) (R ++ [r]) post (S (length A + S (length R)))
                    (S (length A)) (A ++ p :: R ++ r :: todo ++ post))
          as (R' & HP & HE);
          [done | rewrite !length_app; simpl; lia | rewrite length_app; simpl; lia
           | by rewrite <- !app_assoc |].
        exists R'. split.
        { rewrite HP. rewrite <- app_assoc. simpl.
          by rewrite <- Permutation_middle. }
        rewrite HE.
        rewrite length_app, <- !app_assoc. simpl. do 2 f_equal. lia.
Qed.

Lemma leaf_range (b : OrderedSparseBin.t) (leaf s c : nat) :
  OrderedSparseBin.leaf_start_ b !! leaf = Some s ->
  OrderedSparseBin.leaf_cnt_ b !! leaf = Some c ->
  (s + c <= length (OrderedSparseBin.ordered_pair_ b))%nat ->
  leaf_pairs b leaf = take c (drop s (OrderedSparseBin.ordered_pair_ b)) /\
  length (leaf_pairs b leaf) = c /\
  OrderedSparseBin.ordered_pair_ b
  = take s (OrderedSparseBin.ordered_pair_ b) ++ leaf_pairs b leaf
    ++ drop (s + c) (OrderedSparseBin.ordered_pair_ b) /\
  length (take s (OrderedSparseBin.ordered_pair_ b)) = s.
Proof.
  intros Hs Hc Hlen. unfold leaf_pairs. rewrite Hs, Hc. simpl.
  split; [done|]. split; [rewrite length_take, length_drop; lia|].
  split; [|rewrite length_take; lia].
  rewrite <- drop_drop, take_drop. by rewrite take_drop.
Qed.

Lemma filter_complement_length {A} (P : A -> Prop) `{!forall x, Decision (P x)}
    (l : list A) :
  (length (filter P l) + length (filter (fun x => ~ P x) l) = length l)%nat.
Proof.
  rewrite <- length_app. by rewrite filter_app_complement.
Qed.

Lemma Split_leaves (b : OrderedSparseBin.t)
    (leaf right_leaf s c : nat) (left_indices : list Z) :
  OrderedSparseBin.leaf_start_ b !! leaf = Some s ->
  OrderedSparseBin.leaf_cnt_ b !! leaf = Some c ->
  (s + c <= length (OrderedSparseBin.ordered_pair_ b))%nat ->
  (right_leaf < length (OrderedSparseBin.leaf_start_ b))%nat ->
  (right_leaf < length (OrderedSparseBin.leaf_cnt_ b))%nat ->
  leaf <> right_leaf ->
  Forall (fun p => OrderedSparseBin.ridx p < length left_indices)%nat
    (leaf_pairs b leaf) ->
  exists b',
    OrderedSparseBin.Split leaf right_leaf left_indices b = Ok b' /\
    leaf_pairs b' leaf = filter (marked left_indices) (leaf_pairs b leaf) /\
    leaf_pairs b' right_leaf
    ≡ₚ filter (fun p => ~ marked left_indices p) (leaf_pairs b leaf) /\
    OrderedSparseBin.leaf_start_ b' !! leaf = Some s /\
    OrderedSparseBin.leaf_start_ b' !! right_leaf
    = Some (s + length (leaf_pairs b' leaf))%nat /\
    take s (OrderedSparseBin.ordered_pair_ b')
    = take s (OrderedSparseBin.ordered_pair_ b) /\
    drop (s + c) (OrderedSparseBin.ordered_pair_ b')
    = drop (s + c) (OrderedSparseBin.ordered_pair_ b) /\
    (forall l, l <> leaf -> l <> right_leaf ->
       OrderedSparseBin.leaf_start_ b' !! l = OrderedSparseBin.leaf_start_ b !! l /\
       OrderedSparseBin.leaf_cnt_ b' !! l = OrderedSparseBin.leaf_cnt_ b !! l) /\
    OrderedSparseBin.leaf_cnt_ b' !! leaf = Some (length (leaf_pairs b' leaf)) /\
    OrderedSparseBin.leaf_cnt_ b' !! right_leaf
    = Some (length (leaf_pairs b' right_leaf)) /\
    length (OrderedSparseBin.ordered_pair_ b')
    = length (OrderedSparseBin.ordered_pair_ b).
Proof.
  intros Hs Hc Hlen Hr1 Hr2 Hne Hall.
  destruct (leaf_range b leaf s c Hs Hc Hlen) as (_ & Htodo & Hsplit & HA).
  set (todo := leaf_pairs b leaf) in *.
  set (A := take s (OrderedSparseBin.ordered_pair_ b)) in *.
  set (post := drop (s + c) (OrderedSparseBin.ordered_pair_ b)) in *.
  destruct (split_pairs_spec left_indices todo A [] post s s
              (OrderedSparseBin.ordered_pair_ b)) as (R' & HP & HE);
    [done | simpl; lia | done | done |].
  simpl in HP. rewrite Htodo, HA in HE.
  set (Lf := filter (marked left_indices) todo) in *.
  pose proof (filter_complement_length (marked left_indices) todo) as Hcount.
  fold Lf in Hcount. rewrite <- HP in Hcount.
  assert (Hleaf : (leaf < length (OrderedSparseBin.leaf_cnt_ b))%nat)
    by (by eapply lookup_lt_Some).
  unfold OrderedSparseBin.Split.
  rewrite (proj2 (readn_Ok _ _ _) Hs), (proj2 (readn_Ok _ _ _) Hc).
  cbn [mbind result_bind]. rewrite HE. cbn [mbind result_bind].
  unfold writen.
  repeat (rewrite decide_True by (rewrite ?length_insert; done);
          cbn [mbind result_bind]).
  eexists. split; [reflexivity|].
  assert (HL : leaf_pairs
                 (OrderedSparseBin.with_leaves b (A ++ Lf ++ R' ++ post)
                    (<[right_leaf:=(s + length Lf)%nat]>
                       (OrderedSparseBin.leaf_start_ b))
                    (<[right_leaf:=(s + c - (s + length Lf))%nat]>
                       (<[leaf:=(s + length Lf - s)%nat]>
                          (OrderedSparseBin.leaf_cnt_ b)))) leaf = Lf).
  { unfold leaf_pairs. simpl.
    rewrite (list_lookup_insert_ne (OrderedSparseBin.leaf_start_ b)) by done.
    rewrite Hs.
    rewrite (list_lookup_insert_ne (<[leaf:=_]> _)) by done.
    rewrite list_lookup_insert_eq by done. simpl.
    rewrite drop_app_length' by done.
    replace (s + length Lf - s)%nat with (length Lf) by lia.
    by rewrite take_app_length. }
  assert (HR : leaf_pairs
                 (OrderedSparseBin.with_leaves b (A ++ Lf ++ R' ++ post)
                    (<[right_leaf:=(s + length Lf)%nat]>
                       (OrderedSparseBin.leaf_start_ b))
                    (<[right_leaf:=(s + c - (s + length Lf))%nat]>
                       (<[leaf:=(s + length Lf - s)%nat]>
                          (OrderedSparseBin.leaf_cnt_ b)))) right_leaf = R').
  { unfold leaf_pairs. simpl.
    rewrite !list_lookup_insert_eq by (rewrite ?length_insert; done). simpl.
    rewrite app_assoc, drop_app_length' by (rewrite length_app; lia).
    replace (s + c - (s + length Lf))%nat with (length R') by lia.
    by rewrite take_app_length. }
  split; [exact HL|]. rewrite HL, HR.
  split; [|split; [|split; [|split; [|split; [|split; [|split; [|split]]]]]]].
  - done.
  - simpl. by rewrite list_lookup_insert_ne.
  - simpl. by rewrite list_lookup_insert_eq.
  - simpl. by rewrite take_app_length'.
  - simpl. rewrite !app_assoc. rewrite drop_app_length'; [done|].
    rewrite !length_app. lia.
  - intros l Hl1 Hl2. simpl. by rewrite !list_lookup_insert_ne.
  - simpl. rewrite list_lookup_insert_ne by done.
    rewrite list_lookup_insert_eq by done. f_equal. lia.
  - simpl. rewrite list_lookup_insert_eq by (by rewrite length_insert).
    f_equal. lia.
  - simpl. pose proof (f_equal length Hsplit) as HLen.
    rewrite !length_app in HLen. repeat rewrite length_app. lia.
Qed.

(** *** ConstructHistogram *)

Lemma add_entry_nil (e : OrderedSparseBin.HistogramBinEntry)
    (gradient hessian : list score_t) (k : nat) :
  add_entry e (contribution_of [] gradient hessian k) = e.
Proof.
  destruct e as [sg sh n]. unfold add_entry, contribution_of. simpl.
  unfold score_t in *. rewrite !Qcplus_0_r. f_equal. lia.
Qed.

Lemma add_entry_cons (e : OrderedSparseBin.HistogramBinEntry)
    (p : OrderedSparseBin.SparsePair) (ps : list OrderedSparseBin.SparsePair)
    (gradient hessian : list score_t) (g h : score_t) (k : nat) :
  gradient !! OrderedSparseBin.ridx p = Some g ->
  hessian !! OrderedSparseBin.ridx p = Some h ->
  add_entry e (contribution_of (p :: ps) gradient hessian k)
  = add_entry
      (if decide (OrderedSparseBin.bin p = k)
       then {| OrderedSparseBin.sum_gradients :=
                 (OrderedSparseBin.sum_gradients e + g)%Qc;
               OrderedSparseBin.sum_hessians :=
                 (OrderedSparseBin.sum_hessians e + h)%Qc;
               OrderedSparseBin.cnt := S (OrderedSparseBin.cnt e) |}
       else e)
      (contribution_of ps gradient hessian k).
Proof.
  intros Hg Hh. unfold add_entry, contribution_of. rewrite filter_cons.
  destruct (decide (OrderedSparseBin.bin p = k)); [|done].
  rewrite !fmap_cons.
  cbn [OrderedSparseBin.sum_gradients OrderedSparseBin.sum_hessians
       OrderedSparseBin.cnt].
  unfold score_t in *. rewrite Hg, Hh. unfold Qsum.
  cbn [foldr length default].
  f_equal; [apply Qcplus_assoc | apply Qcplus_assoc | lia].
Qed.

Lemma add_pairs_spec (gradient hessian : list score_t) :
  forall (ps pre post : list OrderedSparseBin.SparsePair)
         (out : list OrderedSparseBin.HistogramBinEntry),
    Forall (fun p => (OrderedSparseBin.ridx p < length gradient)%nat /\
                     (OrderedSparseBin.ridx p < length hessian)%nat /\
                     (OrderedSparseBin.bin p < length out)%nat) ps ->
    exists out',
      OrderedSparseBin.add_pairs (pre ++ ps ++ post) gradient hessian
        (length pre) (length ps) out = Ok out' /\
      length out' = length out /\
      forall k e, out !! k = Some e ->
        out' !! k = Some (add_entry e (contribution_of ps gradient hessian k)).
Proof.
  induction ps as [|p ps IH]; intros pre post out Hall.
  - exists out. simpl. split; [done|]. split; [done|].
    intros k e He. by rewrite add_entry_nil.
  - apply Forall_cons in Hall as [(Hg & Hh & Hb) Hall].
    destruct (lookup_lt_is_Some_2 _ _ Hg) as [g Hg'].
    destruct (lookup_lt_is_Some_2 _ _ Hh) as [h Hh'].
    destruct (lookup_lt_is_Some_2 _ _ Hb) as [e0 He0].
    cbn [OrderedSparseBin.add_pairs length].
    assert (Hread : readn (pre ++ (p :: ps) ++ post) (length pre) = Ok p).
    { unfold readn. change ((p :: ps) ++ post) with (p :: ps ++ post).
      by rewrite list_lookup_middle. }
    rewrite Hread. cbn [mbind result_bind].
    rewrite (proj2 (readn_Ok _ _ _) Hg'), (proj2 (readn_Ok _ _ _) Hh'),
      (proj2 (readn_Ok _ _ _) He0).
    cbn [mbind result_bind]. unfold writen. rewrite decide_True by done.
    cbn [mbind result_bind].
    set (e1 := {| OrderedSparseBin.sum_gradients := _ |}).
    destruct (IH (pre ++ [p]) post (<[OrderedSparseBin.bin p := e1]> out))
      as (out' & HE & Hl & Hout).
    { eapply Forall_impl; [exact Hall|]. intros q (? & ? & ?).
      by rewrite length_insert. }
    rewrite length_app in HE. simpl in HE.
    replace (length pre + 1)%nat with (S (length pre)) in HE by lia.
    rewrite <- app_assoc in HE. simpl in HE.
    exists out'. split; [exact HE|].
    split; [by rewrite Hl, length_insert|].
    intros k e He. rewrite (add_entry_cons e p ps gradient hessian g h k Hg' Hh').
    apply Hout. destruct (decide (OrderedSparseBin.bin p = k)) as [<-|Hk].
    + rewrite list_lookup_insert_eq by done.
      assert (e = e0) as -> by congruence. done.
    + by rewrite list_lookup_insert_ne.
Qed.

Lemma ConstructHistogram_leaf (b : OrderedSparseBin.t)
    (leaf s c : nat) (gradient hessian : list score_t)
    (out : list OrderedSparseBin.HistogramBinEntry) :
  OrderedSparseBin.leaf_start_ b !! leaf = Some s ->
  OrderedSparseBin.leaf_cnt_ b !! leaf = Some c ->
  (s + c <= length (OrderedSparseBin.ordered_pair_ b))%nat ->
  Forall (fun p => (OrderedSparseBin.ridx p < length gradient)%nat /\
                   (OrderedSparseBin.ridx p < length hessian)%nat /\
                   (OrderedSparseBin.bin p < length out)%nat)
    (leaf_pairs b leaf) ->
  exists out',
    OrderedSparseBin.ConstructHistogram leaf gradient hessian out b = Ok out' /\
    length out' = length out /\
    (forall k e, out !! k = Some e ->
       out' !! k
       = Some (add_entry e (contribution_of (leaf_pairs b leaf) gradient hessian k))) /\
    (forall k, Forall (fun p => OrderedSparseBin.bin p <> k) (leaf_pairs b leaf) ->
               out' !! k = out !! k).
Proof.
  intros Hs Hc Hlen Hall.
  destruct (leaf_range b leaf s c Hs Hc Hlen) as (_ & Htodo & Hsplit & HA).
  destruct (add_pairs_spec gradient hessian (leaf_pairs b leaf)
              (take s (OrderedSparseBin.ordered_pair_ b))
              (drop (s + c) (OrderedSparseBin.ordered_pair_ b)) out Hall)
    as (out' & HE & Hl & Hout).
  rewrite <- Hsplit, HA, Htodo in HE.
  exists out'. unfold OrderedSparseBin.ConstructHistogram.
  rewrite (proj2 (readn_Ok _ _ _) Hs), (proj2 (readn_Ok _ _ _) Hc).
  split; [exact HE|]. split; [exact Hl|]. split; [exact Hout|].
  intros k Hk.
  assert (Hnil : filter (fun p => OrderedSparseBin.bin p = k) (leaf_pairs b leaf)
                 = []).
  { clear -Hk. induction Hk as [|q l Hq _ IH]; [done|].
    by rewrite filter_cons_False. }
  destruct (out !! k) as [e|] eqn:He.
  - rewrite (Hout k e He). f_equal.
    replace (contribution_of (leaf_pairs b leaf) gradient hessian k)
      with (contribution_of [] gradient hessian k); [apply add_entry_nil|].
    unfold contribution_of. by rewrite Hnil.
  - apply lookup_ge_None. apply lookup_ge_None in He. lia.
Qed.

Lemma contribution_of_perm (l1 l2 : list OrderedSparseBin.SparsePair)
    (gradient hessian : list score_t) (k : nat) :
  l1 ≡ₚ l2 ->
  contribution_of l1 gradient hessian k = contribution_of l2 gradient hessian k.
Proof.
  intros HP. unfold contribution_of.
  assert (HR : OrderedSparseBin.ridx
               <$> filter (fun p => OrderedSparseBin.bin p = k) l1
               ≡ₚ OrderedSparseBin.ridx
               <$> filter (fun p => OrderedSparseBin.bin p = k) l2)
    by (by rewrite HP).
  f_equal.
  - apply Qsum_perm. by apply Permutation_map.
  - apply Qsum_perm. by apply Permutation_map.
  - by rewrite HR.
Qed.

Lemma contribution_of_app (e : OrderedSparseBin.HistogramBinEntry)
    (l1 l2 : list OrderedSparseBin.SparsePair)
    (gradient hessian : list score_t) (k : nat) :
  add_entry (add_entry e (contribution_of l1 gradient hessian k))
    (contribution_of l2 gradient hessian k)
  = add_entry e (contribution_of (l1 ++ l2) gradient hessian k).
Proof.
  unfold add_entry, contribution_of. simpl.
  rewrite filter_app, !fmap_app, !Qsum_app, length_app.
  unfold score_t in *.
  f_equal; [symmetry; apply Qcplus_assoc | symmetry; apply Qcplus_assoc | lia].
Qed.

(** X22.  [Split] sorts the pairs of a leaf by the mask: the leaf keeps
    the pairs of the marked rows, in the order they had, and [right_leaf]
    gets the other ones, in some order, right behind them.  No pair is lost
    or duplicated, the pairs outside the range of the leaf stay where they
    are, and so do the ranges of all other leaves. *)
Theorem OrderedSparseBin_Split_correct (b : OrderedSparseBin.t)
    (leaf right_leaf s c : nat) (left_indices : list Z) :
  OrderedSparseBin.leaf_start_ b !! leaf = Some s ->
  OrderedSparseBin.leaf_cnt_ b !! leaf = Some c ->
  (s + c <= length (OrderedSparseBin.ordered_pair_ b))%nat ->
  (right_leaf < length (OrderedSparseBin.leaf_start_ b))%nat ->
  (right_leaf < length (OrderedSparseBin.leaf_cnt_ b))%nat ->
  leaf <> right_leaf ->
  Forall (fun p => OrderedSparseBin.ridx p < length left_indices)%nat
    (leaf_pairs b leaf) ->
  exists b',
    OrderedSparseBin.Split leaf right_leaf left_indices b = Ok b' /\
    leaf_pairs b' leaf = filter (marked left_indices) (leaf_pairs b leaf) /\
    leaf_pairs b' right_leaf
    ≡ₚ filter (fun p => ~ marked left_indices p) (leaf_pairs b leaf) /\
    OrderedSparseBin.leaf_start_ b' !! leaf = Some s /\
    OrderedSparseBin.leaf_start_ b' !! right_leaf
    = Some (s + length (leaf_pairs b' leaf))%nat /\
    take s (OrderedSparseBin.ordered_pair_ b')
    = take s (OrderedSparseBin.ordered_pair_ b) /\
    drop (s + c) (OrderedSparseBin.ordered_pair_ b')
    = drop (s + c) (OrderedSparseBin.ordered_pair_ b) /\
    (forall l, l <> leaf -> l <> right_leaf ->
       OrderedSparseBin.leaf_start_ b' !! l = OrderedSparseBin.leaf_start_ b !! l /\
       OrderedSparseBin.leaf_cnt_ b' !! l = OrderedSparseBin.leaf_cnt_ b !! l) /\
    OrderedSparseBin.leaf_cnt_ b' !! leaf = Some (length (leaf_pairs b' leaf)) /\
    OrderedSparseBin.leaf_cnt_ b' !! right_leaf
    = Some (length (leaf_pairs b' right_leaf)) /\
    length (OrderedSparseBin.ordered_pair_ b')
    = length (OrderedSparseBin.ordered_pair_ b).
Proof. apply Split_leaves. Qed.

(** X23.  [ConstructHistogram] adds, to the entry of every bin, the
    gradients and the hessians of the rows of the leaf's pairs with that
    bin, and their number; the entry of a bin without such a pair -- bin 0
    among them when the pairs are those the constructor stores -- is left as
    it is. *)
Theorem OrderedSparseBin_ConstructHistogram_correct (b : OrderedSparseBin.t)
    (leaf s c : nat) (gradient hessian : list score_t)
    (out : list OrderedSparseBin.HistogramBinEntry) :
  OrderedSparseBin.leaf_start_ b !! leaf = Some s ->
  OrderedSparseBin.leaf_cnt_ b !! leaf = Some c ->
  (s + c <= length (OrderedSparseBin.ordered_pair_ b))%nat ->
  Forall (fun p => (OrderedSparseBin.ridx p < length gradient)%nat /\
                   (OrderedSparseBin.ridx p < length hessian)%nat /\
                   (OrderedSparseBin.bin p < length out)%nat)
    (leaf_pairs b leaf) ->
  exists out',
    OrderedSparseBin.ConstructHistogram leaf gradient hessian out b = Ok out' /\
    length out' = length out /\
    (forall k e, out !! k = Some e ->
       out' !! k
       = Some (add_entry e (contribution_of (leaf_pairs b leaf) gradient hessian k))) /\
    (forall k, Forall (fun p => OrderedSparseBin.bin p <> k) (leaf_pairs b leaf) ->
               out' !! k = out !! k).
Proof. apply ConstructHistogram_leaf. Qed.

(** X24.  After a split, the histograms of the two children add up to
    that of the parent: adding the pairs of the leaf and then those of
    [right_leaf] to a histogram gives, entry by entry, what adding the pairs
    of the leaf gave before the split (sums in exact arithmetic). *)
Theorem OrderedSparseBin_children_histograms (b : OrderedSparseBin.t)
    (leaf right_leaf s c : nat) (left_indices : list Z)
    (gradient hessian : list score_t)
    (out : list OrderedSparseBin.HistogramBinEntry) :
  OrderedSparseBin.leaf_start_ b !! leaf = Some s ->
  OrderedSparseBin.leaf_cnt_ b !! leaf = Some c ->
  (s + c <= length (OrderedSparseBin.ordered_pair_ b))%nat ->
  (right_leaf < length (OrderedSparseBin.leaf_start_ b))%nat ->
  (right_leaf < length (OrderedSparseBin.leaf_cnt_ b))%nat ->
  leaf <> right_leaf ->
  Forall (fun p => OrderedSparseBin.ridx p < length left_indices)%nat
    (leaf_pairs b leaf) ->
  Forall (fun p => (OrderedSparseBin.ridx p < length gradient)%nat /\
                   (OrderedSparseBin.ridx p < length hessian)%nat /\
                   (OrderedSparseBin.bin p < length out)%nat)
    (leaf_pairs b leaf) ->
  exists b' parent left_part,
    OrderedSparseBin.Split leaf right_leaf left_indices b = Ok b' /\
    OrderedSparseBin.ConstructHistogram leaf gradient hessian out b = Ok parent /\
    OrderedSparseBin.ConstructHistogram leaf gradient hessian out b'
    = Ok left_part /\
    OrderedSparseBin.ConstructHistogram right_leaf gradient hessian left_part b'
    = Ok parent.
Proof.
  intros Hs Hc Hlen Hr1 Hr2 Hne Hmask Hall.
  destruct (Split_leaves b leaf right_leaf s c left_indices)
    as (b' & HS & HL & HR & Hs1 & Hs2 & _ & _ & _ & Hc1 & Hc2 & Hlen');
    try done.
  destruct (ConstructHistogram_leaf b leaf s c gradient hessian out)
    as (parent & HP & HPl & HPo & _); try done.
  set (todo := leaf_pairs b leaf) in *.
  pose proof (filter_complement_length (marked left_indices) todo) as Hcount.
  rewrite <- HL, <- HR in Hcount.
  destruct (leaf_range b leaf s c Hs Hc Hlen) as (_ & Htodo & _).
  fold todo in Htodo.
  assert (HallL : Forall (fun p => (OrderedSparseBin.ridx p < length gradient)%nat /\
                     (OrderedSparseBin.ridx p < length hessian)%nat /\
                     (OrderedSparseBin.bin p < length out)%nat)
                    (leaf_pairs b' leaf)).
  { rewrite HL. apply Forall_forall. intros p Hp.
    apply list_elem_of_filter in Hp as [_ Hp].
    by apply (proj1 (Forall_forall _ _) Hall). }
  assert (HallR : Forall (fun p => (OrderedSparseBin.ridx p < length gradient)%nat /\
                     (OrderedSparseBin.ridx p < length hessian)%nat /\
                     (OrderedSparseBin.bin p < length out)%nat)
                    (leaf_pairs b' right_leaf)).
  { rewrite HR. apply Forall_forall. intros p Hp.
    apply list_elem_of_filter in Hp as [_ Hp].
    by apply (proj1 (Forall_forall _ _) Hall). }
  destruct (ConstructHistogram_leaf b' leaf s (length (leaf_pairs b' leaf))
              gradient hessian out)
    as (lp & HLp & HLl & HLo & _); try done; [lia|].
  destruct (ConstructHistogram_leaf b' right_leaf
              (s + length (leaf_pairs b' leaf))%nat
              (length (leaf_pairs b' right_leaf)) gradient hessian lp)
    as (both & HB & HBl & HBo & _); try done; [lia | by rewrite HLl |].
  exists b', parent, lp. split; [done|]. split; [done|]. split; [done|].
  rewrite HB. f_equal. apply list_eq. intros k.
  destruct (out !! k) as [e|] eqn:He.
  - rewrite (HBo k _ (HLo k e He)), (HPo k e He). f_equal.
    rewrite contribution_of_app. f_equal.
    apply contribution_of_perm.
    rewrite HL, HR. apply filter_app_complement.
  - apply lookup_ge_None in He.
    rewrite (proj2 (lookup_ge_None both k)) by lia.
    by rewrite (proj2 (lookup_ge_None parent k)) by lia.
Qed.

Lemma OrderedSparseBin_Init_correct_witness :
  exists b0,
    OrderedSparseBin.create Examples.sparse_delta Examples.sparse_vals = Ok b0 /\
    OrderedSparseBin.ordered_pair_ b0
    = [ {| OrderedSparseBin.ridx := 0; OrderedSparseBin.bin := 2 |};
        {| OrderedSparseBin.ridx := 3; OrderedSparseBin.bin := 1 |};
        {| OrderedSparseBin.ridx := 4; OrderedSparseBin.bin := 2 |} ]%nat.
Proof.
  destruct (OrderedSparseBin_Init_correct Examples.sparse_delta
              Examples.sparse_vals None 2) as (b0 & H1 & H2 & _).
  - simpl. lia.
  - lia.
  - intros used p [=].
  - exists b0. split; [exact H1 | exact H2].
Defined.

Lemma sparse_bin_all (p : OrderedSparseBin.SparsePair -> Prop) :
  p {| OrderedSparseBin.ridx := 0; OrderedSparseBin.bin := 2 |} ->
  p {| OrderedSparseBin.ridx := 3; OrderedSparseBin.bin := 1 |} ->
  p {| OrderedSparseBin.ridx := 4; OrderedSparseBin.bin := 2 |} ->
  Forall p (leaf_pairs Examples.sparse_bin 0).
Proof. intros. by repeat constructor. Qed.

Lemma OrderedSparseBin_Split_correct_witness :
  exists b',
    OrderedSparseBin.Split 0 1 Examples.sparse_mask Examples.sparse_bin = Ok b' /\
    leaf_pairs b' 0
    = filter (marked Examples.sparse_mask) (leaf_pairs Examples.sparse_bin 0).
Proof.
  destruct (OrderedSparseBin_Split_correct Examples.sparse_bin 0 1 0 3
              Examples.sparse_mask) as (b' & H1 & H2 & _).
  - reflexivity.
  - reflexivity.
  - simpl. lia.
  - simpl. lia.
  - simpl. lia.
  - lia.
  - apply sparse_bin_all; simpl; lia.
  - exists b'. split; [exact H1 | exact H2].
Defined.

Lemma OrderedSparseBin_ConstructHistogram_correct_witness :
  exists out',
    OrderedSparseBin.ConstructHistogram 0 Examples.ones Examples.ones
      Examples.empty_histogram Examples.sparse_bin = Ok out' /\
    length out' = 3%nat.
Proof.
  destruct (OrderedSparseBin_ConstructHistogram_correct Examples.sparse_bin 0 0 3
              Examples.ones Examples.ones Examples.empty_histogram)
    as (out' & H1 & H2 & _).
  - reflexivity.
  - reflexivity.
  - simpl. lia.
  - apply sparse_bin_all; simpl; lia.
  - exists out'. split; [exact H1 | exact H2].
Defined.

Lemma OrderedSparseBin_children_histograms_witness :
  exists b' parent left_part,
    OrderedSparseBin.Split 0 1 Examples.sparse_mask Examples.sparse_bin = Ok b' /\
    OrderedSparseBin.ConstructHistogram 0 Examples.ones Examples.ones
      Examples.empty_histogram Examples.sparse_bin = Ok parent /\
    OrderedSparseBin.ConstructHistogram 0 Examples.ones Examples.ones
      Examples.empty_histogram b' = Ok left_part /\
    OrderedSparseBin.ConstructHistogram 1 Examples.ones Examples.ones
      left_part b' = Ok parent.
Proof.
  apply (OrderedSparseBin_children_histograms Examples.sparse_bin 0 1 0 3).
  - reflexivity.
  - reflexivity.
  - simpl. lia.
  - simpl. lia.
  - simpl. lia.
  - lia.
  - apply sparse_bin_all; simpl; lia.
  - apply sparse_bin_all; simpl; lia.
Defined.
(** ** Rows of a dense matrix *)

Lemma row_major_from_spec {A} (emit : Z -> double -> A) (data : list double)
    (f : Z -> double) (offset : Z) :
  forall (n : nat) (i : Z),
    0 <= offset + i ->
    (forall k, 0 <= k < Z.of_nat n ->
               data !! Z.to_nat (offset + (i + k)) = Some (f (i + k))) ->
    CApi.row_major_from emit data offset i n
    = Ok ((fun k => emit (i + Z.of_nat k) (f (i + Z.of_nat k))) <$> seq 0 n).
Proof.
  induction n as [|n IH]; intros i Hi Hdata; [done|].
  cbn [CApi.row_major_from]. unfold read.
  destruct (Z.leb_spec 0 (offset + i)); [|lia].
  pose proof (Hdata 0 ltac:(lia)) as H0. rewrite Z.add_0_r in H0.
  rewrite H0. cbn [mbind result_bind].
  rewrite (IH (i + 1)); [|lia|].
  - cbn [mbind result_bind]. change (seq 0 (S n)) with (0%nat :: seq 1 n).
    rewrite fmap_cons, <- fmap_S_seq, <- list_fmap_compose.
    change (Z.of_nat 0) with 0. rewrite Z.add_0_r. do 2 f_equal.
    apply list_fmap_ext. intros _ k _. unfold compose.
    by replace (i + 1 + Z.of_nat k) with (i + Z.of_nat (S k)) by lia.
  - intros k Hk. replace (i + 1 + k) with (i + (k + 1)) by lia.
    apply Hdata. lia.
Qed.

Lemma col_major_from_spec {A} (emit : Z -> double -> A) (data : list double)
    (f : Z -> double) (num_row row_idx : Z) :
  forall (n : nat) (i : Z),
    0 <= num_row -> 0 <= row_idx -> 0 <= i ->
    num_row * (i + Z.of_nat n) <= INT_MAX ->
    (forall k, 0 <= k < Z.of_nat n ->
               data !! Z.to_nat (num_row * (i + k) + row_idx) = Some (f (i + k))) ->
    CApi.col_major_from emit data num_row row_idx i n
    = Ok ((fun k => emit (i + Z.of_nat k) (f (i + Z.of_nat k))) <$> seq 0 n).
Proof.
  induction n as [|n IH]; intros i Hr Hx Hi Hmax Hdata; [done|].
  cbn [CApi.col_major_from].
  assert (Hin : int_op (num_row * i) = Ok (num_row * i)).
  { unfold int_op, in_int, INT_MIN, INT_MAX in *.
    destruct (Z.leb_spec (-2147483648) (num_row * i)); [|nia].
    destruct (Z.leb_spec (num_row * i) 2147483647); [done|nia]. }
  rewrite Hin. cbn [mbind result_bind]. unfold read.
  destruct (Z.leb_spec 0 (num_row * i + row_idx)); [|nia].
  pose proof (Hdata 0 ltac:(lia)) as H0. rewrite Z.add_0_r in H0.
  rewrite H0. cbn [mbind result_bind].
  rewrite (IH (i + 1)); [| lia | lia | lia | |].
  - cbn [mbind result_bind]. change (seq 0 (S n)) with (0%nat :: seq 1 n).
    rewrite fmap_cons, <- fmap_S_seq, <- list_fmap_compose.
    change (Z.of_nat 0) with 0. rewrite Z.add_0_r. do 2 f_equal.
    apply list_fmap_ext. intros _ k _. unfold compose.
    by replace (i + 1 + Z.of_nat k) with (i + Z.of_nat (S k)) by lia.
  - replace (i + 1 + Z.of_nat n) with (i + Z.of_nat (S n)) by lia. done.
  - intros k Hk. replace (i + 1 + k) with (i + (k + 1)) by lia.
    apply Hdata. lia.
Qed.

Lemma last_value_columns (g : nat -> double) (j : nat) :
  forall (n a : nat),
    Predictor.last_value ((fun k => (Z.of_nat k, g k)) <$> seq a n) (Z.of_nat j)
    = if decide (a <= j < a + n)%nat then Some (g j) else None.
Proof.
  induction n as [|n IH]; intros a.
  - simpl. by rewrite decide_False by lia.
  - simpl. rewrite IH. destruct (decide (S a <= j < S a + n)%nat).
    + by rewrite decide_True by lia.
    + destruct (Z.eqb_spec (Z.of_nat a) (Z.of_nat j)) as [E|E].
      * apply Nat2Z.inj in E as ->. by rewrite decide_True by lia.
      * by rewrite decide_False by lia.
Qed.

(** X25.  The two accessors of a dense matrix return the rows of the
    matrix, whatever its layout: for a matrix of [num_row] rows and
    [num_col] columns stored row after row, or column after column, and a
    row below [num_row], [RowFunctionFromDenseMatric] returns the [num_col]
    values of the row and [RowPairFunctionFromDenseMatric] returns them with
    their columns, zeros included, so that the predictor's buffer filled
    from the pairs is the row itself.  A row that is not below [num_row]
    ends in the failed check. *)
Theorem DenseMatric_rows (M : Z -> Z -> double) (data_r data_c : list double)
    (num_row num_col : Z) (data_type : CApi.dtype) (is_row_major row_idx : Z) :
  data_type = CApi.dtype_float32 \/ data_type = CApi.dtype_float64 ->
  0 <= num_row -> 0 <= num_col -> num_row * num_col <= INT_MAX ->
  is_row_major <> 0 ->
  (forall r i, 0 <= r < num_row -> 0 <= i < num_col ->
               data_r !! Z.to_nat (num_col * r + i) = Some (M r i)) ->
  (forall r i, 0 <= r < num_row -> 0 <= i < num_col ->
               data_c !! Z.to_nat (num_row * i + r) = Some (M r i)) ->
  let row := (fun i => M row_idx (Z.of_nat i)) <$> seq 0 (Z.to_nat num_col) in
  let pairs := (fun i => (Z.of_nat i, M row_idx (Z.of_nat i)))
               <$> seq 0 (Z.to_nat num_col) in
  (0 <= row_idx < num_row ->
   CApi.RowFunctionFromDenseMatric data_r num_row num_col data_type
     is_row_major row_idx = Ok row /\
   CApi.RowFunctionFromDenseMatric data_c num_row num_col data_type 0 row_idx
   = Ok row /\
   CApi.RowPairFunctionFromDenseMatric data_r num_row num_col data_type
     is_row_major row_idx = Ok pairs /\
   CApi.RowPairFunctionFromDenseMatric data_c num_row num_col data_type 0
     row_idx = Ok pairs /\
   dense_row num_col pairs = row) /\
  (num_row <= row_idx ->
   forall data rm,
     CApi.RowFunctionFromDenseMatric data num_row num_col data_type rm row_idx
     = Fatal "Check failed: row_idx < num_row" /\
     CApi.RowPairFunctionFromDenseMatric data num_row num_col data_type rm
       row_idx = Fatal "Check failed: row_idx < num_row").
Proof.
  intros Htype Hr Hc Hmax Hrm Hdr Hdc row pairs. split.
  - intros Hrow.
    assert (Hoff : int_op (num_col * row_idx) = Ok (num_col * row_idx)).
    { unfold int_op, in_int, INT_MIN, INT_MAX in *.
      destruct (Z.leb_spec (-2147483648) (num_col * row_idx)); [|nia].
      destruct (Z.leb_spec (num_col * row_idx) 2147483647); [done|nia]. }
    assert (HRM : forall A (emit : Z -> double -> A),
              CApi.row_major_from emit data_r (num_col * row_idx) 0
                (Z.to_nat num_col)
              = Ok ((fun k => emit (Z.of_nat k) (M row_idx (Z.of_nat k)))
                    <$> seq 0 (Z.to_nat num_col))).
    { intros A emit.
      apply (row_major_from_spec emit data_r (M row_idx) (num_col * row_idx)
               (Z.to_nat num_col) 0); [nia|].
      intros k Hk. apply Hdr; lia. }
    assert (HCM : forall A (emit : Z -> double -> A),
              CApi.col_major_from emit data_c num_row row_idx 0
                (Z.to_nat num_col)
              = Ok ((fun k => emit (Z.of_nat k) (M row_idx (Z.of_nat k)))
                    <$> seq 0 (Z.to_nat num_col))).
    { intros A emit.
      apply (col_major_from_spec emit data_c (M row_idx) num_row row_idx
               (Z.to_nat num_col) 0); [lia | lia | lia | |].
      - rewrite Z2Nat.id by lia. lia.
      - intros k Hk. apply Hdc; lia. }
    unfold CApi.RowFunctionFromDenseMatric, CApi.RowPairFunctionFromDenseMatric.
    destruct (Z.ltb_spec row_idx num_row); [|lia].
    destruct (Z.eqb_spec is_row_major 0); [done|].
    cbn [negb Z.eqb]. rewrite Hoff. cbn [mbind result_bind].
    rewrite !HRM, !HCM.
    split; [by destruct Htype as [-> | ->]|].
    split; [by destruct Htype as [-> | ->]|].
    split; [by destruct Htype as [-> | ->]|].
    split; [by destruct Htype as [-> | ->]|].
    unfold dense_row, row, pairs. apply list_fmap_ext. intros idx j Hj.
    apply lookup_seq in Hj as [-> Hj]. change (0 + idx)%nat with idx.
    rewrite (last_value_columns (fun k => M row_idx (Z.of_nat k)) idx).
    by rewrite decide_True by lia.
  - intros Hrow data rm.
    unfold CApi.RowFunctionFromDenseMatric, CApi.RowPairFunctionFromDenseMatric.
    destruct (Z.ltb_spec row_idx num_row); [lia|].
    by destruct Htype as [-> | ->].
Qed.

Lemma DenseMatric_rows_witness :
  CApi.RowFunctionFromDenseMatric Examples.row_major_2x2 2 2 CApi.dtype_float64
    1 1 = Ok [Qc_of_Z 3; Qc_of_Z 4] /\
  CApi.RowFunctionFromDenseMatric Examples.col_major_2x2 2 2 CApi.dtype_float64
    0 1 = Ok [Qc_of_Z 3; Qc_of_Z 4].
Proof.
  destruct (DenseMatric_rows Examples.matrix_2x2 Examples.row_major_2x2
              Examples.col_major_2x2 2 2 CApi.dtype_float64 1 1) as [H _].
  - by right.
  - lia.
  - lia.
  - by vm_compute.
  - lia.
  - intros r i Hr Hi.
    assert (r = 0 \/ r = 1) as [-> | ->] by lia;
      (assert (i = 0 \/ i = 1) as [-> | ->] by lia); reflexivity.
  - intros r i Hr Hi.
    assert (r = 0 \/ r = 1) as [-> | ->] by lia;
      (assert (i = 0 \/ i = 1) as [-> | ->] by lia); reflexivity.
  - destruct (H ltac:(lia)) as (H1 & H2 & _). split; [exact H1 | exact H2].
Defined.
(** ** The multiclass objective *)

Lemma read_default {A} (a : list A) (i : Z) (d : A) :
  0 <= i < Z.of_nat (length a) -> read a i = Ok (default d (a !! Z.to_nat i)).
Proof.
  intros Hi. destruct (read_in_range a i Hi) as (x & -> & ->). done.
Qed.

Lemma apply_updates_snoc us u l :
  apply_updates (us ++ [u]) l = <[u.1 := u.2]> (apply_updates us l).
Proof. unfold apply_updates. by rewrite foldl_app. Qed.

Lemma apply_updates_app us1 us2 l :
  apply_updates (us1 ++ us2) l = apply_updates us2 (apply_updates us1 l).
Proof. unfold apply_updates. by rewrite foldl_app. Qed.

Lemma apply_updates_length us l : length (apply_updates us l) = length l.
Proof.
  induction us as [|u us IH] using rev_ind; [done|].
  by rewrite apply_updates_snoc, length_insert.
Qed.

Lemma apply_updates_other us l (p : nat) :
  (forall u, u ∈ us -> u.1 <> p) -> apply_updates us l !! p = l !! p.
Proof.
  induction us as [|u us IH] using rev_ind; intros Hne; [done|].
  rewrite apply_updates_snoc, list_lookup_insert_ne.
  - apply IH. intros u' Hu'. apply Hne. apply elem_of_app. by left.
  - apply Hne. apply elem_of_app. right. by apply list_elem_of_singleton.
Qed.

Lemma apply_updates_at us l (p : nat) (v : score_t) :
  (p < length l)%nat -> (exists u, u ∈ us /\ u.1 = p) ->
  (forall u, u ∈ us -> u.1 = p -> u.2 = v) ->
  apply_updates us l !! p = Some v.
Proof.
  intros Hp. induction us as [|u us IH] using rev_ind; intros Hex Hall.
  - destruct Hex as (u & Hu & _). by apply elem_of_nil in Hu.
  - rewrite apply_updates_snoc. destruct (decide (u.1 = p)) as [E|E].
    + rewrite E, list_lookup_insert_eq by (by rewrite apply_updates_length).
      f_equal. apply Hall; [|done]. apply elem_of_app. right.
      by apply list_elem_of_singleton.
    + rewrite list_lookup_insert_ne by done. apply IH.
      * destruct Hex as (u' & [Hu'|Hu']%elem_of_app & Hp').
        -- by exists u'.
        -- apply list_elem_of_singleton in Hu' as ->. done.
      * intros u' Hu'. apply Hall. apply elem_of_app. by left.
Qed.

Lemma class_updates_elem val o i (p : nat) (v : score_t) :
  forall n k, 0 <= k ->
    (p, v) ∈ class_updates val o i k n <->
    exists k', k <= k' < k + Z.of_nat n /\
      MulticlassSoftmax.is_empty_class_ o !! Z.to_nat k' <> Some true /\
      p = Z.to_nat (MulticlassSoftmax.num_data_ o * k' + i) /\ v = val i k'.
Proof.
  induction n as [|n IH]; intros k Hk; cbn [class_updates].
  - split; [by intros ?%elem_of_nil | intros (k' & ? & _); lia].
  - rewrite elem_of_app, (IH (k + 1)) by lia. split.
    + intros [H|(k' & Hk' & He & -> & ->)].
      * destruct (MulticlassSoftmax.is_empty_class_ o !! Z.to_nat k)
          as [[]|] eqn:E; simpl in H;
          try (by apply elem_of_nil in H);
          apply list_elem_of_singleton in H; injection H as -> ->;
          exists k; rewrite E; (split; [lia|]); by (split; [|split]).
      * exists k'. split; [lia|]. by split.
    + intros (k' & Hk' & He & -> & ->).
      destruct (decide (k' = k)) as [->|Hne].
      * left. destruct (MulticlassSoftmax.is_empty_class_ o !! Z.to_nat k)
          as [[]|]; simpl; try done; by apply list_elem_of_singleton.
      * right. exists k'. split; [lia|]. by split.
Qed.

Lemma row_updates_elem val o (p : nat) (v : score_t) :
  0 <= MulticlassSoftmax.num_class_ o ->
  forall n i,
    (p, v) ∈ row_updates val o i n <->
    exists i' k', i <= i' < i + Z.of_nat n /\
      0 <= k' < MulticlassSoftmax.num_class_ o /\
      MulticlassSoftmax.is_empty_class_ o !! Z.to_nat k' <> Some true /\
      p = Z.to_nat (MulticlassSoftmax.num_data_ o * k' + i') /\ v = val i' k'.
Proof.
  intros Hnc. induction n as [|n IH]; intros i; cbn [row_updates].
  - split; [by intros ?%elem_of_nil | intros (i' & k' & ? & _); lia].
  - rewrite elem_of_app, (IH (i + 1)), class_updates_elem by lia.
    rewrite Z2Nat.id by lia. split.
    + intros [(k' & Hk' & He & Hp & Hv)|(i' & k' & Hi' & Hk' & He & Hp & Hv)].
      * exists i, k'. split; [lia|]. split; [lia|]. by split.
      * exists i', k'. split; [lia|]. split; [lia|]. by split.
    + intros (i' & k' & Hi' & Hk' & He & Hp & Hv).
      destruct (decide (i' = i)) as [->|Hne].
      * left. exists k'. split; [lia|]. by split.
      * right. exists i', k'. split; [lia|]. split; [lia|]. by split.
Qed.

Lemma Softmax_vector (std_exp : double -> double) (rec : list double) :
  (forall x, (0 < std_exp x)%Qc) -> rec <> [] ->
  exists out,
    Common.Softmax std_exp rec = Ok out /\
    length out = length rec /\
    Forall (fun p => (0 < p)%Qc /\ (p <= 1)%Qc) out /\
    Qsum out = 1%Qc.
Proof.
  intros Hexp Hne. destruct rec as [|r0 rest]; [done|].
  unfold Common.Softmax. rewrite exp_sum_spec.
  set (wmax := foldl _ r0 rest).
  set (es := map (fun r => std_exp (r - wmax)%Qc) (r0 :: rest)).
  assert (Hes : Forall (fun x => 0 < x)%Qc es).
  { apply Forall_forall. intros x (r & -> & _)%list_elem_of_fmap. apply Hexp. }
  assert (Hw : (0 + Qsum es)%Qc = Qsum es) by ring.
  rewrite Hw.
  destruct (normalized_probabilities es Hes) as [Hp Hs]; [done|].
  eexists. split; [reflexivity|]. split; [|split; [exact Hp|exact Hs]].
  unfold es. by rewrite !length_map.
Qed.

Lemma collect_spec (score : list double) (nd i : Z) :
  0 <= nd -> 0 <= i ->
  forall (n : nat) (k : Z),
    0 <= k -> nd * (k + Z.of_nat n - 1) + i < Z.of_nat (length score) ->
    MulticlassSoftmax.collect score nd i k n
    = Ok ((fun j => default 0%Qc
                      (score !! Z.to_nat (nd * (k + Z.of_nat j) + i)))
          <$> seq 0 n).
Proof.
  intros Hnd Hi. induction n as [|n IH]; intros k Hk Hlen; [done|].
  cbn [MulticlassSoftmax.collect].
  rewrite (read_default score _ 0%Qc) by nia. cbn [mbind result_bind].
  rewrite (IH (k + 1)) by nia. cbn [mbind result_bind].
  change (seq 0 (S n)) with (0%nat :: seq 1 n).
  rewrite fmap_cons, <- fmap_S_seq, <- list_fmap_compose.
  change (Z.of_nat 0) with 0. rewrite Z.add_0_r. do 2 f_equal.
  apply list_fmap_ext. intros _ j _. unfold compose.
  by replace (k + 1 + Z.of_nat j) with (k + Z.of_nat (S j)) by lia.
Qed.

Lemma weighted_spec (o : MulticlassSoftmax.t) (score : list double) (i : Z)
    (x : double) :
  arrays_fit o score -> 0 <= i < MulticlassSoftmax.num_data_ o ->
  MulticlassSoftmax.weighted o i x = Ok (weighted_value o i x).
Proof.
  intros Hfit Hi. unfold MulticlassSoftmax.weighted, weighted_value.
  destruct (MulticlassSoftmax.weights_ o) as [ws|] eqn:E; [|done].
  rewrite (read_default ws i 0%Qc); [done|].
  rewrite (fit_weights _ _ Hfit ws E). lia.
Qed.

Lemma write_classes_spec (o : MulticlassSoftmax.t) (score probs : list double)
    (i : Z) (P : Z -> Z -> double) :
  arrays_fit o score -> 0 <= i < MulticlassSoftmax.num_data_ o ->
  Z.of_nat (length probs) = MulticlassSoftmax.num_class_ o ->
  (forall k, default 0%Qc (probs !! Z.to_nat k) = P i k) ->
  forall (n : nat) (k : Z) (gradients hessians : list score_t),
    0 <= k -> k + Z.of_nat n <= MulticlassSoftmax.num_class_ o ->
    length gradients = length score -> length hessians = length score ->
    MulticlassSoftmax.write_classes o score probs i k n gradients hessians
    = Ok (apply_updates
            (class_updates (fun i k => gradient_of o score i k (P i k)) o i k n)
            gradients,
          apply_updates
            (class_updates (fun i k => hessian_of o i (P i k)) o i k n)
            hessians).
Proof.
  intros Hfit Hi Hprobs HP.
  pose proof (fit_score _ _ Hfit) as Hscore.
  induction n as [|n IH]; intros k g h Hk Hkn Hg Hh; [done|].
  cbn [MulticlassSoftmax.write_classes class_updates].
  rewrite (read_default _ k false)
    by (rewrite (fit_empty _ _ Hfit); lia).
  cbn [mbind result_bind].
  destruct (default false (MulticlassSoftmax.is_empty_class_ o !! Z.to_nat k)).
  { simpl app. apply IH; [lia | lia | done | done]. }
  assert (Hidx : 0 <= MulticlassSoftmax.num_data_ o * k + i
                 < Z.of_nat (length score)) by nia.
  rewrite (read_default probs k 0%Qc) by lia. cbn [mbind result_bind].
  rewrite (read_default (MulticlassSoftmax.label_int_ o) i 0)
    by (rewrite (fit_label _ _ Hfit); lia).
  cbn [mbind result_bind].
  rewrite (read_default score _ 0%Qc) by done. cbn [mbind result_bind].
  rewrite !(weighted_spec o score) by done. cbn [mbind result_bind].
  rewrite write_in_range by lia. cbn [mbind result_bind].
  rewrite write_in_range by lia. cbn [mbind result_bind].
  rewrite (IH (k + 1)); [| lia | lia | by rewrite length_insert
                         | by rewrite length_insert].
  rewrite HP. unfold gradient_of, hessian_of. done.
Qed.

Lemma row_scores_collect (o : MulticlassSoftmax.t) (score : list double) (i : Z) :
  arrays_fit o score -> 0 <= i < MulticlassSoftmax.num_data_ o ->
  MulticlassSoftmax.collect score (MulticlassSoftmax.num_data_ o) i 0
    (Z.to_nat (MulticlassSoftmax.num_class_ o))
  = Ok (row_scores o score i).
Proof.
  intros Hfit Hi. pose proof (fit_classes _ _ Hfit).
  pose proof (fit_score _ _ Hfit).
  rewrite collect_spec; [done | lia | lia | lia |].
  rewrite Z2Nat.id by lia. nia.
Qed.

Lemma row_scores_Softmax (std_exp : double -> double) (o : MulticlassSoftmax.t)
    (score : list double) (i : Z) :
  (forall x, (0 < std_exp x)%Qc) -> arrays_fit o score ->
  exists probs,
    Common.Softmax std_exp (row_scores o score i) = Ok probs /\
    Z.of_nat (length probs) = MulticlassSoftmax.num_class_ o /\
    Forall (fun p => (0 < p)%Qc /\ (p <= 1)%Qc) probs /\
    Qsum probs = 1%Qc /\
    forall k, default 0%Qc (probs !! Z.to_nat k) = probability std_exp o score i k.
Proof.
  intros Hexp Hfit. pose proof (fit_classes _ _ Hfit).
  assert (Hlen : length (row_scores o score i)
                 = Z.to_nat (MulticlassSoftmax.num_class_ o))
    by (unfold row_scores; by rewrite length_fmap, length_seq).
  destruct (Softmax_vector std_exp (row_scores o score i) Hexp)
    as (probs & HS & HL & HF & HQ).
  { intros E. rewrite E in Hlen. simpl in Hlen. lia. }
  exists probs. split; [done|]. split; [lia|]. split; [done|]. split; [done|].
  intros k. unfold probability. by rewrite HS.
Qed.

Lemma rows_spec (std_exp : double -> double) (o : MulticlassSoftmax.t)
    (score : list double) :
  (forall x, (0 < std_exp x)%Qc) -> arrays_fit o score ->
  forall (n : nat) (i : Z) (gradients hessians : list score_t),
    0 <= i -> i + Z.of_nat n <= MulticlassSoftmax.num_data_ o ->
    length gradients = length score -> length hessians = length score ->
    MulticlassSoftmax.rows std_exp o score i n gradients hessians
    = Ok (apply_updates
            (row_updates (fun i k => gradient_of o score i k
                                       (probability std_exp o score i k)) o i n)
            gradients,
          apply_updates
            (row_updates (fun i k => hessian_of o i
                                       (probability std_exp o score i k)) o i n)
            hessians).
Proof.
  intros Hexp Hfit. pose proof (fit_classes _ _ Hfit) as Hnc.
  induction n as [|n IH]; intros i g h Hi Hin Hg Hh; [done|].
  cbn [MulticlassSoftmax.rows row_updates].
  rewrite row_scores_collect by (done || lia). cbn [mbind result_bind].
  destruct (row_scores_Softmax std_exp o score i Hexp Hfit)
    as (probs & HS & HL & _ & _ & HP).
  rewrite HS. cbn [mbind result_bind].
  rewrite (write_classes_spec o score probs i
             (fun i k => probability std_exp o score i k));
    [| done | lia | done | done | lia | lia | done | done].
  cbn [mbind result_bind].
  rewrite (IH (i + 1)); [| lia | lia | by rewrite apply_updates_length
                         | by rewrite apply_updates_length].
  by rewrite !apply_updates_app.
Qed.

Lemma Qcmult_nonneg (x y : Qc) : (0 <= x)%Qc -> (0 <= y)%Qc -> (0 <= x * y)%Qc.
Proof.
  intros Hx Hy. pose proof (Qcmult_le_compat_r 0 x y Hx Hy) as H.
  by rewrite Qcmult_0_l in H.
Qed.

Lemma Qcmult_pos (x y : Qc) : (0 < x)%Qc -> (0 < y)%Qc -> (0 < x * y)%Qc.
Proof.
  intros Hx Hy. pose proof (Qcmult_lt_compat_r 0 x y Hy Hx) as H.
  by rewrite Qcmult_0_l in H.
Qed.

Lemma index_inj (nd i k i' k' : Z) :
  0 <= i < nd -> 0 <= i' < nd -> 0 <= k -> 0 <= k' ->
  Z.to_nat (nd * k' + i') = Z.to_nat (nd * k + i) -> i' = i /\ k' = k.
Proof.
  intros Hi Hi' Hk Hk' E.
  assert (nd * k' + i' = nd * k + i) as E' by nia.
  assert (k' = k) by nia. split; nia.
Qed.

Lemma GetGradients_entries (std_exp : double -> double)
    (o : MulticlassSoftmax.t) (score : list double)
    (gradients hessians : list score_t) :
  (forall x, (0 < std_exp x)%Qc) -> arrays_fit o score ->
  length gradients = length score -> length hessians = length score ->
  exists g' h',
    MulticlassSoftmax.GetGradients std_exp o score gradients hessians
    = Ok (g', h') /\
    length g' = length gradients /\ length h' = length hessians /\
    forall i k,
      0 <= i < MulticlassSoftmax.num_data_ o ->
      0 <= k < MulticlassSoftmax.num_class_ o ->
      let idx := Z.to_nat (MulticlassSoftmax.num_data_ o * k + i) in
      exists probs p,
        Common.Softmax std_exp (row_scores o score i) = Ok probs /\
        Qsum probs = 1%Qc /\
        probs !! Z.to_nat k = Some p /\ (0 < p)%Qc /\ (p <= 1)%Qc /\
        (MulticlassSoftmax.is_empty_class_ o !! Z.to_nat k = Some true ->
         g' !! idx = gradients !! idx /\ h' !! idx = hessians !! idx) /\
        (MulticlassSoftmax.is_empty_class_ o !! Z.to_nat k = Some false ->
         g' !! idx = Some (gradient_of o score i k p) /\
         h' !! idx = Some (hessian_of o i p) /\
         ((0 <= MulticlassSoftmax.hessian_nor_ o)%Qc ->
          (0 < MulticlassSoftmax.softmax_weight_decay_ o)%Qc ->
          (0 < weighted_value o i 1)%Qc ->
          (0 < hessian_of o i p)%Qc)).
Proof.
  intros Hexp Hfit Hg Hh.
  pose proof (fit_classes _ _ Hfit) as Hnc.
  pose proof (fit_data _ _ Hfit) as Hnd.
  pose proof (fit_score _ _ Hfit) as Hscore.
  unfold MulticlassSoftmax.GetGradients.
  rewrite (rows_spec std_exp o score Hexp Hfit); [| lia | lia | done | done].
  eexists _, _. split; [reflexivity|].
  split; [apply apply_updates_length|]. split; [apply apply_updates_length|].
  intros i k Hi Hk.
  set (idx := Z.to_nat (MulticlassSoftmax.num_data_ o * k + i)).
  destruct (row_scores_Softmax std_exp o score i Hexp Hfit)
    as (probs & HS & HL & HF & HQ & HP).
  destruct (lookup_lt_is_Some_2 probs (Z.to_nat k)) as [p Hp]; [lia|].
  pose proof (proj1 (Forall_lookup _ _) HF _ _ Hp) as [Hp0 Hp1].
  assert (Hprob : probability std_exp o score i k = p)
    by (rewrite <- HP; unfold double in *; by rewrite Hp).
  exists probs, p. do 5 (split; [done|]). split.
  - intros He. split; apply apply_updates_other; intros [q v] Hu Hq;
      apply row_updates_elem in Hu as (i' & k' & Hi' & Hk' & He' & Hq' & _);
      try lia; simpl in Hq; subst q;
      (apply index_inj in Hq as [-> ->]; [|lia..]); done.
  - intros He.
    assert (Hidx : (idx < length score)%nat) by (unfold idx; nia).
    split; [|split].
    + apply apply_updates_at; [by rewrite Hg | |].
      * eexists (idx, _). split; [|done]. apply row_updates_elem; [lia|].
        exists i, k. split; [lia|]. split; [lia|]. split; [by rewrite He|].
        split; reflexivity.
      * intros [q v] Hu Hq.
        apply row_updates_elem in Hu as (i' & k' & Hi' & Hk' & He' & Hq' & Hv);
          [|lia].
        simpl in Hq. subst q. apply index_inj in Hq as [-> ->]; [|lia..].
        simpl. by rewrite Hv, Hprob.
    + apply apply_updates_at; [by rewrite Hh | |].
      * eexists (idx, _). split; [|done]. apply row_updates_elem; [lia|].
        exists i, k. split; [lia|]. split; [lia|]. split; [by rewrite He|].
        split; reflexivity.
      * intros [q v] Hu Hq.
        apply row_updates_elem in Hu as (i' & k' & Hi' & Hk' & He' & Hq' & Hv);
          [|lia].
        simpl in Hq. subst q. apply index_inj in Hq as [-> ->]; [|lia..].
        simpl. by rewrite Hv, Hprob.
    + intros Hhn Hd Hw. unfold hessian_of.
      assert (Hx : (0 < MulticlassSoftmax.hessian_nor_ o * p * (1 - p)
                        + MulticlassSoftmax.softmax_weight_decay_ o)%Qc).
      { rewrite Qcplus_comm. apply Qcplus_pos_nonneg; [done|].
        apply Qcmult_nonneg; [apply Qcmult_nonneg|].
        - done.
        - by apply Qclt_le_weak.
        - by apply Qcle_minus_iff in Hp1. }
      revert Hw. unfold weighted_value.
      destruct (MulticlassSoftmax.weights_ o) as [ws|]; [|done].
      rewrite Qcmult_1_l. intros Hw. by apply Qcmult_pos.
Qed.

(** X26.  [GetGradients] writes, for every row and every class that is not
    empty, the gradient and the hessian computed from the probability
    [Softmax] gives the class among the scores of the row: with weight [w]
    (1 without weights), decay [d], score [s] and probability [p], the
    gradient is [(p - 1 + d s) w] for the class of the label and
    [(p + d s) w] for the others, the hessian [(hessian_nor_ p (1 - p) + d) w],
    which is positive for a positive decay and weight.  The entries of an
    empty class are not written at all. *)
Theorem MulticlassSoftmax_GetGradients_correct (std_exp : double -> double)
    (o : MulticlassSoftmax.t) (score : list double)
    (gradients hessians : list score_t) :
  (forall x, (0 < std_exp x)%Qc) -> arrays_fit o score ->
  length gradients = length score -> length hessians = length score ->
  exists g' h',
    MulticlassSoftmax.GetGradients std_exp o score gradients hessians
    = Ok (g', h') /\
    length g' = length gradients /\ length h' = length hessians /\
    forall i k,
      0 <= i < MulticlassSoftmax.num_data_ o ->
      0 <= k < MulticlassSoftmax.num_class_ o ->
      let idx := Z.to_nat (MulticlassSoftmax.num_data_ o * k + i) in
      exists probs p,
        Common.Softmax std_exp (row_scores o score i) = Ok probs /\
        Qsum probs = 1%Qc /\
        probs !! Z.to_nat k = Some p /\ (0 < p)%Qc /\ (p <= 1)%Qc /\
        (MulticlassSoftmax.is_empty_class_ o !! Z.to_nat k = Some true ->
         g' !! idx = gradients !! idx /\ h' !! idx = hessians !! idx) /\
        (MulticlassSoftmax.is_empty_class_ o !! Z.to_nat k = Some false ->
         g' !! idx = Some (gradient_of o score i k p) /\
         h' !! idx = Some (hessian_of o i p) /\
         ((0 <= MulticlassSoftmax.hessian_nor_ o)%Qc ->
          (0 < MulticlassSoftmax.softmax_weight_decay_ o)%Qc ->
          (0 < weighted_value o i 1)%Qc ->
          (0 < hessian_of o i p)%Qc)).
Proof. apply GetGradients_entries. Qed.

Lemma softmax_objective_fit :
  arrays_fit Examples.softmax_objective Examples.zero_scores.
Proof.
  constructor; by vm_compute.
Qed.

Lemma MulticlassSoftmax_GetGradients_correct_witness :
  exists g' h',
    MulticlassSoftmax.GetGradients Examples.exp_like Examples.softmax_objective
      Examples.zero_scores Examples.zero_scores Examples.zero_scores
    = Ok (g', h') /\
    length g' = 4%nat /\ length h' = 4%nat.
Proof.
  destruct (MulticlassSoftmax_GetGradients_correct Examples.exp_like
              Examples.softmax_objective Examples.zero_scores
              Examples.zero_scores Examples.zero_scores)
    as (g' & h' & HE & Hg & Hh & _).
  - apply exp_like_pos.
  - apply softmax_objective_fit.
  - reflexivity.
  - reflexivity.
  - exists g', h'. split; [exact HE|]. split; [exact Hg | exact Hh].
Defined.

(** *** The gradients of a row *)

Lemma Qsum_plus {A} (f g : A -> Qc) (l : list A) :
  Qsum (map (fun x => f x + g x)%Qc l) = (Qsum (map f l) + Qsum (map g l))%Qc.
Proof.
  induction l as [|x l IH]; unfold Qsum in *; simpl; [ring|]. rewrite IH. ring.
Qed.

Lemma Qsum_scale_map {A} (f : A -> Qc) (a : Qc) (l : list A) :
  Qsum (map (fun x => f x * a)%Qc l) = (Qsum (map f l) * a)%Qc.
Proof.
  induction l as [|x l IH]; unfold Qsum in *; simpl; [ring|]. rewrite IH. ring.
Qed.

Lemma Qsum_lookups (l : list Qc) :
  Qsum (map (fun k => default 0%Qc (l !! k)) (seq 0 (length l))) = Qsum l.
Proof.
  induction l as [|x l IH]; [done|].
  simpl length. change (seq 0 (S (length l))) with (0%nat :: seq 1 (length l)).
  rewrite <- fmap_S_seq. unfold Qsum in *. simpl.
  rewrite <- IH. f_equal. by rewrite <- list_fmap_compose.
Qed.

Lemma Qsum_indicator (l : Z) (n : nat) (a : nat) :
  Qsum (map (fun k => if l =? Z.of_nat k then 1%Qc else 0%Qc) (seq a n))
  = if decide (Z.of_nat a <= l < Z.of_nat (a + n)) then 1%Qc else 0%Qc.
Proof.
  revert a. induction n as [|n IH]; intros a.
  - simpl. by rewrite decide_False by lia.
  - simpl seq. simpl map. change (Qsum (?x :: ?r)) with (x + Qsum r)%Qc.
    rewrite IH. destruct (Z.eqb_spec l (Z.of_nat a)).
    + rewrite decide_False by lia. rewrite decide_True by lia. ring.
    + destruct (decide (Z.of_nat (S a) <= l < Z.of_nat (S a + n))).
      * rewrite decide_True by lia. ring.
      * rewrite decide_False by lia. ring.
Qed.

(** X27.  Without weights and without an empty class, the gradients
    [GetGradients] writes for a row add up to the weight decay times the sum
    of the scores of the row: the probabilities of the classes and the 1 of
    the class of the label cancel. *)
Theorem MulticlassSoftmax_gradients_sum (std_exp : double -> double)
    (o : MulticlassSoftmax.t) (score : list double)
    (gradients hessians : list score_t) (i : Z) :
  (forall x, (0 < std_exp x)%Qc) -> arrays_fit o score ->
  length gradients = length score -> length hessians = length score ->
  MulticlassSoftmax.weights_ o = None ->
  Forall (fun e => e = false) (MulticlassSoftmax.is_empty_class_ o) ->
  Forall (fun l => 0 <= l < MulticlassSoftmax.num_class_ o)
    (MulticlassSoftmax.label_int_ o) ->
  0 <= i < MulticlassSoftmax.num_data_ o ->
  exists g' h',
    MulticlassSoftmax.GetGradients std_exp o score gradients hessians
    = Ok (g', h') /\
    Qsum (map (fun k => default 0%Qc
                          (g' !! Z.to_nat (MulticlassSoftmax.num_data_ o
                                           * Z.of_nat k + i)))
            (seq 0 (Z.to_nat (MulticlassSoftmax.num_class_ o))))
    = (MulticlassSoftmax.softmax_weight_decay_ o * Qsum (row_scores o score i))%Qc.
Proof.
  intros Hexp Hfit Hg Hh Hw Hne Hlab Hi.
  pose proof (fit_classes _ _ Hfit) as Hnc.
  destruct (GetGradients_entries std_exp o score gradients hessians)
    as (g' & h' & HE & _ & _ & Hentries); try done.
  exists g', h'. split; [done|].
  destruct (row_scores_Softmax std_exp o score i Hexp Hfit)
    as (probs & HS & HL & _ & HQ & _).
  destruct (lookup_lt_is_Some_2 (MulticlassSoftmax.label_int_ o) (Z.to_nat i))
    as [l Hl]; [rewrite <- (fit_label _ _ Hfit) in Hi; lia|].
  pose proof (proj1 (Forall_lookup _ _) Hlab _ _ Hl) as Hlr.
  set (d := MulticlassSoftmax.softmax_weight_decay_ o).
  rewrite (Qsum_ext _
             (fun k => (default 0%Qc (probs !! k)
                        + ((if l =? Z.of_nat k then - (1) else 0)
                           + default 0%Qc
                               (score !! Z.to_nat (MulticlassSoftmax.num_data_ o
                                                   * Z.of_nat k + i)) * d))%Qc)).
  - rewrite Qsum_plus, Qsum_plus, Qsum_scale_map.
    replace (Z.to_nat (MulticlassSoftmax.num_class_ o)) with (length probs) at 1
      by lia.
    rewrite Qsum_lookups, HQ.
    rewrite (Qsum_ext _ (fun k => ((if l =? Z.of_nat k then 1 else 0) * - (1))%Qc)).
    + rewrite Qsum_scale_map, Qsum_indicator. cbv beta in Hlr.
      rewrite decide_True by lia.
      change (Qsum (map (fun x : nat =>
                default 0%Qc
                  (score !! Z.to_nat (MulticlassSoftmax.num_data_ o
                                      * Z.of_nat x + i)))
              (seq 0 (Z.to_nat (MulticlassSoftmax.num_class_ o)))))
        with (Qsum (row_scores o score i)).
      generalize (Qsum (row_scores o score i)). intros S.
      unfold double in *. ring.
    + intros k _. destruct (l =? Z.of_nat k); ring.
  - intros k Hk. apply elem_of_seq in Hk.
    destruct (Hentries i (Z.of_nat k)) as (probs' & p & HS' & _ & Hp & _ & _ & _ & Hval);
      [lia | lia |].
    assert (probs' = probs) as -> by congruence.
    destruct Hval as (Hgv & _).
    { rewrite Nat2Z.id.
      destruct (lookup_lt_is_Some_2 (MulticlassSoftmax.is_empty_class_ o) k)
        as [e He]; [pose proof (fit_empty _ _ Hfit); lia|].
      rewrite He. f_equal.
      by apply (proj1 (Forall_lookup _ _) Hne _ _ He). }
    unfold double, score_t in *. rewrite Hgv. simpl.
    rewrite Nat2Z.id in Hp. rewrite Hp. simpl.
    unfold gradient_of, weighted_value. rewrite Hw, Hl. simpl. fold d.
    unfold double, score_t.
    generalize (default 0%Qc
                  (score !! Z.to_nat (MulticlassSoftmax.num_data_ o
                                      * Z.of_nat k + i))).
    clearbody d. generalize d p. clear. unfold double. intros d p s.
    destruct (l =? Z.of_nat k); ring.
Qed.

Lemma MulticlassSoftmax_gradients_sum_witness :
  exists g' h',
    MulticlassSoftmax.GetGradients Examples.exp_like Examples.softmax_objective
      Examples.zero_scores Examples.zero_scores Examples.zero_scores
    = Ok (g', h') /\
    Qsum (map (fun k => default 0%Qc
                          (g' !! Z.to_nat
                                   (MulticlassSoftmax.num_data_
                                      Examples.softmax_objective
                                    * Z.of_nat k + 0)))
            (seq 0 (Z.to_nat (MulticlassSoftmax.num_class_
                                Examples.softmax_objective))))
    = (MulticlassSoftmax.softmax_weight_decay_ Examples.softmax_objective
       * Qsum (row_scores Examples.softmax_objective Examples.zero_scores 0))%Qc.
Proof.
  apply (MulticlassSoftmax_gradients_sum Examples.exp_like
           Examples.softmax_objective Examples.zero_scores
           Examples.zero_scores Examples.zero_scores 0).
  - apply exp_like_pos.
  - apply softmax_objective_fit.
  - reflexivity.
  - reflexivity.
  - reflexivity.
  - repeat constructor.
  - repeat constructor; by vm_compute.
  - by vm_compute.
Defined.
